(* ===== verification/_CoqProject ===== *)
-Q . S2P
Prelude.v
Replacer.v
Log.v
BufferPool.v
BufferPoolInv.v
Lock.v
Key.v
Value.v
Meta.v
IxNode.v
IxTree.v
IxTreeInv.v
Heap.v
HeapInv.v
HeapScan.v
Txn.v
Exec.v
Operators.v
Sort.v
Dml.v
Recovery.v
