(* ===== verification/Prelude.v ===== *)
(** * A verification library for the RMDB storage and transaction core

    This development models, in Rocq, the storage and transaction core of
    the RMDB relational engine (sources under [src/src]) and proves the
    properties that make each part correct.  It is a shallow embedding:
    every C++ function that is modelled is a Rocq function of the same
    name, state is passed explicitly, and the C++ failure paths
    (exceptions, [nullptr] results, [false] returns) are values of an
    option or result type.

    ** Parts of the program, how they interact, and where each is modelled

    The files are listed in [_CoqProject] in dependency order; each one
    opens with a comment on what it holds.

    - [Prelude.v] (this file): the state-exception monad [stM] used by
      every stateful component and the error type [res], their
      notations ([let!], [;;], [let*]) in [rmdb_scope], the 32-bit
      wrap-around [wrap32], shared list and option lemmas and the hint
      database [rmdb].
    - [Replacer.v] ([replacer/lru_replacer.cpp]): the [Replacer]
      interface (victim / pin / unpin and their laws) the buffer pool is
      proved against, and [LRU], the instance modelling [LRUReplacer],
      with the theorem that the least recently unpinned frame is evicted.
    - [Log.v] ([recovery/log_manager.{h,cpp}]): the log record classes
      with their byte-level [serialize]/[deserialize] and its round
      trip; the [LogManager] (LSN counters, log buffer, log file) with
      [add_log_to_buffer], [flush_log_to_disk] and the
      [add_*_log_record] entry points; its buffer invariant, and that a
      flushed COMMIT record is durable.
    - [BufferPool.v], [BufferPoolInv.v]
      ([storage/buffer_pool_manager.cpp]): the frame array, page table,
      free list, replacer and disk image as a record, one function per
      method ([fetch_page], [unpin_page], [flush_page], [new_page],
      [delete_page], [flush_all_pages], with [find_victim_page] and
      [update_page]).  The frame invariant is preserved by every call
      sequence (a step relation and its reachable states), and the pool
      refines a plain map from page ids to contents ([view]), so
      caching, eviction and write-back are invisible to clients: each
      call is one step of [abs_step], which for [new_page] sets to
      empty exactly the page the disk manager numbers next.
    - [Lock.v] ([transaction/concurrency/lock_manager.cpp]): no-wait
      hierarchical two-phase locking; the lock table as a [gmap] of
      request queues, the six [lock_*] methods and [unlock].  Grants
      respect the IS/IX/S/SIX/X matrix and keep the queue invariant, a
      granted mode covers the requested one ([holds]), a call changes
      the table only at its own object ([lock_frame]), and refusals
      happen exactly in the shrinking phase or on a conflict.
    - [Key.v], [Value.v], [Meta.v]: the key order [ix_compare] (as a
      lexicographic order on integer ranks), the [Value] and [AgreValue]
      classes of [common/common.h] (raw encodings, 32-bit wrap-around
      aggregates), and the catalog of [system/sm_meta.h] with the
      print/read round trip of [db.meta].
    - [IxNode.v], [IxTree.v], [IxTreeInv.v]
      ([index/ix_index_handle.{h,cpp}]): node-level binary searches,
      insert and remove as sorted-map operations; the B+tree methods in
      a state-exception monad over the node store; its invariant and
      the refinement of [get_value] by the lookup in the leaf entries.
    - [Heap.v], [HeapInv.v], [HeapScan.v] ([record/rm_file_handle.cpp],
      [record/rm_scan.cpp]): slotted pages with a bitmap and the
      free-page hint set; insert, delete, update and get with their
      transactional side effects (record locks, write set, log
      records); the heap invariant, the refinement by a map from rids to
      records, and the scan as an enumeration of that map in rid order.
    - [Txn.v] ([transaction/transaction_manager.cpp]): [begin],
      [commit], [abort] and [rollback_writeRecord] over the catalog, the
      open heap and index files, the lock and the log managers.  Begin
      hands out a fresh id and keeps the ids below the counter, abort
      restores the records the write set changed, and commit and abort
      release exactly the transaction's locks.
    - [Exec.v], [Operators.v], [Sort.v] ([execution/]): the
      [AbstractExecutor] interface as the class [Executor] over each
      operator's state in a state-exception monad over the shared
      context; predicate evaluation; [SeqScanExecutor],
      [ProjectionExecutor], [NestedLoopJoinExecutor] and [SortExecutor].
      Drained to its end, a scan returns the records satisfying its
      conditions in rid order; a projection returns its child's records,
      each projected; a sort returns the first [limit] records of its
      child, stably sorted.  Projection and sort are proved for every
      child that meets the interface's laws ([ExecutorConst]).
    - [Dml.v] ([executor_insert.h], [executor_delete.h],
      [executor_update.h], with [SmManager::insert_rec],
      [do_pre_insert] and [insert_into_index]): the three DML executors,
      composed of the heap calls of [Heap.v] (run inside the running
      transaction's [Context]), the lock manager's table locks and the
      B+ tree's index calls.  The theorems: an INSERT and a DELETE by a
      transaction running alone change the table's records as a map
      insertion at a fresh rid and a removal, with their undo entries
      and log records, and leave the transaction holding the table in
      IX and the record in X (a DELETE of more than one rid: the table
      in X); the values [do_pre_insert] stores have their columns'
      types; [SET col = col + v] on INT wraps at 32 bits; and the
      UPDATE unique-index precheck refuses exactly the keys already in
      an index or repeated.  Two concrete runs ([Example]s) show what
      this means: an update that keeps a key is refused (the spec
      excludes the updated rows), and so are equal keys of two
      different indexes.
    - [Recovery.v] ([recovery/log_recovery.{h,cpp}]): the
      [RecoveryManager] with [analyze]/[parseLog], [is_record_stroed],
      [RedoLog]/[redo] and [UndoLog]/[undo], over the heap files of
      [Heap.v] reached through [Txn.v]'s [fhs_] and the log manager of
      [Log.v].  The tables are abstracted to one map from (table, rid)
      to record, and the log to the changes its writes make.  The
      theorems: [parseLog] reads back the records the log manager
      serialised and always returns; [redo] replays the log's writes
      and rebuilds the set of unfinished transactions; [undo] rolls
      their writes back, last first; composed, recovery of a log whose
      last transaction did not commit keeps exactly the work of the
      finished ones.  Because no page LSN is ever set (the code that
      sets one is under [ENABLE_LSN], which is undefined), redo applies
      every record again, and an INSERT that had reached the table file
      fails an assertion (a theorem and a concrete run).

    ** Fuel and bounds

    Loops whose termination depends on the data take a [nat] fuel and
    fail with an out-of-fuel error when it runs out; every theorem about
    such a loop states how much fuel is enough, so it also proves that
    the loop terminates: the B+tree descent needs fuel above the tree
    height (also for the index calls of [Txn.v] and [Dml.v]), the heap scan and [SeqScanExecutor] fuel above the number
    of records of the file, and the drain loops and [SortExecutor]'s
    child loop fuel above the number of tuples produced; [parseLog]
    takes one unit of fuel per byte of the log file plus one, enough
    since each record is at least one byte long.  C++ [int]
    values that can overflow are kept as [Z] with the 32-bit wrap
    written out ([wrap32]); [size_t] values wrap at 2^64
    ([Sort.to_size_t]).  Constants and types defined outside [src/]
    (page size, [INVALID_PAGE_ID], [INVALID_LSN], the disk manager,
    [RmPageHandle], [Context]) are modelled from the spec.

    ** Not modelled

    The SQL parser and lexer ([parser/]), the analyzer and the planner
    (pure translation of syntax to plans), the index rebuild that ends
    the recovery manager's [undo] (the DDL calls [drop_index] and
    [create_index] of [SmManager]), the index scan, hash join, block nested-loop
    join and aggregation executors, the disk manager's file I/O
    (only [allocate_page] and page read/write, from the spec), the
    network front end, and latch-level concurrency (mutexes,
    rw-latches, crabbing, which the build compiles out): each operation
    is one atomic step, as the process-wide mutexes make it. *)

From Stdlib Require Import ZArith Lia Strings.Byte.
From stdpp Require Import base list gmap.

Declare Scope rmdb_scope.
Delimit Scope rmdb_scope with rmdb.
Open Scope rmdb_scope.

(** ** Results of fallible operations

    A C++ method that may throw is modelled as a function into [res E A]:
    [Ok] carries the new state or value, [Err] the exception. *)
Inductive res (E A : Type) : Type :=
| Ok (a : A)
| Err (e : E).
Arguments Ok {E A} a.
Arguments Err {E A} e.

Definition res_bind {E A B} (m : res E A) (k : A -> res E B) : res E B :=
  match m with Ok a => k a | Err e => Err e end.

Notation "'let*' x ':=' m 'in' k" := (res_bind m (fun x => k))
  (at level 10, x pattern, m at level 100, k at level 200) : rmdb_scope.

Lemma res_bind_ok {E A B} (m : res E A) (k : A -> res E B) b :
  res_bind m k = Ok b -> exists a, m = Ok a /\ k a = Ok b.
Proof. destruct m; simpl; [eauto | discriminate]. Qed.

Lemma res_bind_err {E A B} (m : res E A) (k : A -> res E B) e :
  m = Err e -> res_bind m k = Err e.
Proof. intros ->. reflexivity. Qed.

(** ** Stateful computations that may throw

    A C++ method that updates an object and may throw is a function
    from the state to its result and the state reached, so a [catch]
    (and a client) sees the partial update the method made before it
    threw. *)
Definition stM (S E A : Type) : Type := S -> res E A * S.

Definition ret {S E A} (a : A) : stM S E A := fun s => (Ok a, s).
Definition throw {S E A} (e : E) : stM S E A := fun s => (Err e, s).

Definition bindM {S E A B} (m : stM S E A) (k : A -> stM S E B) : stM S E B := fun s =>
  match m s with
  | (Ok a, s') => k a s'
  | (Err e, s') => (Err e, s')
  end.

(** [try { m } catch (...) { h }] for the exceptions [catchable] selects. *)
Definition catchM {S E A} (catchable : E -> bool) (m h : stM S E A) : stM S E A := fun s =>
  match m s with
  | (Err e, s') => if catchable e then h s' else (Err e, s')
  | r => r
  end.

Definition gets {S E A} (f : S -> A) : stM S E A := fun s => (Ok (f s), s).
Definition modify {S E} (f : S -> S) : stM S E unit := fun s => (Ok tt, f s).

Notation "'let!' x ':=' m 'in' k" := (bindM m (fun x => k))
  (at level 10, x pattern, m at level 100, k at level 200) : rmdb_scope.
Notation "m ;; k" := (bindM m (fun _ => k)) (at level 100, right associativity) : rmdb_scope.

Lemma bindM_ok {S E A B} (m : stM S E A) (k : A -> stM S E B) s a s' :
  m s = (Ok a, s') -> bindM m k s = k a s'.
Proof. unfold bindM. by intros ->. Qed.

Lemma bindM_ret {S E A B} (a : A) (k : A -> stM S E B) : bindM (ret a) k = k a.
Proof. reflexivity. Qed.

(** [for (x : l) f(x);] *)
Fixpoint iterM {S E A} (l : list A) (f : A -> stM S E unit) : stM S E unit :=
  match l with
  | [] => ret tt
  | x :: l' => f x ;; iterM l' f
  end.

Lemma bindM_err {S E A B} (m : stM S E A) (k : A -> stM S E B) s e s' :
  m s = (Err e, s') -> bindM m k s = (Err e, s').
Proof. unfold bindM. by intros ->. Qed.

(** ** Machine integers *)

Open Scope Z_scope.

(** Two's complement wrap-around of a C++ [int] (32 bits). *)
Definition wrap32 (z : Z) : Z := (z + 2 ^ 31) mod 2 ^ 32 - 2 ^ 31.

Definition in_int32 (z : Z) : Prop := - 2 ^ 31 <= z < 2 ^ 31.

Lemma wrap32_range z : in_int32 (wrap32 z).
Proof.
  unfold wrap32, in_int32.
  pose proof (Z.mod_pos_bound (z + 2 ^ 31) (2 ^ 32) ltac:(lia)). lia.
Qed.

Lemma wrap32_id z : in_int32 z -> wrap32 z = z.
Proof.
  unfold wrap32, in_int32. intros H.
  rewrite Z.mod_small by lia. lia.
Qed.

Lemma wrap32_add_wrap a b : wrap32 (wrap32 a + b) = wrap32 (a + b).
Proof.
  unfold wrap32. f_equal.
  replace ((a + 2 ^ 31) mod 2 ^ 32 - 2 ^ 31 + b + 2 ^ 31)
    with ((a + 2 ^ 31) mod 2 ^ 32 + b) by lia.
  rewrite Z.add_mod_idemp_l by lia. f_equal. lia.
Qed.

Close Scope Z_scope.

(** ** Shared data of [defs.h] *)

(** Raw bytes ([char] buffers), compared bytewise. *)
#[export] Instance byte_eq_dec : EqDecision Byte.byte := Byte.byte_eq_dec.

(** [struct Rid]: a record locator (page number, slot number), compared
    field by field. *)
(** [INVALID_PAGE_ID] of [config.h] (outside [src/]), shared by the
    buffer pool and the index. *)
Definition INVALID_PAGE_ID : Z := -1.

Record Rid := mkRid { page_no : Z; slot_no : Z }.

#[export] Instance Rid_eq_dec : EqDecision Rid.
Proof. solve_decision. Defined.

#[export] Instance Rid_countable : Countable Rid.
Proof.
  apply (inj_countable' (fun r => (page_no r, slot_no r))
                        (fun p => mkRid p.1 p.2)).
  by intros [].
Defined.

(** [operator<] on [Rid]: lexicographic. *)
Definition Rid_lt (r1 r2 : Rid) : bool :=
  if decide (page_no r1 <> page_no r2) then Z.ltb (page_no r1) (page_no r2)
  else Z.ltb (slot_no r1) (slot_no r2).

(** ** Tactics *)

(** Split every [if]/[match] on a decidable test in the goal. *)
Ltac rmdb_case :=
  repeat match goal with
  | |- context [if decide ?P then _ else _] => case_decide
  | |- context [match ?x with _ => _ end] =>
      lazymatch x with
      | context [match _ with _ => _ end] => fail
      | _ => destruct x eqn:?
      end
  end.

(** Reduce [Some x ≫= f] to [f x] without unfolding anything else. *)
Ltac simpl_bind :=
  repeat match goal with
  | |- context [Some ?x ≫= ?f] => change (Some x ≫= f) with (f x); cbv beta iota
  end.

(** Invert an [Ok]/[Err]/[Some] equation between constructors. *)
Ltac inv_res :=
  repeat match goal with
  | H : Ok _ = Ok _ |- _ => injection H as H
  | H : Err _ = Err _ |- _ => injection H as H
  | H : Ok _ = Err _ |- _ => discriminate H
  | H : Err _ = Ok _ |- _ => discriminate H
  | H : Some _ = Some _ |- _ => injection H as H
  | H : Some _ = None |- _ => discriminate H
  | H : None = Some _ |- _ => discriminate H
  end; subst.

(** ** Generic list lemmas shared by the components *)

Section lists.
Context {A : Type} `{EqDecision A}.

(** [std::list::erase] of the first occurrence, as [LRUlist_.erase]
    and [lock_reqs.erase] do it. *)
Fixpoint remove_first (x : A) (l : list A) : list A :=
  match l with
  | [] => []
  | y :: l' => if decide (x = y) then l' else y :: remove_first x l'
  end.

Lemma remove_first_notin x l : x ∉ l -> remove_first x l = l.
Proof.
  induction l as [|y l IH]; simpl; [done|].
  intros Hn. rewrite decide_False by set_solver. f_equal. set_solver.
Qed.

Lemma elem_of_remove_first x y l :
  NoDup l -> y ∈ remove_first x l <-> y ∈ l /\ y <> x.
Proof.
  induction l as [|z l IH]; simpl; intros Hnd; [set_solver|].
  apply NoDup_cons in Hnd as [Hz Hnd].
  case_decide; subst; [set_solver|].
  rewrite !elem_of_cons, IH by done. naive_solver.
Qed.

Lemma NoDup_remove_first x l : NoDup l -> NoDup (remove_first x l).
Proof.
  induction l as [|z l IH]; simpl; intros Hnd; [done|].
  apply NoDup_cons in Hnd as [Hz Hnd].
  case_decide; [done|]. constructor; [|by apply IH].
  rewrite elem_of_remove_first by done. naive_solver.
Qed.

Lemma length_remove_first x l :
  x ∈ l -> length (remove_first x l) = pred (length l).
Proof.
  induction l as [|z l IH]; simpl; [set_solver|].
  intros Hin. case_decide; [done|].
  simpl. rewrite IH by set_solver.
  destruct l; [set_solver|done].
Qed.

(** [list::back] followed by [list::pop_back]. *)
Fixpoint pop_back (l : list A) : option (A * list A) :=
  match l with
  | [] => None
  | [x] => Some (x, [])
  | x :: l' =>
      match pop_back l' with
      | Some (y, r) => Some (y, x :: r)
      | None => None
      end
  end.

Lemma pop_back_app_singleton l y : pop_back (l ++ [y]) = Some (y, l).
Proof.
  induction l as [|x [|z l] IH]; simpl in *; [done|done|].
  by rewrite IH.
Qed.

Lemma pop_back_cons_cons x z l :
  pop_back (x :: z :: l) =
    match pop_back (z :: l) with
    | Some (y, r) => Some (y, x :: r)
    | None => None
    end.
Proof. reflexivity. Qed.

Lemma pop_back_Some l y r : pop_back l = Some (y, r) <-> l = r ++ [y].
Proof.
  split; [|intros ->; apply pop_back_app_singleton].
  revert r. induction l as [|x [|z l] IH]; intros r H; [done| |].
  - simpl in H. by inv_res.
  - rewrite pop_back_cons_cons in H.
    destruct (pop_back (z :: l)) as [[y' r']|] eqn:E; [|done].
    inv_res. simpl. f_equal. by apply IH.
Qed.

Lemma pop_back_None l : pop_back l = None <-> l = [].
Proof.
  split; [|by intros ->].
  destruct l as [|x l] using rev_ind; [done|].
  by rewrite pop_back_app_singleton.
Qed.

Lemma existsb_Exists (f : A -> bool) (l : list A) : existsb f l = true <-> Exists (fun x => f x = true) l.
Proof. induction l as [|x l IH]; cbn; [split; [done|inversion 1]|]. by rewrite orb_true_iff, Exists_cons, IH. Qed.

(** [std::find_if] on a list: the element found is the head of the
    filtered list. *)
Lemma list_find_head (P : A -> Prop) `{!forall x, Decision (P x)} l :
  snd <$> list_find P l = head (filter P l).
Proof.
  induction l as [|x l IH]; [done|]. cbn [list_find]. rewrite filter_cons.
  case_decide; [done|]. rewrite <- IH. by destruct (list_find P l).
Qed.

(** A filter over an integer range resumes after the element it found. *)
Lemma filter_seqZ_resume (P : Z -> Prop) `{!forall x, Decision (P x)} (a m i : Z) rest :
  filter P (seqZ a m) = i :: rest -> (a <= i < a + m)%Z /\ filter P (seqZ (i + 1) (a + m - (i + 1)))%Z = rest.
Proof.
  remember (Z.to_nat m) as k eqn:Hk. revert a m Hk.
  induction k as [|k IH]; intros a m Hk.
  - by rewrite seqZ_nil by lia.
  - rewrite seqZ_cons by lia. rewrite filter_cons. case_decide.
    + intros [= <- <-]. split; [lia|]. by replace (a + m - (a + 1))%Z with (Z.pred m) by lia.
    + intros (? & E)%(IH (Z.succ a) (Z.pred m)); [|lia]. split; [lia|].
      rewrite <- E. by replace (Z.succ a + Z.pred m)%Z with (a + m)%Z by lia.
Qed.
End lists.

(** ** Automation *)

Create HintDb rmdb discriminated.
Create Rewrite HintDb rmdb_rw.
#[export] Hint Resolve NoDup_remove_first wrap32_range : rmdb.
#[export] Hint Rewrite @remove_first_notin using (by auto) : rmdb_rw.

