(* ===== verification/Replacer.v ===== *)
(** * The page replacer: [replacer/replacer.h] and [replacer/lru_replacer.cpp]

    The buffer pool sees its replacer only through three calls: [victim]
    picks and removes an evictable frame, [pin] makes a frame
    unevictable, [unpin] makes it evictable.  The class [Replacer] below
    is that interface, with the set of evictable frames [rp_frames] as
    its abstract state, and [ReplacerLaws] the contract the buffer pool
    relies on.  Module [LRU] models [LRUReplacer] ([LRUlist_] with
    [LRUhash_] as its membership index) and discharges the contract; its
    own theorems show the eviction order is least recently unpinned
    first. *)

From stdpp Require Import base list sets.
From S2P Require Import Prelude.

(** [frame_id_t]: an index into the buffer pool's frame array. *)
Abbreviation frame_id := nat.

Class Replacer (R : Type) := {
  rp_victim : R -> option (frame_id * R);
  rp_pin : frame_id -> R -> R;
  rp_unpin : frame_id -> R -> R;
  rp_frames : R -> list frame_id;
  rp_wf : R -> Prop
}.

(** What the buffer pool needs from any replacer. *)
Class ReplacerLaws (R : Type) `{Replacer R} := {
  rp_victim_None r : rp_wf r -> rp_victim r = None <-> rp_frames r = [];
  rp_victim_Some r f r' : rp_wf r -> rp_victim r = Some (f, r') ->
    f ∈ rp_frames r /\ rp_wf r' /\
    (forall g, g ∈ rp_frames r' <-> g ∈ rp_frames r /\ g <> f);
  rp_pin_spec f r : rp_wf r -> rp_wf (rp_pin f r) /\
    (forall g, g ∈ rp_frames (rp_pin f r) <-> g ∈ rp_frames r /\ g <> f);
  rp_unpin_spec f r : rp_wf r -> rp_wf (rp_unpin f r) /\
    (forall g, g ∈ rp_frames (rp_unpin f r) <-> g = f \/ g ∈ rp_frames r)
}.

Module LRU.

(** [LRUReplacer]: [LRUlist_] holds the evictable frames, most recently
    unpinned at the front; [LRUhash_] maps each of them to its list
    node, so "[LRUhash_.find(f) != end()]" is membership in the list. *)
Record LRUReplacer := mkLRU { LRUlist_ : list frame_id }.

(** [LRUReplacer(size_t num_pages)]: an empty list. *)
Definition create : LRUReplacer := mkLRU [].

(** [LRUReplacer::victim]: take the back of the list. *)
Definition victim (r : LRUReplacer) : option (frame_id * LRUReplacer) :=
  match LRUlist_ r with
  | [] => None
  | l => match pop_back l with
         | Some (f, l') => Some (f, mkLRU l')
         | None => None
         end
  end.

(** [LRUReplacer::pin]: erase the frame if it is in the list. *)
Definition pin (f : frame_id) (r : LRUReplacer) : LRUReplacer :=
  if decide (f ∈ LRUlist_ r) then
    match LRUlist_ r with
    | [] => r
    | l => mkLRU (remove_first f l)
    end
  else r.

(** [LRUReplacer::unpin]: push the frame at the front unless present. *)
Definition unpin (f : frame_id) (r : LRUReplacer) : LRUReplacer :=
  if decide (f ∉ LRUlist_ r) then mkLRU (f :: LRUlist_ r) else r.

(** The hash and the list index the same frames once each. *)
Definition lru_wf (r : LRUReplacer) : Prop := NoDup (LRUlist_ r).

#[export] Instance lru_replacer : Replacer LRUReplacer := {
  rp_victim := victim;
  rp_pin := pin;
  rp_unpin := unpin;
  rp_frames := LRUlist_;
  rp_wf := lru_wf
}.

Lemma victim_pop_back r :
  victim r = match pop_back (LRUlist_ r) with
             | Some (f, l') => Some (f, mkLRU l')
             | None => None
             end.
Proof. destruct r as [[|x l]]; reflexivity. Qed.

Lemma victim_Some_iff r f r' :
  victim r = Some (f, r') <-> LRUlist_ r = LRUlist_ r' ++ [f].
Proof.
  rewrite victim_pop_back. destruct r' as [l'].
  destruct (pop_back (LRUlist_ r)) as [[g lg]|] eqn:Ep.
  - apply pop_back_Some in Ep. rewrite Ep. simpl.
    split; [intros H; by injection H as -> ->|].
    intros Heq. apply app_inj_tail in Heq as [-> ->]. done.
  - apply pop_back_None in Ep. rewrite Ep. simpl.
    split; [done|]. intros H. destruct l'; discriminate H.
Qed.

Lemma pin_frames f r :
  LRUlist_ (pin f r) = remove_first f (LRUlist_ r).
Proof.
  destruct r as [l]. unfold pin; simpl.
  case_decide; [destruct l; done|]. by rewrite remove_first_notin.
Qed.

#[export] Instance lru_laws : ReplacerLaws LRUReplacer.
Proof.
  split; simpl.
  - intros r _. rewrite victim_pop_back.
    destruct (pop_back (LRUlist_ r)) as [[? ?]|] eqn:Ep.
    + apply pop_back_Some in Ep. rewrite Ep. split; [done|].
      intros H. destruct l; discriminate H.
    + by apply pop_back_None in Ep.
  - intros r f r' Hwf Hv. apply victim_Some_iff in Hv.
    unfold lru_wf in *. rewrite Hv in Hwf |- *.
    apply NoDup_app in Hwf as (Hnd & Hdisj & _).
    split; [set_solver|]. split; [done|].
    intros g. specialize (Hdisj g). set_solver.
  - intros f r Hwf. unfold lru_wf in *. rewrite pin_frames.
    split; [by apply NoDup_remove_first|].
    intros g. by rewrite elem_of_remove_first.
  - intros f [l] Hwf. unfold unpin, lru_wf in *; simpl in *.
    case_decide; simpl; [split; [by constructor|set_solver]|].
    split; [done|]. intros g. split; [auto|]. intros [->|]; [|done].
    destruct (decide (f ∈ l)); [done|contradiction].
Qed.

(** A sequence of unpins, as the buffer pool issues them. *)
Definition unpins (fs : list frame_id) (r : LRUReplacer) : LRUReplacer :=
  foldl (fun r f => unpin f r) r fs.

Lemma unpins_fresh fs r :
  NoDup fs -> (forall f, f ∈ fs -> f ∉ LRUlist_ r) ->
  LRUlist_ (unpins fs r) = reverse fs ++ LRUlist_ r.
Proof.
  revert r. induction fs as [|f fs IH]; intros r Hnd Hfresh; [done|].
  apply NoDup_cons in Hnd as [Hf Hnd]. unfold unpins; simpl.
  assert (unpin f r = mkLRU (f :: LRUlist_ r)) as ->.
  { unfold unpin. rewrite decide_True; [done|]. apply Hfresh. set_solver. }
  fold (unpins fs (mkLRU (f :: LRUlist_ r))).
  rewrite IH by (done || (intros g Hg; simpl; specialize (Hfresh g); set_solver)).
  rewrite reverse_cons, <- app_assoc. done.
Qed.

(** C35: Eviction order: after distinct frames [f :: fs] are
    unpinned into an empty replacer, the victim is [f], the frame that
    was unpinned first, and the others stay in recency order. *)
Lemma lru_victim_oldest f fs :
  NoDup (f :: fs) ->
  victim (unpins (f :: fs) create) = Some (f, mkLRU (reverse fs)).
Proof.
  intros Hnd. apply victim_Some_iff.
  rewrite unpins_fresh by (done || set_solver). simpl.
  by rewrite reverse_cons, app_nil_r.
Qed.

(** Unpinning a fresh frame never changes which frame is the victim of
    a non-empty replacer: the new frame goes to the most-recent end. *)
Lemma lru_unpin_keeps_victim f r g r' :
  f ∉ LRUlist_ r -> victim r = Some (g, r') ->
  victim (unpin f r) = Some (g, unpin f r').
Proof.
  intros Hf Hv. apply victim_Some_iff in Hv. apply victim_Some_iff.
  assert (f ∉ LRUlist_ r') by (rewrite Hv in Hf; set_solver).
  unfold unpin. rewrite decide_True by done. rewrite decide_True by done.
  simpl. by rewrite Hv.
Qed.

(** Three frames unpinned in the order 4, 2, 7: frame 4 is evicted first. *)
Lemma lru_victim_oldest_witness :
  NoDup [4; 2; 7] /\
  victim (unpins [4; 2; 7] create) = Some (4, mkLRU (reverse [2; 7])).
Proof.
  assert (H : NoDup [4; 2; 7]) by (repeat constructor; set_solver).
  split; [exact H | exact (lru_victim_oldest 4 [2; 7] H)].
Defined.

End LRU.
