(* ===== verification/Log.v ===== *)
(** * Write-ahead log records and the log manager: [recovery/log_manager.{h,cpp}]

    Log records are the class hierarchy of [log_manager.h] ([LogRecord]
    and its [Begin]/[Commit]/[Abort]/[Insert]/[Delete]/[Update]
    subclasses): a common header and a payload whose layout depends on
    the type.  [serialize] and [deserialize] are the byte-level
    [serialize]/[deserialize] methods, with C++ [int]s as 4 little-endian
    bytes and [size_t] as 8 ([coqutil]'s [le_split]/[le_combine]).  The
    [LogManager] record holds the LSN counters, the log buffer and the
    log file; its operations are [get_new_lsn], [add_log_to_buffer],
    [flush_log_to_disk] and the [add_*_log_record] entry points. *)

From Stdlib Require Import ZArith Lia.
From stdpp Require Import base list.
From coqutil Require Import Word.LittleEndianList.
From S2P Require Import Prelude.

Open Scope Z_scope.

Abbreviation bytes := (list Byte.byte).

(** ** Fixed-width encodings *)

(** A C++ [int] (or the [int]-sized enum [LogType]) as stored by [memcpy]. *)
Definition int_bytes (z : Z) : bytes := le_split 4 z.
(** A [size_t]. *)
Definition size_t_bytes (z : Z) : bytes := le_split 8 z.

(** Reading an [int] back: the unsigned value reinterpreted as signed. *)
Definition int_of_bytes (bs : bytes) : Z :=
  let u := le_combine bs in if u <? 2 ^ 31 then u else u - 2 ^ 32.

Lemma int_of_bytes_int_bytes z : in_int32 z -> int_of_bytes (int_bytes z) = z.
Proof.
  unfold in_int32, int_of_bytes, int_bytes. intros H.
  rewrite le_combine_split. change (Z.of_nat 4 * 8) with 32.
  destruct (Z.leb_spec 0 z).
  - rewrite Z.mod_small by lia. destruct (Z.ltb_spec z (2 ^ 31)); lia.
  - rewrite <- (Z.mod_add z 1 (2 ^ 32)) by lia. rewrite Z.mod_small by lia.
    destruct (Z.ltb_spec (z + 1 * 2 ^ 32) (2 ^ 31)); lia.
Qed.

Lemma le_combine_size_t z : 0 <= z < 2 ^ 64 -> le_combine (size_t_bytes z) = z.
Proof.
  intros H. unfold size_t_bytes. rewrite le_combine_split.
  apply Z.mod_small. change (Z.of_nat 8 * 8) with 64. lia.
Qed.

(** ** A small parser over byte strings *)

Abbreviation parser A := (bytes -> option (A * bytes)).

Definition parse_bytes (n : nat) : parser bytes := fun s =>
  if decide (n <= length s)%nat then Some (take n s, drop n s) else None.

Definition parse_int : parser Z := fun s =>
  '(b, s') ← parse_bytes 4 s; Some (int_of_bytes b, s').

(** A [uint32_t] ([log_tot_len_]). *)
Definition parse_uint : parser Z := fun s =>
  '(b, s') ← parse_bytes 4 s; Some (le_combine b, s').

Definition parse_size_t : parser Z := fun s =>
  '(b, s') ← parse_bytes 8 s; Some (le_combine b, s').

Lemma parse_bytes_app (b rest : bytes) :
  parse_bytes (length b) (b ++ rest) = Some (b, rest).
Proof.
  unfold parse_bytes. rewrite decide_True by (rewrite length_app; lia).
  by rewrite take_app_length, drop_app_length.
Qed.

Lemma parse_int_app z rest :
  in_int32 z -> parse_int (int_bytes z ++ rest) = Some (z, rest).
Proof.
  intros Hz. unfold parse_int.
  rewrite <- (length_le_split 4 z) at 1. fold (int_bytes z).
  rewrite parse_bytes_app. simpl. by rewrite int_of_bytes_int_bytes.
Qed.

Lemma parse_uint_app z rest :
  0 <= z < 2 ^ 32 -> parse_uint (int_bytes z ++ rest) = Some (z, rest).
Proof.
  intros Hz. unfold parse_uint.
  rewrite <- (length_le_split 4 z) at 1. fold (int_bytes z).
  rewrite parse_bytes_app. simpl. unfold int_bytes.
  rewrite le_combine_split, Z.mod_small by (simpl; lia). done.
Qed.

Lemma parse_size_t_app z rest :
  0 <= z < 2 ^ 64 -> parse_size_t (size_t_bytes z ++ rest) = Some (z, rest).
Proof.
  intros Hz. unfold parse_size_t.
  rewrite <- (length_le_split 8 z) at 1. fold (size_t_bytes z).
  rewrite parse_bytes_app. simpl. by rewrite le_combine_size_t.
Qed.

(** ** Log records *)

(** [enum LogType]. *)
Inductive LogType :=
| UPDATE | INSERT | DELETE | begin | commit | ABORT | IX_INSERT | IX_DELETE.

#[export] Instance LogType_eq_dec : EqDecision LogType.
Proof. solve_decision. Defined.

Definition LogType_to_Z (t : LogType) : Z :=
  match t with
  | UPDATE => 0 | INSERT => 1 | DELETE => 2 | begin => 3
  | commit => 4 | ABORT => 5 | IX_INSERT => 6 | IX_DELETE => 7
  end.

Definition LogType_of_Z (z : Z) : option LogType :=
  match z with
  | 0 => Some UPDATE | 1 => Some INSERT | 2 => Some DELETE | 3 => Some begin
  | 4 => Some commit | 5 => Some ABORT | 6 => Some IX_INSERT
  | 7 => Some IX_DELETE | _ => None
  end.

Lemma LogType_of_to_Z t : LogType_of_Z (LogType_to_Z t) = Some t.
Proof. by destruct t. Qed.

(** Constants of [log_defs.h] / [config.h] (outside [src/]). *)
Definition INVALID_LSN : Z := -1.
Definition INVALID_TXN_ID : Z := -1.
Definition LOG_HEADER_SIZE : Z := 20.
Definition sizeof_int : Z := 4.
Definition sizeof_Rid : Z := 8.
Definition sizeof_size_t : Z := 8.

(** The fields of [class LogRecord]. *)
Record LogHeader := mkHeader {
  log_type_ : LogType;
  lsn_ : Z;
  log_tot_len_ : Z;
  log_tid_ : Z;
  prev_lsn_ : Z
}.

(** The fields a subclass adds: none (begin/commit/abort), one record
    image (insert/delete), or the old and new images (update); then the
    rid and the table name. *)
Inductive LogPayload :=
| NoPayload
| RecPayload (value_ : bytes) (rid_ : Rid) (table_name_ : bytes)
| UpdPayload (old_value_ update_value_ : bytes) (rid_ : Rid) (table_name_ : bytes).

Record LogRecord := mkLog { log_hdr : LogHeader; log_payload : LogPayload }.

Definition blen (b : bytes) : Z := Z.of_nat (length b).

(** The constructors [BeginLogRecord(txn_id)], [CommitLogRecord(txn_id)],
    [AbortLogRecord(txn_id)]. *)
Definition BeginLogRecord (txn_id : Z) : LogRecord :=
  mkLog (mkHeader begin INVALID_LSN LOG_HEADER_SIZE txn_id INVALID_LSN) NoPayload.
Definition CommitLogRecord (txn_id : Z) : LogRecord :=
  mkLog (mkHeader commit INVALID_LSN LOG_HEADER_SIZE txn_id INVALID_LSN) NoPayload.
Definition AbortLogRecord (txn_id : Z) : LogRecord :=
  mkLog (mkHeader ABORT INVALID_LSN LOG_HEADER_SIZE txn_id INVALID_LSN) NoPayload.

(** [InsertLogRecord(txn_id, insert_value, rid, table_name)]: the total
    length adds [sizeof(int)], the image, [sizeof(Rid)], [sizeof(size_t)]
    and the name. *)
Definition InsertLogRecord (txn_id : Z) (value : bytes) (rid : Rid)
    (table_name : bytes) : LogRecord :=
  mkLog (mkHeader INSERT INVALID_LSN
           (LOG_HEADER_SIZE + sizeof_int + blen value + sizeof_Rid
            + (sizeof_size_t + blen table_name)) txn_id INVALID_LSN)
        (RecPayload value rid table_name).

Definition DeleteLogRecord (txn_id : Z) (value : bytes) (rid : Rid)
    (table_name : bytes) : LogRecord :=
  mkLog (mkHeader DELETE INVALID_LSN
           (LOG_HEADER_SIZE + sizeof_int + blen value + sizeof_Rid
            + (sizeof_size_t + blen table_name)) txn_id INVALID_LSN)
        (RecPayload value rid table_name).

(** [UpdateLogRecord(txn_id, update_value, old_value, rid, table_name)]. *)
Definition UpdateLogRecord (txn_id : Z) (update_value old_value : bytes)
    (rid : Rid) (table_name : bytes) : LogRecord :=
  mkLog (mkHeader UPDATE INVALID_LSN
           (LOG_HEADER_SIZE + sizeof_int + blen update_value + blen old_value
            + sizeof_int + sizeof_Rid + (sizeof_size_t + blen table_name))
           txn_id INVALID_LSN)
        (UpdPayload old_value update_value rid table_name).

(** ** Serialisation *)

(** [LogRecord::serialize]: the five header fields at offsets 0..16. *)
Definition serialize_header (h : LogHeader) : bytes :=
  int_bytes (LogType_to_Z (log_type_ h)) ++ int_bytes (lsn_ h)
  ++ int_bytes (log_tot_len_ h) ++ int_bytes (log_tid_ h)
  ++ int_bytes (prev_lsn_ h).

(** An [RmRecord] image as the payloads store it: its size, then its data. *)
Definition record_bytes (v : bytes) : bytes := int_bytes (blen v) ++ v.

Definition rid_bytes (r : Rid) : bytes :=
  int_bytes (page_no r) ++ int_bytes (slot_no r).

(** The subclasses' [serialize]: header, then the payload at
    [OFFSET_LOG_DATA]; an update stores the old image first. *)
Definition serialize (r : LogRecord) : bytes :=
  serialize_header (log_hdr r) ++
  match log_payload r with
  | NoPayload => []
  | RecPayload v rid name =>
      record_bytes v ++ rid_bytes rid ++ size_t_bytes (blen name) ++ name
  | UpdPayload old new rid name =>
      record_bytes old ++ record_bytes new ++ rid_bytes rid
      ++ size_t_bytes (blen name) ++ name
  end.

(** [LogRecord::deserialize]: the header; an unknown type is refused. *)
Definition deserialize_header : parser LogHeader := fun s =>
  '(t, s) ← parse_int s;
  ty ← LogType_of_Z t;
  '(lsn, s) ← parse_int s;
  '(len, s) ← parse_uint s;
  '(tid, s) ← parse_int s;
  '(prev, s) ← parse_int s;
  Some (mkHeader ty lsn len tid prev, s).

(** [RmRecord::Deserialize]: the size, then that many bytes. *)
Definition parse_record : parser bytes := fun s =>
  '(n, s) ← parse_int s;
  if decide (0 <= n) then parse_bytes (Z.to_nat n) s else None.

Definition parse_rid : parser Rid := fun s =>
  '(p, s) ← parse_int s;
  '(q, s) ← parse_int s;
  Some (mkRid p q, s).

Definition parse_name : parser bytes := fun s =>
  '(n, s) ← parse_size_t s;
  parse_bytes (Z.to_nat n) s.

(** The subclasses' [deserialize], selected on the header's type as
    [RecoveryManager::parseLog] selects the subclass.  [IX_INSERT] and
    [IX_DELETE] records are never written (their [add_*] calls are
    commented out) and [parseLog] asserts on them. *)
Definition deserialize (src : bytes) : option LogRecord :=
  '(h, s) ← deserialize_header src;
  match log_type_ h with
  | begin | commit | ABORT => Some (mkLog h NoPayload)
  | INSERT | DELETE =>
      '(v, s) ← parse_record s;
      '(rid, s) ← parse_rid s;
      '(name, _) ← parse_name s;
      Some (mkLog h (RecPayload v rid name))
  | UPDATE =>
      '(old, s) ← parse_record s;
      '(new, s) ← parse_record s;
      '(rid, s) ← parse_rid s;
      '(name, _) ← parse_name s;
      Some (mkLog h (UpdPayload old new rid name))
  | IX_INSERT | IX_DELETE => None
  end.

(** ** The round trip *)

Arguments int_bytes : simpl never.
Arguments size_t_bytes : simpl never.
Arguments parse_int : simpl never.
Arguments parse_uint : simpl never.
Arguments parse_size_t : simpl never.
Arguments parse_bytes : simpl never.

(** What the C++ types can hold: [int] fields in 32 bits, the unsigned
    total length in 32 bits, record sizes as [int], the name length as
    [size_t], and a payload of the shape the type announces. *)
Definition header_wf (h : LogHeader) : Prop :=
  in_int32 (lsn_ h) /\ 0 <= log_tot_len_ h < 2 ^ 32 /\
  in_int32 (log_tid_ h) /\ in_int32 (prev_lsn_ h).

Definition image_wf (v : bytes) : Prop := blen v < 2 ^ 31.
Definition rid_wf (r : Rid) : Prop := in_int32 (page_no r) /\ in_int32 (slot_no r).
Definition name_wf (n : bytes) : Prop := blen n < 2 ^ 64.

Definition payload_wf (t : LogType) (p : LogPayload) : Prop :=
  match t, p with
  | (begin | commit | ABORT), NoPayload => True
  | (INSERT | DELETE), RecPayload v rid name =>
      image_wf v /\ rid_wf rid /\ name_wf name
  | UPDATE, UpdPayload old new rid name =>
      image_wf old /\ image_wf new /\ rid_wf rid /\ name_wf name
  | _, _ => False
  end.

Definition log_wf (r : LogRecord) : Prop :=
  header_wf (log_hdr r) /\ payload_wf (log_type_ (log_hdr r)) (log_payload r).

Lemma in_int32_LogType t : in_int32 (LogType_to_Z t).
Proof. unfold in_int32. destruct t; simpl; lia. Qed.

Lemma deserialize_header_app h rest :
  header_wf h -> deserialize_header (serialize_header h ++ rest) = Some (h, rest).
Proof.
  destruct h as [t l n i p]. unfold header_wf.
  cbn [lsn_ log_tot_len_ log_tid_ prev_lsn_ log_type_].
  intros (Hl & Hn & Hi & Hp).
  unfold deserialize_header, serialize_header.
  cbn [lsn_ log_tot_len_ log_tid_ prev_lsn_ log_type_].
  rewrite <- !app_assoc.
  rewrite parse_int_app by apply in_int32_LogType. simpl_bind.
  rewrite LogType_of_to_Z. simpl_bind.
  rewrite parse_int_app by done. simpl_bind.
  rewrite parse_uint_app by done. simpl_bind.
  rewrite parse_int_app by done. simpl_bind.
  rewrite parse_int_app by done. simpl_bind. done.
Qed.

Lemma parse_record_app v rest :
  image_wf v -> parse_record (record_bytes v ++ rest) = Some (v, rest).
Proof.
  unfold image_wf, record_bytes, parse_record, blen. intros Hv.
  rewrite <- app_assoc, parse_int_app by (unfold in_int32; lia). simpl_bind.
  rewrite decide_True by lia. rewrite Nat2Z.id. apply parse_bytes_app.
Qed.

Lemma parse_rid_app r rest :
  rid_wf r -> parse_rid (rid_bytes r ++ rest) = Some (r, rest).
Proof.
  destruct r as [p q]. intros [Hp Hq]. unfold parse_rid, rid_bytes.
  cbn [page_no slot_no] in *.
  rewrite <- app_assoc, parse_int_app by done. simpl_bind.
  rewrite parse_int_app by done. simpl_bind. done.
Qed.

Lemma parse_name_app n rest :
  name_wf n -> parse_name (size_t_bytes (blen n) ++ n ++ rest) = Some (n, rest).
Proof.
  unfold name_wf, parse_name, blen. intros Hn.
  rewrite parse_size_t_app by lia. simpl_bind.
  rewrite Nat2Z.id. apply parse_bytes_app.
Qed.

(** Round trip: reading back a serialised record gives the
    record, whatever follows it in the buffer. *)
Theorem deserialize_serialize r rest :
  log_wf r -> deserialize (serialize r ++ rest) = Some r.
Proof.
  destruct r as [h p]. unfold log_wf. cbn [log_hdr log_payload].
  intros [Hh Hp]. unfold deserialize, serialize. cbn [log_hdr log_payload].
  rewrite <- app_assoc, deserialize_header_app by done. simpl_bind.
  destruct (log_type_ h), p; cbn [payload_wf] in Hp; try contradiction; try done;
    repeat match goal with H : _ /\ _ |- _ => destruct H end;
    rewrite <- ?app_assoc;
    repeat first
      [ rewrite parse_record_app by done; simpl_bind
      | rewrite parse_rid_app by done; simpl_bind
      | rewrite parse_name_app by done; simpl_bind ];
    done.
Qed.

(** ** The recorded length is the serialised length *)

(** [log_tot_len_] as each constructor computes it is the number of
    bytes [serialize] writes: this is what keeps [parseLog], which
    advances by [log_tot_len_], aligned on record boundaries. *)
Definition len_ok (r : LogRecord) : Prop :=
  blen (serialize r) = log_tot_len_ (log_hdr r).

Lemma blen_app (a b : bytes) : blen (a ++ b) = blen a + blen b.
Proof. unfold blen. rewrite length_app. lia. Qed.

Lemma blen_int_bytes z : blen (int_bytes z) = 4.
Proof. unfold blen, int_bytes. by rewrite length_le_split. Qed.

Lemma blen_size_t_bytes z : blen (size_t_bytes z) = 8.
Proof. unfold blen, size_t_bytes. by rewrite length_le_split. Qed.

Lemma blen_nil : blen [] = 0.
Proof. reflexivity. Qed.

Lemma blen_header h : blen (serialize_header h) = LOG_HEADER_SIZE.
Proof. unfold serialize_header. rewrite !blen_app, !blen_int_bytes. done. Qed.

#[local] Hint Rewrite blen_app blen_nil blen_int_bytes blen_size_t_bytes blen_header : rmdb_rw.

(** [lsn_] is assigned after construction, by [get_new_lsn]. *)
Definition set_lsn (r : LogRecord) (l : Z) : LogRecord :=
  mkLog (mkHeader (log_type_ (log_hdr r)) l (log_tot_len_ (log_hdr r))
           (log_tid_ (log_hdr r)) (prev_lsn_ (log_hdr r)))
        (log_payload r).

Lemma len_ok_set_lsn r l : len_ok r -> len_ok (set_lsn r l).
Proof.
  unfold len_ok, set_lsn, serialize. destruct r as [[] p]; simpl.
  autorewrite with rmdb_rw. done.
Qed.

Ltac solve_len_ok :=
  unfold len_ok, serialize, record_bytes, rid_bytes, BeginLogRecord,
    CommitLogRecord, AbortLogRecord, InsertLogRecord, DeleteLogRecord,
    UpdateLogRecord;
  cbn [log_hdr log_payload log_tot_len_];
  autorewrite with rmdb_rw; unfold LOG_HEADER_SIZE, sizeof_int, sizeof_Rid,
  sizeof_size_t; lia.

(** The [log_tot_len_] of every record the constructors build is the
    length of its serialisation. *)
Lemma len_ok_constructors txn v v' rid name :
  len_ok (BeginLogRecord txn) /\ len_ok (CommitLogRecord txn) /\
  len_ok (AbortLogRecord txn) /\ len_ok (InsertLogRecord txn v rid name) /\
  len_ok (DeleteLogRecord txn v rid name) /\
  len_ok (UpdateLogRecord txn v v' rid name).
Proof. repeat split; solve_len_ok. Qed.

(** ** The log manager *)

(** [LOG_BUFFER_SIZE] of [config.h] (outside [src/]). *)
Definition LOG_BUFFER_SIZE : Z := 1024 * 4096.

(** [class LogManager] with its [LogBuffer]: [log_buffer_] holds the
    [offset_] bytes written so far; [log_file] is what [write_log] has
    appended to the log file on disk. *)
Record LogManager := mkLogManager {
  global_lsn_ : Z;
  persist_lsn_ : Z;
  log_buffer_ : bytes;
  offset_ : Z;
  log_file : bytes
}.

(** [LogBuffer::is_full]. *)
Definition is_full (m : LogManager) (append_size : Z) : bool :=
  LOG_BUFFER_SIZE <? offset_ m + append_size.

(** [LogManager::flush_log_to_disk]: append the buffer to the file, then
    [persist_lsn_ = global_lsn_ - 1] and [resetBuffer]. *)
Definition flush_log_to_disk (m : LogManager) : LogManager :=
  mkLogManager (global_lsn_ m) (global_lsn_ m - 1) [] 0
               (log_file m ++ take (Z.to_nat (offset_ m)) (log_buffer_ m)).

(** [LogManager::get_new_lsn]: [global_lsn_++]. *)
Definition get_new_lsn (m : LogManager) : Z * LogManager :=
  (global_lsn_ m, mkLogManager (global_lsn_ m + 1) (persist_lsn_ m)
                    (log_buffer_ m) (offset_ m) (log_file m)).

(** [LogManager::add_log_to_buffer]: flush first when the record would
    overflow the buffer, then serialise at [offset_] and advance it by
    [log_tot_len_]. *)
Definition add_log_to_buffer (m : LogManager) (r : LogRecord) : LogManager :=
  let m := if is_full m (log_tot_len_ (log_hdr r)) then flush_log_to_disk m else m in
  mkLogManager (global_lsn_ m) (persist_lsn_ m) (log_buffer_ m ++ serialize r)
               (offset_ m + log_tot_len_ (log_hdr r)) (log_file m).

(** The [add_*_log_record] entry points: build the record, give it the
    next LSN, add it to the buffer. *)
Definition add_log_record (m : LogManager) (r : LogRecord) : LogManager :=
  let '(lsn, m) := get_new_lsn m in add_log_to_buffer m (set_lsn r lsn).

Definition add_insert_log_record m txn_id value rid table_name :=
  add_log_record m (InsertLogRecord txn_id value rid table_name).
Definition add_delete_log_record m txn_id value rid table_name :=
  add_log_record m (DeleteLogRecord txn_id value rid table_name).
Definition add_update_log_record m txn_id update_value old_value rid table_name :=
  add_log_record m (UpdateLogRecord txn_id update_value old_value rid table_name).
Definition add_begin_log_record m txn_id := add_log_record m (BeginLogRecord txn_id).
Definition add_commit_log_record m txn_id := add_log_record m (CommitLogRecord txn_id).
Definition add_abort_log_record m txn_id := add_log_record m (AbortLogRecord txn_id).

(** ** Properties of the log manager *)

(** The buffer holds exactly [offset_] bytes, within its capacity, and
    every LSN handed out so far is above the persisted one. *)
Definition log_inv (m : LogManager) : Prop :=
  offset_ m = blen (log_buffer_ m) /\ offset_ m <= LOG_BUFFER_SIZE /\
  persist_lsn_ m < global_lsn_ m.

Definition log_contents (m : LogManager) : bytes := log_file m ++ log_buffer_ m.

Lemma flush_log_to_disk_inv m :
  log_inv m -> log_inv (flush_log_to_disk m) /\
  log_contents (flush_log_to_disk m) = log_contents m.
Proof.
  unfold log_inv, log_contents, flush_log_to_disk. cbn.
  intros (Hoff & Hcap & Hlsn). unfold blen in *.
  rewrite Hoff, Nat2Z.id, take_ge, app_nil_r by lia.
  repeat split; try done; lia.
Qed.

Lemma add_log_to_buffer_spec m r :
  log_inv m -> len_ok r -> 0 <= log_tot_len_ (log_hdr r) <= LOG_BUFFER_SIZE ->
  log_inv (add_log_to_buffer m r) /\
  log_contents (add_log_to_buffer m r) = log_contents m ++ serialize r /\
  global_lsn_ (add_log_to_buffer m r) = global_lsn_ m.
Proof.
  intros (Hoff & Hcap & Hlsn) Hlen Hr. unfold add_log_to_buffer.
  destruct (is_full m _) eqn:Hfull;
    unfold is_full, log_inv, log_contents, flush_log_to_disk, len_ok in *; cbn.
  - rewrite take_ge by (unfold blen in Hoff; lia).
    split; [split; [|split]; lia|done].
  - apply Z.ltb_ge in Hfull. rewrite blen_app, app_assoc.
    split; [split; [|split]; lia|done].
Qed.

(** C5: The write-ahead log is append-only and ordered: adding a record
    through any [add_*_log_record] entry point stamps it with the next
    LSN, keeps the manager's invariant, and makes the log (file then
    buffer) grow by exactly that record's bytes, with nothing lost when
    the buffer overflows and is flushed. *)
Theorem add_log_record_spec m r :
  log_inv m -> len_ok r -> 0 <= log_tot_len_ (log_hdr r) <= LOG_BUFFER_SIZE ->
  log_inv (add_log_record m r) /\
  log_contents (add_log_record m r) =
    log_contents m ++ serialize (set_lsn r (global_lsn_ m)) /\
  global_lsn_ (add_log_record m r) = global_lsn_ m + 1.
Proof.
  intros Hinv Hlen Hr. unfold add_log_record, get_new_lsn.
  set (m1 := mkLogManager _ _ _ _ _).
  assert (log_inv m1) by (unfold log_inv in *; cbn; lia).
  destruct (add_log_to_buffer_spec m1 (set_lsn r (global_lsn_ m))) as (? & ? & ?);
    [done|by apply len_ok_set_lsn|destruct r as [[] ?]; cbn in *; lia|].
  done.
Qed.

Lemma flush_log_to_disk_fields m :
  log_file (flush_log_to_disk m) = log_file m ++ take (Z.to_nat (offset_ m)) (log_buffer_ m)
  /\ persist_lsn_ (flush_log_to_disk m) = global_lsn_ m - 1.
Proof. done. Qed.

(** C8: Commit durability: once [TransactionManager::commit] has added the
    COMMIT record and flushed, the record, and every record added
    before it, is in the log file, and [persist_lsn_] is its LSN. *)
Theorem commit_durable m txn_id :
  log_inv m ->
  log_file (flush_log_to_disk (add_commit_log_record m txn_id)) =
    log_contents m ++ serialize (set_lsn (CommitLogRecord txn_id) (global_lsn_ m))
  /\ persist_lsn_ (flush_log_to_disk (add_commit_log_record m txn_id)) = global_lsn_ m.
Proof.
  intros Hinv.
  destruct (add_log_record_spec m (CommitLogRecord txn_id)) as ((Hoff & _ & _) & Hc & Hg);
    [done|exact (proj1 (proj2 (len_ok_constructors txn_id [] [] (mkRid 0 0) [])))
    |unfold LOG_BUFFER_SIZE, CommitLogRecord, LOG_HEADER_SIZE; cbn [log_hdr log_tot_len_]; lia|].
  fold (add_commit_log_record m txn_id) in Hoff, Hc, Hg.
  destruct (flush_log_to_disk_fields (add_commit_log_record m txn_id)) as [-> ->].
  rewrite Hg, take_ge by (unfold blen in Hoff; lia).
  split; [done|lia].
Qed.

(** ** Witnesses on concrete records *)

Definition sample_insert : LogRecord :=
  set_lsn (InsertLogRecord 3 [Byte.x2a; Byte.x00] (mkRid 1 5) [Byte.x74]) 9.

Lemma sample_insert_wf : log_wf sample_insert.
Proof.
  unfold log_wf, header_wf, payload_wf, image_wf, rid_wf, name_wf, in_int32.
  vm_compute. repeat split; discriminate.
Qed.

Lemma deserialize_serialize_witness :
  log_wf sample_insert /\
  deserialize (serialize sample_insert ++ [Byte.xff]) = Some sample_insert.
Proof.
  split; [exact sample_insert_wf|].
  exact (deserialize_serialize sample_insert [Byte.xff] sample_insert_wf).
Defined.

Definition empty_log : LogManager := mkLogManager 0 (-1) [] 0 [].

Lemma empty_log_inv : log_inv empty_log.
Proof. unfold log_inv, LOG_BUFFER_SIZE, empty_log, blen; cbn. lia. Qed.

Lemma add_log_record_spec_witness :
  log_inv empty_log /\
  log_inv (add_log_record empty_log (BeginLogRecord 1)) /\
  log_contents (add_log_record empty_log (BeginLogRecord 1)) =
    log_contents empty_log ++ serialize (set_lsn (BeginLogRecord 1) (global_lsn_ empty_log)) /\
  global_lsn_ (add_log_record empty_log (BeginLogRecord 1)) = global_lsn_ empty_log + 1.
Proof.
  split; [exact empty_log_inv|].
  apply (add_log_record_spec empty_log (BeginLogRecord 1)).
  - exact empty_log_inv.
  - exact (proj1 (len_ok_constructors 1 [] [] (mkRid 0 0) [])).
  - unfold LOG_BUFFER_SIZE, BeginLogRecord, LOG_HEADER_SIZE; cbn [log_hdr log_tot_len_]. lia.
Defined.

Lemma commit_durable_witness :
  log_inv empty_log /\
  persist_lsn_ (flush_log_to_disk (add_commit_log_record empty_log 1)) = global_lsn_ empty_log.
Proof.
  split; [exact empty_log_inv|].
  exact (proj2 (commit_durable empty_log 1 empty_log_inv)).
Defined.
