(* ===== verification/BufferPool.v ===== *)
(** * The buffer pool: [storage/buffer_pool_manager.{h,cpp}]

    [BufferPoolManager] is a record: the frame array [pages_], the page
    table [page_table_] (a [gmap] from page ids to frame indices), the
    [free_list_], the replacer, the disk image and the log manager it
    flushes on the write-ahead rule.  Each method is one function; the
    replacer is used only through the [Replacer] interface of
    [Replacer.v], so every theorem here holds for any replacer meeting
    [ReplacerLaws].  The disk manager is outside [src/]: [read_page],
    [write_page] and [allocate_page] are modelled from the spec. *)

From stdpp Require Import base list gmap sets.
From S2P Require Import Prelude Replacer Log.

Open Scope Z_scope.

(** [struct PageId]: the file descriptor and the page number. *)
Record PageId := mkPageId { pg_fd : Z; pg_no : Z }.

#[export] Instance PageId_eq_dec : EqDecision PageId.
Proof. solve_decision. Defined.

#[export] Instance PageId_countable : Countable PageId.
Proof.
  apply (inj_countable' (fun p => (pg_fd p, pg_no p)) (fun q => mkPageId q.1 q.2)).
  by intros [].
Defined.

Section buffer_pool.
Context {Data : Type} (blank : Data).
Context {R : Type} `{ReplacerLaws R}.

(** [class Page]: the frame's page id, its bytes, the dirty flag, the
    pin count and the page LSN. *)
Record Page := mkPage {
  id_ : PageId;
  data_ : Data;
  is_dirty_ : bool;
  pin_count_ : nat;
  page_lsn_ : Z
}.

(** [Page()]: an empty frame with no page. *)
Definition empty_page : Page :=
  mkPage (mkPageId (-1) INVALID_PAGE_ID) blank false 0 INVALID_LSN.

(** The disk manager's state: the pages on disk and, per file, the next
    page number [allocate_page] hands out. *)
Record DiskManager := mkDisk {
  disk_pages : gmap PageId Data;
  fd2pageno : gmap Z Z
}.

Definition read_page (d : DiskManager) (pid : PageId) : Data :=
  default blank (disk_pages d !! pid).

Definition write_page (d : DiskManager) (pid : PageId) (x : Data) : DiskManager :=
  mkDisk (<[pid := x]> (disk_pages d)) (fd2pageno d).

(** The next page number of file [fd] (0 for a file never allocated in). *)
Definition next_page_no (d : DiskManager) (fd : Z) : Z := default 0 (fd2pageno d !! fd).

Definition allocate_page (d : DiskManager) (fd : Z) : Z * DiskManager :=
  let n := next_page_no d fd in
  (n, mkDisk (disk_pages d) (<[fd := n + 1]> (fd2pageno d))).

Record BufferPoolManager := mkBPM {
  pages_ : list Page;
  page_table_ : gmap PageId nat;
  free_list_ : list nat;
  replacer_ : R;
  disk_manager_ : DiskManager;
  log_manager_ : LogManager
}.

Definition set_pages (s : BufferPoolManager) (ps : list Page) : BufferPoolManager :=
  mkBPM ps (page_table_ s) (free_list_ s) (replacer_ s) (disk_manager_ s) (log_manager_ s).
Definition set_table (s : BufferPoolManager) (t : gmap PageId nat) : BufferPoolManager :=
  mkBPM (pages_ s) t (free_list_ s) (replacer_ s) (disk_manager_ s) (log_manager_ s).
Definition set_free (s : BufferPoolManager) (fl : list nat) : BufferPoolManager :=
  mkBPM (pages_ s) (page_table_ s) fl (replacer_ s) (disk_manager_ s) (log_manager_ s).
Definition set_replacer (s : BufferPoolManager) (r : R) : BufferPoolManager :=
  mkBPM (pages_ s) (page_table_ s) (free_list_ s) r (disk_manager_ s) (log_manager_ s).
Definition set_disk (s : BufferPoolManager) (d : DiskManager) : BufferPoolManager :=
  mkBPM (pages_ s) (page_table_ s) (free_list_ s) (replacer_ s) d (log_manager_ s).
Definition set_log (s : BufferPoolManager) (l : LogManager) : BufferPoolManager :=
  mkBPM (pages_ s) (page_table_ s) (free_list_ s) (replacer_ s) (disk_manager_ s) l.

(** Apply [f] to frame [fid] ([pages_[fid]] updated in place). *)
Definition alter_page (s : BufferPoolManager) (fid : nat) (f : Page -> Page) :=
  set_pages s (alter f fid (pages_ s)).

(** [BufferPoolManager(pool_size, ...)]: every frame free, empty table. *)
Definition create (pool_size : nat) (r0 : R) (d : DiskManager) (l : LogManager)
  : BufferPoolManager :=
  mkBPM (replicate pool_size empty_page) ∅ (seq 0 pool_size) r0 d l.

(** [find_victim_page]: the head of the free list, else the replacer's
    victim, else failure. *)
Definition find_victim_page (s : BufferPoolManager) : option (nat * BufferPoolManager) :=
  match free_list_ s with
  | fid :: rest => Some (fid, set_free s rest)
  | [] =>
      match rp_victim (replacer_ s) with
      | Some (fid, r') => Some (fid, set_replacer s r')
      | None => None
      end
  end.

(** The write-ahead rule before a write-back: flush the log first when
    the page's LSN is not yet persistent.  The source guards the flush
    with [#ifndef ENABLE_LSN assert(0)], and [ENABLE_LSN] is not defined
    in this build; [BufferPoolInv.wal_flush_noop] shows the branch is
    never taken, so the model keeps the [ENABLE_LSN] reading of it. *)
Definition wal_flush (s : BufferPoolManager) (pg : Page) : BufferPoolManager :=
  if persist_lsn_ (log_manager_ s) <? page_lsn_ pg
  then set_log s (flush_log_to_disk (log_manager_ s)) else s.

(** [update_page]: write a dirty victim back (after the log), map the
    new page id to the frame and {e then} erase the old id, reset the
    frame's bytes, dirty flag and LSN; the pin count is unchanged. *)
Definition update_page (s : BufferPoolManager) (fid : nat) (new_page_id : PageId)
  : BufferPoolManager :=
  match pages_ s !! fid with
  | None => s
  | Some pg =>
      let s := if is_dirty_ pg
               then let s := wal_flush s pg in
                    set_disk s (write_page (disk_manager_ s) (id_ pg) (data_ pg))
               else s in
      let s := set_table s (delete (id_ pg) (<[new_page_id := fid]> (page_table_ s))) in
      alter_page s fid (fun p => mkPage new_page_id blank false (pin_count_ p) INVALID_LSN)
  end.

(** [fetch_page]: a resident page gets one more pin; otherwise a victim
    frame is recycled and the page read from disk with pin count 1. *)
Definition fetch_page (s : BufferPoolManager) (page_id : PageId)
  : option nat * BufferPoolManager :=
  match page_table_ s !! page_id with
  | Some fid =>
      let s := alter_page s fid (fun p =>
                 mkPage (id_ p) (data_ p) (is_dirty_ p) (S (pin_count_ p)) (page_lsn_ p)) in
      (Some fid, set_replacer s (rp_pin fid (replacer_ s)))
  | None =>
      match find_victim_page s with
      | None => (None, s)
      | Some (fid, s) =>
          let s := update_page s fid page_id in
          let d := read_page (disk_manager_ s) page_id in
          let s := alter_page s fid (fun p =>
                     mkPage (id_ p) d (is_dirty_ p) 1 (page_lsn_ p)) in
          (Some fid, set_replacer s (rp_pin fid (replacer_ s)))
      end
  end.

(** [unpin_page]: fails on an absent or unpinned page; at pin count 0
    the frame becomes evictable; [is_dirty] is or-ed in. *)
Definition unpin_page (s : BufferPoolManager) (page_id : PageId) (is_dirty : bool)
  : bool * BufferPoolManager :=
  match page_table_ s !! page_id with
  | None => (false, s)
  | Some fid =>
      match pages_ s !! fid with
      | None => (false, s)
      | Some pg =>
          match pin_count_ pg with
          | O => (false, s)
          | S n =>
              let s := alter_page s fid (fun p =>
                         mkPage (id_ p) (data_ p) (if is_dirty then true else is_dirty_ p)
                                n (page_lsn_ p)) in
              let s := if decide (n = 0%nat)
                       then set_replacer s (rp_unpin fid (replacer_ s)) else s in
              (true, s)
          end
      end
  end.

(** [flush_page]: write the page now (after the log), whether dirty or not. *)
Definition flush_page (s : BufferPoolManager) (page_id : PageId) : bool * BufferPoolManager :=
  match page_table_ s !! page_id with
  | None => (false, s)
  | Some fid =>
      match pages_ s !! fid with
      | None => (false, s)
      | Some pg =>
          let s := wal_flush s pg in
          let s := set_disk s (write_page (disk_manager_ s) page_id (data_ pg)) in
          (true, alter_page s fid (fun p =>
                   mkPage (id_ p) (data_ p) false (pin_count_ p) (page_lsn_ p)))
      end
  end.

(** [new_page]: a victim frame, a fresh page number of the file, the
    frame recycled, dirty, pinned once. *)
Definition new_page (s : BufferPoolManager) (fd : Z)
  : option (PageId * nat) * BufferPoolManager :=
  match find_victim_page s with
  | None => (None, s)
  | Some (fid, s) =>
      let '(no, d) := allocate_page (disk_manager_ s) fd in
      let page_id := mkPageId fd no in
      let s := update_page (set_disk s d) fid page_id in
      let s := alter_page s fid (fun p =>
                 mkPage (id_ p) (data_ p) true 1 (page_lsn_ p)) in
      (Some (page_id, fid), set_replacer s (rp_pin fid (replacer_ s)))
  end.

(** [Page::reset_page_id]: the frame no longer holds a page. *)
Definition reset_page_id (p : PageId) : PageId := mkPageId (pg_fd p) INVALID_PAGE_ID.

(** [delete_page]: absent pages are trivially deleted; a pinned page
    cannot be; otherwise the frame is reset and returned to the free
    list (and taken out of the replacer). *)
Definition delete_page (s : BufferPoolManager) (page_id : PageId) : bool * BufferPoolManager :=
  match page_table_ s !! page_id with
  | None => (true, s)
  | Some fid =>
      match pages_ s !! fid with
      | None => (true, s)
      | Some pg =>
          if decide (0 < pin_count_ pg)%nat then (false, s)
          else
            let s := alter_page s fid (fun p =>
                       mkPage (reset_page_id (id_ p)) blank false (pin_count_ p) INVALID_LSN) in
            let s := set_table s (delete page_id (page_table_ s)) in
            let s := set_replacer s (rp_pin fid (replacer_ s)) in
            (true, set_free s (free_list_ s ++ [fid]))
      end
  end.

(** [flush_all_pages(fd)]: every frame holding a page of [fd] is written. *)
Definition flush_frame (fd : Z) (s : BufferPoolManager) (fid : nat) : BufferPoolManager :=
  match pages_ s !! fid with
  | None => s
  | Some pg =>
      if decide (pg_fd (id_ pg) = fd /\ pg_no (id_ pg) <> INVALID_PAGE_ID) then
        let s := wal_flush s pg in
        let s := set_disk s (write_page (disk_manager_ s) (id_ pg) (data_ pg)) in
        alter_page s fid (fun p => mkPage (id_ p) (data_ p) false (pin_count_ p) (page_lsn_ p))
      else s
  end.

Definition flush_all_pages (s : BufferPoolManager) (fd : Z) : BufferPoolManager :=
  foldl (flush_frame fd) s (seq 0 (length (pages_ s))).

(** A client writing into a pinned frame and marking it dirty
    ([BufferPoolManager::mark_dirty]). *)
Definition mark_dirty (s : BufferPoolManager) (fid : nat) (f : Data -> Data) : BufferPoolManager :=
  alter_page s fid (fun p => mkPage (id_ p) (f (data_ p)) true (pin_count_ p) (page_lsn_ p)).

End buffer_pool.
