(* ===== verification/BufferPoolInv.v ===== *)
(** * Invariant and refinement of the buffer pool

    [bp_inv] is the frame invariant of [buffer_pool_manager.cpp]: every
    frame is free (on [free_list_], unpinned, no page, clean), or holds
    a page, which the page table maps back to it, that is evictable
    exactly when unpinned and, when clean, equal to its disk copy.
    [bp_inv' (Some fid)] is the same invariant while frame [fid] is
    detached between [find_victim_page] and the end of [fetch_page] or
    [new_page].  [view] is the abstract state the pool refines: a map
    from page ids to contents, the frame's bytes for a resident page
    and the disk's otherwise. *)

From Stdlib Require Import ZArith Lia.
From stdpp Require Import base list gmap sets.
From S2P Require Import Prelude Replacer Log BufferPool.

Open Scope Z_scope.

Section bp_inv.
Context {Data : Type} (blank : Data).
Context {R : Type} `{ReplacerLaws R}.

Notation BPM := (@BufferPoolManager Data R).
Notation Page := (@Page Data).
Notation DiskM := (@DiskManager Data).

(** A page id the disk manager has handed out. *)
Definition valid_pid (d : DiskM) (pid : PageId) : Prop :=
  0 <= pg_no pid < next_page_no d (pg_fd pid).

(** The status of one frame: free, detached (the victim being
    recycled) or holding a page. *)
Definition frame_ok (x : option nat) (s : BPM) (fid : nat) (pg : Page) : Prop :=
  if decide (fid ∈ free_list_ s) then
    pin_count_ pg = 0%nat /\ pg_no (id_ pg) = INVALID_PAGE_ID /\ is_dirty_ pg = false
  else if decide (x = Some fid) then
    pin_count_ pg = 0%nat /\
    (pg_no (id_ pg) = INVALID_PAGE_ID /\ is_dirty_ pg = false \/
     valid_pid (disk_manager_ s) (id_ pg) /\
     (is_dirty_ pg = false -> data_ pg = read_page blank (disk_manager_ s) (id_ pg)))
  else
    valid_pid (disk_manager_ s) (id_ pg) /\
    (pin_count_ pg = 0%nat <-> fid ∈ rp_frames (replacer_ s)) /\
    (is_dirty_ pg = false -> data_ pg = read_page blank (disk_manager_ s) (id_ pg)).

Record bp_inv' (x : option nat) (s : BPM) : Prop := {
  inv_nodup : NoDup (free_list_ s);
  inv_wf : rp_wf (replacer_ s);
  inv_free_range fid : fid ∈ free_list_ s -> is_Some (pages_ s !! fid);
  inv_rp_range fid : fid ∈ rp_frames (replacer_ s) ->
    is_Some (pages_ s !! fid) /\ fid ∉ free_list_ s /\ x <> Some fid;
  inv_detached fid : x = Some fid -> is_Some (pages_ s !! fid) /\ fid ∉ free_list_ s;
  inv_frames fid pg : pages_ s !! fid = Some pg ->
    frame_ok x s fid pg /\ page_lsn_ pg = INVALID_LSN;
  inv_table pid fid : page_table_ s !! pid = Some fid <->
    (exists pg, pages_ s !! fid = Some pg /\ id_ pg = pid) /\
    fid ∉ free_list_ s /\ valid_pid (disk_manager_ s) pid;
  inv_persist : INVALID_LSN <= persist_lsn_ (log_manager_ s);
  inv_alloc fd k : fd2pageno (disk_manager_ s) !! fd = Some k -> 0 <= k
}.

Definition bp_inv := bp_inv' None.

(** The abstract state: what a reader of page [pid] sees. *)
Definition frame_data (s : BPM) (fid : nat) : Data :=
  default blank (data_ <$> pages_ s !! fid).

Definition view (s : BPM) (pid : PageId) : Data :=
  match page_table_ s !! pid with
  | Some fid => frame_data s fid
  | None => read_page blank (disk_manager_ s) pid
  end.

Ltac bp_simpl := cbn [pages_ page_table_ free_list_ replacer_ disk_manager_ log_manager_
  set_pages set_table set_free set_replacer set_disk set_log alter_page
  disk_pages fd2pageno id_ data_ is_dirty_ pin_count_ page_lsn_] in *.

Lemma length_alter_page (s : BPM) fid f :
  length (pages_ (alter_page s fid f)) = length (pages_ s).
Proof. apply length_alter. Qed.

(** Since no code path sets a page LSN, [wal_flush] never flushes: the
    [assert(0)] that guards the flush in this build is unreachable. *)
Lemma wal_flush_noop (s : BPM) pg :
  INVALID_LSN <= persist_lsn_ (log_manager_ s) -> page_lsn_ pg = INVALID_LSN ->
  wal_flush s pg = s.
Proof.
  intros Hp Hl. unfold wal_flush. rewrite Hl.
  destruct (persist_lsn_ (log_manager_ s) <? INVALID_LSN) eqn:E; [|done].
  apply Z.ltb_lt in E. lia.
Qed.

Lemma valid_pid_ext (d d' : DiskM) pid :
  fd2pageno d' = fd2pageno d -> valid_pid d' pid <-> valid_pid d pid.
Proof. unfold valid_pid, next_page_no. by intros ->. Qed.

(** A frame's status survives a step that keeps the free list, its
    replacer membership, the allocation counters and its page's disk copy. *)
Lemma frame_ok_same x (s s' : BPM) fid pg :
  (fid ∈ free_list_ s' <-> fid ∈ free_list_ s) ->
  fd2pageno (disk_manager_ s') = fd2pageno (disk_manager_ s) ->
  (valid_pid (disk_manager_ s) (id_ pg) ->
   read_page blank (disk_manager_ s') (id_ pg) = read_page blank (disk_manager_ s) (id_ pg)) ->
  (fid ∈ rp_frames (replacer_ s') <-> fid ∈ rp_frames (replacer_ s)) ->
  frame_ok x s fid pg -> frame_ok x s' fid pg.
Proof.
  unfold frame_ok. intros Hfr Hfd Hrd Hrp.
  repeat case_decide; rewrite ?(valid_pid_ext _ _ _ Hfd); try tauto.
  - intros [? [?|[Hv Hc]]]; [tauto|]. rewrite (Hrd Hv). tauto.
  - intros (Hv & ? & Hc). rewrite (Hrd Hv). tauto.
Qed.

Lemma valid_pid_not_invalid d pid : valid_pid d pid -> pg_no pid <> INVALID_PAGE_ID.
Proof. unfold valid_pid, INVALID_PAGE_ID. lia. Qed.

(** A frame that holds a page (not free, not detached) is in the table. *)
Lemma inv_resident x (s : BPM) fid pg :
  bp_inv' x s -> pages_ s !! fid = Some pg -> fid ∉ free_list_ s -> x <> Some fid ->
  page_table_ s !! id_ pg = Some fid.
Proof.
  intros Hi Hpg Hf Hx. apply (inv_table _ _ Hi). split; [eauto|]. split; [done|].
  destruct (inv_frames _ _ Hi fid pg Hpg) as [Hok _]. unfold frame_ok in Hok.
  rewrite decide_False in Hok by done. rewrite decide_False in Hok by congruence.
  apply Hok.
Qed.

Lemma is_Some_alter {A} (f : A -> A) (l : list A) i j :
  is_Some (alter f i l !! j) <-> is_Some (l !! j).
Proof.
  rewrite list_lookup_alter. case_decide; subst; [|done].
  by rewrite fmap_is_Some.
Qed.

(** Ids of frames holding pages are distinct: a valid-id frame other than
    the resident frame [fid] has another id. *)
Lemma resident_id_ne x (s : BPM) fid pg j pg' :
  bp_inv' x s -> pages_ s !! fid = Some pg -> page_table_ s !! id_ pg = Some fid ->
  pages_ s !! j = Some pg' -> j ∉ free_list_ s -> valid_pid (disk_manager_ s) (id_ pg') ->
  j <> fid -> id_ pg' <> id_ pg.
Proof.
  intros Hi Hpg Ht Hj Hjf Hv Hne Heq.
  assert (page_table_ s !! id_ pg' = Some j) as Hj'.
  { apply (inv_table _ _ Hi). eauto. }
  rewrite Heq, Ht in Hj'. congruence.
Qed.

(** One resident frame [fid] changes in place (same page, same LSN),
    the replacer is updated for [fid] only, and the disk changes at most
    at [fid]'s page: the invariant is kept. *)
Lemma bp_inv_frame_update x (s : BPM) fid pg f r' d' :
  bp_inv' x s -> pages_ s !! fid = Some pg -> fid ∉ free_list_ s -> x <> Some fid ->
  id_ (f pg) = id_ pg -> page_lsn_ (f pg) = page_lsn_ pg ->
  rp_wf r' ->
  (forall g, g ∈ rp_frames r' <->
     g ∈ rp_frames (replacer_ s) /\ g <> fid \/ g = fid /\ pin_count_ (f pg) = 0%nat) ->
  fd2pageno d' = fd2pageno (disk_manager_ s) ->
  (forall q, q <> id_ pg -> read_page blank d' q = read_page blank (disk_manager_ s) q) ->
  (is_dirty_ (f pg) = false -> data_ (f pg) = read_page blank d' (id_ pg)) ->
  bp_inv' x (set_disk (set_replacer (alter_page s fid f) r') d').
Proof.
  intros Hi Hpg Hfree Hx Hid Hlsn Hwf Hrp Hfd Hrd Hclean.
  pose proof (inv_resident _ _ _ _ Hi Hpg Hfree Hx) as Ht.
  destruct (inv_frames _ _ Hi _ _ Hpg) as [Hok Hl].
  unfold frame_ok in Hok. rewrite !decide_False in Hok by congruence.
  constructor; bp_simpl.
  - apply (inv_nodup _ _ Hi).
  - done.
  - intros g Hg. apply is_Some_alter. by apply (inv_free_range _ _ Hi).
  - intros g Hg%Hrp. rewrite is_Some_alter.
    destruct Hg as [[Hg ?]|[-> _]]; [by apply (inv_rp_range _ _ Hi)|eauto].
  - intros g Hg. rewrite is_Some_alter. by apply (inv_detached _ _ Hi).
  - intros j pg'. rewrite list_lookup_alter. case_decide as Hj.
    + subst j. rewrite Hpg. intros [= <-]. split; [|congruence].
      unfold frame_ok; bp_simpl. rewrite !decide_False by congruence.
      rewrite Hid, (valid_pid_ext _ _ _ Hfd), Hrp. split; [tauto|]. split; [|done].
      intuition congruence.
    + intros Hj'. destruct (inv_frames _ _ Hi _ _ Hj') as [Hok' ?]. split; [|done].
      eapply (frame_ok_same x s); [done|done| |bp_simpl; rewrite Hrp; intuition congruence|exact Hok'].
      intros Hv. bp_simpl. apply Hrd. unfold frame_ok in Hok'.
      destruct (decide (j ∈ free_list_ s)) as [Hjf|Hjf].
      * destruct Hok' as (_ & Hinv & _). apply valid_pid_not_invalid in Hv. done.
      * by apply (resident_id_ne _ _ _ _ _ _ Hi Hpg Ht Hj').
  - intros pid g. rewrite (inv_table _ _ Hi), (valid_pid_ext _ _ _ Hfd).
    rewrite list_lookup_alter. case_decide; [subst g; rewrite Hpg|]; [|done].
    simpl. split; intros [(p & [= <-] & <-) ?]; eauto.
  - apply (inv_persist _ _ Hi).
  - rewrite Hfd. apply (inv_alloc _ _ Hi).
Qed.

(** The table's entries are exactly the resident frames. *)
Lemma inv_table_frame (s : BPM) pid fid :
  bp_inv s -> page_table_ s !! pid = Some fid ->
  exists pg, pages_ s !! fid = Some pg /\ id_ pg = pid /\ fid ∉ free_list_ s /\
             valid_pid (disk_manager_ s) pid.
Proof. intros Hi (? & ? & ?)%(inv_table _ _ Hi). naive_solver. Qed.

Lemma resident_ok (s : BPM) fid pg :
  bp_inv s -> pages_ s !! fid = Some pg -> fid ∉ free_list_ s ->
  valid_pid (disk_manager_ s) (id_ pg) /\
  (pin_count_ pg = 0%nat <-> fid ∈ rp_frames (replacer_ s)) /\
  (is_dirty_ pg = false -> data_ pg = read_page blank (disk_manager_ s) (id_ pg)).
Proof.
  intros Hi Hpg Hf. destruct (inv_frames _ _ Hi _ _ Hpg) as [Hok _].
  unfold frame_ok in Hok. rewrite !decide_False in Hok by congruence. apply Hok.
Qed.

Lemma view_frame_update x (s : BPM) fid pg f r' d' q :
  bp_inv' x s -> pages_ s !! fid = Some pg -> page_table_ s !! id_ pg = Some fid ->
  (forall q, q <> id_ pg -> read_page blank d' q = read_page blank (disk_manager_ s) q) ->
  view (set_disk (set_replacer (alter_page s fid f) r') d') q =
  if decide (q = id_ pg) then data_ (f pg) else view s q.
Proof.
  intros Hi Hpg Ht Hrd. unfold view, frame_data; bp_simpl.
  case_decide as Hq; [subst; rewrite Ht, list_lookup_alter, decide_True, Hpg by done; done|].
  destruct (page_table_ s !! q) as [g|] eqn:Hg; [|by apply Hrd].
  rewrite list_lookup_alter, decide_False; [done|].
  intros ->. apply (inv_table _ _ Hi) in Hg as [(pg' & Hpg' & <-) _]. congruence.
Qed.

Lemma set_disk_replacer_eta (s : BPM) :
  set_disk (set_replacer s (replacer_ s)) (disk_manager_ s) = s.
Proof. by destruct s. Qed.

Lemma read_page_write_ne (d : DiskM) pid x q :
  q <> pid -> read_page blank (write_page d pid x) q = read_page blank d q.
Proof. intros. unfold read_page, write_page; simpl. by rewrite lookup_insert_ne. Qed.

Lemma read_page_write_eq (d : DiskM) pid x :
  read_page blank (write_page d pid x) pid = x.
Proof. unfold read_page, write_page; simpl. by rewrite lookup_insert_eq. Qed.

(** [fetch_page] of a resident page: one more pin, the frame is no
    longer evictable, nothing else changes. *)
Lemma fetch_page_hit (s : BPM) pid fid :
  bp_inv s -> page_table_ s !! pid = Some fid ->
  let '(r, s') := fetch_page blank s pid in
  r = Some fid /\ bp_inv s' /\ (forall q, view s' q = view s q) /\
  frame_data s' fid = view s pid /\ page_table_ s' !! pid = Some fid.
Proof.
  intros Hi Ht. pose proof Ht as (pg & Hpg & Hid & Hf & _)%(inv_table_frame _ _ _ Hi).
  unfold fetch_page. rewrite Ht.
  set (f := fun p : Page => mkPage (id_ p) (data_ p) (is_dirty_ p) (S (pin_count_ p)) (page_lsn_ p)).
  assert (set_replacer (alter_page s fid f) (rp_pin fid (replacer_ (alter_page s fid f))) =
          set_disk (set_replacer (alter_page s fid f) (rp_pin fid (replacer_ s))) (disk_manager_ s))
    as -> by done.
  destruct (rp_pin_spec fid (replacer_ s) (inv_wf _ _ Hi)) as [Hwf Hrp].
  subst pid. split; [done|]. split; [|split; [|split]].
  - destruct (resident_ok s fid pg) as (_ & _ & Hc); try done.
    eapply bp_inv_frame_update; eauto. intros g. rewrite Hrp. simpl. intuition lia.
  - intros q. rewrite (view_frame_update _ _ _ _ _ _ _ _ Hi Hpg Ht) by done.
    case_decide; subst; [|done]. unfold view, frame_data. by rewrite Ht, Hpg.
  - unfold view, frame_data; bp_simpl. by rewrite Ht, list_lookup_alter, decide_True, Hpg.
  - done.
Qed.

Lemma free_frame (s : BPM) fid pg :
  bp_inv s -> fid ∈ free_list_ s -> pages_ s !! fid = Some pg ->
  pin_count_ pg = 0%nat /\ pg_no (id_ pg) = INVALID_PAGE_ID /\ is_dirty_ pg = false.
Proof.
  intros Hi Hf Hpg. destruct (inv_frames _ _ Hi _ _ Hpg) as [Hok _].
  unfold frame_ok in Hok. by rewrite decide_True in Hok.
Qed.

Lemma view_resident (s : BPM) fid pg :
  bp_inv s -> pages_ s !! fid = Some pg -> page_table_ s !! id_ pg = Some fid ->
  view s (id_ pg) = data_ pg.
Proof. intros _ Hpg Ht. unfold view, frame_data. by rewrite Ht, Hpg. Qed.

Lemma rp_same_iff (r : R) fid (P : Prop) g :
  (fid ∈ rp_frames r <-> P) ->
  (g ∈ rp_frames r <-> g ∈ rp_frames r /\ g <> fid \/ g = fid /\ P).
Proof. intros HP. destruct (decide (g = fid)) as [->|]; naive_solver. Qed.

(** [unpin_page] succeeds exactly on a resident, pinned page; it keeps
    the invariant and changes no page's contents. *)
Lemma unpin_page_correct (s : BPM) pid is_dirty :
  bp_inv s ->
  let '(ok, s') := unpin_page s pid is_dirty in
  bp_inv s' /\ (forall q, view s' q = view s q) /\
  (ok = true <-> exists fid pg, page_table_ s !! pid = Some fid /\
                  pages_ s !! fid = Some pg /\ pin_count_ pg <> 0%nat).
Proof.
  intros Hi. unfold unpin_page.
  destruct (page_table_ s !! pid) as [fid|] eqn:Ht; [|split_and!; naive_solver].
  pose proof Ht as (pg & Hpg & <- & Hf & _)%(inv_table_frame _ _ _ Hi).
  rewrite Hpg. destruct (pin_count_ pg) as [|n] eqn:Hpin; [split_and!; naive_solver|].
  destruct (resident_ok s fid pg) as (_ & Hrp & Hc); try done.
  set (f := fun p : Page => mkPage (id_ p) (data_ p) (if is_dirty then true else is_dirty_ p)
                                    n (page_lsn_ p)).
  set (r' := if decide (n = 0%nat) then rp_unpin fid (replacer_ s) else replacer_ s).
  assert ((if decide (n = 0%nat)
           then set_replacer (alter_page s fid f) (rp_unpin fid (replacer_ (alter_page s fid f)))
           else alter_page s fid f) =
          set_disk (set_replacer (alter_page s fid f) r') (disk_manager_ s)) as ->.
  { subst r'. case_decide; by destruct s. }
  lazy beta iota. split_and!; [| |split; [intros _; exists fid, pg; by rewrite Hpin|done]].
  - eapply bp_inv_frame_update; eauto.
    + subst r'. case_decide; [apply rp_unpin_spec, (inv_wf _ _ Hi)|apply (inv_wf _ _ Hi)].
    + intros g. subst r' f. simpl. case_decide as Hn.
      * rewrite (proj2 (rp_unpin_spec _ _ (inv_wf _ _ Hi))). destruct (decide (g = fid)); naive_solver.
      * split; [|naive_solver]. intros Hg. left. split; [done|]. intros ->. apply Hrp in Hg. lia.
    + subst f; simpl. destruct is_dirty; [done|]. simpl. auto.
  - intros q. rewrite (view_frame_update _ _ _ _ _ _ _ _ Hi Hpg Ht) by done.
    case_decide; subst; [|done]. by rewrite (view_resident s fid pg).
Qed.

(** [flush_page] of a resident page writes its bytes to disk and marks
    it clean; no page's contents change. *)
Lemma flush_page_correct (s : BPM) pid :
  bp_inv s ->
  let '(ok, s') := flush_page s pid in
  bp_inv s' /\ (forall q, view s' q = view s q) /\
  (ok = true <-> is_Some (page_table_ s !! pid)) /\
  (ok = true -> read_page blank (disk_manager_ s') pid = view s pid).
Proof.
  intros Hi. unfold flush_page.
  destruct (page_table_ s !! pid) as [fid|] eqn:Ht; [|split_and!; naive_solver].
  pose proof Ht as (pg & Hpg & <- & Hf & _)%(inv_table_frame _ _ _ Hi).
  rewrite Hpg, wal_flush_noop by (apply (inv_persist _ _ Hi) || apply (inv_frames _ _ Hi _ _ Hpg)).
  set (f := fun p : Page => mkPage (id_ p) (data_ p) false (pin_count_ p) (page_lsn_ p)).
  set (d' := write_page (disk_manager_ s) (id_ pg) (data_ pg)).
  assert (alter_page (set_disk s d') fid f =
          set_disk (set_replacer (alter_page s fid f) (replacer_ s)) d') as -> by by destruct s.
  destruct (resident_ok s fid pg) as (_ & Hrp & Hc); try done.
  lazy beta iota. split_and!; [| |naive_solver|].
  - eapply bp_inv_frame_update; eauto using inv_wf.
    + intros g. apply rp_same_iff. by rewrite <- Hrp.
    + intros q. apply read_page_write_ne.
    + intros _. apply eq_sym, read_page_write_eq.
  - intros q. rewrite (view_frame_update _ _ _ _ _ _ _ _ Hi Hpg Ht) by (intros; by apply read_page_write_ne).
    case_decide; subst; [|done]. by rewrite (view_resident s fid pg).
  - intros _. bp_simpl. unfold d'. rewrite read_page_write_eq. by rewrite (view_resident s fid pg).
Qed.

(** A client's write into a pinned page is exactly a write of the
    abstract map at that page. *)
Lemma mark_dirty_correct (s : BPM) fid pg g :
  bp_inv s -> pages_ s !! fid = Some pg -> pin_count_ pg <> 0%nat ->
  bp_inv (mark_dirty s fid g) /\
  forall q, view (mark_dirty s fid g) q =
            if decide (q = id_ pg) then g (view s q) else view s q.
Proof.
  intros Hi Hpg Hpin.
  assert (fid ∉ free_list_ s) as Hf by (intros Hf; by apply (free_frame s fid pg) in Hf as []).
  destruct (resident_ok s fid pg) as (_ & Hrp & _); try done.
  pose proof (inv_resident _ _ _ _ Hi Hpg Hf ltac:(done)) as Ht.
  set (f := fun p : Page => mkPage (id_ p) (g (data_ p)) true (pin_count_ p) (page_lsn_ p)).
  assert (mark_dirty s fid g =
          set_disk (set_replacer (alter_page s fid f) (replacer_ s)) (disk_manager_ s))
    as -> by by destruct s.
  split.
  - eapply bp_inv_frame_update; eauto using inv_wf; [|done].
    intros h. apply rp_same_iff. by rewrite <- Hrp.
  - intros q. rewrite (view_frame_update _ _ _ _ _ _ _ _ Hi Hpg Ht) by done.
    case_decide; subst; [|done]. by rewrite (view_resident s fid pg).
Qed.

(** The detached frame: unpinned, out of the free list and the
    replacer, and either empty or still holding (and mapped from) its
    old page. *)
Lemma detached_facts (s : BPM) fid pg :
  bp_inv' (Some fid) s -> pages_ s !! fid = Some pg ->
  pin_count_ pg = 0%nat /\ fid ∉ free_list_ s /\ fid ∉ rp_frames (replacer_ s) /\
  (pg_no (id_ pg) = INVALID_PAGE_ID /\ is_dirty_ pg = false /\ page_table_ s !! id_ pg = None \/
   page_table_ s !! id_ pg = Some fid /\
   (is_dirty_ pg = false -> data_ pg = read_page blank (disk_manager_ s) (id_ pg))).
Proof.
  intros Hi Hpg. destruct (inv_detached _ _ Hi fid eq_refl) as [_ Hf].
  destruct (inv_frames _ _ Hi _ _ Hpg) as [Hok _]. unfold frame_ok in Hok.
  rewrite decide_False, decide_True in Hok by done.
  destruct Hok as [Hpin [(Hinv & Hc)|(Hv & Hc)]]; split_and!; try done.
  - intros (_ & _ & []%(fun h => h eq_refl))%(inv_rp_range _ _ Hi).
  - left. split_and!; [done|done|]. apply eq_None_not_Some. intros [g Hg].
    apply (inv_table _ _ Hi) in Hg as (_ & _ & Hv). by apply valid_pid_not_invalid in Hv.
  - intros (_ & _ & []%(fun h => h eq_refl))%(inv_rp_range _ _ Hi).
  - right. split; [|done]. apply (inv_table _ _ Hi). eauto.
Qed.

Lemma frame_ok_other (s : BPM) fid j pg :
  j <> fid -> frame_ok (Some fid) s j pg <-> frame_ok None s j pg.
Proof. intros Hj. unfold frame_ok. repeat case_decide; try congruence; tauto. Qed.

(** [find_victim_page] detaches a frame and changes nothing else the
    invariant or the view looks at. *)
Lemma find_victim_page_spec (s s1 : BPM) fid :
  bp_inv s -> find_victim_page s = Some (fid, s1) ->
  bp_inv' (Some fid) s1 /\ pages_ s1 = pages_ s /\ page_table_ s1 = page_table_ s /\
  disk_manager_ s1 = disk_manager_ s /\ log_manager_ s1 = log_manager_ s /\
  free_list_ s1 ⊆ free_list_ s.
Proof.
  intros Hi. unfold find_victim_page.
  destruct (free_list_ s) as [|f rest] eqn:Hfl.
  - destruct (rp_victim (replacer_ s)) as [[g r']|] eqn:Hv; [|done]. intros [= <- <-].
    destruct (rp_victim_Some _ _ _ (inv_wf _ _ Hi) Hv) as (Hg & Hwf & Hr').
    split_and!; [|done..|bp_simpl; by rewrite Hfl]. constructor; bp_simpl.
    + rewrite Hfl. constructor.
    + done.
    + rewrite Hfl. set_solver.
    + intros h. rewrite Hr'. intros [Hh ?]. destruct (inv_rp_range _ _ Hi h Hh) as (? & ? & _).
      split_and!; congruence.
    + intros h [= <-]. destruct (inv_rp_range _ _ Hi g Hg) as (? & ? & _). done.
    + intros j pg' Hj. destruct (inv_frames _ _ Hi _ _ Hj) as [Hok ?]. split; [|done].
      destruct (decide (j = g)) as [->|Hjg].
      * destruct (inv_rp_range _ _ Hi g Hg) as (_ & Hgf & _).
        destruct (resident_ok s g pg') as (Hval & Hrp & Hc); try done.
        unfold frame_ok. bp_simpl. rewrite decide_False, decide_True by done.
        split; [by apply Hrp|]. by right.
      * apply frame_ok_other; [done|]. revert Hok. apply frame_ok_same; try done.
        bp_simpl. rewrite Hr'. naive_solver.
    + apply (inv_table _ _ Hi).
    + apply (inv_persist _ _ Hi).
    + apply (inv_alloc _ _ Hi).
  - intros [= <- <-]. pose proof (inv_nodup _ _ Hi) as Hnd. rewrite Hfl in Hnd.
    apply NoDup_cons in Hnd as [Hf Hnd].
    assert (f ∈ free_list_ s) as Hff by (rewrite Hfl; set_solver).
    split_and!; try done; [|bp_simpl; set_solver]. constructor; bp_simpl.
    + done.
    + apply (inv_wf _ _ Hi).
    + intros h Hh. apply (inv_free_range _ _ Hi). rewrite Hfl. set_solver.
    + intros h Hh. destruct (inv_rp_range _ _ Hi h Hh) as (? & Hhf & _).
      rewrite Hfl in Hhf. split_and!; [done|set_solver|]. intros [= ->]. set_solver.
    + intros h [= <-]. split; [by apply (inv_free_range _ _ Hi)|done].
    + intros j pg' Hj. destruct (inv_frames _ _ Hi _ _ Hj) as [Hok ?]. split; [|done].
      unfold frame_ok in *; bp_simpl. rewrite Hfl in Hok.
      destruct (decide (j = f)) as [->|Hjf].
      * rewrite decide_True in Hok by set_solver. rewrite decide_False, decide_True by done.
        naive_solver.
      * destruct (decide (j ∈ rest)) as [Hr|Hr].
        -- by rewrite decide_True in Hok by set_solver.
        -- rewrite decide_False in Hok by set_solver.
           by rewrite decide_False by congruence.
    + intros pid h. rewrite (inv_table _ _ Hi), Hfl. split.
      * intros (? & Hh & ?). split_and!; [done|set_solver|done].
      * intros ((pg' & Hpg' & <-) & Hh & Hv). split_and!; [eauto| |done].
        intros [-> | ?]%elem_of_cons; [|done].
        destruct (free_frame s f pg') as (_ & Hinv & _); [done|done|done|].
        by apply valid_pid_not_invalid in Hv.
    + apply (inv_persist _ _ Hi).
    + apply (inv_alloc _ _ Hi).
Qed.

(** [find_victim_page] fails exactly when every frame is pinned. *)
Lemma find_victim_page_None (s : BPM) :
  bp_inv s ->
  find_victim_page s = None <->
  forall fid pg, pages_ s !! fid = Some pg -> pin_count_ pg <> 0%nat.
Proof.
  intros Hi. unfold find_victim_page.
  destruct (free_list_ s) as [|f rest] eqn:Hfl.
  - destruct (rp_victim (replacer_ s)) as [[g r']|] eqn:Hv.
    + split; [done|]. intros Hall.
      destruct (rp_victim_Some _ _ _ (inv_wf _ _ Hi) Hv) as (Hg & _).
      destruct (inv_rp_range _ _ Hi g Hg) as ([pg Hpg] & Hgf & _).
      destruct (resident_ok s g pg) as (_ & Hrp & _); try done.
      exfalso. by apply (Hall g pg Hpg), Hrp.
    + split; [|done]. intros _ fid pg Hpg Hpin.
      apply (rp_victim_None _ (inv_wf _ _ Hi)) in Hv.
      destruct (resident_ok s fid pg) as (_ & Hrp & _); [done|done|rewrite Hfl; set_solver|].
      apply Hrp in Hpin. rewrite Hv in Hpin. set_solver.
  - split; [done|]. intros Hall.
    assert (f ∈ free_list_ s) as Hff by (rewrite Hfl; set_solver).
    destruct (inv_free_range _ _ Hi f Hff) as [pg Hpg].
    destruct (free_frame s f pg) as (Hpin & _); [done|done|done|]. exfalso. by apply (Hall f pg).
Qed.

(** A page id mapped to frame [fid] is held by no other frame. *)
Lemma frame_id_ne x (s : BPM) fid j pg' pid :
  bp_inv' x s -> page_table_ s !! pid = Some fid -> pages_ s !! j = Some pg' -> j <> fid ->
  valid_pid (disk_manager_ s) (id_ pg') -> id_ pg' <> pid.
Proof.
  intros Hi Ht Hj Hne Hv <-. destruct (decide (j ∈ free_list_ s)) as [Hjf|Hjf].
  - destruct (inv_frames _ _ Hi _ _ Hj) as [Hok _]. unfold frame_ok in Hok.
    rewrite decide_True in Hok by done. destruct Hok as (_ & Hinv & _).
    by apply valid_pid_not_invalid in Hv.
  - assert (page_table_ s !! id_ pg' = Some j) as Hj' by (apply (inv_table _ _ Hi); eauto).
    congruence.
Qed.

Lemma update_page_eq x (s : BPM) fid pg pid :
  bp_inv' x s -> pages_ s !! fid = Some pg ->
  update_page blank s fid pid =
  mkBPM (alter (fun p => mkPage pid blank false (pin_count_ p) INVALID_LSN) fid (pages_ s))
        (delete (id_ pg) (<[pid := fid]> (page_table_ s))) (free_list_ s) (replacer_ s)
        (if is_dirty_ pg then write_page (disk_manager_ s) (id_ pg) (data_ pg)
         else disk_manager_ s)
        (log_manager_ s).
Proof.
  intros Hi Hpg. unfold update_page. rewrite Hpg.
  destruct (is_dirty_ pg); [|by destruct s].
  rewrite wal_flush_noop by (apply (inv_persist _ _ Hi) || apply (inv_frames _ _ Hi _ _ Hpg)).
  by destruct s.
Qed.

Lemma lookup_remap (t : gmap PageId nat) o pid fid q :
  o <> pid ->
  delete o (<[pid := fid]> t) !! q =
  if decide (q = o) then None else if decide (q = pid) then Some fid else t !! q.
Proof.
  intros Hne. rewrite lookup_delete. case_decide; [by rewrite decide_True|].
  rewrite decide_False by congruence. rewrite lookup_insert.
  case_decide; subst; [by rewrite decide_True|by rewrite decide_False].
Qed.

Section install.
Context (s : BPM) (fid : nat) (pg : Page) (pid : PageId).
Hypothesis Hi : bp_inv' (Some fid) s.
Hypothesis Hpg : pages_ s !! fid = Some pg.
Hypothesis Hvalid : valid_pid (disk_manager_ s) pid.
Hypothesis Hfresh : page_table_ s !! pid = None.

(** The disk after the victim's write-back. *)
Let dk : DiskM :=
  if is_dirty_ pg then write_page (disk_manager_ s) (id_ pg) (data_ pg) else disk_manager_ s.

Lemma install_old_ne : id_ pg <> pid.
Proof.
  intros Heq. destruct (detached_facts s fid pg Hi Hpg) as (_ & _ & _ & [(Hinv & _)|(Ht & _)]).
  - rewrite Heq in Hinv. by apply valid_pid_not_invalid in Hvalid.
  - congruence.
Qed.

Lemma install_fd : fd2pageno dk = fd2pageno (disk_manager_ s).
Proof. unfold dk. by destruct (is_dirty_ pg). Qed.

Lemma install_read q : q <> id_ pg -> read_page blank dk q = read_page blank (disk_manager_ s) q.
Proof. intros Hq. unfold dk. destruct (is_dirty_ pg); [by apply read_page_write_ne|done]. Qed.

Lemma install_view_old :
  read_page blank dk (id_ pg) = view s (id_ pg).
Proof.
  unfold view. destruct (detached_facts s fid pg Hi Hpg) as (_ & _ & _ & [(_ & Hc & Ht)|(Ht & Hc)]).
  - rewrite Ht. unfold dk. by rewrite Hc.
  - rewrite Ht. unfold frame_data. rewrite Hpg. simpl. unfold dk.
    destruct (is_dirty_ pg); [apply read_page_write_eq|by rewrite Hc].
Qed.

Context (d : Data) (b : bool).
Hypothesis Hclean : b = false -> d = read_page blank dk pid.

Let s' : BPM :=
  mkBPM (alter (fun _ => mkPage pid d b 1 INVALID_LSN) fid (pages_ s))
        (delete (id_ pg) (<[pid := fid]> (page_table_ s))) (free_list_ s)
        (rp_pin fid (replacer_ s)) dk (log_manager_ s).

Lemma install_table q g :
  page_table_ s' !! q = Some g <->
  (exists pg', pages_ s' !! g = Some pg' /\ id_ pg' = q) /\ g ∉ free_list_ s' /\
  valid_pid (disk_manager_ s') q.
Proof.
  destruct (detached_facts s fid pg Hi Hpg) as (_ & Hff & _ & Hold).
  unfold s'; bp_simpl. rewrite lookup_remap by apply install_old_ne.
  rewrite (valid_pid_ext _ _ _ install_fd), list_lookup_alter.
  destruct (decide (q = id_ pg)) as [->|Hq]; [|destruct (decide (q = pid)) as [->|Hp]].
  - split; [done|]. intros [(pg' & Hg & Hid) [Hgf Hv]]. case_decide as Hgfid; [subst g|].
    + rewrite Hpg in Hg. injection Hg as Hg. subst pg'. simpl in Hid. exfalso. by apply install_old_ne.
    + destruct Hold as [(Hinv & _)|(Ht & _)]; [by apply valid_pid_not_invalid in Hv|].
      exfalso. apply (frame_id_ne _ _ fid g pg' (id_ pg) Hi Ht Hg); [congruence|by rewrite Hid|done].
  - split.
    + intros [= <-]. rewrite decide_True, Hpg by done. naive_solver.
    + intros [(pg' & Hg & Hid) [Hgf Hv]]. case_decide; [by subst|].
      assert (page_table_ s !! pid = Some g) as Hg'; [|congruence].
      apply (inv_table _ _ Hi). subst pid. eauto.
  - rewrite (inv_table _ _ Hi). case_decide as Hgfid; [subst g|done].
    rewrite Hpg. simpl. split; intros [(p & [= <-] & Hid) ?]; simpl in Hid; exfalso; congruence.
Qed.

Lemma install_inv : bp_inv s'.
Proof.
  destruct (detached_facts s fid pg Hi Hpg) as (_ & Hff & Hfr & Hold).
  destruct (rp_pin_spec fid (replacer_ s) (inv_wf _ _ Hi)) as [Hwf Hrp].
  constructor; try apply install_table; unfold s'; bp_simpl.
  - apply (inv_nodup _ _ Hi).
  - done.
  - intros g Hg. apply is_Some_alter. by apply (inv_free_range _ _ Hi).
  - intros g [Hg Hne]%Hrp. rewrite is_Some_alter.
    destruct (inv_rp_range _ _ Hi g Hg) as (? & ? & _). done.
  - done.
  - intros j pg'. rewrite list_lookup_alter. case_decide as Hj.
    + subst j. rewrite Hpg. intros [= <-]. split; [|done].
      unfold frame_ok; bp_simpl. rewrite !decide_False by done.
      rewrite (valid_pid_ext _ _ _ install_fd), Hrp. split_and!; [done| |done].
      split; [done|]. intros [_ []]. done.
    + intros Hj'. destruct (inv_frames _ _ Hi _ _ Hj') as [Hok ?]. split; [|done].
      apply frame_ok_other in Hok; [|done].
      apply (frame_ok_same None s); [done|apply install_fd| |bp_simpl; rewrite Hrp; naive_solver|done].
      intros Hv. apply install_read.
      destruct Hold as [(Hinv & _)|(Ht & _)].
      * intros Heq. rewrite Heq in Hv. by apply valid_pid_not_invalid in Hv.
      * by apply (frame_id_ne _ _ _ _ _ _ Hi Ht Hj').
  - apply (inv_persist _ _ Hi).
  - rewrite install_fd. apply (inv_alloc _ _ Hi).
Qed.

Lemma install_view q : view s' q = if decide (q = pid) then d else view s q.
Proof.
  destruct (detached_facts s fid pg Hi Hpg) as (_ & Hff & _ & Hold).
  unfold view at 1, frame_data. unfold s'; bp_simpl.
  rewrite lookup_remap by apply install_old_ne.
  destruct (decide (q = id_ pg)) as [->|Hq].
  - rewrite decide_False by apply install_old_ne. apply install_view_old.
  - case_decide; [by rewrite list_lookup_alter, decide_True, Hpg|].
    unfold view, frame_data. destruct (page_table_ s !! q) as [g|] eqn:Hg; [|by apply install_read].
    rewrite list_lookup_alter, decide_False; [done|]. intros <-.
    apply (inv_table _ _ Hi) in Hg as [(p & Hp & <-) _]. congruence.
Qed.

End install.

Lemma view_ext (s1 s2 : BPM) :
  pages_ s1 = pages_ s2 -> page_table_ s1 = page_table_ s2 ->
  disk_pages (disk_manager_ s1) = disk_pages (disk_manager_ s2) ->
  forall q, view s1 q = view s2 q.
Proof. intros Hp Ht Hd q. unfold view, frame_data, read_page. by rewrite Hp, Ht, Hd. Qed.

(** [fetch_page]: on success the page is resident in the returned
    frame, which holds exactly the page's contents, and no page's
    contents change; it fails, changing nothing, only when every frame
    is pinned. *)
Theorem fetch_page_correct (s : BPM) pid :
  bp_inv s -> valid_pid (disk_manager_ s) pid ->
  let '(r, s') := fetch_page blank s pid in
  match r with
  | Some fid =>
      bp_inv s' /\ (forall q, view s' q = view s q) /\
      page_table_ s' !! pid = Some fid /\ frame_data s' fid = view s pid
  | None => s' = s /\ forall fid pg, pages_ s !! fid = Some pg -> pin_count_ pg <> 0%nat
  end.
Proof.
  intros Hi Hv. destruct (page_table_ s !! pid) as [fid|] eqn:Ht.
  { pose proof (fetch_page_hit s pid fid Hi Ht) as Hhit.
    destruct (fetch_page blank s pid) as [r s']. naive_solver. }
  unfold fetch_page. rewrite Ht.
  destruct (find_victim_page s) as [[fid s1]|] eqn:Hv1; [|split; [done|]; by apply (find_victim_page_None s Hi)].
  destruct (find_victim_page_spec s s1 fid Hi Hv1) as (Hi1 & Hp & Ht1 & Hd & Hl & _).
  destruct (inv_detached _ _ Hi1 fid eq_refl) as [[pg Hpg] _].
  rewrite (update_page_eq _ _ _ _ pid Hi1 Hpg).
  rewrite <- Hd in Hv. rewrite <- Ht1 in Ht.
  set (dk := if is_dirty_ pg then write_page (disk_manager_ s1) (id_ pg) (data_ pg)
             else disk_manager_ s1).
  set (d := read_page blank dk pid).
  assert (Hold := install_old_ne s1 fid pg pid Hi1 Hpg Hv Ht).
  assert (d = view s1 pid) as Hd1.
  { unfold d, view. rewrite Ht. by apply install_read. }
  match goal with |- bp_inv ?st /\ _ =>
    assert (st =
      mkBPM (alter (fun _ => mkPage pid d false 1 INVALID_LSN) fid (pages_ s1))
            (delete (id_ pg) (<[pid := fid]> (page_table_ s1))) (free_list_ s1)
            (rp_pin fid (replacer_ s1)) dk (log_manager_ s1)) as -> end.
  { unfold set_replacer, alter_page; bp_simpl. f_equal.
    rewrite list_alter_alter_eq. by apply list_alter_ext. }
  split_and!.
  - by apply install_inv.
  - intros q. rewrite (install_view s1 fid pg pid Hi1 Hpg Hv Ht).
    rewrite (view_ext s1 s) by (by rewrite ?Hd). case_decide; [subst q|done].
    rewrite Hd1. apply view_ext; by rewrite ?Hd.
  - bp_simpl. rewrite lookup_remap by done. by rewrite decide_False, decide_True.
  - unfold frame_data; bp_simpl. rewrite list_lookup_alter, decide_True, Hpg by done. simpl.
    rewrite Hd1. apply view_ext; by rewrite ?Hd.
Qed.

Lemma next_page_no_alloc (d : DiskM) fd fd' :
  next_page_no (allocate_page d fd).2 fd' =
  if decide (fd' = fd) then next_page_no d fd + 1 else next_page_no d fd'.
Proof.
  unfold allocate_page, next_page_no at 1; simpl. rewrite lookup_insert.
  case_decide; subst; [by rewrite decide_True|by rewrite decide_False].
Qed.

Lemma valid_pid_alloc (d : DiskM) fd p :
  valid_pid d p -> valid_pid (allocate_page d fd).2 p.
Proof. unfold valid_pid. rewrite next_page_no_alloc. case_decide; subst; lia. Qed.

Lemma read_page_alloc (d : DiskM) fd p :
  read_page blank (allocate_page d fd).2 p = read_page blank d p.
Proof. done. Qed.

(** Allocating a page number keeps the invariant. *)
Lemma bp_inv_alloc x (s : BPM) fd :
  bp_inv' x s -> bp_inv' x (set_disk s (allocate_page (disk_manager_ s) fd).2).
Proof.
  intros Hi. constructor; bp_simpl; try apply Hi.
  - intros fid pg Hpg. destruct (inv_frames _ _ Hi _ _ Hpg) as [Hok ?]. split; [|done].
    unfold frame_ok in *; bp_simpl.
    repeat case_decide; rewrite ?read_page_alloc; [done| |].
    + destruct Hok as [? [?|[? ?]]]; [by split; [|left]|split; [done|right]; eauto using valid_pid_alloc].
    + destruct Hok as (? & ? & ?). split_and!; eauto using valid_pid_alloc.
  - intros pid fid. rewrite (inv_table _ _ Hi). split.
    + intros (? & ? & ?). eauto using valid_pid_alloc.
    + intros ((pg & Hpg & <-) & Hf & Hv). split_and!; [eauto|done|].
      destruct (inv_frames _ _ Hi _ _ Hpg) as [Hok _]. unfold frame_ok in Hok.
      rewrite decide_False in Hok by done.
      case_decide; [|apply Hok]. destruct Hok as [_ [(Hinv & _)|(? & _)]]; [|done].
      unfold valid_pid in Hv. rewrite Hinv in Hv. unfold INVALID_PAGE_ID in Hv. lia.
  - intros fd' k. unfold allocate_page; simpl. rewrite lookup_insert. case_decide.
    + intros [= <-]. unfold next_page_no. destruct (fd2pageno (disk_manager_ s) !! fd) eqn:E;
        simpl; [apply (inv_alloc _ _ Hi) in E|]; lia.
    + apply (inv_alloc _ _ Hi).
Qed.

Lemma alloc_fresh x (s : BPM) fd :
  bp_inv' x s ->
  valid_pid (allocate_page (disk_manager_ s) fd).2 (mkPageId fd (allocate_page (disk_manager_ s) fd).1) /\
  page_table_ s !! mkPageId fd (allocate_page (disk_manager_ s) fd).1 = None.
Proof.
  intros Hi. unfold valid_pid. rewrite next_page_no_alloc, decide_True by done. simpl. split.
  - unfold next_page_no. destruct (fd2pageno (disk_manager_ s) !! fd) eqn:E;
      simpl; [apply (inv_alloc _ _ Hi) in E|]; lia.
  - apply eq_None_not_Some. intros [g (_ & _ & Hv)%(inv_table _ _ Hi)].
    unfold valid_pid in Hv. simpl in Hv. lia.
Qed.

(** [new_page]: on success the new page id is fresh (the disk manager's
    next page number of file [fd], in no frame), and the abstract map gains that page,
    with empty contents; it fails, changing nothing, only when every
    frame is pinned. *)
Theorem new_page_correct (s : BPM) fd :
  bp_inv s ->
  let '(r, s') := new_page blank s fd in
  match r with
  | Some (pid, fid) =>
      bp_inv s' /\ pid = mkPageId fd (next_page_no (disk_manager_ s) fd) /\
      page_table_ s !! pid = None /\
      page_table_ s' !! pid = Some fid /\
      (forall q, view s' q = if decide (q = pid) then blank else view s q)
  | None => s' = s /\ forall fid pg, pages_ s !! fid = Some pg -> pin_count_ pg <> 0%nat
  end.
Proof.
  intros Hi. unfold new_page.
  destruct (find_victim_page s) as [[fid s1]|] eqn:Hv1; [|split; [done|]; by apply (find_victim_page_None s Hi)].
  destruct (find_victim_page_spec s s1 fid Hi Hv1) as (Hi1 & Hp & Ht1 & Hd & Hl & _).
  destruct (alloc_fresh _ s1 fd Hi1) as [Hv Hfr].
  pose proof (bp_inv_alloc _ s1 fd Hi1) as Hi2.
  destruct (allocate_page (disk_manager_ s1) fd) as [no d1] eqn:Ha. simpl in Hv, Hfr, Hi2.
  set (s2 := set_disk s1 d1) in *.
  destruct (inv_detached _ _ Hi2 fid eq_refl) as [[pg Hpg] _].
  rewrite (update_page_eq _ _ _ _ (mkPageId fd no) Hi2 Hpg).
  set (dk := if is_dirty_ pg then write_page d1 (id_ pg) (data_ pg) else d1).
  match goal with |- bp_inv ?st /\ _ =>
    assert (st =
      mkBPM (alter (fun _ => mkPage (mkPageId fd no) blank true 1 INVALID_LSN) fid (pages_ s2))
            (delete (id_ pg) (<[mkPageId fd no := fid]> (page_table_ s2))) (free_list_ s2)
            (rp_pin fid (replacer_ s2)) dk (log_manager_ s2)) as -> end.
  { unfold set_replacer, alter_page; bp_simpl. f_equal.
    rewrite list_alter_alter_eq. by apply list_alter_ext. }
  assert (Hold := install_old_ne s2 fid pg (mkPageId fd no) Hi2 Hpg Hv Hfr).
  split_and!; [by apply install_inv| |by rewrite <- Ht1| |].
  - unfold allocate_page in Ha. injection Ha as <- _. by rewrite Hd.
  - bp_simpl. rewrite lookup_remap by done. by rewrite decide_False, decide_True.
  - intros q. rewrite (install_view s2 fid pg _ Hi2 Hpg Hv Hfr blank true).
    case_decide; [done|]. apply view_ext; subst s2; bp_simpl; try done.
    rewrite <- Hd. unfold allocate_page in Ha. by injection Ha as _ <-.
Qed.

(** [delete_page]: refused (changing nothing) exactly when the page is
    resident and pinned; otherwise the page leaves the pool and its
    frame returns to the free list.  A dirty page's bytes are dropped,
    not written back: the abstract map then shows the disk copy. *)
Theorem delete_page_correct (s : BPM) pid :
  bp_inv s ->
  let '(ok, s') := delete_page blank s pid in
  bp_inv s' /\
  (ok = true <-> forall fid pg, page_table_ s !! pid = Some fid ->
                  pages_ s !! fid = Some pg -> pin_count_ pg = 0%nat) /\
  (ok = false -> s' = s) /\
  (ok = true -> page_table_ s' !! pid = None /\
     forall q, view s' q =
       if decide (q = pid) then read_page blank (disk_manager_ s) pid else view s q).
Proof.
  intros Hi. unfold delete_page.
  destruct (page_table_ s !! pid) as [fid|] eqn:Ht.
  2:{ split_and!; try naive_solver. intros _. split; [done|].
      intros q. case_decide; [subst; unfold view; by rewrite Ht|done]. }
  pose proof Ht as (pg & Hpg & Hid & Hf & Hv)%(inv_table_frame _ _ _ Hi). rewrite Hpg.
  case_decide as Hpin.
  { split_and!; try done. split; [done|]. intros Hall. specialize (Hall fid pg eq_refl Hpg). lia. }
  assert (pin_count_ pg = 0%nat) as Hpin0 by lia.
  destruct (rp_pin_spec fid (replacer_ s) (inv_wf _ _ Hi)) as [Hwf Hrp].
  (* frames other than [fid] hold pages other than [pid] *)
  assert (Hother : forall j pg', pages_ s !! j = Some pg' -> j <> fid ->
            valid_pid (disk_manager_ s) (id_ pg') -> id_ pg' <> pid).
  { intros j pg' Hj Hne. by apply (frame_id_ne _ _ _ _ _ _ Hi Ht Hj). }
  split_and!; [|split; [intros _ ? ? [= <-] Hp; rewrite Hpg in Hp; by injection Hp as <-|done]|done|].
  - constructor; bp_simpl.
    + apply NoDup_app. split_and!; [apply (inv_nodup _ _ Hi)| |apply NoDup_singleton].
      set_solver.
    + done.
    + intros g Hg. apply is_Some_alter. apply elem_of_app in Hg as [Hg|Hg].
      * by apply (inv_free_range _ _ Hi).
      * assert (g = fid) as -> by set_solver. eauto.
    + intros g [Hg Hne]%Hrp. rewrite is_Some_alter.
      destruct (inv_rp_range _ _ Hi g Hg) as (? & ? & _). set_solver.
    + done.
    + intros j pg'. rewrite list_lookup_alter. case_decide as Hj.
      * subst j. rewrite Hpg. intros [= <-]. split; [|done].
        unfold frame_ok; bp_simpl. rewrite decide_True by set_solver. done.
      * intros Hj'. destruct (inv_frames _ _ Hi _ _ Hj') as [Hok ?]. split; [|done].
        revert Hok. apply frame_ok_same; bp_simpl; try done; [set_solver|].
        rewrite Hrp. naive_solver.
    + intros q g. rewrite lookup_delete, list_lookup_alter. case_decide as Hq.
      * subst q. split; [done|]. intros [(pg' & Hg & Hid') [Hgf Hvq]]. case_decide.
        -- subst g. rewrite Hpg in Hg. injection Hg as <-. simpl in Hid'.
           apply valid_pid_not_invalid in Hvq. rewrite <- Hid' in Hvq. done.
        -- exfalso. apply (Hother g pg'); [done|congruence|by rewrite Hid'|done].
      * rewrite (inv_table _ _ Hi). case_decide as Hg; [subst g|set_solver].
        rewrite Hpg. simpl. split.
        -- intros [(p & [= <-] & ?) _]. congruence.
        -- intros [_ [Hgf _]]. set_solver.
    + apply (inv_persist _ _ Hi).
    + apply (inv_alloc _ _ Hi).
  - intros _. bp_simpl. split; [by rewrite lookup_delete_eq|].
    intros q. unfold view at 1, frame_data; bp_simpl. rewrite lookup_delete.
    case_decide as Hq; [subst q; by rewrite decide_True|rewrite decide_False by done]. unfold view, frame_data.
    destruct (page_table_ s !! q) as [g|] eqn:Hg; [|done].
    rewrite list_lookup_alter, decide_False; [done|]. intros <-.
    apply (inv_table _ _ Hi) in Hg as [(p & Hp & <-) _]. congruence.
Qed.

(** One iteration of [flush_all_pages] is [flush_page] of the frame's
    page when the frame holds a page of [fd], and nothing otherwise. *)
Lemma flush_frame_step (s : BPM) fd j :
  bp_inv s ->
  let s' := flush_frame fd s j in
  bp_inv s' /\ (forall q, view s' q = view s q) /\
  length (pages_ s') = length (pages_ s) /\
  (forall k, k <> j -> pages_ s' !! k = pages_ s !! k) /\
  (forall pg, pages_ s' !! j = Some pg -> pg_fd (id_ pg) = fd ->
              pg_no (id_ pg) <> INVALID_PAGE_ID -> is_dirty_ pg = false).
Proof.
  intros Hi. unfold flush_frame.
  destruct (pages_ s !! j) as [pg|] eqn:Hpg; [|split_and!; naive_solver].
  case_decide as Hg; [|split_and!; try naive_solver; intros pg' [= <-]; naive_solver].
  assert (j ∉ free_list_ s) as Hf by (intros Hf; apply (free_frame s j pg) in Hf as (_ & ? & _); naive_solver).
  pose proof (inv_resident _ _ _ _ Hi Hpg Hf ltac:(done)) as Ht.
  pose proof (flush_page_correct s (id_ pg) Hi) as Hfl.
  assert (flush_page s (id_ pg) =
    (true, alter_page (set_disk (wal_flush s pg)
             (write_page (disk_manager_ (wal_flush s pg)) (id_ pg) (data_ pg))) j
             (fun p => mkPage (id_ p) (data_ p) false (pin_count_ p) (page_lsn_ p)))) as E.
  { unfold flush_page. by rewrite Ht, Hpg. }
  rewrite E in Hfl. destruct Hfl as (Hi' & Hv' & _).
  rewrite wal_flush_noop in * by (apply (inv_persist _ _ Hi) || apply (inv_frames _ _ Hi _ _ Hpg)).
  split_and!; try done.
  - apply length_alter.
  - intros k Hk. apply list_lookup_alter_ne. congruence.
  - bp_simpl. rewrite list_lookup_alter, decide_True, Hpg by done. by intros ? [= <-].
Qed.

Lemma flush_frames_spec (s : BPM) fd l :
  bp_inv s ->
  let s' := foldl (flush_frame fd) s l in
  bp_inv s' /\ (forall q, view s' q = view s q) /\
  length (pages_ s') = length (pages_ s) /\
  (forall k, k ∉ l -> pages_ s' !! k = pages_ s !! k) /\
  (forall fid pg, fid ∈ l -> pages_ s' !! fid = Some pg -> pg_fd (id_ pg) = fd ->
                  pg_no (id_ pg) <> INVALID_PAGE_ID -> is_dirty_ pg = false).
Proof.
  revert s. induction l as [|j l IH]; intros s Hi; simpl.
  { split_and!; try done. intros ? ? Hf. by apply elem_of_nil in Hf. }
  destruct (flush_frame_step s fd j Hi) as (Hi1 & Hv1 & Hl1 & Hk1 & Hc1).
  destruct (IH _ Hi1) as (Hi2 & Hv2 & Hl2 & Hk2 & Hc2).
  split_and!; try done.
  - intros q. by rewrite Hv2, Hv1.
  - by rewrite Hl2, Hl1.
  - intros k Hk. rewrite Hk2, Hk1 by set_solver. done.
  - intros fid pg Hin. destruct (decide (fid ∈ l)); [by apply Hc2|].
    assert (fid = j) as -> by set_solver. rewrite Hk2 by done. apply Hc1.
Qed.

(** [flush_all_pages(fd)]: no page's contents change, and afterwards
    every resident page of [fd] is on disk as the pool holds it. *)
Theorem flush_all_pages_correct (s : BPM) fd :
  bp_inv s ->
  let s' := flush_all_pages s fd in
  bp_inv s' /\ (forall q, view s' q = view s q) /\
  (forall q, pg_fd q = fd -> is_Some (page_table_ s' !! q) ->
             read_page blank (disk_manager_ s') q = view s q).
Proof.
  intros Hi. unfold flush_all_pages.
  destruct (flush_frames_spec s fd (seq 0 (length (pages_ s))) Hi) as (Hi' & Hv & Hl & _ & Hc).
  split_and!; try done. intros q Hfd [fid Ht].
  pose proof Ht as (pg & Hpg & <- & Hf & Hval)%(inv_table_frame _ _ _ Hi').
  destruct (resident_ok _ fid pg Hi' Hpg Hf) as (_ & _ & Hcl).
  rewrite <- Hv. unfold view, frame_data. rewrite Ht, Hpg. simpl. symmetry. apply Hcl.
  apply (Hc fid pg); [|done|done|by apply valid_pid_not_invalid in Hval].
  apply elem_of_seq. split; [lia|]. rewrite <- Hl. by apply lookup_lt_Some in Hpg.
Qed.

(** The constructor establishes the invariant: every frame is free. *)
Theorem create_inv pool_size (r0 : R) (d : DiskM) (l : LogManager) :
  rp_wf r0 -> rp_frames r0 = [] -> INVALID_LSN <= persist_lsn_ l ->
  (forall fd k, fd2pageno d !! fd = Some k -> 0 <= k) ->
  bp_inv (create blank pool_size r0 d l).
Proof.
  intros Hwf Hr0 Hl Hd. unfold create. constructor; bp_simpl; try done.
  - apply NoDup_seq.
  - intros fid Hfid%elem_of_seq. apply lookup_lt_is_Some. rewrite length_replicate. lia.
  - rewrite Hr0. set_solver.
  - intros fid pg (-> & Hlt)%lookup_replicate. split; [|done].
    unfold frame_ok; bp_simpl. rewrite decide_True; [done|]. apply elem_of_seq. lia.
  - intros pid fid. rewrite lookup_empty. split; [done|].
    intros [(pg & (-> & Hlt)%lookup_replicate & _) [Hf _]]. exfalso. apply Hf, elem_of_seq. lia.
Qed.

(** Frame status: an unpinned frame is on exactly one of the free
    list and the replacer; a pinned frame is on neither. *)
Theorem frame_status (s : BPM) fid pg :
  bp_inv s -> pages_ s !! fid = Some pg ->
  (pin_count_ pg = 0%nat <-> fid ∈ free_list_ s \/ fid ∈ rp_frames (replacer_ s)) /\
  ~ (fid ∈ free_list_ s /\ fid ∈ rp_frames (replacer_ s)).
Proof.
  intros Hi Hpg. split; [|intros [Hf (_ & Hf' & _)%(inv_rp_range _ _ Hi)]; done].
  destruct (decide (fid ∈ free_list_ s)) as [Hf|Hf].
  - destruct (free_frame s fid pg Hi Hf Hpg) as (Hpin & _). tauto.
  - destruct (resident_ok s fid pg Hi Hpg Hf) as (_ & Hrp & _). tauto.
Qed.

(** The write-ahead branch of [update_page], [flush_page] and
    [flush_all_pages] ([page_lsn > persist_lsn], an [assert(0)] in this
    build) is never taken: no frame's LSN is ahead of the log. *)
Theorem wal_assert_unreachable (s : BPM) fid pg :
  bp_inv s -> pages_ s !! fid = Some pg ->
  ~ (persist_lsn_ (log_manager_ s) < page_lsn_ pg).
Proof.
  intros Hi Hpg. destruct (inv_frames _ _ Hi _ _ Hpg) as [_ ->].
  pose proof (inv_persist _ _ Hi). lia.
Qed.

(** The calls a client makes on the pool.  A client fetches only pages
    it has allocated and writes only into frames it has pinned; these
    are the callers' contract, checked here as guards. *)
Inductive bp_call :=
  | CallFetch (pid : PageId)
  | CallUnpin (pid : PageId) (is_dirty : bool)
  | CallFlush (pid : PageId)
  | CallNew (fd : Z)
  | CallDelete (pid : PageId)
  | CallFlushAll (fd : Z)
  | CallWrite (fid : nat) (f : Data -> Data).

Definition exec_call (s : BPM) (c : bp_call) : BPM :=
  match c with
  | CallFetch pid =>
      if decide (valid_pid (disk_manager_ s) pid) then (fetch_page blank s pid).2 else s
  | CallUnpin pid b => (unpin_page s pid b).2
  | CallFlush pid => (flush_page s pid).2
  | CallNew fd => (new_page blank s fd).2
  | CallDelete pid => (delete_page blank s pid).2
  | CallFlushAll fd => flush_all_pages s fd
  | CallWrite fid f =>
      match pages_ s !! fid with
      | Some pg => if decide (pin_count_ pg <> 0%nat) then mark_dirty s fid f else s
      | None => s
      end
  end.

Lemma exec_call_inv (s : BPM) c : bp_inv s -> bp_inv (exec_call s c).
Proof.
  intros Hi. destruct c as [pid|pid b|pid|fd|pid|fd|fid f]; simpl.
  - case_decide as Hv; [|done]. pose proof (fetch_page_correct s pid Hi Hv) as Hs.
    destruct (fetch_page blank s pid) as [[fid|] s']; simpl; [apply Hs|by destruct Hs as [-> _]].
  - pose proof (unpin_page_correct s pid b Hi) as Hs.
    destruct (unpin_page s pid b) as [ok s']. apply Hs.
  - pose proof (flush_page_correct s pid Hi) as Hs.
    destruct (flush_page s pid) as [ok s']. apply Hs.
  - pose proof (new_page_correct s fd Hi) as Hs.
    destruct (new_page blank s fd) as [[[pid fid]|] s']; simpl; [apply Hs|by destruct Hs as [-> _]].
  - pose proof (delete_page_correct s pid Hi) as Hs.
    destruct (delete_page blank s pid) as [ok s']. apply Hs.
  - apply (flush_all_pages_correct s fd Hi).
  - destruct (pages_ s !! fid) as [pg|] eqn:Hpg; [|done].
    case_decide; [|done]. eapply proj1, mark_dirty_correct; eauto.
Qed.

(** The abstract effect of each call on the map of page contents, given
    the disk manager [d] before the call: [new_page] either changes
    nothing or sets to empty exactly the page numbered by [d]'s next page
    number of the file, a page that [d] has never handed out. *)
Definition abs_step (d : DiskM) (c : bp_call) (m m' : PageId -> Data) : Prop :=
  match c with
  | CallFetch _ | CallUnpin _ _ | CallFlush _ | CallFlushAll _ => forall q, m' q = m q
  | CallNew fd =>
      (forall q, m' q = m q) \/
      forall q, m' q = if decide (q = mkPageId fd (next_page_no d fd)) then blank else m q
  | CallDelete pid => forall q, q <> pid -> m' q = m q
  | CallWrite _ f =>
      (forall q, m' q = m q) \/
      exists pid, forall q, m' q = if decide (q = pid) then f (m q) else m q
  end.

(** C2: Every state a client can reach from a well-formed pool satisfies
    the frame invariant. *)
Theorem bp_reachable_inv (s : BPM) (calls : list bp_call) :
  bp_inv s -> bp_inv (foldl exec_call s calls).
Proof.
  revert s. induction calls as [|c calls IH]; intros s Hi; [done|].
  simpl. apply IH, exec_call_inv, Hi.
Qed.

(** C1: Refinement: each call on the pool is, on the abstract map of page
    contents, the call's abstract effect. *)
Theorem exec_call_refines (s : BPM) c :
  bp_inv s -> abs_step (disk_manager_ s) c (view s) (view (exec_call s c)).
Proof.
  intros Hi. destruct c as [pid|pid b|pid|fd|pid|fd|fid f]; simpl.
  - case_decide as Hv; [|done]. pose proof (fetch_page_correct s pid Hi Hv) as Hs.
    destruct (fetch_page blank s pid) as [[fid|] s']; simpl; [apply Hs|by destruct Hs as [-> _]].
  - pose proof (unpin_page_correct s pid b Hi) as Hs.
    destruct (unpin_page s pid b) as [ok s']. apply Hs.
  - pose proof (flush_page_correct s pid Hi) as Hs.
    destruct (flush_page s pid) as [ok s']. apply Hs.
  - pose proof (new_page_correct s fd Hi) as Hs.
    destruct (new_page blank s fd) as [[[pid fid]|] s']; simpl; [right|left; by destruct Hs as [-> _]].
    destruct Hs as (_ & <- & _ & _ & Hv). exact Hv.
  - pose proof (delete_page_correct s pid Hi) as Hs.
    destruct (delete_page blank s pid) as [[|] s']; simpl; intros q Hq.
    + destruct Hs as (_ & _ & _ & Hs). rewrite (proj2 (Hs eq_refl) q). by rewrite decide_False.
    + destruct Hs as (_ & _ & Hs & _). by rewrite Hs.
  - apply (flush_all_pages_correct s fd Hi).
  - destruct (pages_ s !! fid) as [pg|] eqn:Hpg; [|by left].
    case_decide; [|by left]. right. exists (id_ pg). by apply mark_dirty_correct.
Qed.

(** C7: [fetch_page] returns a frame that the page table maps the page to
    and that holds the page's contents; it returns [nullptr], changing
    nothing, only when every frame is pinned. *)
Theorem fetch_page_spec (s : BPM) pid :
  bp_inv s -> valid_pid (disk_manager_ s) pid ->
  match fetch_page blank s pid with
  | (Some fid, s') => page_table_ s' !! pid = Some fid /\ frame_data s' fid = view s pid
  | (None, s') => s' = s /\ forall fid pg, pages_ s !! fid = Some pg -> pin_count_ pg <> 0%nat
  end.
Proof.
  intros Hi Hv. pose proof (fetch_page_correct s pid Hi Hv) as Hs.
  destruct (fetch_page blank s pid) as [[fid|] s']; naive_solver.
Qed.

(** [new_page] hands out a page id of file [fd] that is in no frame,
    maps it to the returned frame, and its contents start empty. *)
Theorem new_page_spec (s : BPM) fd :
  bp_inv s ->
  match new_page blank s fd with
  | (Some (pid, fid), s') =>
      pid = mkPageId fd (next_page_no (disk_manager_ s) fd) /\ page_table_ s !! pid = None /\
      page_table_ s' !! pid = Some fid /\ view s' pid = blank
  | (None, s') => s' = s /\ forall fid pg, pages_ s !! fid = Some pg -> pin_count_ pg <> 0%nat
  end.
Proof.
  intros Hi. pose proof (new_page_correct s fd Hi) as Hs.
  destruct (new_page blank s fd) as [[[pid fid]|] s']; [|naive_solver].
  destruct Hs as (_ & ? & ? & ? & Hv). split_and!; try done. by rewrite Hv, decide_True.
Qed.

(** C34: [delete_page] refuses, changing nothing, exactly a resident pinned
    page; on success the page has left the table and reading it gives
    the disk copy: the bytes of a dirty page are not written back. *)
Theorem delete_page_spec (s : BPM) pid :
  bp_inv s ->
  let '(ok, s') := delete_page blank s pid in
  (ok = false <-> exists fid pg, page_table_ s !! pid = Some fid /\
                   pages_ s !! fid = Some pg /\ pin_count_ pg <> 0%nat) /\
  (ok = false -> s' = s) /\
  (ok = true -> page_table_ s' !! pid = None /\
                view s' pid = read_page blank (disk_manager_ s) pid).
Proof.
  intros Hi. pose proof (delete_page_correct s pid Hi) as Hs.
  destruct (delete_page blank s pid) as [ok s'].
  destruct Hs as (_ & Hok & Hsame & Hdel). split_and!; [|done|].
  - destruct ok; split; try done.
    + intros (fid & pg & Ht & Hpg & Hpin). exfalso. by apply Hpin, (proj1 Hok eq_refl fid pg).
    + intros _. assert (Hno : ~ false = true) by done. rewrite Hok in Hno.
      destruct (page_table_ s !! pid) as [fid|] eqn:Ht; [|exfalso; by apply Hno].
      destruct (pages_ s !! fid) as [pg|] eqn:Hpg;
        [|exfalso; apply Hno; intros ? ? [= <-]; by rewrite Hpg].
      exists fid, pg. split_and!; [done|done|]. intros Hpin. apply Hno.
      intros ? ? [= <-]. rewrite Hpg. by intros [= <-].
  - intros ->. destruct (Hdel eq_refl) as [Ht Hv]. split; [done|]. by rewrite Hv, decide_True.
Qed.

(** [unpin_page] returns [true] exactly on a resident, pinned page. *)
Theorem unpin_page_spec (s : BPM) pid is_dirty :
  bp_inv s ->
  (unpin_page s pid is_dirty).1 = true <->
  exists fid pg, page_table_ s !! pid = Some fid /\ pages_ s !! fid = Some pg /\
                 pin_count_ pg <> 0%nat.
Proof.
  intros Hi. pose proof (unpin_page_correct s pid is_dirty Hi) as Hs.
  destruct (unpin_page s pid is_dirty) as [ok s']. apply Hs.
Qed.

(** After [flush_all_pages(fd)] the disk holds, for every resident page
    of [fd], exactly the contents the pool shows for it. *)
Theorem flush_all_pages_durable (s : BPM) fd q :
  bp_inv s -> pg_fd q = fd -> is_Some (page_table_ (flush_all_pages s fd) !! q) ->
  read_page blank (disk_manager_ (flush_all_pages s fd)) q = view s q.
Proof. intros Hi. apply (flush_all_pages_correct s fd Hi). Qed.

End bp_inv.

(** ** Witnesses: a pool of two frames over a file with two pages. *)

#[local] Existing Instances LRU.lru_replacer LRU.lru_laws.

Definition disk0 : @DiskManager Z := mkDisk ∅ (<[1 := 2]> ∅).
Definition pool0 : @BufferPoolManager Z LRU.LRUReplacer :=
  create 0 2 LRU.create disk0 empty_log.
Definition pid0 : PageId := mkPageId 1 0.

Lemma pool0_inv : bp_inv 0 pool0.
Proof.
  refine (create_inv 0 2 LRU.create disk0 empty_log _ _ _ _); [apply NoDup_nil_2|reflexivity|simpl; unfold INVALID_LSN; lia|].
  intros fd k. unfold disk0; simpl. rewrite lookup_insert.
  case_decide; [intros [= <-]; lia|by rewrite lookup_empty].
Qed.

Lemma pid0_valid : valid_pid disk0 pid0.
Proof. unfold valid_pid. change (next_page_no disk0 (pg_fd pid0)) with 2. simpl. lia. Qed.

(** A pool after a client's session: a new page, written and unpinned. *)
Definition pool1 : @BufferPoolManager Z LRU.LRUReplacer :=
  foldl (exec_call 0) pool0 [CallNew 1; CallWrite 0 (fun _ => 42); CallUnpin (mkPageId 1 2) true].

Lemma pool1_inv : bp_inv 0 pool1.
Proof.
  unfold pool1. cbn [foldl]. do 3 refine (exec_call_inv 0 _ _ _). apply pool0_inv.
Qed.

Lemma bp_reachable_inv_witness : bp_inv 0 pool0 /\ bp_inv 0 (foldl (exec_call 0) pool0
  [CallNew 1; CallWrite 0 (fun _ => 42); CallUnpin (mkPageId 1 2) true; CallFetch pid0]).
Proof.
  split; [exact pool0_inv|]. exact (bp_reachable_inv 0 _ _ pool0_inv).
Defined.

Lemma exec_call_refines_witness : bp_inv 0 pool1 /\
  abs_step 0 (disk_manager_ pool1) (CallNew 0) (view 0 pool1) (view 0 (exec_call 0 pool1 (CallNew 0))).
Proof. split; [exact pool1_inv|]. exact (exec_call_refines 0 _ _ pool1_inv). Defined.

Lemma fetch_page_spec_witness : bp_inv 0 pool1 /\ valid_pid (disk_manager_ pool1) pid0 /\
  match fetch_page 0 pool1 pid0 with
  | (Some fid, s') => page_table_ s' !! pid0 = Some fid /\ frame_data 0 s' fid = view 0 pool1 pid0
  | (None, s') => s' = pool1 /\ forall fid pg, pages_ pool1 !! fid = Some pg -> pin_count_ pg <> 0%nat
  end.
Proof.
  assert (Hv : valid_pid (disk_manager_ pool1) pid0).
  { unfold valid_pid. vm_compute. split; congruence. }
  split_and!; [exact pool1_inv|exact Hv|]. exact (fetch_page_spec 0 _ _ pool1_inv Hv).
Defined.

Lemma new_page_spec_witness : bp_inv 0 pool1 /\
  match new_page 0 pool1 1 with
  | (Some (pid, fid), s') =>
      pid = mkPageId 1 (next_page_no (disk_manager_ pool1) 1) /\ page_table_ pool1 !! pid = None /\
      page_table_ s' !! pid = Some fid /\ view 0 s' pid = 0
  | (None, s') => s' = pool1 /\ forall fid pg, pages_ pool1 !! fid = Some pg -> pin_count_ pg <> 0%nat
  end.
Proof. split; [exact pool1_inv|]. exact (new_page_spec 0 _ _ pool1_inv). Defined.

Lemma delete_page_spec_witness : bp_inv 0 pool1 /\
  let '(ok, s') := delete_page 0 pool1 (mkPageId 1 2) in
  (ok = false <-> exists fid pg, page_table_ pool1 !! mkPageId 1 2 = Some fid /\
                   pages_ pool1 !! fid = Some pg /\ pin_count_ pg <> 0%nat) /\
  (ok = false -> s' = pool1) /\
  (ok = true -> page_table_ s' !! mkPageId 1 2 = None /\
                view 0 s' (mkPageId 1 2) = read_page 0 (disk_manager_ pool1) (mkPageId 1 2)).
Proof. split; [exact pool1_inv|]. exact (delete_page_spec 0 pool1 (mkPageId 1 2) pool1_inv). Defined.

Lemma unpin_page_spec_witness : bp_inv 0 pool1 /\
  ((unpin_page pool1 pid0 false).1 = true <->
   exists fid pg, page_table_ pool1 !! pid0 = Some fid /\ pages_ pool1 !! fid = Some pg /\
                  pin_count_ pg <> 0%nat).
Proof. split; [exact pool1_inv|]. exact (unpin_page_spec 0 _ _ _ pool1_inv). Defined.

Lemma flush_all_pages_durable_witness : bp_inv 0 pool1 /\ pg_fd (mkPageId 1 2) = 1 /\
  is_Some (page_table_ (flush_all_pages pool1 1) !! mkPageId 1 2) /\
  read_page 0 (disk_manager_ (flush_all_pages pool1 1)) (mkPageId 1 2) = view 0 pool1 (mkPageId 1 2).
Proof.
  assert (Hs : is_Some (page_table_ (flush_all_pages pool1 1) !! mkPageId 1 2)).
  { vm_compute. eexists. reflexivity. }
  split_and!; [exact pool1_inv|done|exact Hs|].
  exact (flush_all_pages_durable 0 _ _ _ pool1_inv eq_refl Hs).
Defined.

Lemma frame_status_witness : bp_inv 0 pool1 /\
  pages_ pool1 !! 0%nat = Some (mkPage (mkPageId 1 2) 42 true 0 INVALID_LSN) /\
  ((0%nat = 0%nat <-> 0%nat ∈ free_list_ pool1 \/ 0%nat ∈ rp_frames (replacer_ pool1)) /\
   ~ (0%nat ∈ free_list_ pool1 /\ 0%nat ∈ rp_frames (replacer_ pool1))).
Proof.
  assert (Hp : pages_ pool1 !! 0%nat = Some (mkPage (mkPageId 1 2) 42 true 0 INVALID_LSN))
    by (vm_compute; reflexivity).
  split; [exact pool1_inv|split; [exact Hp|]].
  exact (frame_status 0 pool1 0 _ pool1_inv Hp).
Defined.

Lemma wal_assert_unreachable_witness : bp_inv 0 pool1 /\
  pages_ pool1 !! 0%nat = Some (mkPage (mkPageId 1 2) 42 true 0 INVALID_LSN) /\
  ~ (persist_lsn_ (log_manager_ pool1) < page_lsn_ (mkPage (mkPageId 1 2) 42 true 0 INVALID_LSN)).
Proof.
  assert (Hp : pages_ pool1 !! 0%nat = Some (mkPage (mkPageId 1 2) 42 true 0 INVALID_LSN))
    by (vm_compute; reflexivity).
  split_and!; [exact pool1_inv|exact Hp|].
  exact (wal_assert_unreachable 0 pool1 0 _ pool1_inv Hp).
Defined.

(** A pool of one frame. *)
Definition pool_one : @BufferPoolManager Z LRU.LRUReplacer :=
  create 0 1 LRU.create disk0 empty_log.

(** In a one-frame pool, page (1,2) is written and unpinned, page (1,3)
    evicts it, and fetching (1,2) again evicts (1,3): the write reached
    the disk on the first eviction and comes back on the fetch. *)
Example eviction_write_back :
  let s := foldl (exec_call 0) pool_one
             [CallNew 1; CallWrite 0 (fun _ => 42); CallUnpin (mkPageId 1 2) false;
              CallNew 1; CallUnpin (mkPageId 1 3) false; CallFetch (mkPageId 1 2)] in
  page_table_ s !! mkPageId 1 2 = Some 0%nat /\ frame_data 0 s 0 = 42 /\
  read_page 0 (disk_manager_ s) (mkPageId 1 2) = 42 /\
  read_page 0 (disk_manager_ s) (mkPageId 1 3) = 0.
Proof. vm_compute. split_and!; reflexivity. Qed.
