(* ===== verification/Lock.v ===== *)
(** * The lock manager: [transaction/concurrency/lock_manager.cpp]

    The lock table is a [gmap] from lock ids to request queues, one
    request per transaction.  Each of the six [lock_*] methods follows
    the same no-wait pattern: abort a shrinking requester; create the
    queue if absent; abort on a conflicting request of another
    transaction ([DEADLOCK_PREVENTION]); else upgrade the requester's
    own entry or append a new one.  [lock_request] is that pattern and
    each method is an instance of it with the conflict test and upgrade
    written in the source.  [lock_inv] states that any two requests of
    different transactions on one object are compatible. *)

From Stdlib Require Import ZArith Lia.
From stdpp Require Import base list gmap sets.
From S2P Require Import Prelude.

Open Scope Z_scope.

(** [enum class LockMode] (the source spells [EXLUCSIVE]). *)
Inductive LockMode := INTENTION_SHARED | INTENTION_EXCLUSIVE | SHARED | S_IX | EXLUCSIVE.

#[export] Instance LockMode_eq_dec : EqDecision LockMode.
Proof. solve_decision. Defined.

Inductive LockDataType := TABLE | RECORD.

#[export] Instance LockDataType_eq_dec : EqDecision LockDataType.
Proof. solve_decision. Defined.

(** [LockDataId]: a table lock carries no record id. *)
Record LockDataId := mkLockDataId { ld_fd : Z; ld_rid : Rid; ld_type : LockDataType }.

#[export] Instance LockDataId_eq_dec : EqDecision LockDataId.
Proof. solve_decision. Defined.

#[export] Instance LockDataId_countable : Countable LockDataId.
Proof.
  apply (inj_countable' (fun l => (ld_fd l, ld_rid l, bool_decide (ld_type l = TABLE)))
           (fun t => mkLockDataId t.1.1 t.1.2 (if t.2 then TABLE else RECORD))).
  by intros [? ? []].
Defined.

Definition table_lock_id (tab_fd : Z) : LockDataId := mkLockDataId tab_fd (mkRid (-1) (-1)) TABLE.
Definition record_lock_id (tab_fd : Z) (rid : Rid) : LockDataId := mkLockDataId tab_fd rid RECORD.

Record LockRequest := mkLockRequest { txn_id_ : Z; lock_mode_ : LockMode }.

Inductive TransactionState := DEFAULT | GROWING | SHRINKING | COMMITTED | ABORTED.

#[export] Instance TransactionState_eq_dec : EqDecision TransactionState.
Proof. solve_decision. Defined.

Inductive AbortReason := LOCK_ON_SHIRINKING | UPGRADE_CONFLICT | DEADLOCK_PREVENTION.

(** The part of [class Transaction] the lock manager reads and writes. *)
Record Transaction := mkTransaction {
  txn_id : Z;
  txn_state : TransactionState;
  lock_set_ : gset LockDataId
}.

Record LockManager := mkLockManager { lock_table_ : gmap LockDataId (list LockRequest) }.

Definition append_lock_set (txn : Transaction) (l : LockDataId) : Transaction :=
  mkTransaction (txn_id txn) (txn_state txn) ({[l]} ∪ lock_set_ txn).

(** The requester's own entry, [iter->lock_mode_ = upgrade(iter->lock_mode_)]
    on the first request of the transaction. *)
Fixpoint upgrade_own (me : Z) (up : LockMode -> LockMode) (q : list LockRequest) :=
  match q with
  | [] => []
  | r :: q' => if decide (txn_id_ r = me) then mkLockRequest me (up (lock_mode_ r)) :: q'
               else r :: upgrade_own me up q'
  end.

(** The no-wait acquisition shared by the six [lock_*] methods. *)
Definition lock_request (mode : LockMode) (conflict : LockMode -> bool)
    (up : LockMode -> LockMode) (lm : LockManager) (txn : Transaction) (lock_id : LockDataId)
    : res AbortReason (LockManager * Transaction) :=
  if decide (txn_state txn = SHRINKING) then Err LOCK_ON_SHIRINKING else
  let me := txn_id txn in
  match lock_table_ lm !! lock_id with
  | None =>
      Ok (mkLockManager (<[lock_id := [mkLockRequest me mode]]> (lock_table_ lm)),
          append_lock_set txn lock_id)
  | Some q =>
      if existsb (fun r => bool_decide (txn_id_ r <> me) && conflict (lock_mode_ r)) q
      then Err DEADLOCK_PREVENTION
      else if existsb (fun r => bool_decide (txn_id_ r = me)) q
      then Ok (mkLockManager (<[lock_id := upgrade_own me up q]> (lock_table_ lm)), txn)
      else Ok (mkLockManager (<[lock_id := q ++ [mkLockRequest me mode]]> (lock_table_ lm)),
               append_lock_set txn lock_id)
  end.

Definition is_mode (m : LockMode) (m' : LockMode) : bool := bool_decide (m' = m).

(** [lock_shared_on_record]: conflicts with another's X; no upgrade. *)
Definition lock_shared_on_record lm txn (rid : Rid) (tab_fd : Z) :=
  lock_request SHARED (is_mode EXLUCSIVE) (fun m => m) lm txn (record_lock_id tab_fd rid).

(** [lock_exclusive_on_record]: conflicts with any other; S becomes X. *)
Definition lock_exclusive_on_record lm txn (rid : Rid) (tab_fd : Z) :=
  lock_request EXLUCSIVE (fun _ => true)
    (fun m => if decide (m = SHARED) then EXLUCSIVE else m) lm txn (record_lock_id tab_fd rid).

(** [lock_shared_on_table]: conflicts with X, IX, SIX; IS becomes S, IX becomes SIX. *)
Definition lock_shared_on_table lm txn (tab_fd : Z) :=
  lock_request SHARED
    (fun m => is_mode EXLUCSIVE m || is_mode INTENTION_EXCLUSIVE m || is_mode S_IX m)
    (fun m => if decide (m = INTENTION_SHARED) then SHARED
              else if decide (m = INTENTION_EXCLUSIVE) then S_IX else m)
    lm txn (table_lock_id tab_fd).

(** [lock_exclusive_on_table]: conflicts with any other; becomes X. *)
Definition lock_exclusive_on_table lm txn (tab_fd : Z) :=
  lock_request EXLUCSIVE (fun _ => true) (fun _ => EXLUCSIVE) lm txn (table_lock_id tab_fd).

(** [lock_IS_on_table]: conflicts with X; no upgrade. *)
Definition lock_IS_on_table lm txn (tab_fd : Z) :=
  lock_request INTENTION_SHARED (is_mode EXLUCSIVE) (fun m => m) lm txn (table_lock_id tab_fd).

(** [lock_IX_on_table]: conflicts with X, SIX, S; IS becomes IX, S becomes SIX. *)
Definition lock_IX_on_table lm txn (tab_fd : Z) :=
  lock_request INTENTION_EXCLUSIVE
    (fun m => is_mode EXLUCSIVE m || is_mode S_IX m || is_mode SHARED m)
    (fun m => if decide (m = INTENTION_SHARED) then INTENTION_EXCLUSIVE
              else if decide (m = SHARED) then S_IX else m)
    lm txn (table_lock_id tab_fd).

(** [lock_reqs.erase(iter)] of the transaction's first request. *)
Fixpoint erase_own (me : Z) (q : list LockRequest) : list LockRequest :=
  match q with
  | [] => []
  | r :: q' => if decide (txn_id_ r = me) then q' else r :: erase_own me q'
  end.

(** [unlock]: drop the transaction's request, and the queue once empty.
    The transaction's state is not touched. *)
Definition unlock (lm : LockManager) (txn : Transaction) (lock_id : LockDataId) : LockManager :=
  match lock_table_ lm !! lock_id with
  | None => lm
  | Some q =>
      let q' := erase_own (txn_id txn) q in
      match q' with
      | [] => mkLockManager (delete lock_id (lock_table_ lm))
      | _ => mkLockManager (<[lock_id := q']> (lock_table_ lm))
      end
  end.

(** ** The hierarchical compatibility matrix and the mode order *)

Definition compatible (a b : LockMode) : bool :=
  match a, b with
  | INTENTION_SHARED, EXLUCSIVE | EXLUCSIVE, INTENTION_SHARED => false
  | INTENTION_SHARED, _ | _, INTENTION_SHARED => true
  | INTENTION_EXCLUSIVE, INTENTION_EXCLUSIVE => true
  | SHARED, SHARED => true
  | _, _ => false
  end.

(** [covers h r]: holding [h] grants everything [r] grants. *)
Definition covers (h r : LockMode) : bool :=
  match h, r with
  | EXLUCSIVE, _ => true
  | S_IX, (S_IX | SHARED | INTENTION_EXCLUSIVE | INTENTION_SHARED) => true
  | SHARED, (SHARED | INTENTION_SHARED) => true
  | INTENTION_EXCLUSIVE, (INTENTION_EXCLUSIVE | INTENTION_SHARED) => true
  | INTENTION_SHARED, INTENTION_SHARED => true
  | _, _ => false
  end.

Lemma compatible_sym a b : compatible a b = compatible b a.
Proof. by destruct a, b. Qed.

(** A record queue only ever holds S and X requests. *)
Definition SX (m : LockMode) : Prop := m = SHARED \/ m = EXLUCSIVE.

(** One request per transaction, pairwise-compatible requests of
    different transactions, and only S/X on records. *)
Definition queue_ok (id : LockDataId) (q : list LockRequest) : Prop :=
  q <> [] /\ NoDup (txn_id_ <$> q) /\
  (forall r1 r2, r1 ∈ q -> r2 ∈ q -> txn_id_ r1 <> txn_id_ r2 ->
     compatible (lock_mode_ r1) (lock_mode_ r2) = true) /\
  (ld_type id = RECORD -> forall r, r ∈ q -> SX (lock_mode_ r)).

Definition lock_inv (lm : LockManager) : Prop := map_Forall queue_ok (lock_table_ lm).

(** The transaction [me] has a request on [id] whose mode covers [m]. *)
Definition holds (lm : LockManager) (me : Z) (id : LockDataId) (m : LockMode) : Prop :=
  exists q r, lock_table_ lm !! id = Some q /\ r ∈ q /\ txn_id_ r = me /\ covers (lock_mode_ r) m = true.

(** [lm'] keeps the invariant of [lm] and differs from it only on [ids]. *)
Definition lock_frame (lm lm' : LockManager) (ids : list LockDataId) : Prop :=
  (lock_inv lm -> lock_inv lm') /\
  forall id, id ∉ ids -> lock_table_ lm' !! id = lock_table_ lm !! id.

(** ** Lemmas on the queue operations *)

Lemma upgrade_own_ids me up q : txn_id_ <$> upgrade_own me up q = txn_id_ <$> q.
Proof. induction q as [|r q IH]; simpl; [done|]. case_decide; simpl; [congruence|by f_equal]. Qed.

Lemma elem_of_upgrade_own me up q r :
  NoDup (txn_id_ <$> q) -> r ∈ upgrade_own me up q ->
  r ∈ q /\ txn_id_ r <> me \/
  exists r0, r0 ∈ q /\ txn_id_ r0 = me /\ r = mkLockRequest me (up (lock_mode_ r0)).
Proof.
  induction q as [|r1 q IH]; simpl; [set_solver|].
  intros [Hr1 Hnd]%NoDup_cons. case_decide as E.
  - intros [->|Hr]%elem_of_cons; [right; exists r1; set_solver|].
    left. split; [set_solver|]. intros Heq. apply Hr1. rewrite E, <- Heq. by apply list_elem_of_fmap_2.
  - intros [->|Hr]%elem_of_cons; [left; set_solver|].
    destruct (IH Hnd Hr) as [?|(r0 & ? & ? & ?)]; [left; set_solver|right; exists r0; set_solver].
Qed.

Lemma upgrade_own_self me up q r0 :
  NoDup (txn_id_ <$> q) -> r0 ∈ q -> txn_id_ r0 = me ->
  mkLockRequest me (up (lock_mode_ r0)) ∈ upgrade_own me up q.
Proof.
  induction q as [|r q IH]; simpl; [set_solver|].
  intros [Hr Hnd]%NoDup_cons [->|Hin]%elem_of_cons Hme; case_decide; set_solver.
Qed.

Lemma elem_of_ids r (q : list LockRequest) : r ∈ q -> txn_id_ r ∈ txn_id_ <$> q.
Proof. apply list_elem_of_fmap_2. Qed.

Lemma existsb_false {A} (f : A -> bool) l x : existsb f l = false -> x ∈ l -> f x = false.
Proof.
  intros Hf Hx. destruct (f x) eqn:E; [|done].
  assert (existsb f l = true) by (apply existsb_exists; exists x; split; [by apply list_elem_of_In|done]).
  congruence.
Qed.

Lemma existsb_true {A} (f : A -> bool) l : existsb f l = true <-> exists x, x ∈ l /\ f x = true.
Proof. rewrite existsb_exists. by setoid_rewrite list_elem_of_In. Qed.

(** ** A lock policy: the requested mode, the conflict test, the upgrade *)

Section policy.
Variable mode : LockMode.
Variable conflict : LockMode -> bool.
Variable up : LockMode -> LockMode.
Variable lock_id : LockDataId.

(** The conflict test is the matrix row of the requested mode. *)
Hypothesis conflict_matrix : forall m, conflict m = negb (compatible mode m).
(** An upgrade stays compatible with whatever both the old mode and
    the requested mode are compatible with. *)
Hypothesis up_compat : forall m o,
  compatible mode o = true -> compatible m o = true -> compatible (up m) o = true.
(** On a record, only S and X are requested and upgrades stay there. *)
Hypothesis record_SX : ld_type lock_id = RECORD -> SX mode /\ forall m, SX m -> SX (up m).

Lemma lock_request_inv lm txn lm' txn' :
  lock_inv lm -> lock_request mode conflict up lm txn lock_id = Ok (lm', txn') ->
  lock_inv lm'.
Proof.
  unfold lock_request, lock_inv. intros Hinv.
  case_decide; [intros [=]|]. set (me := txn_id txn) in *.
  destruct (lock_table_ lm !! lock_id) as [q|] eqn:Hq.
  - destruct (existsb _ q) eqn:Hc; [intros [=]|].
    pose proof (map_Forall_lookup_1 _ _ _ _ Hinv Hq) as (Hne & Hnd & Hpair & Hrec).
    assert (Hoth : forall o, o ∈ q -> txn_id_ o <> me -> compatible mode (lock_mode_ o) = true).
    { intros o Ho Hme. pose proof (existsb_false _ _ _ Hc Ho) as Hf. simpl in Hf.
      rewrite bool_decide_true in Hf by done. rewrite conflict_matrix in Hf.
      by destruct (compatible mode (lock_mode_ o)). }
    destruct (existsb (fun r => bool_decide (txn_id_ r = me)) q) eqn:Hown; intros [= <- <-]; apply map_Forall_insert_2; try done.
    + split_and!.
      * destruct q; [done|]. simpl. case_decide; discriminate.
      * by rewrite upgrade_own_ids.
      * intros r1 r2 H1%elem_of_upgrade_own H2%elem_of_upgrade_own Hne12; try done.
        destruct H1 as [[H1 Hm1]|(r0 & Hr0 & Hm0 & ->)], H2 as [[H2 Hm2]|(r0' & Hr0' & Hm0' & ->)];
          simpl in *; try congruence; [auto| |].
        -- rewrite compatible_sym. apply up_compat; [by apply Hoth|].
           rewrite compatible_sym. apply Hpair; congruence.
        -- apply up_compat; [by apply Hoth|]. apply Hpair; congruence.
      * intros Hr r Hr'%elem_of_upgrade_own; [|done].
        destruct Hr' as [[? _]|(r0 & ? & _ & ->)]; [by apply Hrec|].
        apply record_SX; [done|]. by apply Hrec.
    + assert (Hnotin : me ∉ txn_id_ <$> q).
      { intros (r & Hin & Hr)%list_elem_of_fmap.
        assert (existsb (fun r => bool_decide (txn_id_ r = me)) q = true); [|congruence].
        apply existsb_true. exists r. split; [done|]. by apply bool_decide_true. }
      split_and!.
      * by destruct q.
      * rewrite fmap_app. simpl. apply NoDup_app. split_and!; [done| |apply NoDup_singleton].
        set_solver.
      * intros r1 r2 [H1|H1%list_elem_of_singleton]%elem_of_app [H2|H2%list_elem_of_singleton]%elem_of_app;
          intros Hne12; subst; simpl in *; [auto| | |congruence].
        -- rewrite compatible_sym. apply Hoth; [done|]. congruence.
        -- apply Hoth; [done|]. congruence.
      * intros Hr r [H1|H1%list_elem_of_singleton]%elem_of_app; [by apply Hrec|].
        subst. apply record_SX, Hr.
  - intros [= <- <-]. apply map_Forall_insert_2; [|done]. split_and!.
    + done.
    + simpl. apply NoDup_singleton.
    + intros r1 r2 ->%list_elem_of_singleton ->%list_elem_of_singleton. done.
    + intros Hr r ->%list_elem_of_singleton. apply record_SX, Hr.
Qed.

(** The transaction's lock set names every object it has a request on. *)
Definition lockset_ok (lm : LockManager) (txn : Transaction) : Prop :=
  forall id q r, lock_table_ lm !! id = Some q -> r ∈ q -> txn_id_ r = txn_id txn ->
                 id ∈ lock_set_ txn.

Hypothesis up_covers : forall m,
  (ld_type lock_id = RECORD -> SX m) -> covers (up m) mode = true.

(** A granted request leaves the requester holding a mode that covers
    the one it asked for. *)
Lemma lock_request_holds lm txn lm' txn' :
  lock_inv lm -> lock_request mode conflict up lm txn lock_id = Ok (lm', txn') ->
  holds lm' (txn_id txn) lock_id mode.
Proof.
  unfold lock_request, holds. intros Hinv.
  case_decide; [intros [=]|]. set (me := txn_id txn) in *.
  assert (Hself : covers mode mode = true) by (destruct mode; done).
  destruct (lock_table_ lm !! lock_id) as [q|] eqn:Hq.
  - destruct (existsb _ q) eqn:Hc; [intros [=]|].
    pose proof (map_Forall_lookup_1 _ _ _ _ Hinv Hq) as (_ & Hnd & _ & Hrec).
    destruct (existsb (fun r => bool_decide (txn_id_ r = me)) q) eqn:Hown; intros [= <- <-].
    + apply existsb_true in Hown as (r0 & Hr0 & Hme%bool_decide_eq_true).
      eexists _, (mkLockRequest me (up (lock_mode_ r0))). simpl.
      rewrite lookup_insert_eq. split_and!; [done| |done|].
      * by apply upgrade_own_self.
      * apply up_covers. intros Hr. by apply Hrec.
    + eexists _, (mkLockRequest me mode). simpl. rewrite lookup_insert_eq. split_and!; [reflexivity|set_solver|done|done].
  - intros [= <- <-]. eexists _, (mkLockRequest me mode). simpl. rewrite lookup_insert_eq.
    split_and!; [reflexivity|set_solver|done|done].
Qed.

(** A granted request leaves the requester holding a mode that covers
    the one it asked for, recorded in its lock set. *)
Lemma lock_request_grants lm txn lm' txn' :
  lock_inv lm -> lockset_ok lm txn ->
  lock_request mode conflict up lm txn lock_id = Ok (lm', txn') ->
  lock_id ∈ lock_set_ txn' /\ txn_id txn' = txn_id txn /\ txn_state txn' = txn_state txn /\
  exists q r, lock_table_ lm' !! lock_id = Some q /\ r ∈ q /\
              txn_id_ r = txn_id txn /\ covers (lock_mode_ r) mode = true.
Proof.
  intros Hinv Hls Hreq. pose proof (lock_request_holds lm txn lm' txn' Hinv Hreq) as Hh.
  revert Hreq. unfold lock_request. case_decide; [intros [=]|].
  destruct (lock_table_ lm !! lock_id) as [q|] eqn:Hq.
  - destruct (existsb _ q); [intros [=]|].
    destruct (existsb (fun r => bool_decide (txn_id_ r = txn_id txn)) q) eqn:Hown; intros [= <- <-].
    + apply existsb_true in Hown as (r0 & Hr0 & Hme%bool_decide_eq_true).
      split_and!; [by apply (Hls lock_id q r0)|done|done|exact Hh].
    + split_and!; [simpl; set_solver|done|done|exact Hh].
  - intros [= <- <-]. split_and!; [simpl; set_solver|done|done|exact Hh].
Qed.

(** A request changes the lock table only at its own object. *)
Lemma lock_request_frame lm txn lm' txn' id :
  lock_request mode conflict up lm txn lock_id = Ok (lm', txn') -> id <> lock_id ->
  lock_table_ lm' !! id = lock_table_ lm !! id.
Proof.
  unfold lock_request. intros Hreq Hid. revert Hreq.
  repeat case_match; intros [= <- <-]; simpl; by rewrite lookup_insert_ne.
Qed.

(** No-wait: a request is refused exactly when the transaction is
    shrinking, or another transaction holds an incompatible mode. *)
Lemma lock_request_refused lm txn e :
  lock_request mode conflict up lm txn lock_id = Err e <->
  (txn_state txn = SHRINKING /\ e = LOCK_ON_SHIRINKING) \/
  (txn_state txn <> SHRINKING /\ e = DEADLOCK_PREVENTION /\
   exists q r, lock_table_ lm !! lock_id = Some q /\ r ∈ q /\ txn_id_ r <> txn_id txn /\
               compatible mode (lock_mode_ r) = false).
Proof.
  unfold lock_request. case_decide; [naive_solver|].
  destruct (lock_table_ lm !! lock_id) as [q|] eqn:Hq; [|naive_solver].
  destruct (existsb _ q) eqn:Hc.
  - apply existsb_true in Hc as (r & Hr & Hf). apply andb_true_iff in Hf as [Hme%bool_decide_eq_true Hf].
    rewrite conflict_matrix in Hf. apply negb_true_iff in Hf.
    split; [intros [= <-]; right; naive_solver|naive_solver].
  - split; [by repeat case_match|].
    intros [[? _]|(_ & -> & q' & r & [= <-] & Hr & Hme & Hf)]; [done|].
    pose proof (existsb_false _ _ _ Hc Hr) as Hx. simpl in Hx.
    rewrite bool_decide_true, conflict_matrix, Hf in Hx by done. done.
Qed.

(** Requests of other transactions are untouched. *)
Lemma lock_request_others lm txn lm' txn' id r :
  lock_inv lm -> lock_request mode conflict up lm txn lock_id = Ok (lm', txn') ->
  txn_id_ r <> txn_id txn ->
  (exists q, lock_table_ lm' !! id = Some q /\ r ∈ q) <->
  (exists q, lock_table_ lm !! id = Some q /\ r ∈ q).
Proof.
  unfold lock_request. intros Hinv.
  case_decide; [intros [=]|]. set (me := txn_id txn) in *. intros Hreq Hr.
  destruct (decide (id = lock_id)) as [->|Hid].
  2:{ revert Hreq. repeat case_match; intros [= <- <-]; simpl; by rewrite lookup_insert_ne. }
  destruct (lock_table_ lm !! lock_id) as [q|] eqn:Hq.
  - pose proof (map_Forall_lookup_1 _ _ _ _ Hinv Hq) as (_ & Hnd & _).
    revert Hreq. repeat case_match; intros [= <- <-]; simpl; rewrite lookup_insert_eq.
    + split; intros (q' & [= <-] & Hin); eexists; split; try done.
      * apply elem_of_upgrade_own in Hin as [[]|(r0 & _ & Hm & ->)]; [done..|simpl in Hr; done].
      * clear -Hin Hr. induction q as [|r1 q IH]; [set_solver|]. simpl.
        case_decide; apply elem_of_cons in Hin as [->|]; try set_solver.
    + split; intros (q' & [= <-] & Hin); eexists; split; try done; [|set_solver].
      apply elem_of_app in Hin as [Hin|Hin]; [done|]. apply list_elem_of_singleton in Hin as ->. simpl in Hr. done.
  - revert Hreq. intros [= <- <-]; simpl; rewrite lookup_insert_eq.
    split; intros (q' & Hq' & Hin); [|congruence]. injection Hq' as <-.
    apply list_elem_of_singleton in Hin as ->. done.
Qed.

End policy.

(** ** A transaction running alone *)

(** Every request in the lock table is the transaction [me]'s. *)
Definition alone (lm : LockManager) (me : Z) : Prop :=
  forall id q r, lock_table_ lm !! id = Some q -> r ∈ q -> txn_id_ r = me.

Lemma alone_insert lm me id q :
  alone lm me -> (forall r, r ∈ q -> txn_id_ r = me) -> alone (mkLockManager (<[id := q]> (lock_table_ lm))) me.
Proof.
  intros Ha Hq id' q' r. cbn. destruct (decide (id = id')) as [<-|Hne].
  - rewrite lookup_insert_eq. intros [= <-]. apply Hq.
  - rewrite lookup_insert_ne by done. apply Ha.
Qed.

(** A transaction in its growing phase that runs alone is granted
    every lock it asks for, and still runs alone. *)
Lemma lock_request_alone mode conflict up lm txn lock_id :
  txn_state txn = GROWING -> alone lm (txn_id txn) ->
  exists lm' txn', lock_request mode conflict up lm txn lock_id = Ok (lm', txn') /\
    alone lm' (txn_id txn) /\ txn_id txn' = txn_id txn /\ txn_state txn' = GROWING.
Proof.
  intros Hs Ha. unfold lock_request. rewrite Hs, decide_False by done.
  destruct (lock_table_ lm !! lock_id) as [q|] eqn:Hq.
  - assert (Hme : forall r, r ∈ q -> txn_id_ r = txn_id txn) by (intros r; apply (Ha _ _ r Hq)).
    destruct (existsb (fun r => bool_decide (txn_id_ r <> txn_id txn) && conflict (lock_mode_ r)) q) eqn:E.
    { exfalso. apply existsb_true in E as (r & Hr & Hc). apply andb_true_iff in Hc as [Hne _].
      apply bool_decide_eq_true in Hne. exact (Hne (Hme r Hr)). }
    destruct (existsb (fun r => bool_decide (txn_id_ r = txn_id txn)) q); eexists _, _; (split; [reflexivity|]); split_and!; try done;
      apply alone_insert; try done.
    + intros r Hr. apply elem_of_ids in Hr. rewrite upgrade_own_ids in Hr.
      apply list_elem_of_fmap in Hr as (r0 & -> & Hr0). by apply Hme.
    + intros r [Hr|Hr]%elem_of_app; [by apply Hme|]. by apply list_elem_of_singleton in Hr as ->.
  - eexists _, _. split; [reflexivity|]. split_and!; try done.
    apply alone_insert; [done|]. intros r Hr. by apply list_elem_of_singleton in Hr as ->.
Qed.

(** ** [unlock] *)

Lemma elem_of_erase_own me q r :
  NoDup (txn_id_ <$> q) -> r ∈ erase_own me q <-> r ∈ q /\ txn_id_ r <> me.
Proof.
  induction q as [|r1 q IH]; simpl; [set_solver|]. intros [Hr1 Hnd]%NoDup_cons.
  case_decide as E.
  - split; [|set_solver]. intros Hin. split; [set_solver|]. intros Hme.
    apply Hr1. rewrite E, <- Hme. by apply list_elem_of_fmap_2.
  - rewrite elem_of_cons, IH by done. set_solver.
Qed.

Lemma erase_own_nodup me q : NoDup (txn_id_ <$> q) -> NoDup (txn_id_ <$> erase_own me q).
Proof.
  induction q as [|r1 q IH]; simpl; [done|]. intros [Hr1 Hnd]%NoDup_cons.
  case_decide; [done|]. simpl. constructor; [|by apply IH].
  intros (r & Hin & Hr)%list_elem_of_fmap. apply elem_of_erase_own in Hr as [Hr _]; [|done].
  apply Hr1. rewrite Hin. by apply list_elem_of_fmap_2.
Qed.

(** [unlock] keeps the invariant, removes the transaction's request on
    the object and leaves every other request where it was. *)
Lemma unlock_correct lm txn lock_id :
  lock_inv lm ->
  lock_inv (unlock lm txn lock_id) /\
  (forall id r, (exists q, lock_table_ (unlock lm txn lock_id) !! id = Some q /\ r ∈ q) <->
     (exists q, lock_table_ lm !! id = Some q /\ r ∈ q) /\
     (id = lock_id -> txn_id_ r <> txn_id txn)).
Proof.
  unfold unlock, lock_inv. intros Hinv.
  destruct (lock_table_ lm !! lock_id) as [q|] eqn:Hq.
  2:{ split; [done|]. intros id r. split; [|naive_solver]. intros (q & Hq' & Hr).
      split; [eauto|]. intros ->. congruence. }
  pose proof (map_Forall_lookup_1 _ _ _ _ Hinv Hq) as (Hne & Hnd & Hpair & Hrec).
  assert (Hq'ok : forall q', q' = erase_own (txn_id txn) q -> q' <> [] -> queue_ok lock_id q').
  { intros q' -> Hne'. split_and!; [done|by apply erase_own_nodup| |].
    - intros r1 r2 H1%elem_of_erase_own H2%elem_of_erase_own; [|done..]. apply Hpair; tauto.
    - intros Hr r H1%elem_of_erase_own; [|done]. apply Hrec; tauto. }
  destruct (erase_own (txn_id txn) q) as [|r0 q0] eqn:He; simpl; split.
  - by apply map_Forall_delete.
  - intros id r. rewrite lookup_delete. case_decide as Hid; [subst id|].
    + split; [naive_solver|]. intros [(q' & Hq' & Hr) Hme]. rewrite Hq in Hq'. injection Hq' as <-.
      assert (r ∈ erase_own (txn_id txn) q) as Hr'; [|rewrite He in Hr'; set_solver].
      apply elem_of_erase_own; [done|]. auto.
    + naive_solver.
  - apply map_Forall_insert_2; [by apply Hq'ok|done].
  - intros id r. rewrite lookup_insert. case_decide as Hid; [subst id|naive_solver].
    rewrite <- He. split.
    + intros (q' & [= <-] & Hr). apply elem_of_erase_own in Hr as [? ?]; [|done]. eauto.
    + intros [(q' & Hq' & Hr) Hme]. rewrite Hq in Hq'. injection Hq' as <-.
      eexists. split; [done|]. apply elem_of_erase_own; [done|]. auto.
Qed.

(** ** The six lock methods as policies *)

Inductive lock_call :=
  | LockSharedOnRecord (rid : Rid) (tab_fd : Z)
  | LockExclusiveOnRecord (rid : Rid) (tab_fd : Z)
  | LockSharedOnTable (tab_fd : Z)
  | LockExclusiveOnTable (tab_fd : Z)
  | LockISOnTable (tab_fd : Z)
  | LockIXOnTable (tab_fd : Z).

Definition exec_lock (c : lock_call) (lm : LockManager) (txn : Transaction) :=
  match c with
  | LockSharedOnRecord rid fd => lock_shared_on_record lm txn rid fd
  | LockExclusiveOnRecord rid fd => lock_exclusive_on_record lm txn rid fd
  | LockSharedOnTable fd => lock_shared_on_table lm txn fd
  | LockExclusiveOnTable fd => lock_exclusive_on_table lm txn fd
  | LockISOnTable fd => lock_IS_on_table lm txn fd
  | LockIXOnTable fd => lock_IX_on_table lm txn fd
  end.

Definition call_mode (c : lock_call) : LockMode :=
  match c with
  | LockSharedOnRecord _ _ | LockSharedOnTable _ => SHARED
  | LockExclusiveOnRecord _ _ | LockExclusiveOnTable _ => EXLUCSIVE
  | LockISOnTable _ => INTENTION_SHARED
  | LockIXOnTable _ => INTENTION_EXCLUSIVE
  end.

Definition call_id (c : lock_call) : LockDataId :=
  match c with
  | LockSharedOnRecord rid fd | LockExclusiveOnRecord rid fd => record_lock_id fd rid
  | LockSharedOnTable fd | LockExclusiveOnTable fd | LockISOnTable fd | LockIXOnTable fd =>
      table_lock_id fd
  end.

(** The upgrade each method applies to the requester's existing entry. *)
Definition call_up (c : lock_call) (m : LockMode) : LockMode :=
  match c with
  | LockSharedOnRecord _ _ | LockISOnTable _ => m
  | LockExclusiveOnRecord _ _ => if decide (m = SHARED) then EXLUCSIVE else m
  | LockSharedOnTable _ =>
      if decide (m = INTENTION_SHARED) then SHARED
      else if decide (m = INTENTION_EXCLUSIVE) then S_IX else m
  | LockExclusiveOnTable _ => EXLUCSIVE
  | LockIXOnTable _ =>
      if decide (m = INTENTION_SHARED) then INTENTION_EXCLUSIVE
      else if decide (m = SHARED) then S_IX else m
  end.

(** The matrix row of the requested mode, as the no-wait test. *)
Definition matrix_conflict (c : lock_call) (m : LockMode) : bool :=
  negb (compatible (call_mode c) m).

Lemma lock_request_ext mode f g up lm txn id :
  (forall q r, lock_table_ lm !! id = Some q -> r ∈ q -> f (lock_mode_ r) = g (lock_mode_ r)) ->
  lock_request mode f up lm txn id = lock_request mode g up lm txn id.
Proof.
  intros Hfg. unfold lock_request. case_decide; [done|].
  destruct (lock_table_ lm !! id) as [q|] eqn:Hq; [|done].
  assert (Hfg' : forall r, r ∈ q -> f (lock_mode_ r) = g (lock_mode_ r))
    by (intros r; by apply (Hfg q r)). clear Hfg Hq.
  assert (existsb (fun r => bool_decide (txn_id_ r <> txn_id txn) && f (lock_mode_ r)) q =
          existsb (fun r => bool_decide (txn_id_ r <> txn_id txn) && g (lock_mode_ r)) q) as ->;
    [|done].
  induction q as [|r q IH]; simpl; [done|].
  rewrite Hfg', IH; [done| |set_solver]. intros r' ?. apply Hfg'. set_solver.
Qed.

(** On every well-formed table, each method's hand-written conflict
    test is the matrix row of its mode (on records, where only S and X
    occur, [lock_shared_on_record] need only test X). *)
Lemma exec_lock_policy c lm txn :
  lock_inv lm ->
  exec_lock c lm txn = lock_request (call_mode c) (matrix_conflict c) (call_up c) lm txn (call_id c).
Proof.
  intros Hinv. destruct c; apply lock_request_ext; intros q r Hq Hr;
    try (destruct (lock_mode_ r); reflexivity).
  destruct (map_Forall_lookup_1 _ _ _ _ Hinv Hq) as (_ & _ & _ & Hrec).
  destruct (Hrec eq_refl r Hr) as [-> | ->]; reflexivity.
Qed.

Lemma call_up_compat c m o :
  compatible (call_mode c) o = true -> compatible m o = true ->
  compatible (call_up c m) o = true.
Proof. by destruct c, m, o. Qed.

Lemma call_record_SX c :
  ld_type (call_id c) = RECORD -> SX (call_mode c) /\ forall m, SX m -> SX (call_up c m).
Proof.
  unfold SX. destruct c; simpl; try discriminate; intros _;
    (split; [auto|intros m [-> | ->]; auto]).
Qed.

Lemma call_up_covers c m :
  (ld_type (call_id c) = RECORD -> SX m) -> covers (call_up c m) (call_mode c) = true.
Proof.
  unfold SX. destruct c; simpl; intros Hsx; try (destruct m; done);
    (destruct Hsx as [-> | ->]; done).
Qed.

(** Each lock method grants a transaction running alone its lock. *)
Lemma lock_call_alone c lm txn :
  txn_state txn = GROWING -> alone lm (txn_id txn) ->
  exists lm' txn', exec_lock c lm txn = Ok (lm', txn') /\
    alone lm' (txn_id txn) /\ txn_id txn' = txn_id txn /\ txn_state txn' = GROWING.
Proof. intros Hs Ha. destruct c; apply lock_request_alone; done. Qed.

(** A granted call leaves its object held in a mode covering the
    requested one. *)
Lemma lock_call_holds c lm txn lm' txn' :
  lock_inv lm -> exec_lock c lm txn = Ok (lm', txn') -> holds lm' (txn_id txn) (call_id c) (call_mode c).
Proof.
  intros Hinv. rewrite exec_lock_policy by done.
  eapply lock_request_holds; eauto using call_up_covers, call_up_compat, call_record_SX.
Qed.

(** A granted call keeps the table's invariant and changes only its
    own object. *)
Lemma lock_call_frame c lm txn lm' txn' :
  exec_lock c lm txn = Ok (lm', txn') -> lock_frame lm lm' [call_id c].
Proof.
  intros Hreq. split.
  - intros Hinv. rewrite exec_lock_policy in Hreq by done.
    revert Hreq. apply lock_request_inv; [done|apply call_up_compat|apply call_record_SX|done].
  - intros id [Hid _]%not_elem_of_cons. destruct c; (eapply lock_request_frame; [exact Hreq|exact Hid]).
Qed.

Lemma lock_frame_refl lm ids : lock_frame lm lm ids.
Proof. by split. Qed.

Lemma lock_frame_trans l1 l2 l3 ids1 ids2 :
  lock_frame l1 l2 ids1 -> lock_frame l2 l3 ids2 -> lock_frame l1 l3 (ids1 ++ ids2).
Proof. intros [H1 F1] [H2 F2]. split; [auto|]. intros id Hid. rewrite F2, F1; [done|set_solver..]. Qed.

Lemma lock_frame_mono lm lm' ids ids' :
  ids ⊆ ids' -> lock_frame lm lm' ids -> lock_frame lm lm' ids'.
Proof. intros Hs [H F]. split; [done|]. intros id Hid. apply F. set_solver. Qed.

(** A lock held outside the objects a step changes is still held. *)
Lemma holds_frame lm lm' ids me id m :
  lock_frame lm lm' ids -> id ∉ ids -> holds lm me id m -> holds lm' me id m.
Proof. intros [_ F] Hid. unfold holds. by rewrite F. Qed.

Lemma table_not_record fd fd' (rids : list Rid) : table_lock_id fd ∉ record_lock_id fd' <$> rids.
Proof. by intros (? & [=] & _)%list_elem_of_fmap. Qed.

(** ** Properties of the lock manager *)

(** C3: The compatibility matrix is respected: every granted request keeps
    any two requests of different transactions on one object
    compatible, one request per transaction, and records S/X only. *)
Theorem lock_call_inv c lm txn lm' txn' :
  lock_inv lm -> exec_lock c lm txn = Ok (lm', txn') -> lock_inv lm'.
Proof.
  intros Hinv. rewrite exec_lock_policy by done.
  apply lock_request_inv; [done|apply call_up_compat|apply call_record_SX|done].
Qed.

(** C9: A granted request leaves the requester holding a mode that covers
    the requested one, and the object in its lock set. *)
Theorem lock_call_grants c lm txn lm' txn' :
  lock_inv lm -> lockset_ok lm txn -> exec_lock c lm txn = Ok (lm', txn') ->
  call_id c ∈ lock_set_ txn' /\
  exists q r, lock_table_ lm' !! call_id c = Some q /\ r ∈ q /\
              txn_id_ r = txn_id txn /\ covers (lock_mode_ r) (call_mode c) = true.
Proof.
  intros Hinv Hls. rewrite exec_lock_policy by done. intros Hreq.
  eapply lock_request_grants in Hreq as (? & _ & _ & ?); eauto using call_up_covers, call_up_compat, call_record_SX.
Qed.

(** C4: No-wait: a lock request fails exactly when the transaction is
    shrinking ([LOCK_ON_SHIRINKING]) or another transaction holds a mode
    the matrix says conflicts ([DEADLOCK_PREVENTION]). *)
Theorem lock_call_refused c lm txn e :
  lock_inv lm ->
  exec_lock c lm txn = Err e <->
  (txn_state txn = SHRINKING /\ e = LOCK_ON_SHIRINKING) \/
  (txn_state txn <> SHRINKING /\ e = DEADLOCK_PREVENTION /\
   exists q r, lock_table_ lm !! call_id c = Some q /\ r ∈ q /\ txn_id_ r <> txn_id txn /\
               compatible (call_mode c) (lock_mode_ r) = false).
Proof.
  intros Hinv. rewrite exec_lock_policy by done.
  apply lock_request_refused; intros; (reflexivity || by apply call_up_compat || by apply call_record_SX || by apply call_up_covers).
Qed.

(** A lock request never changes another transaction's requests. *)
Theorem lock_call_others c lm txn lm' txn' id r :
  lock_inv lm -> exec_lock c lm txn = Ok (lm', txn') -> txn_id_ r <> txn_id txn ->
  (exists q, lock_table_ lm' !! id = Some q /\ r ∈ q) <->
  (exists q, lock_table_ lm !! id = Some q /\ r ∈ q).
Proof.
  intros Hinv. rewrite exec_lock_policy by done. intros Hreq.
  eapply lock_request_others; eauto; intros;
    (reflexivity || by apply call_up_compat || by apply call_record_SX || by apply call_up_covers).
Qed.


(** ** Scenarios *)

Definition lm_empty : LockManager := mkLockManager ∅.

Lemma lock_inv_empty : lock_inv lm_empty.
Proof. apply map_Forall_empty. Qed.
Definition T1 : Transaction := mkTransaction 1 GROWING ∅.
Definition T2 : Transaction := mkTransaction 2 GROWING ∅.

(** Spec scenario: T1 holds S on a table; T2's X request on it aborts
    with [DEADLOCK_PREVENTION] and T1 still holds S. *)
Example no_wait_scenario :
  match lock_shared_on_table lm_empty T1 7 with
  | Ok (lm1, _) =>
      lock_exclusive_on_table lm1 T2 7 = Err DEADLOCK_PREVENTION /\
      lock_table_ lm1 !! table_lock_id 7 = Some [mkLockRequest 1 SHARED]
  | Err _ => False
  end.
Proof. vm_compute. split; reflexivity. Qed.

(** An IX holder that asks for S is upgraded in place to SIX, and a
    second transaction can still take IS but not IX. *)
Example six_upgrade_scenario :
  match lock_IX_on_table lm_empty T1 7 with
  | Ok (lm1, t1) =>
      match lock_shared_on_table lm1 t1 7 with
      | Ok (lm2, _) =>
          lock_table_ lm2 !! table_lock_id 7 = Some [mkLockRequest 1 S_IX] /\
          (exists r, lock_IS_on_table lm2 T2 7 = Ok r) /\
          lock_IX_on_table lm2 T2 7 = Err DEADLOCK_PREVENTION
      | Err _ => False
      end
  | Err _ => False
  end.
Proof. vm_compute. split_and!; [reflexivity|eexists; reflexivity|reflexivity]. Qed.

(** ** Witnesses *)

Definition lm_T1S : LockManager := mkLockManager {[table_lock_id 7 := [mkLockRequest 1 SHARED]]}.
Definition lm_T1S_T2IS : LockManager :=
  mkLockManager {[table_lock_id 7 := [mkLockRequest 1 SHARED; mkLockRequest 2 INTENTION_SHARED]]}.
Definition T2_7 : Transaction := mkTransaction 2 GROWING {[table_lock_id 7]}.

Lemma lm_T1S_inv : lock_inv lm_T1S.
Proof.
  apply map_Forall_singleton. split_and!; [done|apply NoDup_singleton| |done].
  intros r1 r2 ->%list_elem_of_singleton ->%list_elem_of_singleton. done.
Qed.

Lemma lm_T1S_step : exec_lock (LockISOnTable 7) lm_T1S T2 = Ok (lm_T1S_T2IS, T2_7).
Proof. vm_compute. reflexivity. Qed.

Lemma lock_call_inv_witness :
  lock_inv lm_T1S /\ exec_lock (LockISOnTable 7) lm_T1S T2 = Ok (lm_T1S_T2IS, T2_7) /\
  lock_inv lm_T1S_T2IS.
Proof.
  split_and!; [exact lm_T1S_inv|exact lm_T1S_step|].
  exact (lock_call_inv _ _ _ _ _ lm_T1S_inv lm_T1S_step).
Defined.

Lemma lockset_T2 : lockset_ok lm_T1S T2.
Proof.
  intros id q r Hq Hr Hme. unfold lm_T1S in Hq; simpl in Hq.
  apply lookup_singleton_Some in Hq as [_ <-]. apply list_elem_of_singleton in Hr as ->. done.
Qed.

Lemma lock_call_grants_witness :
  lock_inv lm_T1S /\ lockset_ok lm_T1S T2 /\
  exec_lock (LockISOnTable 7) lm_T1S T2 = Ok (lm_T1S_T2IS, T2_7) /\
  (call_id (LockISOnTable 7) ∈ lock_set_ T2_7 /\
   exists q r, lock_table_ lm_T1S_T2IS !! call_id (LockISOnTable 7) = Some q /\ r ∈ q /\
               txn_id_ r = txn_id T2 /\ covers (lock_mode_ r) (call_mode (LockISOnTable 7)) = true).
Proof.
  split_and!; [exact lm_T1S_inv|exact lockset_T2|exact lm_T1S_step|..];
  [exact (proj1 (lock_call_grants _ _ _ _ _ lm_T1S_inv lockset_T2 lm_T1S_step))|
   exact (proj2 (lock_call_grants _ _ _ _ _ lm_T1S_inv lockset_T2 lm_T1S_step))].
Defined.

Lemma lock_call_refused_witness :
  lock_inv lm_T1S /\
  (exec_lock (LockExclusiveOnTable 7) lm_T1S T2 = Err DEADLOCK_PREVENTION <->
   (txn_state T2 = SHRINKING /\ DEADLOCK_PREVENTION = LOCK_ON_SHIRINKING) \/
   (txn_state T2 <> SHRINKING /\ DEADLOCK_PREVENTION = DEADLOCK_PREVENTION /\
    exists q r, lock_table_ lm_T1S !! call_id (LockExclusiveOnTable 7) = Some q /\ r ∈ q /\
                txn_id_ r <> txn_id T2 /\
                compatible (call_mode (LockExclusiveOnTable 7)) (lock_mode_ r) = false)).
Proof. split; [exact lm_T1S_inv|exact (lock_call_refused _ _ _ _ lm_T1S_inv)]. Defined.

Lemma lock_call_others_witness :
  lock_inv lm_T1S /\ exec_lock (LockISOnTable 7) lm_T1S T2 = Ok (lm_T1S_T2IS, T2_7) /\
  txn_id_ (mkLockRequest 1 SHARED) <> txn_id T2 /\
  ((exists q, lock_table_ lm_T1S_T2IS !! table_lock_id 7 = Some q /\ mkLockRequest 1 SHARED ∈ q) <->
   (exists q, lock_table_ lm_T1S !! table_lock_id 7 = Some q /\ mkLockRequest 1 SHARED ∈ q)).
Proof.
  assert (Hne : txn_id_ (mkLockRequest 1 SHARED) <> txn_id T2) by done.
  split_and!; [exact lm_T1S_inv|exact lm_T1S_step|exact Hne|].
  exact (lock_call_others _ _ _ _ _ _ _ lm_T1S_inv lm_T1S_step Hne).
Defined.

