(* ===== verification/Key.v ===== *)
(** * Index keys: [ix_compare] of [index/ix_index_handle.h]

    A key is the concatenation of its columns' raw bytes.  Each column
    is compared by its type: INT and BIGINT as little-endian signed
    integers, FLOAT as an IEEE-754 single read from its bit pattern,
    STRING and DATETIME by [memcmp]; the multi-column [ix_compare]
    returns the first nonzero column result.  [rank] maps a key to a
    list of integers whose lexicographic order [lexcmp] is exactly
    [ix_compare] on well-formed keys ([ix_compare_rank]); the order laws
    the B+tree relies on ([KeyOrder]) follow from that. *)

From Stdlib Require Import ZArith Lia.
From stdpp Require Import base list.
From coqutil Require Import Word.LittleEndianList.
From S2P Require Import Prelude.

Open Scope Z_scope.

Abbreviation bytes := (list Byte.byte).

(** [enum ColType] of [defs.h]. *)
Inductive ColType := TYPE_INT | TYPE_FLOAT | TYPE_STRING | TYPE_DATETIME | TYPE_BIGINT | TYPE_UNUSE.

#[export] Instance ColType_eq_dec : EqDecision ColType.
Proof. solve_decision. Defined.

(** [(x < y) ? -1 : ((x > y) ? 1 : 0)]. *)
Definition cmp3 (x y : Z) : Z := if x <? y then -1 else if y <? x then 1 else 0.

(** [*(int * )a] and [*(long long * )a]: a little-endian two's-complement read. *)
Definition signed_of (w : nat) (bs : bytes) : Z :=
  let u := le_combine (take w bs) in
  if u <? 2 ^ (8 * Z.of_nat w - 1) then u else u - 2 ^ (8 * Z.of_nat w).

(** [*(float * )a]: the 32 bits of an IEEE-754 single. *)
Definition float_bits (bs : bytes) : Z := le_combine (take 4 bs).

Definition float_is_nan (u : Z) : bool :=
  (Z.land (Z.shiftr u 23) 255 =? 255) && negb (Z.land u (2 ^ 23 - 1) =? 0).

(** Non-NaN singles are ordered as sign-and-magnitude integers: the
    magnitude bits order the magnitudes, infinities included, and
    [+0 = -0]. *)
Definition float_key (u : Z) : Z :=
  let mag := Z.land u (2 ^ 31 - 1) in if Z.testbit u 31 then - mag else mag.

(** [fa < fb]: false whenever either operand is NaN. *)
Definition float_lt (u v : Z) : bool :=
  negb (float_is_nan u) && negb (float_is_nan v) && (float_key u <? float_key v).

(** [memcmp(a, b, n)], by the sign of its result. *)
Fixpoint memcmp (a b : bytes) : Z :=
  match a, b with
  | x :: a', y :: b' =>
      let c := cmp3 (Z.of_N (Byte.to_N x)) (Z.of_N (Byte.to_N y)) in
      if c =? 0 then memcmp a' b' else c
  | _, _ => 0
  end.

(** [ix_compare(a, b, type, col_len)]; [None] is the [InternalError]
    thrown for an unexpected type. *)
Definition ix_compare_col (ty : ColType) (col_len : nat) (a b : bytes) : option Z :=
  match ty with
  | TYPE_INT => Some (cmp3 (signed_of 4 a) (signed_of 4 b))
  | TYPE_BIGINT => Some (cmp3 (signed_of 8 a) (signed_of 8 b))
  | TYPE_FLOAT =>
      let fa := float_bits a in let fb := float_bits b in
      Some (if float_lt fa fb then -1 else if float_lt fb fa then 1 else 0)
  | TYPE_STRING | TYPE_DATETIME => Some (memcmp (take col_len a) (take col_len b))
  | TYPE_UNUSE => None
  end.

(** A key schema: the columns' types and lengths ([col_types_], [col_lens_]). *)
Abbreviation schema := (list (ColType * nat)).

(** The multi-column [ix_compare]: the first nonzero column decides. *)
Fixpoint ix_compare (sch : schema) (a b : bytes) : option Z :=
  match sch with
  | [] => Some 0
  | (ty, len) :: sch' =>
      r ← ix_compare_col ty len a b;
      if r =? 0 then ix_compare sch' (drop len a) (drop len b) else Some r
  end.

(** ** Ranks *)

Fixpoint lexcmp (a b : list Z) : Z :=
  match a, b with
  | x :: a', y :: b' => let c := cmp3 x y in if c =? 0 then lexcmp a' b' else c
  | [], [] => 0
  | [], _ => -1
  | _, [] => 1
  end.

Definition col_rank (ty : ColType) (len : nat) (a : bytes) : list Z :=
  match ty with
  | TYPE_INT => [signed_of 4 a]
  | TYPE_BIGINT => [signed_of 8 a]
  | TYPE_FLOAT => [float_key (float_bits a)]
  | TYPE_STRING | TYPE_DATETIME | TYPE_UNUSE => (fun x => Z.of_N (Byte.to_N x)) <$> take len a
  end.

Fixpoint rank (sch : schema) (a : bytes) : list Z :=
  match sch with
  | [] => []
  | (ty, len) :: sch' => col_rank ty len a ++ rank sch' (drop len a)
  end.

(** A well-formed column: its bytes are there, an integer column has
    its width, and a float column is not NaN. *)
Definition col_ok (ty : ColType) (len : nat) (a : bytes) : Prop :=
  (len <= length a)%nat /\
  match ty with
  | TYPE_INT | TYPE_FLOAT => len = 4%nat
  | TYPE_BIGINT => len = 8%nat
  | TYPE_STRING | TYPE_DATETIME => True
  | TYPE_UNUSE => False
  end /\
  (ty = TYPE_FLOAT -> float_is_nan (float_bits a) = false).

Fixpoint key_ok (sch : schema) (a : bytes) : Prop :=
  match sch with
  | [] => True
  | (ty, len) :: sch' => col_ok ty len a /\ key_ok sch' (drop len a)
  end.

(** ** The three-way comparison and its lexicographic extension *)

Lemma cmp3_cases x y :
  (x < y /\ cmp3 x y = -1) \/ (x = y /\ cmp3 x y = 0) \/ (y < x /\ cmp3 x y = 1).
Proof.
  unfold cmp3. destruct (x <? y) eqn:E1; [left; split; [lia|done]|].
  destruct (y <? x) eqn:E2; [right; right; split; [lia|done]|right; left; split; [lia|done]].
Qed.

Ltac cmp3_cases x y := destruct (cmp3_cases x y) as [[? ->]|[[? ->]|[? ->]]].

Lemma lexcmp_antisym a b : lexcmp b a = - lexcmp a b.
Proof.
  revert b. induction a as [|x a IH]; intros [|y b]; simpl; try done.
  cmp3_cases x y; cmp3_cases y x; simpl; try lia. apply IH.
Qed.

Lemma lexcmp_refl a : lexcmp a a = 0.
Proof. induction a as [|x a IH]; simpl; [done|]. by cmp3_cases x x; [lia| |lia]. Qed.

Lemma lexcmp_eq a b : lexcmp a b = 0 <-> a = b.
Proof.
  split; [|intros ->; apply lexcmp_refl].
  revert b. induction a as [|x a IH]; intros [|y b]; simpl; try done.
  cmp3_cases x y; simpl; try done. intros ->%IH. by subst.
Qed.

Lemma lexcmp_range a b : lexcmp a b = -1 \/ lexcmp a b = 0 \/ lexcmp a b = 1.
Proof.
  revert b. induction a as [|x a IH]; intros [|y b]; simpl; try tauto.
  cmp3_cases x y; simpl; auto.
Qed.

Lemma lexcmp_trans_lt a b c : lexcmp a b < 0 -> lexcmp b c < 0 -> lexcmp a c < 0.
Proof.
  revert b c. induction a as [|x a IH]; intros [|y b] [|z c]; simpl; try lia.
  cmp3_cases x y; cmp3_cases y z; cmp3_cases x z; simpl; try lia. eauto.
Qed.

Lemma lexcmp_le_trans a b c : lexcmp a b <= 0 -> lexcmp b c <= 0 -> lexcmp a c <= 0.
Proof.
  intros H1 H2. destruct (lexcmp_range a b) as [E1|[E1%lexcmp_eq|E1]]; [|by subst|lia].
  destruct (lexcmp_range b c) as [E2|[E2%lexcmp_eq|E2]]; [|subst; lia|lia].
  pose proof (lexcmp_trans_lt a b c). lia.
Qed.

Lemma lexcmp_app a1 a2 b1 b2 :
  length a1 = length b1 ->
  lexcmp (a1 ++ a2) (b1 ++ b2) = let c := lexcmp a1 b1 in if c =? 0 then lexcmp a2 b2 else c.
Proof.
  revert b1. induction a1 as [|x a1 IH]; intros [|y b1] Hl; simpl in *; try lia.
  destruct (cmp3 x y =? 0) eqn:E; [apply IH; lia|by rewrite E].
Qed.

Lemma memcmp_lexcmp a b :
  length a = length b ->
  memcmp a b = lexcmp ((fun x => Z.of_N (Byte.to_N x)) <$> a) ((fun x => Z.of_N (Byte.to_N x)) <$> b).
Proof.
  revert b. induction a as [|x a IH]; intros [|y b] Hl; simpl in *; try lia.
  destruct (_ =? 0); [apply IH; lia|done].
Qed.

(** ** [ix_compare] is the lexicographic order of ranks *)

Lemma col_rank_length ty len a :
  col_ok ty len a -> length (col_rank ty len a) =
    match ty with TYPE_STRING | TYPE_DATETIME | TYPE_UNUSE => len | _ => 1%nat end.
Proof.
  intros (Hl & Hty & _). destruct ty; simpl; try done; rewrite length_fmap, length_take; lia.
Qed.

Lemma lexcmp_single x y : lexcmp [x] [y] = cmp3 x y.
Proof. cbn [lexcmp]. by destruct (cmp3 x y =? 0) eqn:E; [apply Z.eqb_eq in E|]. Qed.

Lemma ix_compare_col_rank ty len a b :
  col_ok ty len a -> col_ok ty len b ->
  ix_compare_col ty len a b = Some (lexcmp (col_rank ty len a) (col_rank ty len b)).
Proof.
  intros (Hla & Hty & Hna) (Hlb & _ & Hnb).
  destruct ty; cbn [ix_compare_col col_rank]; try rewrite lexcmp_single; try done.
  - unfold float_lt. rewrite Hna, Hnb by done. cbn [negb andb]. done.
  - f_equal. apply memcmp_lexcmp. rewrite !length_take. lia.
  - f_equal. apply memcmp_lexcmp. rewrite !length_take. lia.
Qed.

Theorem ix_compare_rank sch a b :
  key_ok sch a -> key_ok sch b -> ix_compare sch a b = Some (lexcmp (rank sch a) (rank sch b)).
Proof.
  revert a b. induction sch as [|[ty len] sch IH]; intros a b; cbn [ix_compare rank key_ok]; [done|].
  intros [Ha Ha'] [Hb Hb']. rewrite ix_compare_col_rank by done. simpl_bind.
  rewrite lexcmp_app by (by rewrite !col_rank_length). cbv zeta.
  destruct (lexcmp (col_rank ty len a) (col_rank ty len b) =? 0); [by apply IH|done].
Qed.

(** ** The order laws the B+tree node operations rely on *)

Class KeyOrder {K : Type} (kvalid : K -> Prop) (kcmp : K -> K -> Z) : Prop := {
  kcmp_antisym a b : kvalid a -> kvalid b -> kcmp b a = - kcmp a b;
  kcmp_trans_lt a b c : kvalid a -> kvalid b -> kvalid c ->
    kcmp a b < 0 -> kcmp b c < 0 -> kcmp a c < 0;
  kcmp_le_trans a b c : kvalid a -> kvalid b -> kvalid c ->
    kcmp a b <= 0 -> kcmp b c <= 0 -> kcmp a c <= 0;
  kcmp_eq_congr a b c : kvalid a -> kvalid b -> kvalid c ->
    kcmp a b = 0 -> kcmp a c = kcmp b c
}.

(** [ix_compare] on keys of the index's schema (never [None] on
    well-formed keys, by [ix_compare_rank]). *)
Definition ix_cmp (sch : schema) (a b : bytes) : Z :=
  match ix_compare sch a b with Some r => r | None => 0 end.

Lemma ix_cmp_rank sch a b :
  key_ok sch a -> key_ok sch b -> ix_cmp sch a b = lexcmp (rank sch a) (rank sch b).
Proof. intros Ha Hb. unfold ix_cmp. by rewrite ix_compare_rank. Qed.

(** [ix_compare] is a total preorder on well-formed keys: the
    comparison the B+tree's node search and ordering depend on. *)
#[export] Instance ix_cmp_order sch : KeyOrder (key_ok sch) (ix_cmp sch).
Proof.
  split; intros a b; [|intros c..]; intros Ha Hb; rewrite ?ix_cmp_rank by done.
  - apply lexcmp_antisym.
  - intros Hc. rewrite !ix_cmp_rank by done. apply lexcmp_trans_lt.
  - intros Hc. rewrite !ix_cmp_rank by done. apply lexcmp_le_trans.
  - intros Hc. rewrite !ix_cmp_rank by done. by intros ->%lexcmp_eq.
Qed.

Section order_facts.
Context {K : Type} (kvalid : K -> Prop) (kcmp : K -> K -> Z) `{!KeyOrder kvalid kcmp}.

Lemma kcmp_refl a : kvalid a -> kcmp a a = 0.
Proof. intros Ha. pose proof (kcmp_antisym a a Ha Ha). lia. Qed.

Lemma kcmp_lt_le_trans a b c : kvalid a -> kvalid b -> kvalid c ->
  kcmp a b < 0 -> kcmp b c <= 0 -> kcmp a c < 0.
Proof.
  intros Ha Hb Hc H1 H2. destruct (decide (kcmp b c = 0)) as [E|E].
  - pose proof (kcmp_eq_congr b c a Hb Hc Ha E) as E'.
    rewrite (kcmp_antisym a b), (kcmp_antisym a c) in E' by done. lia.
  - apply (kcmp_trans_lt a b c); try done; lia.
Qed.

Lemma kcmp_le_lt_trans a b c : kvalid a -> kvalid b -> kvalid c ->
  kcmp a b <= 0 -> kcmp b c < 0 -> kcmp a c < 0.
Proof.
  intros Ha Hb Hc H1 H2. destruct (decide (kcmp a b = 0)) as [E|E].
  - by rewrite (kcmp_eq_congr a b c).
  - apply (kcmp_trans_lt a b c); try done; lia.
Qed.

End order_facts.

(** A NaN FLOAT key compares equal to both 1.0 and 2.0, which compare
    unequal: without the non-NaN condition of [col_ok], key equality
    under [ix_compare] is not transitive. *)
Example float_nan_not_transitive :
  let nan := [Byte.x00; Byte.x00; Byte.xc0; Byte.x7f] in
  let one := [Byte.x00; Byte.x00; Byte.x80; Byte.x3f] in
  let two := [Byte.x00; Byte.x00; Byte.x00; Byte.x40] in
  ix_compare [(TYPE_FLOAT, 4%nat)] nan one = Some 0 /\
  ix_compare [(TYPE_FLOAT, 4%nat)] nan two = Some 0 /\
  ix_compare [(TYPE_FLOAT, 4%nat)] one two = Some (-1).
Proof. vm_compute. split_and!; reflexivity. Qed.
