(* ===== verification/Value.v ===== *)
(** * Values, aggregates and conditions: [common/common.h]

    [Value] holds a column value: its type, the 8-byte union of
    [int_val], [float_val] and [bigint_val] (kept as one unsigned 64-bit
    integer, read and written little-endian, so [set_int] leaves the
    upper four bytes as they were), the two strings and the [raw]
    buffer.  Its methods that can fail ([copy_from], the comparisons,
    [init_raw], [cover_raw]) run in a state-exception monad over the
    value, so an exception thrown half-way keeps the partial update.
    [AgreValue] is the accumulator of MAX, MIN and SUM, and
    [Condition] and [SetClause] the predicates and assignments of the
    executors.  Single-precision addition (the FLOAT SUM) and
    [std::hash] are parameters. *)

From Stdlib Require Import ZArith Lia.
From stdpp Require Import base list strings.
From coqutil Require Import Word.LittleEndianList.
From S2P Require Import Prelude Key.

Open Scope Z_scope.
Open Scope rmdb_scope.

(** Assertion failures and [StringOverflowError]. *)
Inductive ValErr := ValAssert | StringOverflowError.

(** [sizeof(int)], [sizeof(long long)], [sizeof(float)]. *)
Definition sizeof_int : Z := 4.
Definition sizeof_bigint : Z := 8.
Definition sizeof_float : Z := 4.

(** A C++ [long long]: 64-bit two's complement. *)
Definition wrap64 (z : Z) : Z := (z + 2 ^ 63) mod 2 ^ 64 - 2 ^ 63.

Definition zeros (n : Z) : bytes := replicate (Z.to_nat n) Byte.x00.

(** [strlen]: the bytes before the first NUL. *)
Fixpoint strlen (s : bytes) : Z :=
  match s with
  | [] => 0
  | b :: s' => if decide (b = Byte.x00) then 0 else 1 + strlen s'
  end.

(** [std::string::operator<]: bytes compared as unsigned, a proper
    prefix first. *)
Definition str_lt (a b : bytes) : bool :=
  let c := memcmp a b in if c =? 0 then Nat.ltb (length a) (length b) else c <? 0.

(** ** [struct Value] *)

Record Value := mkValue {
  v_type : ColType;
  v_num : Z;            (* the union, as an unsigned 64-bit integer *)
  str_val : bytes;
  datetime_val : bytes;
  raw : option bytes    (* [raw], [nullptr] as [None] *)
}.

Definition int_val (v : Value) : Z := wrap32 (v_num v).
Definition float_val (v : Value) : Z := v_num v mod 2 ^ 32.
Definition bigint_val (v : Value) : Z := wrap64 (v_num v).

(** Writing the low four bytes of the union: the upper four stay. *)
Definition set_low32 (num x : Z) : Z := num / 2 ^ 32 * 2 ^ 32 + x mod 2 ^ 32.

Definition with_num (v : Value) (n : Z) : Value := mkValue (v_type v) n (str_val v) (datetime_val v) (raw v).
Definition with_type (v : Value) (t : ColType) : Value := mkValue t (v_num v) (str_val v) (datetime_val v) (raw v).
Definition with_raw (v : Value) (r : option bytes) : Value := mkValue (v_type v) (v_num v) (str_val v) (datetime_val v) r.

Definition set_int_val (v : Value) (x : Z) : Value := with_num v (set_low32 (v_num v) x).
Definition set_bigint_val (v : Value) (x : Z) : Value := with_num v (x mod 2 ^ 64).
Definition set_float_val (v : Value) (bits : Z) : Value := with_num v (set_low32 (v_num v) bits).
Definition set_str_val (v : Value) (s : bytes) : Value := mkValue (v_type v) (v_num v) s (datetime_val v) (raw v).
Definition set_datetime_val (v : Value) (s : bytes) : Value := mkValue (v_type v) (v_num v) (str_val v) s (raw v).

Definition set_int (v : Value) (x : Z) : Value := set_int_val (with_type v TYPE_INT) x.
Definition set_bigint (v : Value) (x : Z) : Value := set_bigint_val (with_type v TYPE_BIGINT) x.
Definition set_float (v : Value) (bits : Z) : Value := set_float_val (with_type v TYPE_FLOAT) bits.
Definition set_str (v : Value) (s : bytes) : Value := set_str_val (with_type v TYPE_STRING) s.
Definition set_datetime (v : Value) (s : bytes) : Value := set_datetime_val (with_type v TYPE_DATETIME) s.

Definition valM (A : Type) := stM Value ValErr A.

(** [copy_from(v)]: the type, then the member of that type. *)
Definition copy_from (w : Value) : valM unit :=
  modify (fun v => with_type v (v_type w)) ;;
  let! v := gets id in
  match v_type v with
  | TYPE_INT => modify (fun v => set_int_val v (int_val w))
  | TYPE_FLOAT => modify (fun v => set_float_val v (float_val w))
  | TYPE_BIGINT => modify (fun v => set_bigint_val v (bigint_val w))
  | TYPE_DATETIME => modify (fun v => set_datetime_val v (datetime_val w))
  | TYPE_STRING => modify (fun v => set_str_val v (str_val w))
  | TYPE_UNUSE => throw ValAssert
  end.

(** [operator<]: it asserts that the types differ, then compares by
    this value's type. *)
Definition value_lt (v w : Value) : res ValErr bool :=
  if decide (v_type v <> v_type w) then
    match v_type v with
    | TYPE_INT => Ok (int_val v <? int_val w)
    | TYPE_FLOAT => Ok (float_lt (float_val v) (float_val w))
    | TYPE_BIGINT => Ok (bigint_val v <? bigint_val w)
    | TYPE_DATETIME => Ok (str_lt (datetime_val v) (datetime_val w))
    | TYPE_STRING => Ok (str_lt (str_val v) (str_val w))
    | TYPE_UNUSE => Err ValAssert
    end
  else Err ValAssert.

(** IEEE equality of two singles: equal non-NaN keys. *)
Definition float_eq (u v : Z) : bool :=
  negb (float_is_nan u) && negb (float_is_nan v) && (float_key u =? float_key v).

(** [operator==]: it asserts that the types agree. *)
Definition value_eq (v w : Value) : res ValErr bool :=
  if decide (v_type v = v_type w) then
    match v_type v with
    | TYPE_INT => Ok (int_val v =? int_val w)
    | TYPE_FLOAT => Ok (float_eq (float_val v) (float_val w))
    | TYPE_BIGINT => Ok (bigint_val v =? bigint_val w)
    | TYPE_DATETIME => Ok (bool_decide (datetime_val v = datetime_val w))
    | TYPE_STRING => Ok (bool_decide (str_val v = str_val w))
    | TYPE_UNUSE => Err ValAssert
    end
  else Err ValAssert.

(** [get_val_from_raw(val, len)]. *)
Definition get_val_from_raw (v : Value) (val : bytes) (len : Z) : res ValErr Value :=
  match v_type v with
  | TYPE_INT => if len =? sizeof_int then Ok (set_int_val v (signed_of 4 val)) else Err ValAssert
  | TYPE_BIGINT => if len =? sizeof_bigint then Ok (set_bigint_val v (signed_of 8 val)) else Err ValAssert
  | TYPE_FLOAT => if len =? sizeof_float then Ok (set_float_val v (float_bits val)) else Err ValAssert
  | TYPE_STRING => Ok (set_str_val v (take (Z.to_nat len) val))
  | TYPE_DATETIME => Ok (set_datetime_val v (take (Z.to_nat len) val))
  | TYPE_UNUSE => Ok v
  end.

(** The bytes [init_raw] and [cover_raw] write over a buffer [buf] of
    [len] bytes. *)
Definition write_raw (v : Value) (len : Z) (buf : bytes) : res ValErr bytes :=
  match v_type v with
  | TYPE_INT => if len =? sizeof_int then Ok (le_split 4 (int_val v) ++ drop 4 buf) else Err ValAssert
  | TYPE_BIGINT => if len =? sizeof_bigint then Ok (le_split 8 (bigint_val v) ++ drop 8 buf) else Err ValAssert
  | TYPE_FLOAT => if len =? sizeof_float then Ok (le_split 4 (float_val v) ++ drop 4 buf) else Err ValAssert
  | TYPE_STRING =>
      if len <? Z.of_nat (length (str_val v)) then Err StringOverflowError
      else Ok (str_val v ++ zeros (len - Z.of_nat (length (str_val v))))
  | TYPE_DATETIME =>
      if negb (len =? strlen (datetime_val v)) then Err ValAssert
      else Ok (take (Z.to_nat len) (datetime_val v ++ zeros len))
  | TYPE_UNUSE => Ok buf
  end.

(** [init_raw(len)]: a new zeroed buffer of [len] bytes, then the value
    written into it; the buffer stays allocated when the write throws. *)
Definition init_raw (len : Z) : valM unit :=
  let! v := gets id in
  if is_Some_dec (raw v) then throw ValAssert else
  modify (fun v => with_raw v (Some (zeros len))) ;;
  match write_raw v len (zeros len) with
  | Ok r => modify (fun v => with_raw v (Some r))
  | Err e => throw e
  end.

(** [cover_raw(len)]: the value written over the existing buffer. *)
Definition cover_raw (len : Z) : valM unit :=
  let! v := gets id in
  match raw v with
  | None => throw ValAssert
  | Some buf =>
      match write_raw v len buf with
      | Ok r => modify (fun v => with_raw v (Some r))
      | Err e => throw e
      end
  end.

(** [ValueHash] over the [std::hash] functions of its members. *)
Section hash.
Variables (hash_int hash_float hash_bigint : Z -> Z) (hash_string : bytes -> Z).

Definition value_hash (v : Value) : res ValErr Z :=
  match v_type v with
  | TYPE_INT => Ok (hash_int (int_val v))
  | TYPE_FLOAT => Ok (hash_float (float_val v))
  | TYPE_BIGINT => Ok (hash_bigint (bigint_val v))
  | TYPE_DATETIME => Ok (hash_string (str_val v))
  | TYPE_STRING => Ok (hash_string (datetime_val v))
  | TYPE_UNUSE => Err ValAssert
  end.
End hash.

(** ** [enum CompOp], [enum SetOp], [TabCol], [Condition], [SetClause] *)

Inductive CompOp := OP_EQ | OP_NE | OP_LT | OP_GT | OP_LE | OP_GE.
Inductive SetOp := OP_ASSIGN | OP_PLUS | OP_MINUS | OP_INVALID.

#[export] Instance CompOp_eq_dec : EqDecision CompOp.
Proof. solve_decision. Defined.

#[export] Instance SetOp_eq_dec : EqDecision SetOp.
Proof. solve_decision. Defined.

Record TabCol := mkTabCol { tc_tab_name : string; tc_col_name : string }.

#[export] Instance TabCol_eq_dec : EqDecision TabCol.
Proof. solve_decision. Defined.

Record Condition := mkCondition {
  lhs_col : TabCol;
  op : CompOp;
  is_rhs_val : bool;
  rhs_col : TabCol;
  rhs_val : Value
}.

(** [Condition::is_join_eq]. *)
Definition is_join_eq (c : Condition) : bool :=
  bool_decide (op c = OP_EQ) && negb (is_rhs_val c) &&
  negb (bool_decide (tc_tab_name (lhs_col c) = tc_tab_name (rhs_col c))).

Record SetClause := mkSetClause { sc_lhs : TabCol; sc_rhs : Value; set_op : SetOp }.

(** ** [struct AgreValue] *)

(** [enum AgreType] of [defs.h]. *)
Inductive AgreType := AGRE_TYPE_MAX | AGRE_TYPE_MIN | AGRE_TYPE_SUM | AGRE_TYPE_COUNT | AGRE_TYPE_COUNT_ALL.

#[export] Instance AgreType_eq_dec : EqDecision AgreType.
Proof. solve_decision. Defined.

(** [std::numeric_limits]: [int] bounds, and the bit patterns of
    [float]'s [lowest()] and [max()]. *)
Definition INT_MIN : Z := - 2 ^ 31.
Definition INT_MAX : Z := 2 ^ 31 - 1.
Definition FLT_LOWEST_BITS : Z := 4286578687.  (* 0xFF7FFFFF *)
Definition FLT_MAX_BITS : Z := 2139095039.     (* 0x7F7FFFFF *)

(** The accumulator: its kind, the value type, the four-byte union of
    [int_val] and [float_val], and the string buffer with its length. *)
Record AgreValue := mkAgreValue {
  agre_type : AgreType;
  a_type : ColType;
  a_num : Z;
  a_str : option bytes;
  str_len : Z
}.

Definition a_int_val (a : AgreValue) : Z := wrap32 (a_num a).

Definition with_agre (a : AgreValue) (t : AgreType) (ty : ColType) : AgreValue :=
  mkAgreValue t ty (a_num a) (a_str a) (str_len a).
Definition with_anum (a : AgreValue) (n : Z) : AgreValue :=
  mkAgreValue (agre_type a) (a_type a) (n mod 2 ^ 32) (a_str a) (str_len a).
Definition with_astr (a : AgreValue) (s : option bytes) : AgreValue :=
  mkAgreValue (agre_type a) (a_type a) (a_num a) s (str_len a).
Definition with_str_len (a : AgreValue) (n : Z) : AgreValue :=
  mkAgreValue (agre_type a) (a_type a) (a_num a) (a_str a) n.

Definition agreM (A : Type) := stM AgreValue ValErr A.

Definition assertA (b : bool) : agreM unit := if b then ret tt else throw ValAssert.

(** [init_agre_raw(value_type, agre_type, len)]. *)
Definition init_agre_raw (value_type : ColType) (agre_type_ : AgreType) (len : Z) : agreM unit :=
  modify (fun a => with_agre a agre_type_ value_type) ;;
  assertA (bool_decide (value_type = TYPE_INT \/ value_type = TYPE_FLOAT \/ value_type = TYPE_STRING)) ;;
  (if decide (value_type = TYPE_STRING) then modify (fun a => with_str_len a len) else ret tt) ;;
  match agre_type_, value_type with
  | AGRE_TYPE_MAX, TYPE_INT => assertA (len =? sizeof_int) ;; modify (fun a => with_anum a INT_MIN)
  | AGRE_TYPE_MAX, TYPE_FLOAT => assertA (len =? sizeof_float) ;; modify (fun a => with_anum a FLT_LOWEST_BITS)
  | AGRE_TYPE_MAX, TYPE_STRING => modify (fun a => with_astr a (Some (zeros len)))
  | AGRE_TYPE_MIN, TYPE_INT => assertA (len =? sizeof_int) ;; modify (fun a => with_anum a INT_MAX)
  | AGRE_TYPE_MIN, TYPE_FLOAT => assertA (len =? sizeof_float) ;; modify (fun a => with_anum a FLT_MAX_BITS)
  | AGRE_TYPE_MIN, TYPE_STRING => modify (fun a => with_astr a (Some (replicate (Z.to_nat len) Byte.xff)))
  | AGRE_TYPE_SUM, TYPE_INT => assertA (len =? sizeof_int) ;; modify (fun a => with_anum a 0)
  | AGRE_TYPE_SUM, TYPE_FLOAT => assertA (len =? sizeof_float) ;; modify (fun a => with_anum a 0)
  | AGRE_TYPE_SUM, TYPE_STRING => throw ValAssert
  | _, _ => ret tt
  end.

Section add_value.
(** Single-precision addition on bit patterns. *)
Variable fadd32 : Z -> Z -> Z.

(** [add_value(value, len)]: fold one column value into the accumulator. *)
Definition add_value (value : bytes) (len : Z) : agreM unit :=
  let! a := gets id in
  match agre_type a, a_type a with
  | AGRE_TYPE_MAX, TYPE_INT =>
      assertA (len =? sizeof_int) ;;
      let v := signed_of 4 value in
      if a_int_val a <? v then modify (fun a => with_anum a v) else ret tt
  | AGRE_TYPE_MAX, TYPE_FLOAT =>
      assertA (len =? sizeof_float) ;;
      let v := float_bits value in
      if float_lt (a_num a) v then modify (fun a => with_anum a v) else ret tt
  | AGRE_TYPE_MAX, TYPE_STRING =>
      match a_str a with
      | None => throw ValAssert
      | Some s =>
          if 0 <? memcmp (take (Z.to_nat len) value) (take (Z.to_nat len) s)
          then modify (fun a => with_astr a (Some (take (Z.to_nat len) value ++ drop (Z.to_nat len) s)))
          else ret tt
      end
  | AGRE_TYPE_MIN, TYPE_INT =>
      assertA (len =? sizeof_int) ;;
      let v := signed_of 4 value in
      if v <? a_int_val a then modify (fun a => with_anum a v) else ret tt
  | AGRE_TYPE_MIN, TYPE_FLOAT =>
      assertA (len =? sizeof_float) ;;
      let v := float_bits value in
      if float_lt v (a_num a) then modify (fun a => with_anum a v) else ret tt
  | AGRE_TYPE_MIN, TYPE_STRING =>
      match a_str a with
      | None => throw ValAssert
      | Some s =>
          if memcmp (take (Z.to_nat len) value) (take (Z.to_nat len) s) <? 0
          then modify (fun a => with_astr a (Some (take (Z.to_nat len) value ++ drop (Z.to_nat len) s)))
          else ret tt
      end
  | AGRE_TYPE_SUM, TYPE_INT =>
      assertA (len =? sizeof_int) ;;
      modify (fun a => with_anum a (a_int_val a + signed_of 4 value))
  | AGRE_TYPE_SUM, TYPE_FLOAT =>
      assertA (len =? sizeof_float) ;;
      modify (fun a => with_anum a (fadd32 (a_num a) (float_bits value)))
  | AGRE_TYPE_SUM, TYPE_STRING => throw ValAssert
  | _, _ => ret tt
  end.
End add_value.

(** [get_value()]: the accumulated value's bytes, [nullptr] as [None]. *)
Definition agre_get_value : agreM (option bytes) :=
  let! a := gets id in
  if bool_decide (agre_type a = AGRE_TYPE_MAX \/ agre_type a = AGRE_TYPE_MIN \/ agre_type a = AGRE_TYPE_SUM) then
    match a_type a with
    | TYPE_INT => ret (Some (le_split 4 (a_int_val a)))
    | TYPE_FLOAT => ret (Some (le_split 4 (a_num a)))
    | TYPE_STRING =>
        if decide (agre_type a = AGRE_TYPE_SUM) then throw ValAssert
        else ret (Some (take (Z.to_nat (str_len a)) (default [] (a_str a))))
    | _ => ret None
    end
  else ret None.

(** ** Integer helpers *)

Lemma signed_of_le_split (w : nat) z :
  (0 < w)%nat -> - 2 ^ (8 * Z.of_nat w - 1) <= z < 2 ^ (8 * Z.of_nat w - 1) ->
  signed_of w (le_split w z) = z.
Proof.
  intros Hw Hz. unfold signed_of. rewrite take_ge by (rewrite length_le_split; lia).
  rewrite le_combine_split. replace (Z.of_nat w * 8) with (8 * Z.of_nat w) by lia.
  assert (E : 2 ^ (8 * Z.of_nat w) = 2 * 2 ^ (8 * Z.of_nat w - 1)).
  { rewrite <- Z.pow_succ_r by lia. f_equal. lia. }
  rewrite E in *. destruct (Z.leb_spec 0 z).
  - rewrite Z.mod_small by lia. destruct (Z.ltb_spec z (2 ^ (8 * Z.of_nat w - 1))); lia.
  - rewrite <- (Z.mod_add z 1) by lia. rewrite Z.mod_small by lia.
    destruct (Z.ltb_spec (z + 1 * (2 * 2 ^ (8 * Z.of_nat w - 1))) (2 ^ (8 * Z.of_nat w - 1))); lia.
Qed.

Lemma signed_of_int z : in_int32 z -> signed_of 4 (le_split 4 z) = z.
Proof. intros H. apply signed_of_le_split; [lia|]. exact H. Qed.

Lemma wrap32_mod z : wrap32 (z mod 2 ^ 32) = wrap32 z.
Proof. unfold wrap32. f_equal. by rewrite Z.add_mod_idemp_l by lia. Qed.

Lemma wrap32_mod_pow z : wrap32 z mod 2 ^ 32 = z mod 2 ^ 32.
Proof.
  unfold wrap32. rewrite Zminus_mod, Zmod_mod, <- Zminus_mod.
  replace (z + 2 ^ 31 - 2 ^ 31) with z by lia. done.
Qed.

Lemma wrap64_mod_pow z : wrap64 z mod 2 ^ 64 = z mod 2 ^ 64.
Proof.
  unfold wrap64. rewrite Zminus_mod, Zmod_mod, <- Zminus_mod.
  replace (z + 2 ^ 63 - 2 ^ 63) with z by lia. done.
Qed.

Lemma set_low32_same num x : x mod 2 ^ 32 = num mod 2 ^ 32 -> set_low32 num x = num.
Proof. unfold set_low32. intros ->. rewrite Z.mul_comm. symmetry. apply Z.div_mod. lia. Qed.

Lemma strlen_le s : (Z.to_nat (strlen s) <= length s)%nat /\ 0 <= strlen s.
Proof. induction s as [|b s IH]; cbn; [lia|]. case_decide; lia. Qed.

(** ** The raw image of a value *)

(** The sizes [init_raw] accepts. *)
Definition raw_fits (v : Value) (len : Z) : Prop :=
  match v_type v with
  | TYPE_INT => len = sizeof_int
  | TYPE_BIGINT => len = sizeof_bigint
  | TYPE_FLOAT => len = sizeof_float
  | TYPE_STRING => Z.of_nat (length (str_val v)) <= len
  | TYPE_DATETIME => len = strlen (datetime_val v)
  | TYPE_UNUSE => True
  end.

(** The value read back from its raw image: a string padded with NULs
    to the column length, a datetime cut at its first NUL. *)
Definition raw_image (v : Value) (len : Z) : Value :=
  match v_type v with
  | TYPE_STRING => set_str_val v (str_val v ++ zeros (len - Z.of_nat (length (str_val v))))
  | TYPE_DATETIME => set_datetime_val v (take (Z.to_nat (strlen (datetime_val v))) (datetime_val v))
  | _ => v
  end.

Lemma write_raw_spec v len :
  0 <= v_num v < 2 ^ 64 -> v_type v <> TYPE_UNUSE ->
  match write_raw v len (zeros len) with
  | Ok r => raw_fits v len /\ Z.of_nat (length r) = len /\ get_val_from_raw v r len = Ok (raw_image v len)
  | Err _ => ~ raw_fits v len
  end.
Proof.
  intros Hn Hty. unfold write_raw, raw_fits, raw_image, get_val_from_raw, sizeof_int, sizeof_bigint, sizeof_float.
  destruct (v_type v); [| | | | |done].
  - destruct (Z.eqb_spec len 4) as [->|]; [|lia]. cbn. replace (drop _ (zeros _)) with (@nil Byte.byte) by reflexivity.
    rewrite app_nil_r, length_le_split.
    split_and!; [done|done|]. rewrite signed_of_int by apply wrap32_range.
    unfold set_int_val, int_val. rewrite set_low32_same by apply wrap32_mod_pow. by destruct v.
  - destruct (Z.eqb_spec len 4) as [->|]; [|lia]. cbn. replace (drop _ (zeros _)) with (@nil Byte.byte) by reflexivity.
    rewrite app_nil_r, length_le_split.
    split_and!; [done|done|]. unfold float_bits, set_float_val, float_val.
    rewrite take_ge, le_combine_split by (rewrite length_le_split; lia).
    change (Z.of_nat 4 * 8) with 32. rewrite set_low32_same by (by rewrite !Zmod_mod). by destruct v.
  - destruct (Z.ltb_spec len (Z.of_nat (length (str_val v)))); [lia|].
    unfold zeros. rewrite length_app, length_replicate. split_and!; [lia|lia|].
    rewrite take_ge by (rewrite length_app, length_replicate; lia). done.
  - pose proof (strlen_le (datetime_val v)) as [Hle Hpos].
    destruct (Z.eqb_spec len (strlen (datetime_val v))) as [->|]; cbn; [|lia].
    unfold zeros. rewrite length_take, length_app, length_replicate. split_and!; [done|lia|].
    rewrite take_take, Nat.min_id, take_app_le by done. done.
  - destruct (Z.eqb_spec len 8) as [->|]; [|lia]. cbn. replace (drop _ (zeros _)) with (@nil Byte.byte) by reflexivity.
    rewrite app_nil_r, length_le_split.
    split_and!; [done|done|]. rewrite (signed_of_le_split 8) by (try lia; unfold bigint_val, wrap64; change (8 * Z.of_nat 8 - 1) with 63; pose proof (Z.mod_pos_bound (v_num v + 2 ^ 63) (2 ^ 64) ltac:(lia)); lia).
    unfold set_bigint_val, bigint_val. rewrite wrap64_mod_pow, Z.mod_small by lia. by destruct v.
Qed.

(** C29: [init_raw(len)] on a value without a buffer succeeds exactly when
    the length fits the type (4 for INT and FLOAT, 8 for BIGINT, at
    least the string's size, the datetime's [strlen]); it then holds a
    [len]-byte buffer from which [get_val_from_raw] reads the value back
    (a string padded with NULs, a datetime cut at its first NUL).  When
    it throws, the zeroed buffer it allocated stays. *)
Theorem init_raw_roundtrip v len :
  raw v = None -> 0 <= v_num v < 2 ^ 64 -> v_type v <> TYPE_UNUSE ->
  match init_raw len v with
  | (Ok _, v') => raw_fits v len /\ exists r, v' = with_raw v (Some r) /\
      Z.of_nat (length r) = len /\ get_val_from_raw v r len = Ok (raw_image v len)
  | (Err _, v') => ~ raw_fits v len /\ v' = with_raw v (Some (zeros len))
  end.
Proof.
  intros Hr Hn Hty. pose proof (write_raw_spec v len Hn Hty) as Hw.
  unfold init_raw, bindM, gets, modify, throw. cbn. rewrite Hr. cbn.
  destruct (write_raw v len (zeros len)) as [r|e]; cbn.
  - destruct Hw as (Hfit & Hlen & Hget). split; [done|]. exists r. split_and!; [by destruct v|done|done].
  - done.
Qed.

(** ** Aggregates over [INT] columns *)

(** The aggregate MAX, MIN and SUM compute over [int]s: the maximum
    from [INT_MIN], the minimum from [INT_MAX], the sum wrapped to 32
    bits. *)
Definition agg_int (t : AgreType) (xs : list Z) : Z :=
  match t with
  | AGRE_TYPE_MAX => foldl Z.max INT_MIN xs
  | AGRE_TYPE_MIN => foldl Z.min INT_MAX xs
  | AGRE_TYPE_SUM => wrap32 (foldl Z.add 0 xs)
  | _ => 0
  end.

(** One step of the accumulator on an [int]. *)
Definition agg_step (t : AgreType) (acc x : Z) : Z :=
  match t with
  | AGRE_TYPE_MAX => Z.max acc x
  | AGRE_TYPE_MIN => Z.min acc x
  | _ => wrap32 (acc + x)
  end.

Definition is_numeric_agg (t : AgreType) : Prop := t = AGRE_TYPE_MAX \/ t = AGRE_TYPE_MIN \/ t = AGRE_TYPE_SUM.

Section agg.
Variable fadd32 : Z -> Z -> Z.

Lemma add_value_int_step t a x :
  is_numeric_agg t -> agre_type a = t -> a_type a = TYPE_INT -> in_int32 x ->
  exists a', add_value fadd32 (le_split 4 x) 4 a = (Ok tt, a') /\
    agre_type a' = t /\ a_type a' = TYPE_INT /\ a_int_val a' = agg_step t (a_int_val a) x.
Proof.
  intros Ht Ha Hty Hx. pose proof (wrap32_range (a_num a)) as Hr.
  unfold add_value, bindM, gets, assertA, modify, ret. cbn. rewrite Ha, Hty.
  unfold a_int_val, in_int32 in *. destruct Ht as [-> | [-> | ->]]; cbn; rewrite signed_of_int by done.
  - destruct (Z.ltb_spec (wrap32 (a_num a)) x); eexists; (split; [reflexivity|]); cbn;
      split_and!; try done; rewrite ?wrap32_mod, ?wrap32_id by done; lia.
  - destruct (Z.ltb_spec x (wrap32 (a_num a))); eexists; (split; [reflexivity|]); cbn;
      split_and!; try done; rewrite ?wrap32_mod, ?wrap32_id by done; lia.
  - eexists; (split; [reflexivity|]); cbn. split_and!; try done. by rewrite wrap32_mod.
Qed.

Lemma iter_add_value_int t a xs :
  is_numeric_agg t -> agre_type a = t -> a_type a = TYPE_INT -> Forall in_int32 xs ->
  exists a', iterM xs (fun x => add_value fadd32 (le_split 4 x) 4) a = (Ok tt, a') /\
    agre_type a' = t /\ a_type a' = TYPE_INT /\ a_int_val a' = foldl (agg_step t) (a_int_val a) xs.
Proof.
  intros Ht. revert a. induction xs as [|x xs IH]; intros a Ha Hty Hxs; [by exists a|].
  apply Forall_cons in Hxs as [Hx Hxs].
  destruct (add_value_int_step t a x Ht Ha Hty Hx) as (a1 & Hrun & Ha1 & Hty1 & Hv1).
  destruct (IH a1 Ha1 Hty1 Hxs) as (a2 & Hrun2 & ? & ? & Hv2).
  exists a2. cbn. rewrite (bindM_ok _ _ _ _ _ Hrun). rewrite Hv1 in Hv2. done.
Qed.

Lemma foldl_wrap_add xs s : foldl (agg_step AGRE_TYPE_SUM) (wrap32 s) xs = wrap32 (foldl Z.add s xs).
Proof. revert s. induction xs as [|x xs IH]; intros s; [done|]. cbn. by rewrite wrap32_add_wrap, IH. Qed.

(** C30: Initialising an [INT] accumulator for MAX, MIN or SUM, folding
    a list of [int] column values into it with [add_value] and reading
    it with [get_value] yields the maximum (from [INT_MIN]), the minimum
    (from [INT_MAX]) or the sum wrapped to 32 bits. *)
Theorem agre_int_fold t xs a0 :
  is_numeric_agg t -> Forall in_int32 xs ->
  fst ((init_agre_raw TYPE_INT t 4 ;; iterM xs (fun x => add_value fadd32 (le_split 4 x) 4) ;; agre_get_value) a0) =
    Ok (Some (le_split 4 (agg_int t xs))).
Proof.
  intros Ht Hxs.
  assert (Hinit : exists a1, init_agre_raw TYPE_INT t 4 a0 = (Ok tt, a1) /\ agre_type a1 = t /\
            a_type a1 = TYPE_INT /\ foldl (agg_step t) (a_int_val a1) xs = agg_int t xs).
  { unfold init_agre_raw, bindM, modify, assertA, ret. cbn.
    destruct Ht as [-> | [-> | ->]]; cbn; eexists; (split; [reflexivity|]); cbn; split_and!; try done;
      unfold a_int_val; cbn. rewrite Zmod_0_l. exact (foldl_wrap_add xs 0). }
  destruct Hinit as (a1 & Hrun1 & Ha1 & Hty1 & Hv1).
  destruct (iter_add_value_int t a1 xs Ht Ha1 Hty1 Hxs) as (a2 & Hrun2 & Ha2 & Hty2 & Hv2).
  rewrite (bindM_ok _ _ _ _ _ Hrun1), (bindM_ok _ _ _ _ _ Hrun2).
  unfold agre_get_value, bindM, gets, ret. cbn. rewrite Ha2, Hty2, bool_decide_true by (destruct Ht as [-> | [-> | ->]]; auto).
  by rewrite Hv2, Hv1.
Qed.
End agg.

(** ** Examples *)

Definition agre0 : AgreValue := mkAgreValue AGRE_TYPE_COUNT TYPE_UNUSE 0 None 0.

(** SUM over [2147483647; 1] wraps to [INT_MIN]. *)
Lemma agre_int_fold_witness :
  fst ((init_agre_raw TYPE_INT AGRE_TYPE_SUM 4 ;;
        iterM [INT_MAX; 1] (fun x => add_value Z.add (le_split 4 x) 4) ;; agre_get_value) agre0) =
    Ok (Some (le_split 4 INT_MIN)).
Proof.
  assert (E : agg_int AGRE_TYPE_SUM [INT_MAX; 1] = INT_MIN) by reflexivity. rewrite <- E.
  apply (agre_int_fold Z.add AGRE_TYPE_SUM [INT_MAX; 1] agre0).
  - unfold is_numeric_agg. auto.
  - repeat constructor; unfold in_int32, INT_MAX; lia.
Defined.

Definition str_value (s : bytes) : Value := mkValue TYPE_STRING 0 s [] None.

Lemma init_raw_roundtrip_witness :
  match init_raw 5 (str_value [Byte.x61; Byte.x62]) with
  | (Ok _, v') => raw_fits (str_value [Byte.x61; Byte.x62]) 5 /\ exists r, v' = with_raw (str_value [Byte.x61; Byte.x62]) (Some r) /\
      Z.of_nat (length r) = 5 /\
      get_val_from_raw (str_value [Byte.x61; Byte.x62]) r 5 = Ok (raw_image (str_value [Byte.x61; Byte.x62]) 5)
  | (Err _, v') => ~ raw_fits (str_value [Byte.x61; Byte.x62]) 5 /\ v' = with_raw (str_value [Byte.x61; Byte.x62]) (Some (zeros 5))
  end.
Proof. apply init_raw_roundtrip; [done|cbn; lia|done]. Defined.

(** [operator<] on two [INT] values fails its assertion, and every
    [STRING] value hashes as the (empty) [datetime_val]. *)
Example value_lt_same_type :
  value_lt (set_int (str_value []) 1) (set_int (str_value []) 2) = Err ValAssert.
Proof. reflexivity. Qed.

Example value_hash_strings (hi hf hb : Z -> Z) (hs : bytes -> Z) :
  value_hash hi hf hb hs (str_value [Byte.x61]) = value_hash hi hf hb hs (str_value [Byte.x62]).
Proof. reflexivity. Qed.
