(* ===== verification/Meta.v ===== *)
(** * The catalog: [system/sm_meta.h]

    [ColMeta], [IndexMeta], [TabMeta] and [DbMeta] with their lookups
    ([is_col], [is_index], [find_index_pos], [get_index_meta],
    [get_col] through [cols_hash], [is_table], [get_table],
    [SetTabMeta]) and the text format of [db.meta] written by the
    [operator<<]s and read back by the [operator>>]s.  [DbMeta::tabs_]
    is a [std::map], kept as an association list sorted by
    [std::string] order; [cols_hash] is a [gmap].  The streams are
    lists of characters: [>>] skips white space and reads a token, an
    integer that does not fit its type or a malformed token fails the
    read ([None]); how a failed stream leaves the objects is not
    modelled.  The round trip [read_db (print_db d)] gives back [d]
    with empty [cols_hash]es, which [open_db]'s [init_hash] rebuilds. *)

From Stdlib Require Import ZArith Lia Sorted Strings.String Strings.Ascii.
From Stdlib Require Import DecimalN DecimalFacts.
From stdpp Require Import base list gmap strings.
From S2P Require Import Prelude Key Value.

Open Scope Z_scope.

(** Errors thrown by the lookups. *)
Inductive MetaErr :=
| IndexNotFoundError (tab : string) (cols : list string)
| TableNotFoundError (tab : string)
| OutOfRange.

(** ** The metadata *)

Record ColMeta := mkColMeta {
  col_tab_name : string;
  col_name : string;
  col_type : ColType;
  col_len : Z;
  col_offset : Z;
  col_index : bool
}.

Record IndexMeta := mkIndexMeta {
  ix_tab_name : string;
  col_tot_len : Z;
  col_num : Z;
  ix_cols : list ColMeta
}.

Record TabMeta := mkTabMeta {
  tab_name : string;
  tab_cols : list ColMeta;
  indexes : list IndexMeta;
  cols_hash : gmap string Z
}.

Record DbMeta := mkDbMeta {
  db_name : string;
  tabs_ : list (string * TabMeta)
}.

(** [TabMeta::init_hash]: each column's name to its position, a later
    column of the same name overriding an earlier one. *)
Definition init_hash (t : TabMeta) : TabMeta :=
  mkTabMeta (tab_name t) (tab_cols t) (indexes t)
    (foldl (fun h ic => <[col_name ic.2 := Z.of_nat ic.1]> h) (cols_hash t) (imap pair (tab_cols t))).

(** [is_col]: [std::find_if] on the name. *)
Definition is_col (t : TabMeta) (name : string) : bool :=
  bool_decide (is_Some (list_find (fun c => col_name c = name) (tab_cols t))).

(** An index whose columns are named [col_names], in order (the loop
    body shared by [is_index], [find_index_pos] and [get_index_meta]). *)
Definition index_matches (col_names : list string) (ix : IndexMeta) : bool :=
  (col_num ix =? Z.of_nat (length col_names)) &&
  forallb (fun i => bool_decide (col_name <$> ix_cols ix !! i = col_names !! i))
    (seq 0 (length col_names)).

(** [is_index(col_names)]. *)
Definition is_index (t : TabMeta) (col_names : list string) : bool :=
  existsb (index_matches col_names) (indexes t).

(** [find_index_pos(col_names)]: the first matching position, or -1. *)
Definition find_index_pos (t : TabMeta) (col_names : list string) : Z :=
  match list_find (fun ix => index_matches col_names ix = true) (indexes t) with
  | Some (j, _) => Z.of_nat j
  | None => -1
  end.

(** [get_index_meta(col_names)]: the first matching index, else
    [IndexNotFoundError]. *)
Definition get_index_meta (t : TabMeta) (col_names : list string) : res MetaErr IndexMeta :=
  match list_find (fun ix => index_matches col_names ix = true) (indexes t) with
  | Some (_, ix) => Ok ix
  | None => Err (IndexNotFoundError (tab_name t) col_names)
  end.

(** [TabMeta::get_col(col_name)]: [cols.begin() + cols_hash.at(col_name)];
    [at] throws [std::out_of_range] for an unknown name.  In a module of
    its own, apart from [AbstractExecutor::get_col] of [Exec]. *)
Module TabMeta.
Definition get_col (t : TabMeta) (name : string) : res MetaErr ColMeta :=
  match cols_hash t !! name with
  | Some i =>
      match tab_cols t !! Z.to_nat i with
      | Some c => if 0 <=? i then Ok c else Err OutOfRange
      | None => Err OutOfRange
      end
  | None => Err OutOfRange
  end.
End TabMeta.

(** [std::string] order, bytewise. *)
Definition str_ltb (a b : string) : bool :=
  match String.compare a b with Lt => true | _ => false end.

(** [std::map::operator[]] assignment: the entry replaced in place or
    inserted at its sorted position. *)
Fixpoint map_assign {A} (k : string) (v : A) (m : list (string * A)) : list (string * A) :=
  match m with
  | [] => [(k, v)]
  | (k', v') :: m' =>
      if bool_decide (k = k') then (k, v) :: m'
      else if str_ltb k k' then (k, v) :: m
      else (k', v') :: map_assign k v m'
  end.

Definition map_find {A} (k : string) (m : list (string * A)) : option A :=
  snd <$> (snd <$> list_find (fun e => e.1 = k) m).

(** [DbMeta::is_table]. *)
Definition is_table (d : DbMeta) (name : string) : bool := bool_decide (is_Some (map_find name (tabs_ d))).

(** [DbMeta::SetTabMeta]. *)
Definition SetTabMeta (d : DbMeta) (name : string) (t : TabMeta) : DbMeta :=
  mkDbMeta (db_name d) (map_assign name t (tabs_ d)).

(** [DbMeta::get_table]. *)
Definition get_table (d : DbMeta) (name : string) : res MetaErr TabMeta :=
  match map_find name (tabs_ d) with
  | Some t => Ok t
  | None => Err (TableNotFoundError name)
  end.

(** ** Text streams *)

Abbreviation text := (list ascii).

(** [isspace]. *)
Definition is_space (c : ascii) : bool :=
  match nat_of_ascii c with 32 | 9 | 10 | 11 | 12 | 13 => true | _ => false end%nat.

Fixpoint skip_ws (t : text) : text :=
  match t with
  | c :: t' => if is_space c then skip_ws t' else t
  | [] => []
  end.

(** The longest prefix of non-space characters. *)
Fixpoint read_word (t : text) : text * text :=
  match t with
  | c :: t' => if is_space c then ([], t) else let '(w, r) := read_word t' in (c :: w, r)
  | [] => ([], [])
  end.

Definition digit_of (c : ascii) : option nat :=
  let n := nat_of_ascii c in if (48 <=? n)%nat && (n <=? 57)%nat then Some (n - 48)%nat else None.

Definition cons_digit (k : nat) (d : Decimal.uint) : Decimal.uint :=
  match k with
  | 0 => Decimal.D0 d | 1 => Decimal.D1 d | 2 => Decimal.D2 d | 3 => Decimal.D3 d
  | 4 => Decimal.D4 d | 5 => Decimal.D5 d | 6 => Decimal.D6 d | 7 => Decimal.D7 d
  | 8 => Decimal.D8 d | _ => Decimal.D9 d
  end%nat.

(** The longest prefix of decimal digits. *)
Fixpoint read_uint (t : text) : Decimal.uint * text :=
  match t with
  | c :: t' =>
      match digit_of c with
      | Some k => let '(d, r) := read_uint t' in (cons_digit k d, r)
      | None => (Decimal.Nil, t)
      end
  | [] => (Decimal.Nil, [])
  end.

Fixpoint print_uint (d : Decimal.uint) : text :=
  match d with
  | Decimal.Nil => []
  | Decimal.D0 d => "0"%char :: print_uint d | Decimal.D1 d => "1"%char :: print_uint d
  | Decimal.D2 d => "2"%char :: print_uint d | Decimal.D3 d => "3"%char :: print_uint d
  | Decimal.D4 d => "4"%char :: print_uint d | Decimal.D5 d => "5"%char :: print_uint d
  | Decimal.D6 d => "6"%char :: print_uint d | Decimal.D7 d => "7"%char :: print_uint d
  | Decimal.D8 d => "8"%char :: print_uint d | Decimal.D9 d => "9"%char :: print_uint d
  end.

(** [os << n] for an unsigned and a signed integer. *)
Definition show_N (n : N) : text := print_uint (N.to_uint n).
Definition show_Z (z : Z) : text :=
  if z <? 0 then "-"%char :: show_N (Z.to_N (- z)) else show_N (Z.to_N z).

Definition show_string (s : string) : text := list_ascii_of_string s.

Definition tparser (A : Type) := text -> option (A * text).

(** [is >> s] for a [std::string]. *)
Definition read_string : tparser string := fun t =>
  let '(w, r) := read_word (skip_ws t) in
  match w with [] => None | _ => Some (string_of_list_ascii w, r) end.

Definition read_digits (t : text) : option (N * text) :=
  let '(d, r) := read_uint t in
  match d with Decimal.Nil => None | _ => Some (N.of_uint d, r) end.

(** [is >> n] for a [size_t]: the value must fit in 64 bits. *)
Definition read_size_t : tparser Z := fun t =>
  match read_digits (skip_ws t) with
  | Some (n, r) => if Z.of_N n <? 2 ^ 64 then Some (Z.of_N n, r) else None
  | None => None
  end.

(** The optional sign of an [int]. *)
Definition read_sign (t : text) : bool * text :=
  match t with
  | c :: t' => if decide (c = "-"%char) then (true, t') else if decide (c = "+"%char) then (false, t') else (false, t)
  | [] => (false, [])
  end.

(** [is >> n] for an [int]: an optional sign, then digits; the value
    must fit in 32 bits. *)
Definition read_int : tparser Z := fun t =>
  let '(neg, t) := read_sign (skip_ws t) in
  match read_digits t with
  | Some (n, r) =>
      let z := if neg then - Z.of_N n else Z.of_N n in
      if (- 2 ^ 31 <=? z) && (z <? 2 ^ 31) then Some (z, r) else None
  | None => None
  end.

Definition tbind {A B} (p : tparser A) (k : A -> tparser B) : tparser B := fun t =>
  match p t with Some (a, r) => k a r | None => None end.
Definition tret {A} (a : A) : tparser A := fun t => Some (a, t).

Local Notation "'let%' x ':=' p 'in' k" := (tbind p (fun x => k)) (at level 200, x name, right associativity).

(** Reading [n] items in a row (the [for] loops of the [>>]s). *)
Fixpoint read_n {A} (n : nat) (p : tparser A) : tparser (list A) :=
  match n with
  | O => tret []
  | S n' => let% a := p in let% l := read_n n' p in tret (a :: l)
  end.

(** [static_cast<ColType>] of an [int] and back. *)
Definition ColType_to_Z (t : ColType) : Z :=
  match t with
  | TYPE_INT => 0 | TYPE_FLOAT => 1 | TYPE_STRING => 2 | TYPE_DATETIME => 3 | TYPE_BIGINT => 4 | TYPE_UNUSE => 5
  end.
Definition ColType_of_Z (z : Z) : option ColType :=
  match z with
  | 0 => Some TYPE_INT | 1 => Some TYPE_FLOAT | 2 => Some TYPE_STRING
  | 3 => Some TYPE_DATETIME | 4 => Some TYPE_BIGINT | 5 => Some TYPE_UNUSE | _ => None
  end.

Definition read_enum : tparser ColType := let% z := read_int in fun t =>
  match ColType_of_Z z with Some ty => Some (ty, t) | None => None end.

(** [is >> b] for a [bool]: [0] or [1]. *)
Definition read_bool : tparser bool := let% z := read_int in fun t =>
  if z =? 0 then Some (false, t) else if z =? 1 then Some (true, t) else None.

Definition sp : text := [" "%char].
Definition nl : text := ["010"%char].

(** ** The [operator<<]s *)

Definition print_col (c : ColMeta) : text :=
  show_string (col_tab_name c) ++ sp ++ show_string (col_name c) ++ sp ++ show_Z (ColType_to_Z (col_type c)) ++ sp ++
  show_Z (col_len c) ++ sp ++ show_Z (col_offset c) ++ sp ++ show_Z (if col_index c then 1 else 0).

Definition print_index (ix : IndexMeta) : text :=
  show_string (ix_tab_name ix) ++ sp ++ show_Z (col_tot_len ix) ++ sp ++ show_Z (col_num ix) ++
  mjoin ((fun c => nl ++ print_col c) <$> ix_cols ix).

Definition print_tab (t : TabMeta) : text :=
  show_string (tab_name t) ++ nl ++ show_Z (Z.of_nat (length (tab_cols t))) ++ nl ++
  mjoin ((fun c => print_col c ++ nl) <$> tab_cols t) ++
  show_Z (Z.of_nat (length (indexes t))) ++ nl ++
  mjoin ((fun ix => print_index ix ++ nl) <$> indexes t).

Definition print_db (d : DbMeta) : text :=
  show_string (db_name d) ++ nl ++ show_Z (Z.of_nat (length (tabs_ d))) ++ nl ++
  mjoin ((fun e => print_tab e.2 ++ nl) <$> tabs_ d).

(** ** The [operator>>]s *)

Definition read_col : tparser ColMeta :=
  let% tn := read_string in let% n := read_string in let% ty := read_enum in
  let% len := read_int in let% off := read_int in let% idx := read_bool in
  tret (mkColMeta tn n ty len off idx).

Definition read_index : tparser IndexMeta :=
  let% tn := read_string in let% tot := read_size_t in let% num := read_size_t in
  let% cols := read_n (Z.to_nat num) read_col in
  tret (mkIndexMeta tn tot num cols).

(** A [TabMeta] read into a fresh object: [cols_hash] stays empty. *)
Definition read_tab : tparser TabMeta :=
  let% name := read_string in let% n := read_size_t in
  let% cols := read_n (Z.to_nat n) read_col in
  let% m := read_size_t in
  let% ixs := read_n (Z.to_nat m) read_index in
  tret (mkTabMeta name cols ixs ∅).

(** [is >> db_meta]: the name, then each table assigned under its name. *)
Definition read_db (d : DbMeta) : tparser DbMeta :=
  let% name := read_string in let% n := read_size_t in
  let% tabs := read_n (Z.to_nat n) read_tab in
  tret (mkDbMeta name (foldl (fun m t => map_assign (tab_name t) t m) (tabs_ d) tabs)).

(** ** Round trip of the text format *)

(** The next character, if any, is white space. *)
Definition sep_ok (t : text) : Prop := match t with [] => True | c :: _ => is_space c = true end.

(** A name [>>] reads back: non-empty, without white space. *)
Definition word_ok (s : string) : Prop :=
  list_ascii_of_string s <> [] /\ Forall (fun c => is_space c = false) (list_ascii_of_string s).

Lemma sep_ok_digit t : sep_ok t -> match t with [] => True | c :: _ => digit_of c = None end.
Proof. destruct t as [|c t]; [done|]. cbn. unfold is_space, digit_of. intros H. repeat (case_match; try done). Qed.

Lemma read_print_uint d rest : sep_ok rest -> read_uint (print_uint d ++ rest) = (d, rest).
Proof.
  intros Hs. induction d; cbn; rewrite ?IHd; try done.
  destruct rest as [|c r]; [done|]. cbn. pose proof (sep_ok_digit _ Hs) as Hd. cbn in Hd. by rewrite Hd.
Qed.

Lemma to_uint_not_nil n : N.to_uint n <> Decimal.Nil.
Proof.
  intros E. pose proof (DecimalN.Unsigned.of_to n) as H. rewrite E in H. cbn in H. subst n. discriminate E.
Qed.

Lemma read_digits_show_N n rest : sep_ok rest -> read_digits (show_N n ++ rest) = Some (n, rest).
Proof.
  intros Hs. unfold read_digits, show_N. rewrite read_print_uint by done.
  destruct (N.to_uint n) eqn:E; [by destruct (to_uint_not_nil n)|..]; by rewrite <- E, DecimalN.Unsigned.of_to.
Qed.

Lemma show_N_head n rest : exists c t, show_N n ++ rest = c :: t /\ is_space c = false /\ c <> "-"%char /\ c <> "+"%char.
Proof.
  unfold show_N. destruct (N.to_uint n) eqn:E; [by destruct (to_uint_not_nil n)|..]; cbn; eexists _, _; split_and!; done.
Qed.

Lemma skip_ws_nonspace c t : is_space c = false -> skip_ws (c :: t) = c :: t.
Proof. cbn. by intros ->. Qed.

Lemma read_size_t_show n rest :
  0 <= n < 2 ^ 64 -> sep_ok rest -> read_size_t (show_Z n ++ rest) = Some (n, rest).
Proof.
  intros Hn Hs. unfold read_size_t, show_Z. rewrite (proj2 (Z.ltb_ge n 0)) by lia.
  destruct (show_N_head (Z.to_N n) rest) as (c & t & E & Hc & _). rewrite E, skip_ws_nonspace, <- E by done.
  rewrite read_digits_show_N by done. rewrite Z2N.id by lia. by rewrite (proj2 (Z.ltb_lt _ _)) by lia.
Qed.

Lemma read_int_show z rest : in_int32 z -> sep_ok rest -> read_int (show_Z z ++ rest) = Some (z, rest).
Proof.
  intros Hz Hs. unfold read_int, show_Z, in_int32 in *. destruct (Z.ltb_spec z 0).
  - cbn [app]. rewrite skip_ws_nonspace by done. cbn [read_sign].
    rewrite decide_True by done. rewrite read_digits_show_N by done. rewrite Z2N.id by lia.
    replace (- - z) with z by lia. by rewrite (proj2 (Z.leb_le _ _)), (proj2 (Z.ltb_lt _ _)) by lia.
  - destruct (show_N_head (Z.to_N z) rest) as (c & t & E & Hc & Hm & Hp).
    rewrite E, skip_ws_nonspace by done. cbn [read_sign]. rewrite !decide_False by done.
    rewrite <- E, read_digits_show_N by done. rewrite Z2N.id by lia.
    by rewrite (proj2 (Z.leb_le _ _)), (proj2 (Z.ltb_lt _ _)) by lia.
Qed.

Lemma read_word_app w rest :
  Forall (fun c => is_space c = false) w -> sep_ok rest -> read_word (w ++ rest) = (w, rest).
Proof.
  intros Hw Hs. induction Hw as [|c w Hc Hw IH]; cbn.
  - destruct rest as [|c r]; [done|]. cbn in *. by rewrite Hs.
  - rewrite Hc, IH. done.
Qed.

Lemma read_string_show s rest : word_ok s -> sep_ok rest -> read_string (show_string s ++ rest) = Some (s, rest).
Proof.
  intros [Hne Hw] Hs. unfold read_string, show_string.
  destruct (list_ascii_of_string s) as [|c w] eqn:E; [done|].
  rewrite <- app_comm_cons, skip_ws_nonspace by (by apply Forall_cons in Hw as []).
  rewrite app_comm_cons, read_word_app by done. by rewrite <- E, string_of_list_ascii_of_string.
Qed.

Lemma sep_ok_sp t : sep_ok (sp ++ t).
Proof. done. Qed.
Lemma sep_ok_nl t : sep_ok (nl ++ t).
Proof. done. Qed.

#[local] Hint Resolve sep_ok_sp sep_ok_nl : core.

Lemma ColType_of_to ty : ColType_of_Z (ColType_to_Z ty) = Some ty.
Proof. by destruct ty. Qed.

Lemma ColType_to_int32 ty : in_int32 (ColType_to_Z ty).
Proof. unfold in_int32. destruct ty; cbn; lia. Qed.

Lemma tbind_some {A B} (p : tparser A) (k : A -> tparser B) t a r :
  p t = Some (a, r) -> tbind p k t = k a r.
Proof. unfold tbind. by intros ->. Qed.

Lemma read_enum_show ty rest : sep_ok rest -> read_enum (show_Z (ColType_to_Z ty) ++ rest) = Some (ty, rest).
Proof.
  intros Hs. unfold read_enum. rewrite (tbind_some _ _ _ _ _ (read_int_show _ _ (ColType_to_int32 ty) Hs)).
  by rewrite ColType_of_to.
Qed.

Lemma read_bool_show (b : bool) rest : sep_ok rest -> read_bool (show_Z (if b then 1 else 0) ++ rest) = Some (b, rest).
Proof.
  intros Hs. unfold read_bool. rewrite (tbind_some _ _ _ _ _ (read_int_show (if b then 1 else 0) rest ltac:(destruct b; unfold in_int32; lia) Hs)).
  by destruct b.
Qed.

(** A column [>>] reads back. *)
Definition col_ok (c : ColMeta) : Prop :=
  word_ok (col_tab_name c) /\ word_ok (col_name c) /\ in_int32 (col_len c) /\ in_int32 (col_offset c).



Lemma mjoin_cons_app {A} (x : list A) (l : list (list A)) : mjoin (x :: l) = x ++ mjoin l.
Proof. done. Qed.

(** Every reader starts by skipping white space. *)
Lemma skip_ws_nl t : skip_ws (nl ++ t) = skip_ws t.
Proof. done. Qed.

Lemma read_string_nl t : read_string (nl ++ t) = read_string t.
Proof. done. Qed.

Lemma read_size_t_nl t : read_size_t (nl ++ t) = read_size_t t.
Proof. done. Qed.

Lemma tbind_nl {A B} (p : tparser A) (k : A -> tparser B) t :
  (forall t, p (nl ++ t) = p t) -> tbind p k (nl ++ t) = tbind p k t.
Proof. unfold tbind. by intros ->. Qed.

(** Rewrite the reads of a printed field, one after the other. *)
Ltac read_fields :=
  repeat (rewrite ?(tbind_nl read_size_t _ _ read_size_t_nl), ?(tbind_nl read_string _ _ read_string_nl);
          erewrite tbind_some;
          [| first [ apply read_string_show | apply read_int_show | apply read_size_t_show
                   | apply read_enum_show | apply read_bool_show ]; solve [eauto] ]).

Lemma read_col_print c rest : col_ok c -> sep_ok rest -> read_col (print_col c ++ rest) = Some (c, rest).
Proof.
  intros (H1 & H2 & H3 & H4) Hs. unfold read_col, print_col. rewrite <- !app_assoc.
  read_fields. by destruct c.
Qed.

(** [n] items each printed after a newline read back. *)
Lemma read_n_lines {A} (p : tparser A) (pr : A -> text) (ok : A -> Prop) xs rest :
  (forall t, p (nl ++ t) = p t) ->
  (forall x t, ok x -> sep_ok t -> p (pr x ++ t) = Some (x, t)) ->
  Forall ok xs -> sep_ok rest ->
  read_n (length xs) p (mjoin ((fun x => nl ++ pr x) <$> xs) ++ rest) = Some (xs, rest).
Proof.
  intros Hnl Hp Hxs Hs. induction Hxs as [|x xs Hx Hxs IH]; [done|]. rewrite fmap_cons, mjoin_cons_app. cbn [length read_n].
  rewrite <- !app_assoc, (tbind_some _ _ _ x (mjoin ((fun x => nl ++ pr x) <$> xs) ++ rest)).
  - by rewrite (tbind_some _ _ _ _ _ IH).
  - rewrite Hnl. apply Hp; [done|]. destruct xs as [|y ys]; [done|]. done.
Qed.

Lemma mjoin_shift {A} (g : A -> text) (xs : list A) :
  nl ++ mjoin ((fun x => g x ++ nl) <$> xs) = mjoin ((fun x => nl ++ g x) <$> xs) ++ nl.
Proof.
  induction xs as [|x xs IH]; [done|]. rewrite !fmap_cons, !mjoin_cons_app.
  rewrite <- !app_assoc, IH. done.
Qed.

Lemma sep_ok_lines {A} (f : A -> text) xs rest :
  sep_ok rest -> sep_ok (mjoin ((fun x => nl ++ f x) <$> xs) ++ rest).
Proof. destruct xs; [done|]. by rewrite fmap_cons, mjoin_cons_app. Qed.

#[local] Hint Extern 1 (sep_ok (mjoin _ ++ _)) => apply sep_ok_lines : core.
#[local] Hint Extern 2 (sep_ok _) => reflexivity : core.

Lemma read_col_nl t : read_col (nl ++ t) = read_col t.
Proof. unfold read_col. apply tbind_nl, read_string_nl. Qed.

Lemma read_index_nl t : read_index (nl ++ t) = read_index t.
Proof. unfold read_index. apply tbind_nl, read_string_nl. Qed.

Lemma read_tab_nl t : read_tab (nl ++ t) = read_tab t.
Proof. unfold read_tab. apply tbind_nl, read_string_nl. Qed.

(** An index [>>] reads back: [col_num] counts its columns. *)
Definition index_ok (ix : IndexMeta) : Prop :=
  word_ok (ix_tab_name ix) /\ 0 <= col_tot_len ix < 2 ^ 64 /\
  col_num ix = Z.of_nat (length (ix_cols ix)) /\ col_num ix < 2 ^ 64 /\ Forall col_ok (ix_cols ix).

Lemma read_index_print ix rest : index_ok ix -> sep_ok rest -> read_index (print_index ix ++ rest) = Some (ix, rest).
Proof.
  intros (H1 & H2 & H3 & H4 & H5) Hs. unfold read_index, print_index. rewrite <- !app_assoc.
  assert (0 <= col_num ix < 2 ^ 64) by lia. read_fields.
  rewrite H3, Nat2Z.id, (tbind_some _ _ _ _ _ (read_n_lines _ _ _ _ _ read_col_nl read_col_print H5 Hs)).
  rewrite <- H3. by destruct ix.
Qed.

(** A table [>>] reads back, with an empty [cols_hash]. *)
Definition tab_ok (t : TabMeta) : Prop :=
  word_ok (tab_name t) /\ Z.of_nat (length (tab_cols t)) < 2 ^ 64 /\ Z.of_nat (length (indexes t)) < 2 ^ 64 /\
  Forall col_ok (tab_cols t) /\ Forall index_ok (indexes t).

Definition clear_hash (t : TabMeta) : TabMeta := mkTabMeta (tab_name t) (tab_cols t) (indexes t) ∅.

Lemma read_tab_print t rest : tab_ok t -> read_tab (print_tab t ++ rest) = Some (clear_hash t, nl ++ rest).
Proof.
  intros (H1 & H2 & H3 & H4 & H5). unfold read_tab, print_tab.
  assert (0 <= Z.of_nat (length (tab_cols t)) < 2 ^ 64) by lia.
  assert (0 <= Z.of_nat (length (indexes t)) < 2 ^ 64) by lia.
  rewrite <- !app_assoc, (app_assoc nl (mjoin _)), mjoin_shift, <- !app_assoc.
  rewrite (app_assoc nl (mjoin _)), mjoin_shift, <- !app_assoc.
  read_fields. rewrite Nat2Z.id, (tbind_some _ _ _ _ _ (read_n_lines _ _ _ _ _ read_col_nl read_col_print H4 ltac:(auto))).
  read_fields.
  rewrite Nat2Z.id, (tbind_some _ _ _ _ _ (read_n_lines _ _ _ _ _ read_index_nl read_index_print H5 ltac:(auto))).
  done.
Qed.

Lemma read_n_nl {A} (p : tparser A) n t :
  (forall t, p (nl ++ t) = p t) -> (0 < n)%nat -> read_n n p (nl ++ t) = read_n n p t.
Proof. intros Hp Hn. destruct n as [|n]; [lia|]. cbn [read_n]. by apply tbind_nl. Qed.

(** [n] items, each printed after a newline and read back up to a
    trailing newline, read back. *)
Lemma read_n_blocks {A B} (p : tparser B) (pr : A -> text) (g : A -> B) (ok : A -> Prop) xs rest :
  (forall t, p (nl ++ t) = p t) ->
  (forall x t, ok x -> p (pr x ++ t) = Some (g x, nl ++ t)) ->
  Forall ok xs ->
  exists r, read_n (length xs) p (mjoin ((fun x => nl ++ pr x) <$> xs) ++ rest) = Some (g <$> xs, r).
Proof.
  intros Hnl Hp Hxs. revert rest. induction Hxs as [|x xs Hx Hxs IH]; intros rest; [by exists rest|].
  rewrite fmap_cons, mjoin_cons_app. cbn [length read_n].
  rewrite <- !app_assoc, (tbind_nl _ _ _ Hnl), (tbind_some _ _ _ _ _ (Hp x _ Hx)).
  destruct xs as [|y ys].
  - cbn. by eexists.
  - rewrite (tbind_nl (read_n (length (y :: ys)) p)) by (intros; apply read_n_nl; [done|cbn; lia]).
    destruct (IH rest) as [r Hr]. exists r.
    by rewrite (tbind_some _ _ _ _ _ Hr).
Qed.


(** ** [flush_meta] and [open_db] *)

(** [SmManager::flush_meta]: [ofs << db_]. *)
Definition flush_meta (d : DbMeta) : text := print_db d.

(** The catalog part of [SmManager::open_db]: [ifs >> db_] into the
    fresh [db_], then [init_hash] on every table. *)
Definition open_db_meta (t : text) : option DbMeta :=
  match read_db (mkDbMeta EmptyString []) t with
  | Some (d, _) => Some (mkDbMeta (db_name d) ((fun e => (e.1, init_hash e.2)) <$> tabs_ d))
  | None => None
  end.

Lemma str_ltb_asym a b : str_ltb a b = true -> a <> b /\ str_ltb b a = false.
Proof.
  unfold str_ltb. intros H. split.
  - intros ->. pose proof (String.compare_antisym b b) as E. destruct (String.compare b b); done.
  - rewrite String.compare_antisym. by destruct (String.compare a b).
Qed.

Lemma map_assign_last {A} k (v : A) m :
  Forall (fun e => str_ltb e.1 k = true) m -> map_assign k v m = m ++ [(k, v)].
Proof.
  induction 1 as [|[k' v'] m Hk Hm IH]; [done|]. cbn in *.
  destruct (str_ltb_asym _ _ Hk) as [Hne Hlt]. rewrite bool_decide_false by congruence. by rewrite Hlt, IH.
Qed.

(** The [std::map] the tables of a sorted list are assigned into, in
    order, is that list. *)
Lemma foldl_assign_sorted (l : list (string * TabMeta)) m0 :
  Forall (fun e => e.1 = tab_name e.2) l ->
  StronglySorted (fun e1 e2 => str_ltb e1.1 e2.1 = true) l ->
  Forall (fun e0 => Forall (fun e => str_ltb e0.1 e.1 = true) l) m0 ->
  foldl (fun m t => map_assign (tab_name t) t m) m0 ((fun e => clear_hash e.2) <$> l) =
    m0 ++ ((fun e => (e.1, clear_hash e.2)) <$> l).
Proof.
  revert m0. induction l as [|e l IH]; intros m0 Hn Hs Hm0; [by rewrite app_nil_r|].
  apply Forall_cons in Hn as [He Hn]. apply StronglySorted_inv in Hs as [Hs Hall].
  rewrite fmap_cons. cbn [foldl]. rewrite map_assign_last.
  - rewrite IH; [rewrite <- app_assoc, fmap_cons; cbn; by rewrite <- He|done|done|].
    apply Forall_app. split; [|by constructor; [cbn; rewrite <- He|]].
    eapply Forall_impl; [exact Hm0|]. intros e0 H. by apply Forall_cons in H as [_ ?].
  - cbn. rewrite <- He. eapply Forall_impl; [exact Hm0|]. intros e0 H. by apply Forall_cons in H as [? _].
Qed.

(** A catalog [flush_meta] writes and [open_db] reads back: names
    without white space, counts that fit a [size_t], [tabs_] keyed by
    the tables' names in [std::map] order, and each [cols_hash] the one
    [init_hash] builds. *)
Definition db_ok (d : DbMeta) : Prop :=
  word_ok (db_name d) /\ Z.of_nat (length (tabs_ d)) < 2 ^ 64 /\
  Forall (fun e => e.1 = tab_name e.2 /\ tab_ok e.2 /\ init_hash (clear_hash e.2) = e.2) (tabs_ d) /\
  StronglySorted (fun e1 e2 => str_ltb e1.1 e2.1 = true) (tabs_ d).

(** C28: The catalog text [flush_meta] writes to [db.meta] is read back
    by [open_db] ([operator>>] into a fresh [DbMeta], then [init_hash]
    on every table) as the same catalog. *)
Theorem meta_roundtrip d : db_ok d -> open_db_meta (flush_meta d) = Some d.
Proof.
  intros (Hn & Hlen & Htabs & Hsort). assert (0 <= Z.of_nat (length (tabs_ d)) < 2 ^ 64) by lia.
  unfold open_db_meta, flush_meta, read_db, print_db.
  rewrite mjoin_shift.
  read_fields. rewrite Nat2Z.id.
  destruct (read_n_blocks read_tab (fun e => print_tab e.2) (fun e => clear_hash e.2) (fun e => tab_ok e.2)
              (tabs_ d) nl read_tab_nl ltac:(intros e t He; by apply read_tab_print))
    as [r Hr]; [by eapply Forall_impl; [exact Htabs|]; intros e (_ & ? & _)|].
  rewrite (tbind_some _ _ _ _ _ Hr). cbn.
  rewrite foldl_assign_sorted; [|by eapply Forall_impl; [exact Htabs|]; intros e []|done|done].
  destruct d as [name tabs]. cbn. f_equal. f_equal. rewrite <- list_fmap_compose.
  rewrite <- (list_fmap_id tabs) at 2. apply list_fmap_ext. intros i [k t] Hi. cbn.
  destruct (Forall_lookup_1 _ _ _ _ Htabs Hi) as (_ & _ & E). cbn in E. by rewrite E.
Qed.

(** ** Index and column lookups *)

Lemma existsb_list_find {A} (f : A -> bool) l :
  existsb f l = bool_decide (is_Some (list_find (fun x => f x = true) l)).
Proof.
  induction l as [|x l IH]; [done|]. cbn [existsb list_find].
  destruct (f x) eqn:E; cbn; [by rewrite decide_True by done|].
  rewrite decide_False by congruence. rewrite IH. by destruct (list_find _ l).
Qed.

(** The three index lookups agree: [is_index] holds exactly when
    [find_index_pos] is a position (not -1), and [get_index_meta]
    returns the index at that position, or [IndexNotFoundError] when
    there is none. *)
Theorem index_lookups_agree t cs :
  is_index t cs = bool_decide (0 <= find_index_pos t cs) /\
  get_index_meta t cs =
    match indexes t !! Z.to_nat (find_index_pos t cs) with
    | Some ix => if 0 <=? find_index_pos t cs then Ok ix else Err (IndexNotFoundError (tab_name t) cs)
    | None => Err (IndexNotFoundError (tab_name t) cs)
    end.
Proof.
  unfold is_index, find_index_pos, get_index_meta. rewrite existsb_list_find.
  destruct (list_find _ _) as [[j ix]|] eqn:E.
  - apply list_find_Some in E as (Hj & _). rewrite Nat2Z.id, Hj.
    split; [by rewrite !bool_decide_true by (done || lia)|]. by rewrite (proj2 (Z.leb_le _ _)) by lia.
  - split; [rewrite (bool_decide_false (is_Some None)) by (by intros []); by rewrite bool_decide_false by lia|].
    cbn. by destruct (indexes t !! Z.to_nat (-1)).
Qed.

(** [init_hash] from an empty [cols_hash], on distinct names, maps
    each name to the position of its column. *)
Lemma init_hash_lookup (l : list (nat * ColMeta)) (h : gmap string Z) name :
  (foldl (fun h ic => <[col_name ic.2 := Z.of_nat ic.1]> h) h l) !! name =
    match list_find (fun ic => col_name ic.2 = name) (rev l) with
    | Some (_, ic) => Some (Z.of_nat ic.1)
    | None => h !! name
    end.
Proof.
  revert h. induction l as [|ic l IH] using rev_ind; intros h; [done|].
  rewrite foldl_app, rev_app_distr. cbn [foldl rev app list_find].
  destruct (decide (col_name ic.2 = name)) as [<-|Hne].
  - by rewrite lookup_insert_eq.
  - rewrite lookup_insert_ne by done. rewrite IH. by destruct (list_find _ (rev l)) as [[]|].
Qed.

(** ** A sample catalog *)

Definition col_a : ColMeta := mkColMeta "t" "a" TYPE_INT 4 0 false.
Definition col_b : ColMeta := mkColMeta "t" "b" TYPE_STRING 8 4 false.
Definition ix_a : IndexMeta := mkIndexMeta "t" 4 1 [col_a].
Definition tab_t : TabMeta := init_hash (mkTabMeta "t" [col_a; col_b] [ix_a] ∅).
Definition db1 : DbMeta := mkDbMeta "db" [("t", tab_t)].

Lemma word_ok_dec_sound s :
  list_ascii_of_string s <> [] -> forallb (fun c => negb (is_space c)) (list_ascii_of_string s) = true -> word_ok s.
Proof.
  intros Hne Hb. split; [done|]. apply Forall_forall. intros c Hc.
  apply forallb_forall with (x := c) in Hb; [|by apply list_elem_of_In]. by destruct (is_space c).
Qed.

Ltac word_ok := apply word_ok_dec_sound; [discriminate|reflexivity].

Ltac col_ok := unfold col_ok; split_and!; [word_ok|word_ok|unfold in_int32; cbn; lia|unfold in_int32; cbn; lia].

Lemma cols_ab_ok : Forall col_ok [col_a; col_b].
Proof. repeat (apply Forall_cons; split; [col_ok|]); constructor. Qed.

Lemma tab_t_ok : tab_ok tab_t.
Proof.
  unfold tab_ok; split_and!; [word_ok|cbn; lia|cbn; lia|exact cols_ab_ok|].
  apply Forall_cons; split; [|constructor].
  unfold index_ok; split_and!; [word_ok|cbn; lia|cbn; lia|cbn; lia|cbn; lia|].
  apply Forall_cons; split; [col_ok|constructor].
Qed.

Lemma db1_ok : db_ok db1.
Proof.
  split_and!; [word_ok|cbn; lia| |].
  - apply Forall_cons; split; [|constructor]. split_and!; [done|exact tab_t_ok|vm_compute; reflexivity].
  - repeat constructor.
Qed.

Lemma meta_roundtrip_witness : db_ok db1 /\ open_db_meta (flush_meta db1) = Some db1.
Proof. split; [exact db1_ok|exact (meta_roundtrip db1 db1_ok)]. Defined.
