(* ===== verification/IxNode.v ===== *)
(** * B+tree nodes: [IxNodeHandle] of [index/ix_index_handle.{h,cpp}]

    A node is its page header fields and its key and rid arrays.  A
    leaf has one rid per key; an internal node has [num_key] keys and
    [num_key + 1] child pointers, child [i] holding the keys in
    [[key (i-1), key i)].  The three binary searches share one loop,
    [bsearch] (the source's [while (r - l > 1)] on [l = -1], [r =
    num_key]), run with fuel [num_key + 1], which the loop never
    exhausts ([bsearch_spec]).  The shifting loops of [insert],
    [insert_pairs] and [erase_pair] ([key_swap]/[rid_swap] over the
    page arrays) are modelled by their effect on the arrays: list
    insertion and deletion at a position.  The node functions take the
    key comparison as a parameter; the index instantiates it with
    [Key.ix_cmp] of its schema. *)

From Stdlib Require Import ZArith Lia.
From stdpp Require Import base list.
From coqutil Require Import Word.LittleEndianList.
From S2P Require Import Prelude Key.

Open Scope Z_scope.

(** [IxPageHdr] and the node's arrays. *)
Record IxNode {K : Type} := mkIxNode {
  is_leaf : bool;
  parent : Z;
  next_leaf : Z;
  prev_leaf : Z;
  keys : list K;
  rids : list Rid
}.
Arguments IxNode : clear implicits.
Arguments mkIxNode {K}.

Section node.
Context {K : Type} (kcmp : K -> K -> Z).

Definition get_size (n : IxNode K) : Z := Z.of_nat (length (keys n)).

(** [get_num_vals]: rids in use. *)
Definition get_num_vals (n : IxNode K) : Z :=
  if is_leaf n then get_size n else get_size n + 1.

Definition key_at (n : IxNode K) (i : Z) : option K := keys n !! Z.to_nat i.
Definition rid_at (n : IxNode K) (i : Z) : option Rid := rids n !! Z.to_nat i.

(** The [while (r - l > 1)] loop of the three searches: [check(mid)]
    true moves [l] up, false moves [r] down. *)
Fixpoint bsearch (fuel : nat) (check : Z -> bool) (l r : Z) : Z :=
  match fuel with
  | O => r
  | S fuel' =>
      if 1 <? r - l then
        let mid := l + (r - l) / 2 in
        if check mid then bsearch fuel' check mid r else bsearch fuel' check l mid
      else r
  end.

Definition key_lt (n : IxNode K) (target : K) (i : Z) : bool :=
  match key_at n i with Some k => kcmp k target <? 0 | None => false end.

Definition key_le (n : IxNode K) (target : K) (i : Z) : bool :=
  match key_at n i with Some k => kcmp k target <=? 0 | None => false end.

(** [lower_bound]: the first key [>= target]. *)
Definition lower_bound (n : IxNode K) (target : K) : Z :=
  bsearch (S (length (keys n))) (key_lt n target) (-1) (get_size n).

(** [upper_bound]: the first key [> target]. *)
Definition upper_bound (n : IxNode K) (target : K) : Z :=
  bsearch (S (length (keys n))) (key_le n target) (-1) (get_size n).

(** [binary_search]: the position of a key equal to [target], or -1. *)
Definition binary_search (n : IxNode K) (target : K) : Z :=
  let r := lower_bound n target in
  match key_at n r with
  | Some k => if kcmp k target =? 0 then r else -1
  | None => -1
  end.

(** [leaf_lookup]: the rid stored with [key], if the leaf has it. *)
Definition leaf_lookup (n : IxNode K) (key : K) : option Rid :=
  let pos := lower_bound n key in
  if pos =? get_size n then None else
  match key_at n pos with
  | Some k => if kcmp k key =? 0 then rid_at n pos else None
  | None => None
  end.

(** [internal_lookup]: the page of the child whose range holds [key];
    [-1] on the [assert(0)] branch (a key beyond the one found). *)
Definition internal_lookup (n : IxNode K) (key : K) : Z :=
  let pos := lower_bound n key in
  if pos =? get_size n then default (-1) (page_no <$> rid_at n pos) else
  match key_at n pos with
  | Some k =>
      let tmp := kcmp key k in
      if tmp =? 0 then default (-1) (page_no <$> rid_at n (pos + 1))
      else if tmp <? 0 then default (-1) (page_no <$> rid_at n pos)
      else -1
  | None => -1
  end.

(** [father_lookup]: the same choice, as a child index. *)
Definition father_lookup (n : IxNode K) (key : K) : Z :=
  let pos := lower_bound n key in
  if pos =? get_size n then pos else
  match key_at n pos with
  | Some k =>
      let tmp := kcmp key k in
      if tmp =? 0 then pos + 1 else if tmp <? 0 then pos else -1
  | None => -1
  end.

(** Insertion of [xs] at position [i] of an array. *)
Definition insert_at {A} (i : Z) (xs l : list A) : list A :=
  take (Z.to_nat i) l ++ xs ++ drop (Z.to_nat i) l.

(** Deletion at position [i]. *)
Definition delete_at {A} (i : Z) (l : list A) : list A :=
  take (Z.to_nat i) l ++ drop (S (Z.to_nat i)) l.

Definition set_arrays (n : IxNode K) (ks : list K) (rs : list Rid) : IxNode K :=
  mkIxNode (is_leaf n) (parent n) (next_leaf n) (prev_leaf n) ks rs.

Inductive IxError := IndexInsertDuplicatedError | InternalError.

(** [IxNodeHandle::insert]: reject a duplicate; the key goes to
    [lower_bound], its rid to the same slot in a leaf and to the next
    slot (the right child) in an internal node. *)
Definition insert (n : IxNode K) (key : K) (value : Rid) : res IxError (IxNode K * Z) :=
  let pos := lower_bound n key in
  let dup := match key_at n pos with
             | Some k => (negb (pos =? get_size n)) && (kcmp key k =? 0)
             | None => false
             end in
  if dup then Err IndexInsertDuplicatedError else
  let ks := insert_at pos [key] (keys n) in
  let rs := if is_leaf n then insert_at pos [value] (rids n) else insert_at (pos + 1) [value] (rids n) in
  Ok (set_arrays n ks rs, get_size n + 1).

(** [insert_pairs]: [n] pairs at the given key and rid positions, with
    the source's bound checks.  The second check is an [else if] that
    also applies to leaves. *)
Definition insert_pairs (max_size : Z) (nd : IxNode K) (key_pos rid_pos : Z)
    (ks : list K) (rs : list Rid) (n : Z) : res IxError (IxNode K) :=
  if (key_pos <? 0) || (get_size nd <? key_pos) then Err InternalError else
  if (rid_pos <? 0) || (get_num_vals nd <? rid_pos) then Err InternalError else
  if is_leaf nd && (max_size <? get_size nd + n) then Err InternalError
  else if max_size - 1 <? get_size nd + n then Err InternalError else
  Ok (set_arrays nd (insert_at key_pos (take (Z.to_nat n) ks) (keys nd))
                    (insert_at rid_pos (take (Z.to_nat n) rs) (rids nd))).

(** [erase_pair]: out-of-range positions are ignored; a leaf loses the
    pair's rid, an internal node the right child of the key. *)
Definition erase_pair (n : IxNode K) (pos : Z) : IxNode K :=
  if (pos <? 0) || (get_size n <=? pos) then n else
  set_arrays n (delete_at pos (keys n))
    (if is_leaf n then delete_at pos (rids n) else delete_at (pos + 1) (rids n)).

(** [IxNodeHandle::remove]: the key must be present. *)
Definition remove (n : IxNode K) (key : K) : res IxError (IxNode K * Z) :=
  let pos := lower_bound n key in
  if (pos <? 0) || (pos =? get_size n) then Err InternalError else
  match key_at n pos with
  | Some k =>
      if negb (kcmp key k =? 0) then Err InternalError
      else let n' := erase_pair n pos in Ok (n', get_size n')
  | None => Err InternalError
  end.

(** [is_safe]: the node can take the operation without a split or merge. *)
Inductive Operation := FIND | INSERT | DELETE.

Definition is_safe (max_size : Z) (n : IxNode K) (op : Operation) : bool :=
  match op with
  | FIND => true
  | INSERT => get_num_vals n + 1 <? max_size
  | DELETE => max_size / 2 <=? get_num_vals n - 1
  end.

End node.

(** ** The binary search loop *)

Section bsearch.
Variable p : Z -> bool.
Variable n : Z.
(** [check] holds on a prefix of [[0, n)]. *)
Hypothesis p_mono : forall i j, 0 <= i <= j -> j < n -> p j = true -> p i = true.

Lemma bsearch_spec fuel l r :
  -1 <= l < r -> r <= n -> (l = -1 \/ p l = true) -> (r = n \/ p r = false) ->
  r - l - 1 <= Z.of_nat fuel ->
  let b := bsearch fuel p l r in
  0 <= b <= n /\ (forall i, 0 <= i < b -> p i = true) /\ (b = n \/ p b = false).
Proof.
  revert l r. induction fuel as [|fuel IH]; intros l r Hlr Hrn Hl Hr Hf; simpl.
  - assert (l = r - 1) as -> by lia. split; [lia|]. split; [|done].
    intros i Hi. destruct Hl as [?|Hl]; [lia|]. apply (p_mono i (r - 1)); [lia|lia|done].
  - destruct (1 <? r - l) eqn:E.
    + apply Z.ltb_lt in E. set (mid := l + (r - l) / 2).
      assert (l < mid < r).
      { subst mid. pose proof (Z.div_mod (r - l) 2 ltac:(lia)).
        pose proof (Z.mod_pos_bound (r - l) 2 ltac:(lia)). lia. }
      destruct (p mid) eqn:Hm; apply IH; try lia; auto.
    + apply Z.ltb_ge in E. assert (l = r - 1) as -> by lia. split; [lia|]. split; [|done].
      intros i Hi. destruct Hl as [?|Hl]; [lia|]. apply (p_mono i (r - 1)); [lia|lia|done].
Qed.

(** The linear scan the loop replaces: the first index from [i] where
    [check] fails, looking at most [k] indices. *)
Fixpoint first_false (i : Z) (k : nat) : Z :=
  match k with
  | O => i
  | S k' => if p i then first_false (i + 1) k' else i
  end.

Lemma first_false_char i k b :
  i <= b <= i + Z.of_nat k -> (forall j, i <= j < b -> p j = true) ->
  (b = i + Z.of_nat k \/ p b = false) -> first_false i k = b.
Proof.
  revert i. induction k as [|k IH]; intros i Hb Hall Hend; simpl; [lia|].
  destruct (decide (i = b)) as [->|Hne].
  - destruct Hend as [?|Hpb]; [lia|by rewrite Hpb].
  - rewrite Hall by lia. apply IH; [lia|intros; apply Hall; lia|]. destruct Hend; [left; lia|by right].
Qed.

(** Binary search and linear scan agree. *)
Lemma bsearch_first_false :
  0 <= n -> bsearch (S (Z.to_nat n)) p (-1) n = first_false 0 (Z.to_nat n).
Proof.
  intros Hn. destruct (bsearch_spec (S (Z.to_nat n)) (-1) n) as (Hb & Hall & Hend);
    [lia|lia|auto|auto|lia|].
  symmetry. apply first_false_char; [lia|intros; apply Hall; lia|]. destruct Hend; [left; lia|by right].
Qed.

End bsearch.

(** ** Positional insertion and deletion *)

Lemma lookup_insert_at1 {A} (b : Z) (x : A) l j :
  0 <= b -> (Z.to_nat b <= length l)%nat ->
  insert_at b [x] l !! j =
  if decide (j < Z.to_nat b)%nat then l !! j
  else if decide (j = Z.to_nat b) then Some x else l !! (j - 1)%nat.
Proof.
  intros Hb Hl. unfold insert_at.
  case_decide.
  - rewrite lookup_app_l by (rewrite length_take; lia). by rewrite lookup_take_lt by lia.
  - rewrite lookup_app_r by (rewrite length_take; lia). rewrite length_take.
    case_decide; [subst; by rewrite Nat.min_l, Nat.sub_diag by lia|].
    rewrite Nat.min_l by lia. cbn [app]. rewrite (lookup_cons_ne_0 _ x) by lia. rewrite lookup_drop. f_equal. lia.
Qed.

Lemma length_insert_at1 {A} (b : Z) (x : A) l :
  (Z.to_nat b <= length l)%nat -> length (insert_at b [x] l) = S (length l).
Proof. intros Hl. unfold insert_at. rewrite !length_app, length_take, length_drop. simpl. lia. Qed.

Lemma lookup_delete_at {A} (b : Z) (l : list A) j :
  delete_at b l !! j = if decide (j < Z.to_nat b)%nat then l !! j else l !! S j.
Proof.
  unfold delete_at. destruct (decide (Z.to_nat b < length l)%nat).
  - case_decide.
    + rewrite lookup_app_l by (rewrite length_take; lia). by rewrite lookup_take_lt by lia.
    + rewrite lookup_app_r by (rewrite length_take; lia). rewrite length_take, lookup_drop.
      f_equal. lia.
  - rewrite take_ge, (drop_ge _ (S _)), app_nil_r by lia.
    case_decide; [done|]. rewrite !lookup_ge_None_2 by lia. done.
Qed.

Lemma length_delete_at {A} (b : Z) (l : list A) :
  (Z.to_nat b < length l)%nat -> length (delete_at b l) = pred (length l).
Proof. intros Hl. unfold delete_at. rewrite length_app, length_take, length_drop. lia. Qed.

Lemma option_eq_iff {A} (o1 o2 : option A) : (forall x, o1 = Some x <-> o2 = Some x) -> o1 = o2.
Proof.
  destruct o1 as [x|], o2 as [y|]; intros H; try done.
  - by apply H.
  - by destruct (proj1 (H x) eq_refl).
  - by destruct (proj2 (H y) eq_refl).
Qed.

Lemma delete_at_pair {A B} (b : Z) (l1 : list A) (l2 : list B) (P : A -> Prop) y :
  (exists i x, delete_at b l1 !! i = Some x /\ P x /\ delete_at b l2 !! i = Some y) <->
  (exists j x, j <> Z.to_nat b /\ l1 !! j = Some x /\ P x /\ l2 !! j = Some y).
Proof.
  split.
  - intros (i & x & H1 & HP & H2). rewrite lookup_delete_at in H1. rewrite lookup_delete_at in H2.
    case_decide; [exists i|exists (S i)]; exists x; (split; [lia|done]).
  - intros (j & x & Hj & H1 & HP & H2). destruct (decide (j < Z.to_nat b)%nat).
    + exists j, x. rewrite !(lookup_delete_at b), !decide_True by lia. done.
    + exists (j - 1)%nat, x. rewrite !(lookup_delete_at b), !decide_False by lia.
      replace (S (j - 1)) with j by lia. done.
Qed.

Section set_arrays.
Context {K : Type} (n : IxNode K) (ks : list K) (rs : list Rid).
Lemma keys_set_arrays : keys (set_arrays n ks rs) = ks. Proof. done. Qed.
Lemma rids_set_arrays : rids (set_arrays n ks rs) = rs. Proof. done. Qed.
Lemma is_leaf_set_arrays : is_leaf (set_arrays n ks rs) = is_leaf n. Proof. done. Qed.
End set_arrays.

(** ** Searching a sorted node *)

Section node_props.
Context {K : Type} (kvalid : K -> Prop) (kcmp : K -> K -> Z) `{!KeyOrder kvalid kcmp}.

(** Strictly increasing keys: the index never holds duplicates. *)
Definition keys_sorted (ks : list K) : Prop :=
  forall i j ki kj, (i < j)%nat -> ks !! i = Some ki -> ks !! j = Some kj -> kcmp ki kj < 0.

(** A well-formed node: sorted, well-formed keys and the rid array of
    its kind (one rid per key in a leaf, one more child than keys in an
    internal node). *)
Definition node_ok (n : IxNode K) : Prop :=
  keys_sorted (keys n) /\ Forall kvalid (keys n) /\
  length (rids n) = (if is_leaf n then length (keys n) else S (length (keys n))).

Lemma key_at_valid n i k : node_ok n -> key_at n i = Some k -> kvalid k.
Proof. intros (_ & Hv & _) Hk. by eapply Forall_lookup_1. Qed.

Lemma key_at_lt n i j ki kj :
  node_ok n -> 0 <= i < j -> key_at n i = Some ki -> key_at n j = Some kj -> kcmp ki kj < 0.
Proof. intros (Hs & _ & _) Hij Hi Hj. apply (Hs (Z.to_nat i) (Z.to_nat j)); [lia|done|done]. Qed.

Lemma key_at_some (n : IxNode K) i : 0 <= i < get_size n -> is_Some (key_at n i).
Proof. unfold get_size, key_at. intros Hi. apply lookup_lt_is_Some. lia. Qed.

Lemma key_lt_mono n t :
  node_ok n -> kvalid t ->
  forall i j, 0 <= i <= j -> j < get_size n -> key_lt kcmp n t j = true -> key_lt kcmp n t i = true.
Proof.
  intros Hn Ht i j Hij Hj. unfold key_lt.
  destruct (key_at_some n j ltac:(lia)) as [kj Hkj]. rewrite Hkj.
  destruct (key_at_some n i ltac:(lia)) as [ki Hki]. rewrite Hki.
  rewrite !Z.ltb_lt. intros Hlt. destruct (decide (i = j)) as [->|Hne]; [congruence|].
  apply (kcmp_trans_lt ki kj t); eauto using key_at_valid. apply (key_at_lt n i j); [done|lia|done|done].
Qed.

Lemma key_le_mono n t :
  node_ok n -> kvalid t ->
  forall i j, 0 <= i <= j -> j < get_size n -> key_le kcmp n t j = true -> key_le kcmp n t i = true.
Proof.
  intros Hn Ht i j Hij Hj. unfold key_le.
  destruct (key_at_some n j ltac:(lia)) as [kj Hkj]. rewrite Hkj.
  destruct (key_at_some n i ltac:(lia)) as [ki Hki]. rewrite Hki.
  rewrite !Z.leb_le. intros Hle. destruct (decide (i = j)) as [->|Hne]; [congruence|].
  pose proof (kcmp_lt_le_trans kvalid kcmp ki kj t) as Htr.
  enough (kcmp ki t < 0) by lia. apply Htr; eauto using key_at_valid.
  apply (key_at_lt n i j); [done|lia|done|done].
Qed.

(** [lower_bound] splits the keys at the first one [>= target]. *)
Lemma lower_bound_char n t :
  node_ok n -> kvalid t ->
  let b := lower_bound kcmp n t in
  0 <= b <= get_size n /\ (forall i, 0 <= i < b -> key_lt kcmp n t i = true) /\
  (b = get_size n \/ key_lt kcmp n t b = false).
Proof.
  intros Hn Ht. unfold lower_bound.
  apply (bsearch_spec _ (get_size n)); [by apply key_lt_mono|unfold get_size; lia|lia|auto|auto|].
  unfold get_size. lia.
Qed.

Lemma upper_bound_char n t :
  node_ok n -> kvalid t ->
  let b := upper_bound kcmp n t in
  0 <= b <= get_size n /\ (forall i, 0 <= i < b -> key_le kcmp n t i = true) /\
  (b = get_size n \/ key_le kcmp n t b = false).
Proof.
  intros Hn Ht. unfold upper_bound.
  apply (bsearch_spec _ (get_size n)); [by apply key_le_mono|unfold get_size; lia|lia|auto|auto|].
  unfold get_size. lia.
Qed.


Lemma kcmp_flip a b : kvalid a -> kvalid b -> kcmp b a = - kcmp a b.
Proof. apply kcmp_antisym. Qed.

Lemma kcmp_eq_left a b c : kvalid a -> kvalid b -> kvalid c ->
  kcmp a b = 0 -> kcmp c a = kcmp c b.
Proof.
  intros Ha Hb Hc E. pose proof (kcmp_eq_congr a b c Ha Hb Hc E).
  rewrite (kcmp_antisym a c), (kcmp_antisym b c) by done. lia.
Qed.

Lemma key_at_nat (n : IxNode K) (i : nat) : key_at n (Z.of_nat i) = keys n !! i.
Proof. unfold key_at. by rewrite Nat2Z.id. Qed.

Lemma rid_at_nat (n : IxNode K) (i : nat) : rid_at n (Z.of_nat i) = rids n !! i.
Proof. unfold rid_at. by rewrite Nat2Z.id. Qed.

Lemma key_at_size (n : IxNode K) i k : 0 <= i -> key_at n i = Some k -> i < get_size n.
Proof. unfold key_at, get_size. intros Hi Hk%lookup_lt_Some. lia. Qed.

(** A key equal to the target sits exactly at [lower_bound]. *)
Lemma lower_bound_at n t i k :
  node_ok n -> kvalid t -> 0 <= i -> key_at n i = Some k -> kcmp k t = 0 ->
  lower_bound kcmp n t = i.
Proof.
  intros Hn Ht Hi Hk Hc. pose proof (key_at_size n i k Hi Hk) as Hsz.
  destruct (lower_bound_char n t Hn Ht) as (Hb & Hbefore & Hend).
  set (b := lower_bound kcmp n t) in *.
  destruct (Z.lt_total i b) as [Hib|[->|Hbi]]; [|done|].
  - specialize (Hbefore i ltac:(lia)). unfold key_lt in Hbefore. rewrite Hk in Hbefore.
    apply Z.ltb_lt in Hbefore. lia.
  - destruct Hend as [?|Hend]; [lia|]. unfold key_lt in Hend.
    destruct (key_at_some n b ltac:(lia)) as [kb Hkb]. rewrite Hkb in Hend. apply Z.ltb_ge in Hend.
    pose proof (key_at_lt n b i kb k Hn ltac:(lia) Hkb Hk).
    rewrite (kcmp_eq_left k t kb) in * by eauto using key_at_valid. lia.
Qed.

(** [leaf_lookup] finds exactly the rids stored with keys equal to the target. *)
Lemma leaf_lookup_spec n t r :
  node_ok n -> kvalid t ->
  leaf_lookup kcmp n t = Some r <->
  exists (i : nat) k, keys n !! i = Some k /\ kcmp k t = 0 /\ rids n !! i = Some r.
Proof.
  intros Hn Ht. unfold leaf_lookup.
  destruct (lower_bound_char n t Hn Ht) as (Hb & _ & _).
  split.
  - destruct (_ =? _); [done|]. destruct (key_at n _) as [k|] eqn:Hk; [|done].
    destruct (kcmp k t =? 0) eqn:Ec; [|done]. intros Hr. apply Z.eqb_eq in Ec.
    exists (Z.to_nat (lower_bound kcmp n t)), k. unfold key_at, rid_at in *. done.
  - intros (i & k & Hk & Hc & Hr). rewrite <- key_at_nat in Hk. rewrite <- rid_at_nat in Hr.
    rewrite (lower_bound_at n t (Z.of_nat i) k) by (done || lia).
    pose proof (key_at_size n (Z.of_nat i) k ltac:(lia) Hk).
    rewrite (proj2 (Z.eqb_neq _ _)) by lia. rewrite Hk. by rewrite (proj2 (Z.eqb_eq _ _) Hc).
Qed.

(** On a leaf, [binary_search] misses exactly when [leaf_lookup] does. *)
Lemma binary_search_lookup n t :
  node_ok n -> is_leaf n = true -> kvalid t ->
  (binary_search kcmp n t = -1 <-> leaf_lookup kcmp n t = None).
Proof.
  intros Hn Hl Ht. unfold binary_search, leaf_lookup.
  destruct (lower_bound_char n t Hn Ht) as (Hb & _ & _).
  set (b := lower_bound kcmp n t) in *.
  destruct (key_at n b) as [k|] eqn:Hk.
  - pose proof (key_at_size n b k ltac:(lia) Hk).
    rewrite (proj2 (Z.eqb_neq b (get_size n))) by lia.
    destruct (kcmp k t =? 0); [|done].
    destruct Hn as (_ & _ & E). rewrite Hl in E.
    destruct (rid_at n b) eqn:Hr; [split; [lia|done]|].
    exfalso. unfold rid_at in Hr. apply lookup_ge_None in Hr. unfold get_size in *. lia.
  - destruct (b =? get_size n); done.
Qed.

(** [upper_bound] is the unique split of the keys into [<= target] and [> target]. *)
Lemma upper_bound_is n t c :
  node_ok n -> kvalid t -> 0 <= c <= get_size n ->
  (forall i, 0 <= i < c -> key_le kcmp n t i = true) ->
  (c = get_size n \/ key_le kcmp n t c = false) ->
  upper_bound kcmp n t = c.
Proof.
  intros Hn Ht Hc Hbef Hend. destruct (upper_bound_char n t Hn Ht) as (Hb & Hbef' & Hend').
  set (b := upper_bound kcmp n t) in *.
  destruct (Z.lt_total b c) as [Hlt|[?|Hlt]]; [|done|].
  - specialize (Hbef b ltac:(lia)). destruct Hend' as [?|E]; [lia|congruence].
  - specialize (Hbef' c ltac:(lia)). destruct Hend as [?|E]; [lia|congruence].
Qed.

(** [internal_lookup] descends into the child at [upper_bound]: the
    first child whose separator is greater than the key. *)
Theorem internal_lookup_child n t :
  node_ok n -> kvalid t ->
  internal_lookup kcmp n t = default (-1) (page_no <$> rid_at n (upper_bound kcmp n t)).
Proof.
  intros Hn Ht. unfold internal_lookup.
  destruct (lower_bound_char n t Hn Ht) as (Hb & Hbef & Hend).
  set (b := lower_bound kcmp n t) in *.
  assert (Hle : forall i, 0 <= i < b -> key_le kcmp n t i = true).
  { intros i Hi. specialize (Hbef i Hi). unfold key_lt, key_le in *.
    destruct (key_at n i); [|done]. apply Z.ltb_lt in Hbef. apply Z.leb_le. lia. }
  destruct (b =? get_size n) eqn:E.
  - apply Z.eqb_eq in E. rewrite (upper_bound_is n t b) by (done || lia || auto). done.
  - apply Z.eqb_neq in E. destruct Hend as [?|Hend]; [done|].
    destruct (key_at_some n b ltac:(lia)) as [kb Hkb]. rewrite Hkb.
    unfold key_lt in Hend. rewrite Hkb in Hend. apply Z.ltb_ge in Hend.
    assert (Hv : kvalid kb) by eauto using key_at_valid.
    pose proof (kcmp_antisym (kcmp:=kcmp) kb t Hv Ht).
    destruct (kcmp t kb =? 0) eqn:E0; [apply Z.eqb_eq in E0|apply Z.eqb_neq in E0].
    + rewrite (upper_bound_is n t (b + 1)); [done..|lia| |].
      * intros i Hi. destruct (decide (i = b)) as [->|]; [|apply Hle; lia].
        unfold key_le. rewrite Hkb. apply Z.leb_le. lia.
      * destruct (decide (b + 1 = get_size n)); [by left|right].
        destruct (key_at_some n (b + 1) ltac:(lia)) as [k1 Hk1]. unfold key_le. rewrite Hk1.
        apply Z.leb_gt. pose proof (key_at_lt n b (b + 1) kb k1 Hn ltac:(lia) Hkb Hk1).
        assert (kvalid k1) by eauto using key_at_valid.
        rewrite <- (kcmp_eq_left kb t k1) by (done || lia).
        pose proof (kcmp_antisym (kcmp:=kcmp) kb k1 Hv ltac:(done)). lia.
    + destruct (kcmp t kb <? 0) eqn:E1; [|apply Z.ltb_ge in E1; lia].
      apply Z.ltb_lt in E1. rewrite (upper_bound_is n t b); [done..|lia|auto|].
      right. unfold key_le. rewrite Hkb. apply Z.leb_gt. lia.
Qed.

(** A boolean check of [keys_sorted], for concrete nodes. *)
Fixpoint sorted_b (ks : list K) : bool :=
  match ks with
  | [] => true
  | k :: ks' => forallb (fun k' => kcmp k k' <? 0) ks' && sorted_b ks'
  end.

Lemma sorted_b_sound ks : sorted_b ks = true -> keys_sorted ks.
Proof.
  induction ks as [|k ks IH]; simpl; [intros _ i j ki kj _ Hi; done|].
  intros [Hall Hs]%andb_prop i j ki kj Hij Hi Hj. destruct j as [|j]; [lia|].
  destruct i as [|i]; simpl in *.
  - simplify_eq. apply Z.ltb_lt. apply (proj1 (forallb_forall _ _) Hall).
    apply list_elem_of_In. by eapply list_elem_of_lookup_2.
  - apply (IH Hs i j); [lia|done..].
Qed.

(** ** Inserting and removing one key *)

Lemma Forall_insert_at1 {A} (P : A -> Prop) b x l :
  Forall P l -> P x -> Forall P (insert_at b [x] l).
Proof. intros Hl Hx. unfold insert_at. auto using Forall_app_2, Forall_take, Forall_drop. Qed.

Lemma Forall_delete_at {A} (P : A -> Prop) b l : Forall P l -> Forall P (delete_at b l).
Proof. intros Hl. unfold delete_at. auto using Forall_app_2, Forall_take, Forall_drop. Qed.

Lemma insert_sorted ks b k :
  keys_sorted ks -> 0 <= b -> (Z.to_nat b <= length ks)%nat ->
  (forall i ki, (i < Z.to_nat b)%nat -> ks !! i = Some ki -> kcmp ki k < 0) ->
  (forall i ki, (Z.to_nat b <= i)%nat -> ks !! i = Some ki -> kcmp k ki < 0) ->
  keys_sorted (insert_at b [k] ks).
Proof.
  intros Hs Hb Hl Hbef Haft i j ki kj Hij. rewrite !lookup_insert_at1 by done.
  repeat case_decide; intros Hi Hj; simplify_eq; try lia;
    [eapply Hs; [|done..]; lia|by eapply Hbef|eapply Hs; [|done..]; lia
    |eapply Haft; [|done]; lia|eapply Hs; [|done..]; lia].
Qed.

Lemma delete_sorted ks b : keys_sorted ks -> keys_sorted (delete_at b ks).
Proof.
  intros Hs i j ki kj Hij. rewrite !lookup_delete_at.
  repeat case_decide; intros Hi Hj; (eapply Hs; [|done..]; lia).
Qed.

(** Without a duplicate, [lower_bound] splits the keys into those below
    and those above the new key. *)
Lemma insert_pos n k :
  node_ok n -> kvalid k ->
  (forall kb, key_at n (lower_bound kcmp n k) = Some kb -> kcmp k kb <> 0) ->
  (forall i ki, (i < Z.to_nat (lower_bound kcmp n k))%nat -> keys n !! i = Some ki -> kcmp ki k < 0) /\
  (forall i ki, (Z.to_nat (lower_bound kcmp n k) <= i)%nat -> keys n !! i = Some ki -> kcmp k ki < 0).
Proof.
  intros Hn Hk Hnd. destruct (lower_bound_char n k Hn Hk) as (Hb & Hbef & Hend).
  set (b := lower_bound kcmp n k) in *. split.
  - intros i ki Hi Hki. specialize (Hbef (Z.of_nat i) ltac:(lia)). unfold key_lt in Hbef.
    rewrite key_at_nat, Hki in Hbef. by apply Z.ltb_lt.
  - intros i ki Hi Hki. rewrite <- key_at_nat in Hki.
    pose proof (key_at_size n (Z.of_nat i) ki ltac:(lia) Hki).
    destruct Hend as [?|Hend]; [lia|]. unfold key_lt in Hend.
    destruct (key_at_some n b ltac:(lia)) as [kb Hkb]. rewrite Hkb in Hend. apply Z.ltb_ge in Hend.
    assert (kvalid kb) by eauto using key_at_valid.
    pose proof (kcmp_antisym (kcmp:=kcmp) k kb Hk ltac:(done)). specialize (Hnd kb Hkb).
    destruct (decide (Z.of_nat i = b)) as [<-|].
    + rewrite Hkb in Hki; simplify_eq. lia.
    + eapply kcmp_trans_lt; eauto using key_at_valid; [lia|].
      apply (key_at_lt n b (Z.of_nat i)); [done|lia|done|done].
Qed.

(** A key equal to the target is present exactly when [insert]'s
    duplicate test fires. *)
Lemma insert_dup n k :
  node_ok n -> kvalid k ->
  (match key_at n (lower_bound kcmp n k) with
   | Some kb => negb (lower_bound kcmp n k =? get_size n) && (kcmp k kb =? 0)
   | None => false end = true <->
   exists i k', keys n !! i = Some k' /\ kcmp k' k = 0).
Proof.
  intros Hn Hk. destruct (lower_bound_char n k Hn Hk) as (Hb & _ & _). split.
  - destruct (key_at n _) as [kb|] eqn:Hkb; [|done]. intros [_ E]%andb_prop.
    apply Z.eqb_eq in E. exists (Z.to_nat (lower_bound kcmp n k)), kb. split; [done|].
    rewrite (kcmp_flip kb k) in E by eauto using key_at_valid. lia.
  - intros (i & k' & Hi & Hc). rewrite <- key_at_nat in Hi.
    rewrite (lower_bound_at n k (Z.of_nat i) k') by (done || lia). rewrite Hi.
    pose proof (key_at_size n (Z.of_nat i) k' ltac:(lia) Hi).
    rewrite (kcmp_flip k k') in Hc by eauto using key_at_valid.
    apply andb_true_intro. split; [apply negb_true_iff, Z.eqb_neq; lia|apply Z.eqb_eq; lia].
Qed.

Lemma insert_leaf_lookup n b k v t r :
  node_ok n -> is_leaf n = true -> 0 <= b -> (Z.to_nat b <= length (keys n))%nat ->
  kcmp k t <> 0 ->
  (exists i kt, insert_at b [k] (keys n) !! i = Some kt /\ kcmp kt t = 0 /\
                insert_at b [v] (rids n) !! i = Some r) <->
  (exists i kt, keys n !! i = Some kt /\ kcmp kt t = 0 /\ rids n !! i = Some r).
Proof.
  intros (_ & _ & Hl) Hleaf Hb Hlen Hne. rewrite Hleaf in Hl. split.
  - intros (i & kt & Hk & Hc & Hr).
    rewrite lookup_insert_at1 in Hk by lia. rewrite lookup_insert_at1 in Hr by lia.
    repeat case_decide; simplify_eq; eauto.
  - intros (i & kt & Hk & Hc & Hr). destruct (decide (i < Z.to_nat b)%nat).
    + exists i, kt. rewrite !(lookup_insert_at1 b) by lia. by rewrite !decide_True.
    + exists (S i), kt. rewrite !(lookup_insert_at1 b) by lia. rewrite !decide_False by lia.
      by rewrite Nat.sub_1_r.
Qed.

(** C32: [IxNodeHandle::insert] on a well-formed node fails exactly on a
    duplicate key; otherwise the node stays sorted, grows by one, and in
    a leaf the new key now maps to the new rid while every other key
    maps to what it mapped to before (insert/lookup round trip). *)
Theorem insert_spec n k v :
  node_ok n -> kvalid k ->
  match insert kcmp n k v with
  | Err e => e = IndexInsertDuplicatedError /\
             exists i k', keys n !! i = Some k' /\ kcmp k' k = 0
  | Ok (n', sz) =>
      ~ (exists i k', keys n !! i = Some k' /\ kcmp k' k = 0) /\
      node_ok n' /\ sz = get_size n' /\ sz = get_size n + 1 /\ is_leaf n' = is_leaf n /\
      (is_leaf n = true -> leaf_lookup kcmp n' k = Some v /\
         forall t, kvalid t -> kcmp t k <> 0 -> leaf_lookup kcmp n' t = leaf_lookup kcmp n t)
  end.
Proof.
  intros Hn Hk. unfold insert. cbv zeta. pose proof (insert_dup n k Hn Hk) as Hd.
  destruct (lower_bound_char n k Hn Hk) as (Hb & _ & _).
  set (b := lower_bound kcmp n k) in *.
  lazymatch goal with |- context [if ?c then _ else _] => destruct c eqn:E end.
  { split; [done|by apply Hd]. }
  assert (Hnd : ~ exists i k', keys n !! i = Some k' /\ kcmp k' k = 0)
    by (rewrite <- Hd; congruence).
  destruct (insert_pos n k Hn Hk) as [Hbef Haft].
  { intros kb Hkb Hc. apply Hnd. exists (Z.to_nat b), kb. split; [done|].
    rewrite (kcmp_flip k kb) by eauto using key_at_valid. lia. }
  assert (Hlen : (Z.to_nat b <= length (keys n))%nat) by (unfold get_size in Hb; lia).
  assert (Hok : node_ok (set_arrays n (insert_at b [k] (keys n))
     (if is_leaf n then insert_at b [v] (rids n) else insert_at (b + 1) [v] (rids n)))).
  { destruct Hn as (Hs & Hv & Hl). unfold set_arrays; cbn [keys rids is_leaf].
    split; [apply insert_sorted; (done || lia)|split; [by apply Forall_insert_at1|]].
    simpl. rewrite length_insert_at1 by done.
    revert Hl; destruct (is_leaf n); intros Hl; rewrite length_insert_at1 by lia; lia. }
  split; [done|]. split; [done|]. unfold get_size. cbn. rewrite length_insert_at1 by done.
  split; [lia|]. split; [lia|]. split; [done|].
  intros Hleaf. revert Hok. rewrite Hleaf. intros Hok. split.
  - assert (length (rids n) = length (keys n)) by (destruct Hn as (_ & _ & Hl); by rewrite Hleaf in Hl).
    apply (leaf_lookup_spec _ _ _ Hok Hk). exists (Z.to_nat b), k. simpl.
    rewrite !(lookup_insert_at1 b) by lia. repeat case_decide; try lia.
    split; [done|]. split; [by apply (kcmp_refl kvalid)|done].
  - intros t Ht Hne. apply option_eq_iff. intros r.
    etransitivity; [exact (leaf_lookup_spec _ _ _ Hok Ht)|].
    etransitivity; [|symmetry; exact (leaf_lookup_spec _ _ _ Hn Ht)].
    apply insert_leaf_lookup; [done..|lia|done|].
    rewrite (kcmp_flip t k) by done. lia.
Qed.

(** C38: [IxNodeHandle::remove] on a well-formed node fails exactly when
    the key is absent; otherwise the node stays sorted, shrinks by one,
    and in a leaf the key is gone while every other key maps to what it
    mapped to before. *)
Theorem remove_spec n k :
  node_ok n -> kvalid k ->
  match remove kcmp n k with
  | Err e => e = InternalError /\ ~ exists i k', keys n !! i = Some k' /\ kcmp k' k = 0
  | Ok (n', sz) =>
      (exists i k', keys n !! i = Some k' /\ kcmp k' k = 0) /\
      node_ok n' /\ sz = get_size n' /\ sz = get_size n - 1 /\ is_leaf n' = is_leaf n /\
      (is_leaf n = true -> leaf_lookup kcmp n' k = None /\
         forall t, kvalid t -> kcmp t k <> 0 -> leaf_lookup kcmp n' t = leaf_lookup kcmp n t)
  end.
Proof.
  intros Hn Hk. unfold remove. cbv zeta.
  destruct (lower_bound_char n k Hn Hk) as (Hb & _ & _).
  assert (Hat : forall i k', keys n !! i = Some k' -> kcmp k' k = 0 ->
                 Z.of_nat i = lower_bound kcmp n k /\ Z.of_nat i < get_size n).
  { intros i k' Hi Hc. rewrite <- key_at_nat in Hi.
    split; [symmetry; apply (lower_bound_at n k _ k'); (done || lia)|].
    apply (key_at_size n _ k'); [lia|done]. }
  set (b := lower_bound kcmp n k) in *.
  destruct ((b <? 0) || (b =? get_size n)) eqn:E1.
  { split; [done|]. intros (i & k' & Hi & Hc). destruct (Hat i k' Hi Hc).
    apply orb_true_iff in E1 as [?%Z.ltb_lt| ?%Z.eqb_eq]; lia. }
  apply orb_false_iff in E1 as [?%Z.ltb_ge ?%Z.eqb_neq].
  destruct (key_at_some n b ltac:(lia)) as [kb Hkb]. rewrite Hkb.
  assert (Hv : kvalid kb) by eauto using key_at_valid.
  pose proof (kcmp_flip k kb Hk Hv).
  destruct (negb (kcmp k kb =? 0)) eqn:E2.
  { split; [done|]. intros (i & k' & Hi & Hc). destruct (Hat i k' Hi Hc) as [Hi' _].
    rewrite <- key_at_nat, Hi' in Hi. rewrite Hkb in Hi. simplify_eq.
    apply negb_true_iff, Z.eqb_neq in E2. lia. }
  apply negb_false_iff, Z.eqb_eq in E2.
  unfold erase_pair. rewrite (proj2 (orb_false_iff _ _)) by (split; [apply Z.ltb_ge|apply Z.leb_gt]; lia).
  pose proof Hn as (Hs & Hfa & Hl).
  assert (Hlt : (Z.to_nat b < length (keys n))%nat) by (unfold get_size in *; lia).
  split; [exists (Z.to_nat b), kb; split; [done|lia]|].
  unfold get_size, node_ok. rewrite !keys_set_arrays, !rids_set_arrays, !is_leaf_set_arrays, length_delete_at by done.
  split; [split; [by apply delete_sorted|split; [by apply Forall_delete_at|]]|].
  { revert Hl; destruct (is_leaf n); intros Hl; rewrite length_delete_at by lia; lia. }
  split; [done|]. split; [lia|]. split; [done|].
  intros Hleaf. rewrite Hleaf in Hl |- *.
  assert (Hok' : node_ok (set_arrays n (delete_at b (keys n)) (delete_at b (rids n)))).
  { unfold node_ok. rewrite keys_set_arrays, rids_set_arrays, is_leaf_set_arrays, Hleaf.
    split; [by apply delete_sorted|split; [by apply Forall_delete_at|]].
    rewrite !length_delete_at by lia. lia. }
  split.
  - destruct (leaf_lookup kcmp _ k) as [r|] eqn:L; [exfalso|done].
    apply (leaf_lookup_spec _ _ _ Hok' Hk), delete_at_pair in L as (j & k' & Hj & Hj' & Hc & _).
    destruct (Hat j k' Hj' Hc). lia.
  - intros t Ht Hne. apply option_eq_iff. intros r.
    etransitivity; [exact (leaf_lookup_spec _ _ _ Hok' Ht)|].
    etransitivity; [|symmetry; exact (leaf_lookup_spec _ _ _ Hn Ht)].
    rewrite keys_set_arrays, rids_set_arrays.
    etransitivity; [exact (delete_at_pair b _ _ (fun x => kcmp x t = 0) r)|]. split; [naive_solver|].
    intros (j & k' & Hj & Hc & Hr). exists j, k'. split; [|done].
    intros ->. rewrite <- key_at_nat, Z2Nat.id, Hkb in Hj by lia. simplify_eq.
    rewrite (kcmp_eq_congr (kcmp:=kcmp) k' k t) in Hc by (done || lia).
    rewrite (kcmp_flip t k) in Hc by done. lia.
Qed.

End node_props.

(** ** Bulk insertion *)

(** [insert_pairs] succeeds exactly when both positions are in range
    and the node then holds fewer than [max_size] keys, whatever its
    kind: the [else if] bound [max_size - 1] also applies to leaves, so
    the leaf bound [get_size + n <= max_size] is never the one that
    decides; the result is the arrays with the pairs inserted. *)
Theorem insert_pairs_spec {K} max_size (nd : IxNode K) key_pos rid_pos ks rs n nd' :
  insert_pairs max_size nd key_pos rid_pos ks rs n = Ok nd' <->
  0 <= key_pos <= get_size nd /\ 0 <= rid_pos <= get_num_vals nd /\
  get_size nd + n < max_size /\
  nd' = set_arrays nd (insert_at key_pos (take (Z.to_nat n) ks) (keys nd))
                      (insert_at rid_pos (take (Z.to_nat n) rs) (rids nd)).
Proof.
  unfold insert_pairs.
  destruct (key_pos <? 0) eqn:E1, (get_size nd <? key_pos) eqn:E2; cbn [orb];
    [split; [done|lia]..|].
  destruct (rid_pos <? 0) eqn:E3, (get_num_vals nd <? rid_pos) eqn:E4; cbn [orb];
    [split; [done|lia]..|].
  destruct (is_leaf nd && (max_size <? get_size nd + n)) eqn:E5.
  { apply andb_prop in E5 as [_ E5]. split; [done|lia]. }
  destruct (max_size - 1 <? get_size nd + n) eqn:E6; [split; [done|lia]|].
  split; [intros [= <-]; split_and!; (done || lia)|intros (_ & _ & _ & ->); done].
Qed.

(** ** Concrete nodes of a one-column INT index *)

Definition int_sch : schema := [(TYPE_INT, 4%nat)].
Definition int_key (z : Z) : list Byte.byte := le_split 4 z.
Definition int_cmp : list Byte.byte -> list Byte.byte -> Z := ix_cmp int_sch.

Lemma int_key_ok z : key_ok int_sch (int_key z).
Proof. unfold int_key. split; [|done]. split; [rewrite length_le_split; lia|split; [done|discriminate]]. Qed.

Lemma Forall_int_keys zs : Forall (key_ok int_sch) (int_key <$> zs).
Proof. apply Forall_fmap, Forall_forall. intros. apply int_key_ok. Qed.

(** A leaf with the keys 3, 5, 9 and an internal node with separators
    10, 20 and children 4, 5, 6. *)
Definition leaf1 : IxNode (list Byte.byte) :=
  mkIxNode true 2 (-1) (-1) (int_key <$> [3; 5; 9]) [mkRid 7 0; mkRid 7 1; mkRid 7 2].
Definition inner1 : IxNode (list Byte.byte) :=
  mkIxNode false (-1) (-1) (-1) (int_key <$> [10; 20]) [mkRid 4 0; mkRid 5 0; mkRid 6 0].

Lemma leaf1_ok : node_ok (key_ok int_sch) int_cmp leaf1.
Proof. split; [apply sorted_b_sound; vm_compute; done|split; [apply Forall_int_keys|done]]. Qed.

Lemma inner1_ok : node_ok (key_ok int_sch) int_cmp inner1.
Proof. split; [apply sorted_b_sound; vm_compute; done|split; [apply Forall_int_keys|done]]. Qed.


Lemma internal_lookup_child_witness :
  internal_lookup int_cmp inner1 (int_key 20) = 6 /\
  internal_lookup int_cmp inner1 (int_key 20) =
    default (-1) (page_no <$> rid_at inner1 (upper_bound int_cmp inner1 (int_key 20))).
Proof.
  split; [vm_compute; reflexivity|].
  exact (internal_lookup_child _ _ inner1 (int_key 20) inner1_ok (int_key_ok 20)).
Defined.

Lemma insert_spec_witness :
  (match insert int_cmp leaf1 (int_key 7) (mkRid 7 3) with
   | Ok (n', sz) => keys n' = int_key <$> [3; 5; 7; 9] /\ sz = 4
   | Err _ => False end) /\
  match insert int_cmp leaf1 (int_key 7) (mkRid 7 3) with
  | Err e => e = IndexInsertDuplicatedError /\
             exists i k', keys leaf1 !! i = Some k' /\ int_cmp k' (int_key 7) = 0
  | Ok (n', sz) =>
      ~ (exists i k', keys leaf1 !! i = Some k' /\ int_cmp k' (int_key 7) = 0) /\
      node_ok (key_ok int_sch) int_cmp n' /\ sz = get_size n' /\ sz = get_size leaf1 + 1 /\
      is_leaf n' = is_leaf leaf1 /\
      (is_leaf leaf1 = true -> leaf_lookup int_cmp n' (int_key 7) = Some (mkRid 7 3) /\
         forall t, key_ok int_sch t -> int_cmp t (int_key 7) <> 0 ->
           leaf_lookup int_cmp n' t = leaf_lookup int_cmp leaf1 t)
  end.
Proof.
  split; [vm_compute; split; reflexivity|].
  exact (insert_spec _ _ leaf1 (int_key 7) (mkRid 7 3) leaf1_ok (int_key_ok 7)).
Defined.

Lemma remove_spec_witness :
  (match remove int_cmp leaf1 (int_key 5) with
   | Ok (n', sz) => keys n' = int_key <$> [3; 9] /\ rids n' = [mkRid 7 0; mkRid 7 2] /\ sz = 2
   | Err _ => False end) /\
  match remove int_cmp leaf1 (int_key 5) with
  | Err e => e = InternalError /\
             ~ exists i k', keys leaf1 !! i = Some k' /\ int_cmp k' (int_key 5) = 0
  | Ok (n', sz) =>
      (exists i k', keys leaf1 !! i = Some k' /\ int_cmp k' (int_key 5) = 0) /\
      node_ok (key_ok int_sch) int_cmp n' /\ sz = get_size n' /\ sz = get_size leaf1 - 1 /\
      is_leaf n' = is_leaf leaf1 /\
      (is_leaf leaf1 = true -> leaf_lookup int_cmp n' (int_key 5) = None /\
         forall t, key_ok int_sch t -> int_cmp t (int_key 5) <> 0 ->
           leaf_lookup int_cmp n' t = leaf_lookup int_cmp leaf1 t)
  end.
Proof.
  split; [vm_compute; split_and!; reflexivity|].
  exact (remove_spec _ _ leaf1 (int_key 5) leaf1_ok (int_key_ok 5)).
Defined.

(** A leaf of three keys with [max_size = 4] cannot take a fourth
    key through [insert_pairs], although a leaf may hold [max_size]
    keys by the first bound. *)
Example leaf_insert_pairs_full :
  insert_pairs 4 leaf1 3 3 [int_key 10] [mkRid 7 3] 1 = Err InternalError.
Proof. vm_compute. reflexivity. Qed.
