(* ===== verification/IxTree.v ===== *)
(** * The B+tree: [IxIndexHandle] of [index/ix_index_handle.{h,cpp}]

    The index is its file header and the store of its node pages, keyed
    by page number; the buffer pool is abstracted away (a fetched node
    is the page's current contents, and every change is written back to
    the store at once, so two handles on one page see each other's
    writes as in the source).  Every method is a computation of the
    state-and-exception monad [ixM]: the C++ exceptions and failed
    [assert]s are [Err] values that keep the state reached when they
    were raised, so [delete_entry]'s [catch] sees the partial update the
    source leaves behind.  Two further errors belong to the model: a
    page that is not in the store ([NoPage]) and a loop run out of fuel
    ([OutOfFuel]); the theorems show they never occur on well-formed
    trees given fuel above the tree height.

    The node operations are those of [IxNode.v]; the array loops that
    move a block of keys or rids ([key_swap]/[rid_swap], [set_key]
    over a range) are modelled by their effect on the arrays.  Page
    allocation always succeeds: a buffer pool with every frame pinned
    makes [new_page] return [nullptr], which the index code
    dereferences; that crash is not modelled.  Pins and [node_guard]
    unpinning have no effect on the page contents and are omitted. *)

From Stdlib Require Import ZArith Lia.
From stdpp Require Import base list gmap.
From S2P Require Import Prelude Key IxNode.

Open Scope Z_scope.

(** Page numbers of [ix_defs.h] (outside [src/]). *)
Definition IX_FILE_HDR_PAGE : Z := 0.
Definition IX_LEAF_HEADER_PAGE : Z := 1.
Definition IX_INIT_ROOT_PAGE : Z := 2.
Definition IX_NO_PAGE : Z := -1.

(** [IxFileHdr] (the fields the tree operations use). *)
Record IxFileHdr := mkIxFileHdr {
  root_page_ : Z;
  first_leaf_ : Z;
  last_leaf_ : Z;
  num_pages_ : Z;
  btree_order_ : Z
}.

Definition set_root_page (h : IxFileHdr) (p : Z) : IxFileHdr :=
  mkIxFileHdr p (first_leaf_ h) (last_leaf_ h) (num_pages_ h) (btree_order_ h).
Definition set_last_leaf (h : IxFileHdr) (p : Z) : IxFileHdr :=
  mkIxFileHdr (root_page_ h) (first_leaf_ h) p (num_pages_ h) (btree_order_ h).
Definition set_num_pages (h : IxFileHdr) (n : Z) : IxFileHdr :=
  mkIxFileHdr (root_page_ h) (first_leaf_ h) (last_leaf_ h) n (btree_order_ h).

(** [Iid]: a position in the leaf level (page number, slot). *)
Record Iid := mkIid { iid_page_no : Z; iid_slot_no : Z }.

#[export] Instance Iid_eq_dec : EqDecision Iid.
Proof. solve_decision. Defined.

(** The exceptions and fatal assertions of the index code, and the
    model's own failures. *)
Inductive TreeErr :=
| IxErr (e : IxError)
| IndexEntryNotFoundError
| AssertFailed
| NoPage (p : Z)
| OutOfRange
| OutOfFuel.

Section tree.
Context {K : Type} (kcmp : K -> K -> Z) (zero_key : K).

(** The index state: the file header, the node pages of the file and
    the disk manager's next page number for the file. *)
Record IxIndexHandle := mkIxIndexHandle {
  file_hdr_ : IxFileHdr;
  nodes_ : gmap Z (IxNode K);
  next_page_ : Z
}.

(** ** The state-and-exception monad *)

Definition ixM (A : Type) := stM IxIndexHandle TreeErr A.

Definition get_hdr : ixM IxFileHdr := fun s => (Ok (file_hdr_ s), s).
Definition put_hdr (h : IxFileHdr) : ixM unit := fun s => (Ok tt, mkIxIndexHandle h (nodes_ s) (next_page_ s)).

(** [fetch_node]: the page's current node. *)
Definition fetch_node (p : Z) : ixM (IxNode K) := fun s =>
  match nodes_ s !! p with
  | Some n => (Ok n, s)
  | None => (Err (NoPage p), s)
  end.

Definition put_node (p : Z) (n : IxNode K) : ixM unit := fun s =>
  (Ok tt, mkIxIndexHandle (file_hdr_ s) (<[p := n]> (nodes_ s)) (next_page_ s)).

Definition lift {A} (r : res IxError A) : ixM A :=
  match r with Ok a => ret a | Err e => throw (IxErr e) end.

Definition assertM (b : bool) : ixM unit := if b then ret tt else throw AssertFailed.

End tree.

Open Scope rmdb_scope.

Arguments IxIndexHandle : clear implicits.
Arguments ixM : clear implicits.

(** ** The buffer pool calls of the index

    The index's page allocation through its buffer pool, in a module
    apart from the buffer pool's own [new_page] of [BufferPool]. *)
Module Export IxPool.
Section pool.
Context {K : Type}.

(** A freshly allocated page reads as zeros: an internal node with no
    key, parent and leaf links 0. *)
Definition zero_node : IxNode K := mkIxNode false 0 0 0 [] [].

(** [BufferPoolManager::new_page] on the index file: the disk
    manager's next page number, a zeroed page. *)
Definition new_page : ixM K Z := fun s =>
  let p := next_page_ s in
  (Ok p, mkIxIndexHandle (file_hdr_ s) (<[p := zero_node]> (nodes_ s)) (p + 1)).

End pool.
End IxPool.

Section ops.
Context {K : Type} (kcmp : K -> K -> Z) (zero_key : K).
Local Abbreviation ixM := (ixM K).

(** ** Node accessors and setters of [IxNodeHandle] *)

Definition set_is_leaf (n : IxNode K) (b : bool) : IxNode K :=
  mkIxNode b (parent n) (next_leaf n) (prev_leaf n) (keys n) (rids n).
Definition set_parent_page_no (n : IxNode K) (p : Z) : IxNode K :=
  mkIxNode (is_leaf n) p (next_leaf n) (prev_leaf n) (keys n) (rids n).
Definition set_next_leaf (n : IxNode K) (p : Z) : IxNode K :=
  mkIxNode (is_leaf n) (parent n) p (prev_leaf n) (keys n) (rids n).
Definition set_prev_leaf (n : IxNode K) (p : Z) : IxNode K :=
  mkIxNode (is_leaf n) (parent n) (next_leaf n) p (keys n) (rids n).

(** [page_hdr->num_key = sz] when shrinking: the keys and values past
    the new count are no longer part of the node. *)
Definition set_size (n : IxNode K) (sz : Z) : IxNode K :=
  set_arrays n (take (Z.to_nat sz) (keys n))
    (take (Z.to_nat (if is_leaf n then sz else sz + 1)) (rids n)).

Definition is_root_page (n : IxNode K) : bool := parent n =? INVALID_PAGE_ID.

Definition get_max_size (h : IxFileHdr) : Z := btree_order_ h + 1.
Definition get_min_size (h : IxFileHdr) : Z := Z.quot (get_max_size h) 2.

(** [get_key(i)]: slot [i] of the key array.  Only slot 0 is ever read
    past the used keys (of an empty node), and there the page holds
    the zeroed key of a fresh page or of [erase_pair]'s [memset]. *)
Definition get_key (n : IxNode K) (i : Z) : K := default zero_key (key_at n i).

(** [get_rid(i)], in the used part of the array. *)
Definition get_rid (n : IxNode K) (i : Z) : ixM Rid :=
  if (0 <=? i) then match rid_at n i with Some r => ret r | None => throw OutOfRange end
  else throw OutOfRange.

Definition value_at (n : IxNode K) (i : Z) : ixM Z :=
  let! r := get_rid n i in ret (page_no r).

Definition modify_node (p : Z) (f : IxNode K -> IxNode K) : ixM unit :=
  let! n := fetch_node p in put_node p (f n).

Fixpoint forM_ (l : list Z) (f : Z -> ixM unit) : ixM unit :=
  match l with
  | [] => ret tt
  | i :: l' => f i ;; forM_ l' f
  end.

(** ** Page allocation *)

(** [create_node]: count the page in the file header, allocate it. *)
Definition create_node : ixM Z :=
  let! h := get_hdr in
  put_hdr (set_num_pages h (num_pages_ h + 1)) ;;
  new_page.

(** [release_node_handle]. *)
Definition release_node_handle : ixM unit :=
  let! h := get_hdr in put_hdr (set_num_pages h (num_pages_ h - 1)).

(** ** Maintaining parent pointers and separators *)

(** [maintain_child]: the [child_idx]-th child's parent becomes [p]. *)
Definition maintain_child (p : Z) (child_idx : Z) : ixM unit :=
  let! n := fetch_node p in
  if is_leaf n then ret tt else
  let! c := value_at n child_idx in
  modify_node c (fun cn => set_parent_page_no cn p).

(** [maintain_parent]: walk up from [p] through the parent pointers
    until the root; in the first ancestor holding [old_key], replace
    it with [new_key]. *)
Fixpoint maintain_parent_loop (fuel : nat) (root tmp_page tmp_parent : Z)
    (old_key new_key : K) : ixM unit :=
  if tmp_page =? root then ret tt else
  match fuel with
  | O => throw OutOfFuel
  | S fuel =>
      let! cur := fetch_node tmp_parent in
      let pos := binary_search kcmp cur old_key in
      if negb (pos =? -1) then
        put_node tmp_parent (set_arrays cur (<[Z.to_nat pos := new_key]> (keys cur)) (rids cur))
      else maintain_parent_loop fuel root tmp_parent (parent cur) old_key new_key
  end.

Definition maintain_parent (fuel : nat) (p : Z) (old_key new_key : K) : ixM unit :=
  let! h := get_hdr in
  let! n := fetch_node p in
  maintain_parent_loop fuel (root_page_ h) p (parent n) old_key new_key.

(** [erase_leaf]: unlink a leaf from its neighbours. *)
Definition erase_leaf (p : Z) : ixM unit :=
  let! leaf := fetch_node p in
  assertM (is_leaf leaf) ;;
  modify_node (prev_leaf leaf) (fun q => set_next_leaf q (next_leaf leaf)) ;;
  modify_node (next_leaf leaf) (fun q => set_prev_leaf q (prev_leaf leaf)).

(** [set_rid(0, rid)]: slot 0 of the value array. *)
Definition set_first_rid (n : IxNode K) (r : Rid) : IxNode K :=
  set_arrays n (keys n) (r :: drop 1 (rids n)).

(** ** Search *)

(** [find_leaf_page]: from the root, follow [internal_lookup] down to
    a leaf; [fuel] bounds the number of levels. *)
Fixpoint find_leaf_loop (fuel : nat) (cur : Z) (key : K) : ixM Z :=
  let! n := fetch_node cur in
  if is_leaf n then ret cur else
  match fuel with
  | O => throw OutOfFuel
  | S fuel => find_leaf_loop fuel (internal_lookup kcmp n key) key
  end.

Definition find_leaf_page (fuel : nat) (key : K) : ixM Z :=
  let! h := get_hdr in find_leaf_loop fuel (root_page_ h) key.

(** [get_value]: the rid stored with [key] ([true] and the rid pushed
    on [result] in the source), or [None]. *)
Definition get_value (fuel : nat) (key : K) : ixM (option Rid) :=
  let! lp := find_leaf_page fuel key in
  let! leaf := fetch_node lp in
  ret (leaf_lookup kcmp leaf key).

Definition is_key_exists (fuel : nat) (key : K) : ixM bool :=
  let! lp := find_leaf_page fuel key in
  let! leaf := fetch_node lp in
  ret (bool_decide (is_Some (leaf_lookup kcmp leaf key))).

(** ** Insertion *)

(** [split]: a new right sibling takes the upper half of the values
    ([r = num_vals / 2]); a leaf is linked into the leaf chain; an
    internal node's new sibling first receives [r] keys, the first of
    which [insert_into_parent] moves up, and adopts its children. *)
Definition split (p : Z) : ixM Z :=
  let! np := create_node in
  let! node := fetch_node p in
  let r := Z.quot (get_num_vals node) 2 in
  let l := get_num_vals node - r in
  modify_node np (fun nn => set_size nn 0) ;;
  (if is_leaf node then
     let! h := get_hdr in
     (if p =? last_leaf_ h then put_hdr (set_last_leaf h np) else ret tt) ;;
     modify_node np (fun nn => set_is_leaf nn true) ;;
     let! node := fetch_node p in
     modify_node np (fun nn => set_next_leaf nn (next_leaf node)) ;;
     modify_node np (fun nn => set_prev_leaf nn p) ;;
     modify_node p (fun n => set_next_leaf n np) ;;
     let! h := get_hdr in
     (if negb (np =? last_leaf_ h) then
        let! nn := fetch_node np in
        modify_node (next_leaf nn) (fun q => set_prev_leaf q np)
      else ret tt) ;;
     let! node := fetch_node p in
     let! nn := fetch_node np in
     let! nn' := lift (insert_pairs (get_max_size h) nn 0 0
                   (drop (Z.to_nat l) (keys node)) (drop (Z.to_nat l) (rids node)) r) in
     put_node np nn'
   else
     modify_node np (fun nn => set_is_leaf nn false) ;;
     let! node := fetch_node p in
     let! nn := fetch_node np in
     let! h := get_hdr in
     let! nn' := lift (insert_pairs (get_max_size h) nn 0 0
                   (drop (Z.to_nat (get_size node - r)) (keys node))
                   (drop (Z.to_nat (get_num_vals node - r)) (rids node)) r) in
     put_node np nn') ;;
  modify_node p (fun n => set_size n (if is_leaf n then l else l - 1)) ;;
  let! nn := fetch_node np in
  (if is_leaf nn then ret tt
   else forM_ (seqZ 0 (get_num_vals nn - 1)) (maintain_child np)) ;;
  ret np.

(** [insert_into_parent]: after [old_node] split into it and
    [new_node], put [key] and the new child into the parent, growing a
    new root when [old_node] was the root, and split the parent in
    turn when it overflows; [fuel] bounds the levels climbed. *)
Fixpoint insert_into_parent (fuel : nat) (old_node : Z) (key : K) (new_node : Z) : ixM unit :=
  match fuel with
  | O => throw OutOfFuel
  | S fuel =>
      let! nn := fetch_node new_node in
      (if negb (is_leaf nn) then put_node new_node (set_arrays nn (drop 1 (keys nn)) (rids nn))
       else ret tt) ;;
      let! old := fetch_node old_node in
      let! parent_page :=
        (if is_root_page old then
           let! pp := new_page in
           modify_node pp (fun q => set_is_leaf q false) ;;
           modify_node pp (fun q => set_size q 0) ;;
           modify_node pp (fun q => set_parent_page_no q INVALID_PAGE_ID) ;;
           let! h := get_hdr in
           put_hdr (set_num_pages h (num_pages_ h + 1)) ;;
           let! h := get_hdr in
           put_hdr (set_root_page h pp) ;;
           modify_node pp (fun q => set_first_rid q (mkRid old_node 0)) ;;
           ret pp
         else ret (parent old)) in
      let! old := fetch_node old_node in
      (if is_root_page old then modify_node old_node (fun q => set_parent_page_no q parent_page)
       else ret tt) ;;
      let! old := fetch_node old_node in
      modify_node new_node (fun q => set_parent_page_no q (parent old)) ;;
      let! par := fetch_node parent_page in
      let! ins := lift (insert kcmp par key (mkRid new_node 0)) in
      put_node parent_page ins.1 ;;
      let! par := fetch_node parent_page in
      assertM (negb (is_leaf par)) ;;
      let! h := get_hdr in
      if negb (is_leaf par) && (btree_order_ h <? get_num_vals par) then
        let! np := split parent_page in
        let! n2 := fetch_node np in
        let! h := get_hdr in
        (if is_leaf n2 && (old_node =? last_leaf_ h) then put_hdr (set_last_leaf h np)
         else ret tt) ;;
        let! n2 := fetch_node np in
        insert_into_parent fuel parent_page (get_key n2 0) np
      else ret tt
  end.

(** [insert_entry]: insert into the leaf, fix the ancestors' copy of
    the leaf's first key when the new key comes first, and split an
    overflowing leaf.  Returns the leaf's page number. *)
Definition insert_entry (fuel : nat) (key : K) (value : Rid) : ixM Z :=
  let! lp := find_leaf_page fuel key in
  let! leaf := fetch_node lp in
  let is_ins_first := kcmp key (get_key leaf 0) <? 0 in
  let old_key := get_key leaf 0 in
  let! ins := lift (insert kcmp leaf key value) in
  put_node lp ins.1 ;;
  (if is_ins_first then
     let! leaf := fetch_node lp in
     maintain_parent fuel lp old_key (get_key leaf 0)
   else ret tt) ;;
  let! h := get_hdr in
  (if btree_order_ h <? ins.2 then
     let! np := split lp in
     let! h := get_hdr in
     (if lp =? last_leaf_ h then put_hdr (set_last_leaf h np) else ret tt) ;;
     let! nn := fetch_node np in
     insert_into_parent fuel lp (get_key nn 0) np
   else ret tt) ;;
  ret lp.

(** ** Deletion *)

(** The loop of [get_prev_node]/[get_next_node]/[coalesce] that finds
    the slot of child [p] among the parent's values, or -1. *)
Definition find_rid_pos (par : IxNode K) (p : Z) : Z :=
  match list_find (fun r => page_no r = p) (rids par) with
  | Some (i, _) => Z.of_nat i
  | None => -1
  end.

(** [get_prev_node]: the previous leaf (none before the first leaf,
    whose [prev_leaf] is the leaf header page), or the left sibling of
    an internal node under the same parent. *)
Definition get_prev_node (p : Z) : ixM (option Z) :=
  let! n := fetch_node p in
  if is_leaf n then
    let! _ := fetch_node (prev_leaf n) in
    if prev_leaf n =? IX_LEAF_HEADER_PAGE then ret None else ret (Some (prev_leaf n))
  else
    let! par := fetch_node (parent n) in
    let pos := if get_size n =? 0 then find_rid_pos par p
               else father_lookup kcmp par (get_key n 0) in
    if pos =? 0 then ret None else
    let! q := value_at par (pos - 1) in
    let! _ := fetch_node q in
    ret (Some q).

(** [get_next_node]: the next leaf (none after the last leaf), or the
    right sibling of an internal node under the same parent. *)
Definition get_next_node (p : Z) : ixM (option Z) :=
  let! n := fetch_node p in
  if is_leaf n then
    let! h := get_hdr in
    if p =? last_leaf_ h then ret None else
    let! _ := fetch_node (next_leaf n) in
    ret (Some (next_leaf n))
  else
    let! par := fetch_node (parent n) in
    let pos := if 0 <? get_size n then father_lookup kcmp par (get_key n 0)
               else find_rid_pos par p in
    assertM (pos <=? get_num_vals par - 1) ;;
    if pos =? get_num_vals par - 1 then ret None else
    let! q := value_at par (pos + 1) in
    let! _ := fetch_node q in
    ret (Some q).

(** [BufferPoolManager::delete_page] on a node page: every caller still
    holds the page pinned through a [node_guard], so the buffer pool
    refuses the deletion and the page stays in the file. *)
Definition delete_node_page (p : Z) : ixM unit := ret tt.

(** [adjust_root]: an internal root left without keys hands the root
    over to its only child; an empty leaf root stays. *)
Definition adjust_root (p : Z) : ixM bool :=
  let! old := fetch_node p in
  if negb (is_leaf old) && (get_size old =? 0) then
    let! c := value_at old 0 in
    let! _ := fetch_node c in
    let! h := get_hdr in
    put_hdr (set_root_page h c) ;;
    modify_node c (fun q => set_parent_page_no q INVALID_PAGE_ID) ;;
    delete_node_page p ;;
    ret true
  else ret false.

(** [redistribute]: move [MOVE_PAIR_NUMS] pairs from the sibling into
    [node] (from the front of a right sibling when [index = 0], from
    the back of a left sibling otherwise), rotating the separator
    through the parent for internal nodes, and fix the separator. *)
Definition redistribute (neighbor node parent_page index : Z) : ixM unit :=
  let! nb := fetch_node neighbor in
  let! nd := fetch_node node in
  let move := Z.quot (get_num_vals nb + get_num_vals nd) 2 - get_num_vals nd in
  let! h := get_hdr in
  let max := get_max_size h in
  (if index =? 0 then
     (if is_leaf nb then
        let! par := fetch_node parent_page in
        let pos := lower_bound kcmp par (get_key nb 0) in
        assertM ((0 <=? pos) && (pos <? get_size par)) ;;
        let! nd' := lift (insert_pairs max nd (get_size nd) (get_num_vals nd) (keys nb) (rids nb) move) in
        put_node node nd' ;;
        let! nb := fetch_node neighbor in
        let nb' := set_arrays nb (drop (Z.to_nat move) (keys nb)) (drop (Z.to_nat move) (rids nb)) in
        put_node neighbor nb' ;;
        modify_node parent_page (fun q =>
          set_arrays q (<[Z.to_nat pos := get_key nb' 0]> (keys q)) (rids q))
      else
        let! par := fetch_node parent_page in
        let pos := if 0 <? get_size nd then upper_bound kcmp par (get_key nd (get_size nd - 1))
                   else find_rid_pos par node in
        assertM ((0 <=? pos) && (pos <? get_size par)) ;;
        let! r0 := get_rid nb 0 in
        let! nd' := lift (insert_pairs max nd (get_size nd) (get_num_vals nd) [get_key par pos] [r0] 1) in
        let! nd'' := lift (insert_pairs max nd' (get_size nd') (get_num_vals nd')
                              (keys nb) (drop 1 (rids nb)) (move - 1)) in
        put_node node nd'' ;;
        modify_node parent_page (fun q =>
          set_arrays q (<[Z.to_nat pos := get_key nb (move - 1)]> (keys q)) (rids q)) ;;
        modify_node neighbor (fun q =>
          set_arrays q (drop (Z.to_nat move) (keys q)) (drop (Z.to_nat move) (rids q)))) ;;
     let! nd := fetch_node node in
     forM_ (seqZ 0 move) (fun i => maintain_child node (get_num_vals nd - 1 - i))
   else if 0 <? index then
     (if is_leaf nd then
        let! par := fetch_node parent_page in
        let pos := lower_bound kcmp par (get_key nd 0) in
        assertM ((0 <=? pos) && (pos <? get_size par)) ;;
        let! nd' := lift (insert_pairs max nd 0 0
                     (drop (Z.to_nat (get_size nb - move)) (keys nb))
                     (drop (Z.to_nat (get_num_vals nb - move)) (rids nb)) move) in
        put_node node nd' ;;
        modify_node parent_page (fun q =>
          set_arrays q (<[Z.to_nat pos := get_key nd' 0]> (keys q)) (rids q))
      else
        let! par := fetch_node parent_page in
        let pos := upper_bound kcmp par (get_key nb (get_size nb - 1)) in
        assertM ((0 <=? pos) && (pos <? get_size par)) ;;
        put_node node (set_arrays nd
          (drop (Z.to_nat (get_size nb - (move - 1))) (keys nb) ++ [get_key par pos] ++ keys nd)
          (drop (Z.to_nat (get_num_vals nb - move)) (rids nb) ++ rids nd)) ;;
        modify_node parent_page (fun q =>
          set_arrays q (<[Z.to_nat pos := get_key nb (get_size nb - move)]> (keys q)) (rids q))) ;;
     modify_node neighbor (fun q => set_size q (get_size q - move)) ;;
     forM_ (seqZ 0 move) (maintain_child node)
   else throw AssertFailed).

(** [coalesce]: merge the right one of [node] and its sibling into the
    left one (pulling the separator down between internal nodes),
    erase the separator from the parent, unlink a merged leaf, and
    rebalance the parent ([cor], the recursive call). *)
Definition coalesce (cor : Z -> ixM bool) (neighbor node parent_page index : Z) : ixM bool :=
  let '(left_node, right_node) := if index =? 0 then (node, neighbor) else (neighbor, node) in
  let! ln := fetch_node left_node in
  let! rn := fetch_node right_node in
  let! par := fetch_node parent_page in
  let pos := if 0 <? get_size ln then upper_bound kcmp par (get_key ln (get_size ln - 1))
             else find_rid_pos par left_node in
  let! h := get_hdr in
  let max := get_max_size h in
  (if negb (is_leaf rn) then
     let! r0 := get_rid rn 0 in
     let! ln' := lift (insert_pairs max ln (get_size ln) (get_num_vals ln) [get_key par pos] [r0] 1) in
     let! ln'' := lift (insert_pairs max ln' (get_size ln') (get_num_vals ln')
                          (keys rn) (drop 1 (rids rn)) (get_size rn)) in
     put_node left_node ln''
   else
     let! ln' := lift (insert_pairs max ln (get_size ln) (get_num_vals ln) (keys rn) (rids rn) (get_size rn)) in
     put_node left_node ln') ;;
  modify_node parent_page (fun q => erase_pair q pos) ;;
  (if is_leaf rn then
     let! h := get_hdr in
     if right_node =? last_leaf_ h then
       put_hdr (set_last_leaf h left_node) ;;
       modify_node left_node (fun q => set_next_leaf q INVALID_PAGE_ID)
     else
       modify_node left_node (fun q => set_next_leaf q (next_leaf rn)) ;;
       modify_node (next_leaf rn) (fun q => set_prev_leaf q left_node)
   else ret tt) ;;
  let! ln := fetch_node left_node in
  forM_ (rev (seqZ (get_num_vals ln - get_num_vals rn) (get_num_vals rn))) (maintain_child left_node) ;;
  delete_node_page right_node ;;
  let! _ := cor parent_page in
  ret false.

Definition fetch_opt (o : option Z) : ixM (option (Z * IxNode K)) :=
  match o with
  | Some q => let! c := fetch_node q in ret (Some (q, c))
  | None => ret None
  end.

(** [coalesce_or_redistribute]: nothing to do for a root (beyond
    [adjust_root]) or a node within [min_size, max_size); otherwise
    prefer redistributing with the left sibling, then the right one,
    then coalescing with the left, then the right; [fuel] bounds the
    levels the coalescing climbs. *)
Fixpoint coalesce_or_redistribute (fuel : nat) (p : Z) : ixM bool :=
  match fuel with
  | O => throw OutOfFuel
  | S fuel =>
      let! n := fetch_node p in
      if is_root_page n then adjust_root p else
      let! h := get_hdr in
      let num_vals := get_num_vals n in
      if (get_min_size h <=? num_vals) && (num_vals <? get_max_size h) then ret false else
      let! _ := fetch_node (parent n) in
      let! prev := get_prev_node p in
      let! next := get_next_node p in
      let need (c : IxNode K) := get_min_size h * 2 <=? get_num_vals c + num_vals in
      let! pv := fetch_opt prev in
      let! nx := fetch_opt next in
      let cond (o : option (Z * IxNode K)) (b : IxNode K -> bool) :=
        match o with Some (_, c) => b c && (parent n =? parent c) | None => false end in
      let pg (o : option (Z * IxNode K)) := match o with Some (q, _) => q | None => 0 end in
      (if cond pv need then redistribute (pg pv) p (parent n) 1
       else if cond nx need then redistribute (pg nx) p (parent n) 0
       else if cond pv (fun c => negb (need c)) then
         let! _ := coalesce (coalesce_or_redistribute fuel) (pg pv) p (parent n) 1 in ret tt
       else if cond nx (fun c => negb (need c)) then
         let! _ := coalesce (coalesce_or_redistribute fuel) (pg nx) p (parent n) 0 in ret tt
       else throw AssertFailed) ;;
      ret true
  end.

(** [delete_entry]: remove the key from its leaf, fix the ancestors'
    copy of a removed first key, and rebalance.  An [InternalError]
    (absent key, or a failed bound check while rebalancing) is caught;
    the method returns [false] in every case. *)
Definition delete_entry (fuel : nat) (key : K) (value : Rid) : ixM bool :=
  let! lp := find_leaf_page fuel key in
  catchM (fun e => match e with IxErr InternalError => true | _ => false end)
    (let! leaf := fetch_node lp in
     let is_del_first := kcmp key (get_key leaf 0) =? 0 in
     let old_key := get_key leaf 0 in
     let! rm := lift (remove kcmp leaf key) in
     put_node lp rm.1 ;;
     (if is_del_first then
        let! leaf := fetch_node lp in
        maintain_parent fuel lp old_key (get_key leaf 0)
      else ret tt) ;;
     let! _ := coalesce_or_redistribute fuel lp in
     ret false)
    (ret false) ;;
  ret false.

(** ** Positions in the leaf level *)

(** [IxIndexHandle::lower_bound]/[upper_bound]: the leaf position of
    the first key [>=] (resp. [>]) [key]; past the end of a leaf that
    is not the last one, the start of the next leaf. *)
Definition leaf_position (slot_of : IxNode K -> K -> Z) (fuel : nat) (key : K) : ixM Iid :=
  let! lp := find_leaf_page fuel key in
  let! leaf := fetch_node lp in
  let target_slot := slot_of leaf key in
  let! h := get_hdr in
  if target_slot =? get_size leaf then
    if negb (lp =? last_leaf_ h) then ret (mkIid (next_leaf leaf) 0)
    else ret (mkIid lp (get_size leaf))
  else ret (mkIid lp target_slot).

Definition lower_bound_iid (fuel : nat) (key : K) : ixM Iid :=
  leaf_position (lower_bound kcmp) fuel key.
Definition upper_bound_iid (fuel : nat) (key : K) : ixM Iid :=
  leaf_position (upper_bound kcmp) fuel key.

(** [IxIndexHandle::binary_search]: the position of an equal key, or
    [{-1, -1}]. *)
Definition binary_search_iid (fuel : nat) (key : K) : ixM Iid :=
  let! lp := find_leaf_page fuel key in
  let! leaf := fetch_node lp in
  let target_slot := binary_search kcmp leaf key in
  if target_slot =? -1 then ret (mkIid (-1) (-1)) else ret (mkIid lp target_slot).

(** [leaf_end]: one past the last key of the last leaf. *)
Definition leaf_end : ixM Iid :=
  let! h := get_hdr in
  let! n := fetch_node (last_leaf_ h) in
  ret (mkIid (last_leaf_ h) (get_size n)).

(** [leaf_begin]: the first slot of the first leaf. *)
Definition leaf_begin : ixM Iid :=
  let! h := get_hdr in ret (mkIid (first_leaf_ h) 0).

(** [IxIndexHandle::get_rid]: the rid at a leaf position. *)
Definition get_rid_iid (iid : Iid) : ixM Rid :=
  let! n := fetch_node (iid_page_no iid) in
  if get_size n <=? iid_slot_no iid then throw IndexEntryNotFoundError
  else get_rid n (iid_slot_no iid).

(** ** [IxScan] *)

Record IxScan := mkIxScan { scan_iid_ : Iid; scan_end_ : Iid }.

Definition scan_is_end (sc : IxScan) : bool := bool_decide (scan_iid_ sc = scan_end_ sc).

(** [IxScan::next]: the next slot, moving to the next leaf at the end
    of a leaf that is not the last one. *)
Definition scan_next (sc : IxScan) : ixM IxScan :=
  assertM (negb (scan_is_end sc)) ;;
  let iid := scan_iid_ sc in
  let! n := fetch_node (iid_page_no iid) in
  assertM (is_leaf n) ;;
  assertM (iid_slot_no iid <? get_num_vals n) ;;
  let slot := iid_slot_no iid + 1 in
  let! h := get_hdr in
  if negb (iid_page_no iid =? last_leaf_ h) && (slot =? get_num_vals n) then
    ret (mkIxScan (mkIid (next_leaf n) 0) (scan_end_ sc))
  else ret (mkIxScan (mkIid (iid_page_no iid) slot) (scan_end_ sc)).

(** [IxScan::rid]. *)
Definition scan_rid (sc : IxScan) : ixM Rid :=
  let! n := fetch_node (iid_page_no (scan_iid_ sc)) in
  get_rid n (iid_slot_no (scan_iid_ sc)).

(** The rids a scan yields until [is_end], as the executors' loop
    [for (; !scan->is_end(); scan->next()) scan->rid()] collects them;
    [fuel] bounds the number of steps. *)
Fixpoint scan_all (fuel : nat) (sc : IxScan) : ixM (list Rid) :=
  if scan_is_end sc then ret [] else
  match fuel with
  | O => throw OutOfFuel
  | S fuel =>
      let! r := scan_rid sc in
      let! sc' := scan_next sc in
      let! rs := scan_all fuel sc' in
      ret (r :: rs)
  end.

(** ** The integer-key helpers of the compaction scan

    [key_int] reads the first column as a C++ [int] ([*(int * )key]);
    the source asserts that column is INT. *)
Section int_keys.
Context (key_int : K -> Z).

Definition first_ind_key : ixM Z :=
  let! h := get_hdr in
  let! n := fetch_node (first_leaf_ h) in
  if get_size n =? 0 then ret 1 else ret (key_int (get_key n 0)).

Definition last_ind_key : ixM Z :=
  let! h := get_hdr in
  let! n := fetch_node (last_leaf_ h) in
  if get_size n =? 0 then ret 0 else ret (key_int (get_key n (get_size n - 1))).

(** [find_ind_key_at]: [Some key] for [true] with [ret = key]. *)
Definition find_ind_key_at (iid : Iid) : ixM (option Z) :=
  if iid_page_no iid =? -1 then ret None else
  let! n := fetch_node (iid_page_no iid) in
  if get_size n <=? iid_slot_no iid then ret None
  else ret (Some (key_int (get_key n (iid_slot_no iid)))).

End int_keys.

End ops.

(** [IxManager::create_index] (outside [src/]): the file header page,
    the leaf header page (a sentinel linked to the root from both
    sides) and an empty root leaf. *)
Definition create_index {K} (btree_order : Z) : IxIndexHandle K :=
  mkIxIndexHandle
    (mkIxFileHdr IX_INIT_ROOT_PAGE IX_INIT_ROOT_PAGE IX_INIT_ROOT_PAGE 3 btree_order)
    (<[IX_INIT_ROOT_PAGE := mkIxNode true IX_NO_PAGE IX_LEAF_HEADER_PAGE IX_LEAF_HEADER_PAGE [] []]>
      (<[IX_LEAF_HEADER_PAGE := mkIxNode true IX_NO_PAGE IX_INIT_ROOT_PAGE IX_INIT_ROOT_PAGE [] []]> ∅))
    3.

(** ** The result of [delete_entry] *)

(** [delete_entry] returns [false] on every path that returns: after
    deleting the key, after the [InternalError] of an absent key, and
    after a failed rebalancing alike; its result never reports whether
    a key was deleted. *)
Theorem delete_entry_false {K} (kcmp : K -> K -> Z) zero_key fuel key value s b :
  fst (delete_entry kcmp zero_key fuel key value s) = Ok b -> b = false.
Proof.
  unfold delete_entry, bindM at 1.
  destruct (find_leaf_page kcmp fuel key s) as [[lp|e] s1]; [|done].
  unfold bindM at 1. destruct (catchM _ _ _ s1) as [[?|e] s2]; cbn; [by intros [=]|done].
Qed.

Lemma delete_entry_false_witness :
  fst (delete_entry int_cmp (int_key 0) 5 (int_key 1) (mkRid 1 0)
         (snd (insert_entry int_cmp (int_key 0) 5 (int_key 1) (mkRid 1 0) (create_index 3)))) = Ok false /\
  false = false.
Proof.
  split; [vm_compute; reflexivity|].
  exact (delete_entry_false int_cmp (int_key 0) 5 (int_key 1) (mkRid 1 0)
           (snd (insert_entry int_cmp (int_key 0) 5 (int_key 1) (mkRid 1 0) (create_index 3))) false
           ltac:(vm_compute; reflexivity)).
Defined.
