(* ===== verification/IxTreeInv.v ===== *)
(** * The B+tree invariant and the search refinement

    [subtree ns p lo hi h ents] says that page [p] of the store [ns]
    roots a B+tree of height [h] whose keys lie in [[lo, hi)] and whose
    leaves hold, left to right, the entries [ents]: every node is a
    sorted node of [IxNode.v], and child [i] of an internal node holds
    the keys between separators [i-1] and [i].  The abstract view of
    an index is the list [ents]; [abs_lookup] is the lookup in it.
    The theorems show the leaf level is sorted and that [get_value] and
    [find_leaf_page] implement the abstract lookup on every well-formed
    tree, with fuel above its height. *)

From Stdlib Require Import ZArith Lia.
From stdpp Require Import base list gmap.
From S2P Require Import Prelude Key IxNode IxTree.

Open Scope Z_scope.

Section inv.
Context {K : Type} (kvalid : K -> Prop) (kcmp : K -> K -> Z) `{!KeyOrder kvalid kcmp}.
Context (zero_key : K).

(** ** Sorted entry lists and the abstract lookup *)

Fixpoint ksorted (l : list (K * Rid)) : Prop :=
  match l with
  | [] => True
  | e :: l' => Forall (fun e' => kcmp e.1 e'.1 < 0) l' /\ ksorted l'
  end.

Definition ents_valid (l : list (K * Rid)) : Prop := Forall (fun e => kvalid e.1) l.

(** The entry of [k] in the abstract index. *)
Definition abs_lookup (l : list (K * Rid)) (k : K) : option Rid :=
  (fun ie => ie.2.2) <$> list_find (fun e => kcmp e.1 k = 0) l.

Lemma ksorted_app l1 l2 :
  ksorted (l1 ++ l2) <->
  ksorted l1 /\ ksorted l2 /\ Forall (fun x => Forall (fun y => kcmp x.1 y.1 < 0) l2) l1.
Proof.
  induction l1 as [|e l1 IH]; simpl; [naive_solver|].
  rewrite IH, Forall_app, Forall_cons. naive_solver.
Qed.

Lemma elem_of_join_lookup {A} (x : A) (cs : list (list A)) :
  x ∈ mjoin cs <-> exists i e, cs !! i = Some e /\ x ∈ e.
Proof.
  rewrite list_elem_of_join. split.
  - intros (e & Hx & (i & Hi)%list_elem_of_lookup). eauto.
  - intros (i & e & Hi & Hx). exists e. split; [done|]. by eapply list_elem_of_lookup_2.
Qed.

Lemma ksorted_join cs :
  (forall i e, cs !! i = Some e -> ksorted e) ->
  (forall i j ei ej x y, (i < j)%nat -> cs !! i = Some ei -> cs !! j = Some ej ->
     x ∈ ei -> y ∈ ej -> kcmp x.1 y.1 < 0) ->
  ksorted (mjoin cs).
Proof.
  induction cs as [|e cs IH]; intros Hs Ho; [done|]. cbn. apply ksorted_app. split_and!.
  - by apply (Hs 0%nat).
  - apply IH; [intros i; apply (Hs (S i))|].
    intros i j ei ej x y ?. apply (Ho (S i) (S j)). lia.
  - apply Forall_forall. intros x Hx. apply Forall_forall. intros y (j & ej & Hj & Hy)%elem_of_join_lookup.
    apply (Ho 0%nat (S j) e ej); [lia|done..].
Qed.

Lemma keys_sorted_ksorted ks (rs : list Rid) : keys_sorted kcmp ks -> ksorted (zip ks rs).
Proof.
  revert rs. induction ks as [|k ks IH]; intros [|r rs] Hs; cbn; [done..|]. split.
  - apply Forall_forall. intros [k' r'] Hin. apply elem_of_zip_l in Hin.
    apply list_elem_of_lookup in Hin as [j Hj]. exact (Hs 0%nat (S j) k k' ltac:(lia) eq_refl Hj).
  - apply IH. intros i j ki kj ?. apply (Hs (S i) (S j)). lia.
Qed.

Lemma Forall_zip_fst (P : K -> Prop) ks (rs : list Rid) :
  Forall P ks -> Forall (fun e => P e.1) (zip ks rs).
Proof.
  intros Hk. apply Forall_forall. intros [k r] Hin. apply elem_of_zip_l in Hin.
  by eapply Forall_forall.
Qed.

Lemma ksorted_unique l e1 e2 k :
  ksorted l -> ents_valid l -> kvalid k -> e1 ∈ l -> e2 ∈ l ->
  kcmp e1.1 k = 0 -> kcmp e2.1 k = 0 -> e1 = e2.
Proof.
  intros Hs Hv Hk. induction l as [|e l IH]; [by intros ?%elem_of_nil|].
  destruct Hs as [Hall Hs]. apply Forall_cons in Hv as [He Hv].
  assert (Hne : forall x, x ∈ l -> kcmp x.1 k = 0 -> kcmp e.1 k = 0 -> False).
  { intros x Hx E1 E2. pose proof (proj1 (Forall_forall _ _) Hall x Hx).
    assert (kvalid x.1) by exact (proj1 (Forall_forall _ _) Hv x Hx).
    pose proof (kcmp_eq_congr (kcmp:=kcmp) e.1 k x.1 He Hk ltac:(done) E2).
    pose proof (kcmp_antisym (kcmp:=kcmp) x.1 k ltac:(done) Hk). cbn beta in *. lia. }
  intros [->|H1]%elem_of_cons [->|H2]%elem_of_cons E1 E2;
    [done|by destruct (Hne e2)|by destruct (Hne e1)|by apply IH].
Qed.

Lemma abs_lookup_spec l k r :
  ksorted l -> ents_valid l -> kvalid k ->
  abs_lookup l k = Some r <-> exists kt, (kt, r) ∈ l /\ kcmp kt k = 0.
Proof.
  intros Hs Hv Hk. unfold abs_lookup. split.
  - intros ([i [kt r']] & Hf & E)%fmap_Some. cbn in E. subst r'.
    apply list_find_Some in Hf as (Hi & Hc & _). exists kt. split; [|done].
    by eapply list_elem_of_lookup_2.
  - intros (kt & Hin & Hc).
    destruct (list_find_elem_of (fun e => kcmp e.1 k = 0) l (kt, r) Hin Hc) as [[i e] Hf].
    rewrite Hf. pose proof Hf as (Hi & He & _)%list_find_Some.
    rewrite (ksorted_unique l e (kt, r) k) by (done || by eapply list_elem_of_lookup_2). done.
Qed.

(** ** Key ranges *)

Definition in_range (lo hi : option K) (k : K) : Prop :=
  match lo with Some l => kcmp l k <= 0 | None => True end /\
  match hi with Some h => kcmp k h < 0 | None => True end.

(** The separators around child [i] of an internal node. *)
Definition child_lo (lo : option K) (n : IxNode K) (i : nat) : option K :=
  match i with O => lo | S j => from_option Some lo (keys n !! j) end.
Definition child_hi (hi : option K) (n : IxNode K) (i : nat) : option K :=
  from_option Some hi (keys n !! i).

(** ** The tree invariant *)

Inductive subtree (ns : gmap Z (IxNode K)) : Z -> option K -> option K -> nat -> list (K * Rid) -> Prop :=
| subtree_leaf p n lo hi :
    ns !! p = Some n -> is_leaf n = true -> node_ok kvalid kcmp n ->
    Forall (in_range lo hi) (keys n) ->
    subtree ns p lo hi O (zip (keys n) (rids n))
| subtree_inner p n lo hi h (cs : list (list (K * Rid))) :
    ns !! p = Some n -> is_leaf n = false -> node_ok kvalid kcmp n ->
    Forall (in_range lo hi) (keys n) ->
    length cs = length (rids n) ->
    (forall i r e, rids n !! i = Some r -> cs !! i = Some e ->
       subtree ns (page_no r) (child_lo lo n i) (child_hi hi n i) h e) ->
    subtree ns p lo hi (S h) (mjoin cs).

(** A well-formed index of height [h] whose leaves hold [ents]. *)
Definition tree_ok (s : IxIndexHandle K) (h : nat) (ents : list (K * Rid)) : Prop :=
  subtree (nodes_ s) (root_page_ (file_hdr_ s)) None None h ents.

(** ** Children's ranges are ordered and nested *)

Definition bvalid (b : option K) : Prop := from_option kvalid True b.

Lemma key_valid_lookup n i k : node_ok kvalid kcmp n -> keys n !! i = Some k -> kvalid k.
Proof. intros (_ & Hv & _) Hk. by eapply Forall_lookup_1. Qed.

Lemma keys_sorted_lookup_le n i j ki kj :
  node_ok kvalid kcmp n -> (i <= j)%nat -> keys n !! i = Some ki -> keys n !! j = Some kj ->
  kcmp ki kj <= 0.
Proof.
  intros Hn Hij Hi Hj. destruct (decide (i = j)) as [<-|].
  - simplify_eq. rewrite (kcmp_refl kvalid kcmp ki) by eauto using key_valid_lookup. lia.
  - destruct Hn as (Hs & _). pose proof (Hs i j ki kj ltac:(lia) Hi Hj). lia.
Qed.

Lemma child_lo_valid lo n i : node_ok kvalid kcmp n -> bvalid lo -> bvalid (child_lo lo n i).
Proof.
  intros Hn Hlo. destruct i as [|j]; [done|]. unfold child_lo.
  destruct (keys n !! j) eqn:E; [cbn; eauto using key_valid_lookup|done].
Qed.

Lemma child_hi_valid hi n i : node_ok kvalid kcmp n -> bvalid hi -> bvalid (child_hi hi n i).
Proof.
  intros Hn Hhi. unfold child_hi.
  destruct (keys n !! i) eqn:E; [cbn; eauto using key_valid_lookup|done].
Qed.

Lemma child_ranges_ordered lo hi n i j x y :
  node_ok kvalid kcmp n -> (i < j)%nat -> (j <= length (keys n))%nat -> kvalid x -> kvalid y ->
  in_range (child_lo lo n i) (child_hi hi n i) x ->
  in_range (child_lo lo n j) (child_hi hi n j) y -> kcmp x y < 0.
Proof.
  intros Hn Hij Hj Hx Hy [_ Hxi] [Hyj _].
  destruct (lookup_lt_is_Some_2 (keys n) i ltac:(lia)) as [ki Hki].
  destruct j as [|j]; [lia|].
  destruct (lookup_lt_is_Some_2 (keys n) j ltac:(lia)) as [kj Hkj].
  unfold child_hi, child_lo in *. rewrite Hki in Hxi. rewrite Hkj in Hyj. cbn in Hxi, Hyj.
  pose proof (keys_sorted_lookup_le n i j ki kj Hn ltac:(lia) Hki Hkj).
  assert (kvalid ki) by eauto using key_valid_lookup.
  assert (kvalid kj) by eauto using key_valid_lookup.
  apply (kcmp_lt_le_trans kvalid kcmp x ki y); try done.
  by apply (kcmp_le_trans (kcmp:=kcmp) ki kj y).
Qed.

Lemma child_range_nested lo hi n i x :
  node_ok kvalid kcmp n -> Forall (in_range lo hi) (keys n) -> bvalid lo -> bvalid hi -> kvalid x ->
  in_range (child_lo lo n i) (child_hi hi n i) x -> in_range lo hi x.
Proof.
  intros Hn Hr Hlo Hhi Hx [Hl Hh]. split.
  - destruct i as [|j]; [done|]. unfold child_lo in Hl.
    destruct (keys n !! j) as [kj|] eqn:Hkj; [|done]. cbn in Hl.
    pose proof (Forall_lookup_1 _ _ _ _ Hr Hkj) as [Hlo' _].
    destruct lo as [l|]; [|done]. cbn in Hlo.
    by apply (kcmp_le_trans (kcmp:=kcmp) l kj x); eauto using key_valid_lookup.
  - unfold child_hi in Hh. destruct (keys n !! i) as [ki|] eqn:Hki; [|done]. cbn in Hh.
    pose proof (Forall_lookup_1 _ _ _ _ Hr Hki) as [_ Hhi'].
    destruct hi as [h|]; [|done]. cbn in Hhi.
    by apply (kcmp_trans_lt (kcmp:=kcmp) x ki h); eauto using key_valid_lookup.
Qed.

(** ** The leaf level of a well-formed tree *)

(** The entries of a well-formed subtree are sorted by key, have
    well-formed keys, and lie in the subtree's key range. *)
Theorem subtree_ents ns p lo hi h ents :
  subtree ns p lo hi h ents -> bvalid lo -> bvalid hi ->
  ksorted ents /\ ents_valid ents /\ Forall (fun e => in_range lo hi e.1) ents.
Proof.
  induction 1 as [p n lo hi Hp Hl Hn Hr|p n lo hi h cs Hp Hl Hn Hr Hlen Hc IH]; intros Hlo Hhi.
  - destruct Hn as (Hs & Hv & _). split_and!; [by apply keys_sorted_ksorted|by apply Forall_zip_fst..].
  - assert (Hch : forall i e, cs !! i = Some e ->
      ksorted e /\ ents_valid e /\ Forall (fun e => in_range (child_lo lo n i) (child_hi hi n i) e.1) e).
    { intros i e He. destruct (lookup_lt_is_Some_2 (rids n) i) as [r Hri].
      { rewrite <- Hlen. by eapply lookup_lt_Some. }
      apply (IH i r e Hri He); [by apply child_lo_valid|by apply child_hi_valid]. }
    assert (Hk : length (rids n) = S (length (keys n))) by (destruct Hn as (_ & _ & E); by rewrite Hl in E).
    split_and!.
    + apply ksorted_join; [intros i e He; apply (Hch i e He)|].
      intros i j ei ej x y Hij Hi Hj Hx Hy.
      destruct (Hch i ei Hi) as (_ & Hvi & Hri), (Hch j ej Hj) as (_ & Hvj & Hrj).
      pose proof (lookup_lt_Some _ _ _ Hj).
      apply (child_ranges_ordered lo hi n i j); [done|done|lia|..].
      * exact (proj1 (Forall_forall _ _) Hvi x Hx).
      * exact (proj1 (Forall_forall _ _) Hvj y Hy).
      * exact (proj1 (Forall_forall _ _) Hri x Hx).
      * exact (proj1 (Forall_forall _ _) Hrj y Hy).
    + apply Forall_forall. intros x (i & e & He & Hx)%elem_of_join_lookup.
      destruct (Hch i e He) as (_ & Hv & _). exact (proj1 (Forall_forall _ _) Hv x Hx).
    + apply Forall_forall. intros x (i & e & He & Hx)%elem_of_join_lookup.
      destruct (Hch i e He) as (_ & Hv & Hrg).
      apply (child_range_nested lo hi n i); [done..| |].
      * exact (proj1 (Forall_forall _ _) Hv x Hx).
      * exact (proj1 (Forall_forall _ _) Hrg x Hx).
Qed.

(** ** Search *)

Lemma elem_of_zip_lookup (ks : list K) (rs : list Rid) kt r :
  (kt, r) ∈ zip ks rs <-> exists i, ks !! i = Some kt /\ rs !! i = Some r.
Proof.
  rewrite list_elem_of_lookup. unfold zip. setoid_rewrite lookup_zip_with_Some. naive_solver.
Qed.

Lemma leaf_lookup_abs n k :
  node_ok kvalid kcmp n -> kvalid k ->
  leaf_lookup kcmp n k = abs_lookup (zip (keys n) (rids n)) k.
Proof.
  intros Hn Hk. apply option_eq_iff. intros r.
  rewrite (leaf_lookup_spec kvalid kcmp n k r Hn Hk).
  pose proof Hn as (Hs & Hv & _).
  rewrite (abs_lookup_spec (zip (keys n) (rids n)) k r); [|by apply keys_sorted_ksorted|by apply Forall_zip_fst|done].
  setoid_rewrite elem_of_zip_lookup. naive_solver.
Qed.

Lemma upper_bound_child_range lo hi n k :
  node_ok kvalid kcmp n -> kvalid k -> in_range lo hi k ->
  in_range (child_lo lo n (Z.to_nat (upper_bound kcmp n k)))
           (child_hi hi n (Z.to_nat (upper_bound kcmp n k))) k.
Proof.
  intros Hn Hk [Hlo Hhi]. destruct (upper_bound_char kvalid kcmp n k Hn Hk) as (Hb & Hbef & Hend).
  set (c := upper_bound kcmp n k) in *. unfold get_size in Hb. split.
  - unfold child_lo. destruct (Z.to_nat c) as [|j] eqn:Ec; [done|].
    destruct (lookup_lt_is_Some_2 (keys n) j ltac:(lia)) as [kj Hkj]. rewrite Hkj. cbn.
    specialize (Hbef (Z.of_nat j) ltac:(lia)). unfold key_le in Hbef.
    rewrite key_at_nat, Hkj in Hbef. by apply Z.leb_le.
  - unfold child_hi. destruct (decide (Z.to_nat c < length (keys n))%nat) as [Hlt|Hge].
    + destruct (key_at_some n c ltac:(unfold get_size; lia)) as [kc Hkc]. pose proof Hkc as Hkc'.
      unfold key_at in Hkc'. rewrite Hkc'. cbn.
      destruct Hend as [Hc|Hc]; [unfold get_size in Hc; lia|].
      unfold key_le in Hc. rewrite Hkc in Hc.
      apply Z.leb_gt in Hc. pose proof (kcmp_flip kvalid kcmp k kc Hk (key_at_valid kvalid kcmp n c kc Hn Hkc)). lia.
    + rewrite (lookup_ge_None_2 (keys n)) by lia. done.
Qed.

(** Only the child whose range holds [k] can hold entries equal to [k]. *)
Lemma abs_lookup_child ns p lo hi h n cs c e k :
  ns !! p = Some n -> is_leaf n = false -> node_ok kvalid kcmp n ->
  Forall (in_range lo hi) (keys n) -> length cs = length (rids n) ->
  (forall i r e, rids n !! i = Some r -> cs !! i = Some e ->
     subtree ns (page_no r) (child_lo lo n i) (child_hi hi n i) h e) ->
  bvalid lo -> bvalid hi -> kvalid k ->
  cs !! c = Some e -> in_range (child_lo lo n c) (child_hi hi n c) k ->
  abs_lookup (mjoin cs) k = abs_lookup e k.
Proof.
  intros Hp Hl Hn Hr Hlen Hc Hlo Hhi Hk He Hkr.
  assert (Hall : subtree ns p lo hi (S h) (mjoin cs)) by (econstructor; eauto).
  destruct (subtree_ents _ _ _ _ _ _ Hall Hlo Hhi) as (Hs & Hv & _).
  assert (Hch : forall i e, cs !! i = Some e ->
      ksorted e /\ ents_valid e /\ Forall (fun e => in_range (child_lo lo n i) (child_hi hi n i) e.1) e).
  { intros i e' He'. destruct (lookup_lt_is_Some_2 (rids n) i) as [r Hri].
    { rewrite <- Hlen. by eapply lookup_lt_Some. }
    apply (subtree_ents _ _ _ _ _ _ (Hc i r e' Hri He')); [by apply child_lo_valid|by apply child_hi_valid]. }
  assert (Hk' : length (rids n) = S (length (keys n))) by (destruct Hn as (_ & _ & E); by rewrite Hl in E).
  destruct (Hch c e He) as (Hse & Hve & _).
  apply option_eq_iff. intros r. rewrite !abs_lookup_spec by done. split.
  - intros (kt & (j & ej & Hj & Hin)%elem_of_join_lookup & Hkt). exists kt. split; [|done].
    destruct (Hch j ej Hj) as (_ & Hvj & Hrj).
    pose proof (proj1 (Forall_forall _ _) Hvj _ Hin) as Hvkt.
    pose proof (proj1 (Forall_forall _ _) Hrj _ Hin) as Hrkt. cbn in Hvkt, Hrkt.
    pose proof (lookup_lt_Some _ _ _ Hj). pose proof (lookup_lt_Some _ _ _ He).
    destruct (lt_eq_lt_dec j c) as [[Hjc| ->]|Hcj].
    + pose proof (child_ranges_ordered lo hi n j c kt k Hn Hjc ltac:(lia) Hvkt Hk Hrkt Hkr). lia.
    + by simplify_eq.
    + pose proof (child_ranges_ordered lo hi n c j k kt Hn Hcj ltac:(lia) Hk Hvkt Hkr Hrkt).
      rewrite (kcmp_flip kvalid kcmp k kt) in Hkt by done. lia.
  - intros (kt & Hin & Hkt). exists kt. split; [|done]. apply elem_of_join_lookup. eauto.
Qed.

(** [find_leaf_page] descends to a leaf whose lookup of [k] is the
    abstract lookup of the whole subtree. *)
Lemma find_leaf_loop_spec s p lo hi h ents fuel k :
  subtree (nodes_ s) p lo hi h ents -> bvalid lo -> bvalid hi -> (h <= fuel)%nat ->
  kvalid k -> in_range lo hi k ->
  exists q n, find_leaf_loop kcmp fuel p k s = (Ok q, s) /\ nodes_ s !! q = Some n /\
    is_leaf n = true /\ node_ok kvalid kcmp n /\ leaf_lookup kcmp n k = abs_lookup ents k.
Proof.
  remember (nodes_ s) as ns eqn:Hns. intros Hst. revert fuel.
  induction Hst as [p n lo hi Hp Hl Hn Hr|p n lo hi h cs Hp Hl Hn Hr Hlen Hc IH];
    intros fuel Hlo Hhi Hf Hk Hkr.
  - exists p, n. split_and!; [|done|done|done|by apply leaf_lookup_abs].
    destruct fuel; cbn [find_leaf_loop]; unfold bindM, fetch_node; rewrite <- Hns, Hp; cbn; by rewrite Hl.
  - destruct fuel as [|fuel]; [lia|]. cbn [find_leaf_loop]. unfold bindM at 1, fetch_node.
    rewrite <- Hns, Hp. cbn beta iota. rewrite Hl.
    rewrite (internal_lookup_child kvalid kcmp n k Hn Hk).
    destruct (upper_bound_char kvalid kcmp n k Hn Hk) as (Hb & _ & _).
    set (c := upper_bound kcmp n k) in *. unfold get_size in Hb.
    assert (Hk' : length (rids n) = S (length (keys n))) by (destruct Hn as (_ & _ & E); by rewrite Hl in E).
    destruct (lookup_lt_is_Some_2 (rids n) (Z.to_nat c) ltac:(lia)) as [r Hri].
    destruct (lookup_lt_is_Some_2 cs (Z.to_nat c) ltac:(lia)) as [e He].
    unfold rid_at. rewrite Hri. cbn [fmap option_fmap option_map default].
    pose proof (upper_bound_child_range lo hi n k Hn Hk Hkr) as Hckr.
    destruct (IH _ r e Hri He fuel) as (q & n' & Hq & Hn' & Hl' & Hok' & Hlk);
      [by apply child_lo_valid|by apply child_hi_valid|lia|done|done|].
    exists q, n'. split_and!; [done..|]. rewrite Hlk. symmetry.
    apply (abs_lookup_child ns p lo hi h n cs (Z.to_nat c) e k); auto.
Qed.

(** C31: on a well-formed index of height [h], with fuel of at least
    [h], [get_value] leaves the index unchanged and returns the rid of
    the abstract entry whose key equals [k], if any: the B+tree search
    implements the lookup in the sorted list of its leaf entries. *)
Theorem get_value_spec s h ents fuel k :
  tree_ok s h ents -> (h <= fuel)%nat -> kvalid k ->
  get_value kcmp fuel k s = (Ok (abs_lookup ents k), s).
Proof.
  intros Ht Hf Hk. unfold get_value, find_leaf_page, get_hdr, bindM.
  destruct (find_leaf_loop_spec s _ None None h ents fuel k Ht) as (q & n & -> & Hq & _ & _ & Hlk);
    [done..|].
  unfold fetch_node. rewrite Hq. cbn. by rewrite Hlk.
Qed.

(** [is_key_exists] answers the abstract membership of [k]. *)
Lemma is_key_exists_spec s h ents fuel k :
  tree_ok s h ents -> (h <= fuel)%nat -> kvalid k ->
  is_key_exists kcmp fuel k s = (Ok (bool_decide (is_Some (abs_lookup ents k))), s).
Proof.
  intros Ht Hf Hk. unfold is_key_exists, find_leaf_page, get_hdr, bindM.
  destruct (find_leaf_loop_spec s _ None None h ents fuel k Ht) as (q & n & -> & Hq & _ & _ & Hlk);
    [done..|].
  unfold fetch_node. rewrite Hq. cbn. by rewrite Hlk.
Qed.

(** [binary_search] returns the page [-1] exactly when [k] is not in
    the index (no node lives at page [-1]). *)
Lemma binary_search_iid_spec s h ents fuel k :
  tree_ok s h ents -> (h <= fuel)%nat -> kvalid k -> nodes_ s !! (-1) = None ->
  exists iid, binary_search_iid kcmp fuel k s = (Ok iid, s) /\
    (iid_page_no iid = -1 <-> abs_lookup ents k = None).
Proof.
  intros Ht Hf Hk Hm. unfold binary_search_iid, find_leaf_page, get_hdr, bindM.
  destruct (find_leaf_loop_spec s _ None None h ents fuel k Ht) as (q & n & -> & Hq & Hl & Hn & Hlk);
    [done..|].
  unfold fetch_node. rewrite Hq. cbn.
  pose proof (binary_search_lookup kvalid kcmp n k Hn Hl Hk) as Hb. rewrite Hlk in Hb.
  destruct (Z.eqb_spec (binary_search kcmp n k) (-1)) as [E|E]; cbn; eexists; (split; [done|]); cbn.
  - by rewrite <- Hb.
  - rewrite <- Hb. split; [intros ->; congruence|done].
Qed.

(** ** A decision procedure for the invariant *)

Section checker.
Context (kvalid_b : K -> bool) (kvalid_b_sound : forall k, kvalid_b k = true -> kvalid k).

Definition in_range_b (lo hi : option K) (k : K) : bool :=
  match lo with Some l => kcmp l k <=? 0 | None => true end &&
  match hi with Some h => kcmp k h <? 0 | None => true end.

Definition node_ok_b (n : IxNode K) : bool :=
  sorted_b kcmp (keys n) && forallb kvalid_b (keys n) &&
  (length (rids n) =? (if is_leaf n then length (keys n) else S (length (keys n))))%nat.

Fixpoint check_children (f : nat -> Rid -> option (nat * list (K * Rid))) (i : nat) (rs : list Rid)
  : option (list (nat * list (K * Rid))) :=
  match rs with
  | [] => Some []
  | r :: rs' => x ← f i r; xs ← check_children f (S i) rs'; Some (x :: xs)
  end.

(** The height and entries of the subtree at [p], if it is well formed. *)
Fixpoint check_subtree (fuel : nat) (ns : gmap Z (IxNode K)) (p : Z) (lo hi : option K)
  : option (nat * list (K * Rid)) :=
  match fuel with
  | O => None
  | S f =>
      match ns !! p with
      | None => None
      | Some n =>
          if node_ok_b n && forallb (in_range_b lo hi) (keys n) then
            if is_leaf n then Some (O, zip (keys n) (rids n)) else
            match check_children (fun i r => check_subtree f ns (page_no r) (child_lo lo n i) (child_hi hi n i))
                    0 (rids n) with
            | Some ((h, e) :: xs) =>
                if forallb (fun x => Nat.eqb x.1 h) xs then Some (S h, mjoin (e :: (snd <$> xs))) else None
            | _ => None
            end
          else None
      end
  end.

Lemma check_children_spec f i rs xs :
  check_children f i rs = Some xs ->
  length xs = length rs /\ forall j r x, rs !! j = Some r -> xs !! j = Some x -> f (i + j)%nat r = Some x.
Proof.
  revert i xs. induction rs as [|r rs IH]; intros i xs; cbn.
  - intros [= <-]. split; [done|]. by intros ? ? ?.
  - destruct (f i r) as [x|] eqn:Ef; [|done]. cbn.
    destruct (check_children f (S i) rs) as [xs'|] eqn:E; [|done]. intros [= <-].
    destruct (IH (S i) xs' E) as [Hl Hf]. split; [cbn; lia|].
    intros [|j] r' x' Hr Hx; cbn in Hr, Hx; simplify_eq; [by rewrite Nat.add_0_r|].
    rewrite Nat.add_succ_r. by apply Hf.
Qed.

Lemma node_ok_b_sound n : node_ok_b n = true -> node_ok kvalid kcmp n.
Proof.
  unfold node_ok_b. intros [[Hs Hv]%andb_prop Hl]%andb_prop. split_and!.
  - by apply sorted_b_sound.
  - apply Forall_forall. intros k Hk. apply kvalid_b_sound. by eapply forallb_forall; [|apply list_elem_of_In].
  - by apply Nat.eqb_eq.
Qed.

Lemma check_subtree_sound fuel ns p lo hi h ents :
  check_subtree fuel ns p lo hi = Some (h, ents) -> subtree ns p lo hi h ents.
Proof.
  revert p lo hi h ents. induction fuel as [|fuel IH]; intros p lo hi h ents; cbn; [done|].
  destruct (ns !! p) as [n|] eqn:Hp; [|done].
  destruct (node_ok_b n && _) eqn:Hok; [|done]. apply andb_prop in Hok as [Hn Hr].
  apply node_ok_b_sound in Hn.
  assert (Hr' : Forall (in_range lo hi) (keys n)).
  { apply Forall_forall. intros k Hk. eapply forallb_forall in Hr; [|by apply list_elem_of_In].
    unfold in_range_b in Hr. apply andb_prop in Hr as [H1 H2]. split.
    - destruct lo; [by apply Z.leb_le|done].
    - destruct hi; [by apply Z.ltb_lt|done]. }
  destruct (is_leaf n) eqn:Hl.
  { intros [= <- <-]. by constructor. }
  destruct (check_children _ 0 (rids n)) as [[|[h' e] xs]|] eqn:Hc; [done| |done].
  destruct (forallb _ xs) eqn:Hall; [|done]. intros [= <- <-].
  destruct (check_children_spec _ _ _ _ Hc) as [Hlen Hf].
  replace (e ++ mjoin (snd <$> xs)) with (mjoin (snd <$> ((h', e) :: xs))) by done.
  econstructor; [done..| |].
  - by rewrite length_fmap.
  - intros i r e' Hri He'. apply list_lookup_fmap_Some in He' as ([h'' e''] & -> & Hx).
    specialize (Hf i r _ Hri Hx). cbn in Hf. apply IH. cbn.
    assert (h'' = h') as ->; [|done].
    destruct i as [|i]; cbn in Hx; [by simplify_eq|].
    eapply forallb_forall in Hall; [|apply list_elem_of_In; by eapply list_elem_of_lookup_2].
    by apply Nat.eqb_eq in Hall.
Qed.

End checker.

End inv.

(** ** A concrete index *)

Definition int_key_ok_b (k : list Byte.byte) : bool := (4 <=? length k)%nat.

Lemma int_key_ok_b_sound k : int_key_ok_b k = true -> key_ok int_sch k.
Proof.
  unfold int_key_ok_b. intros Hk%Nat.leb_le. split; [|done].
  split; [done|]. split; [done|discriminate].
Qed.

(** The index of order 3 after inserting the keys 5 3 8 1 9 2 7 4 6 10
    11 12 (rid [(z, 0)] for key [z]) into a new index file. *)
Definition demo_index : IxIndexHandle (list Byte.byte) :=
  foldl (fun s z => snd (insert_entry int_cmp (int_key 0) 10 (int_key z) (mkRid z 0) s))
    (create_index 3) [5; 3; 8; 1; 9; 2; 7; 4; 6; 10; 11; 12].

Definition demo_ents : list (list Byte.byte * Rid) :=
  (fun z => (int_key z, mkRid z 0)) <$> seqZ 1 12.

Lemma demo_index_ok : tree_ok (key_ok int_sch) int_cmp demo_index 2 demo_ents.
Proof.
  apply (check_subtree_sound _ _ int_key_ok_b int_key_ok_b_sound 10).
  vm_compute. reflexivity.
Qed.

Lemma get_value_spec_witness :
  get_value int_cmp 10 (int_key 7) demo_index = (Ok (Some (mkRid 7 0)), demo_index) /\
  get_value int_cmp 10 (int_key 7) demo_index =
    (Ok (abs_lookup int_cmp demo_ents (int_key 7)), demo_index).
Proof.
  split; [vm_compute; reflexivity|].
  exact (get_value_spec (key_ok int_sch) int_cmp demo_index 2 demo_ents 10 (int_key 7)
           demo_index_ok ltac:(lia) (int_key_ok 7)).
Defined.

Fixpoint run_ops (ops : list (bool * Z)) (s : IxIndexHandle (list Byte.byte)) : IxIndexHandle (list Byte.byte) :=
  match ops with
  | [] => s
  | (true, z) :: ops' => run_ops ops' (snd (insert_entry int_cmp (int_key 0) 20 (int_key z) (mkRid z 0) s))
  | (false, z) :: ops' => run_ops ops' (snd (delete_entry int_cmp (int_key 0) 20 (int_key z) (mkRid z 0) s))
  end.

(** a run of the index of order 3 through insertions of the keys 1
    to 30, which split leaves and internal nodes and grow a new root
    three times, and deletions of 16 keys from both ends and the middle,
    which redistribute, coalesce and shrink the root: every call
    succeeds, the final tree satisfies the invariant with exactly the
    remaining keys as its leaf entries, and [get_value] finds exactly
    those keys. *)
Example insert_delete_run :
  let ops := ((fun z => (true, z)) <$> seqZ 1 30) ++
             ((fun z => (false, z)) <$> [1; 2; 3; 30; 29; 28; 15; 14; 16; 13; 17; 12; 18; 4; 5; 27]) in
  let s := run_ops ops (create_index 3) in
  let left := [6; 7; 8; 9; 10; 11; 19; 20; 21; 22; 23; 24; 25; 26] in
  (exists h, tree_ok (key_ok int_sch) int_cmp s h ((fun z => (int_key z, mkRid z 0)) <$> left)) /\
  Forall (fun z => fst (get_value int_cmp 20 (int_key z) s) =
                   Ok (if bool_decide (z ∈ left) then Some (mkRid z 0) else None)) (seqZ 0 32).
Proof.
  cbv zeta. split.
  - exists 2%nat. apply (check_subtree_sound _ _ int_key_ok_b int_key_ok_b_sound 10).
    vm_compute. reflexivity.
  - apply Forall_forall. intros z Hz. apply list_elem_of_In in Hz.
    vm_compute in Hz. repeat (destruct Hz as [<-|Hz]; [vm_compute; reflexivity|]). done.
Qed.
