(* ===== verification/Heap.v ===== *)
(** * The record heap file: [record/rm_file_handle.cpp] and [record/rm_scan.cpp]

    A table's heap file is its header, its record pages (each a count,
    an occupancy bitmap and a slot array of fixed-size records) and the
    process-level hint set [free_pageno_set] of pages with a free slot.
    Pages are read through the buffer pool, which is abstracted away:
    a page never written reads as zeros.  A transactional call carries
    its [Context]: the lock manager of [Lock.v], the transaction, its
    write set and the log manager of [Log.v]; each method takes its
    record locks, appends its undo entry and writes its log record
    there, in the source's order, so an abort in a lock call leaves
    the partial update the source leaves.  [RmPageHandle], [Bitmap],
    [RmFileHdr], [WriteRecord] and [Context] are defined outside
    [src/] and modelled from the spec. *)

From Stdlib Require Import ZArith Lia.
From stdpp Require Import base list gmap sets.
From S2P Require Import Prelude Log Lock.

Open Scope Z_scope.
Open Scope rmdb_scope.

(** [INVALID_PAGE_ID] (of [config.h]). *)
Definition RM_INVALID_PAGE_ID : Z := -1.

(** [RmFileHdr]. *)
Record RmFileHdr := mkRmFileHdr {
  record_size : nat;
  num_pages : Z;
  num_records_per_page : Z
}.

Definition set_num_pages (h : RmFileHdr) (n : Z) : RmFileHdr :=
  mkRmFileHdr (record_size h) n (num_records_per_page h).

(** A record page: [RmPageHdr::num_records], the bitmap as the set of
    occupied slots, and the slots' bytes. *)
Record RmPage := mkRmPage {
  num_records : Z;
  bitmap : gset Z;
  slots : gmap Z bytes
}.

Definition zero_page : RmPage := mkRmPage 0 ∅ ∅.

(** [enum WType] and [class WriteRecord]: the undo entry of one write. *)
Inductive WType := INSERT_TUPLE | DELETE_TUPLE | UPDATE_TUPLE.

#[export] Instance WType_eq_dec : EqDecision WType.
Proof. solve_decision. Defined.

Record WriteRecord := mkWriteRecord {
  wr_type : WType;
  wr_tab_name : bytes;
  wr_rid : Rid;
  wr_record : bytes
}.

(** [Context]: the lock manager, the transaction with its write set,
    and the log manager. *)
Record TxnCtx := mkTxnCtx {
  lock_mgr_ : LockManager;
  txn_ : Transaction;
  write_set_ : list WriteRecord;
  log_mgr_ : LogManager
}.

Inductive HeapErr :=
| PageNotExistError (page_no : Z)
| TransactionAbort (r : AbortReason)
| HeapAssertFailed.

(** [RmFileHandle]: the file, its header, the pages and the hint set;
    [rm_next_page_] is the disk manager's next page number for the
    file. *)
Record RmFileHandle := mkRmFileHandle {
  rm_fd_ : Z;
  rm_file_name_ : bytes;
  rm_file_hdr_ : RmFileHdr;
  rm_pages_ : gmap Z RmPage;
  free_pageno_set : gset Z;
  rm_next_page_ : Z
}.

(** The state of a heap call: the file and the caller's context, if any. *)
Record HeapSt := mkHeapSt { hfile : RmFileHandle; hctx : option TxnCtx }.

Definition heapM (A : Type) := stM HeapSt HeapErr A.

Definition set_file (f : RmFileHandle) : heapM unit := modify (fun s => mkHeapSt f (hctx s)).
Definition set_ctx (c : TxnCtx) : heapM unit := modify (fun s => mkHeapSt (hfile s) (Some c)).

Definition with_pages (f : RmFileHandle) (ps : gmap Z RmPage) : RmFileHandle :=
  mkRmFileHandle (rm_fd_ f) (rm_file_name_ f) (rm_file_hdr_ f) ps (free_pageno_set f) (rm_next_page_ f).
Definition with_free (f : RmFileHandle) (fs : gset Z) : RmFileHandle :=
  mkRmFileHandle (rm_fd_ f) (rm_file_name_ f) (rm_file_hdr_ f) (rm_pages_ f) fs (rm_next_page_ f).

(** ** [Bitmap] *)

(** [Bitmap::first_bit(false, bm, max_n)]: the first free slot, or [max_n]. *)
Definition first_free_slot (bm : gset Z) (max_n : Z) : Z :=
  match list_find (fun i => i ∉ bm) (seqZ 0 max_n) with
  | Some (_, i) => i
  | None => max_n
  end.

(** [Bitmap::next_bit(true, bm, max_n, curr)]: the first occupied slot
    after [curr], or [max_n]. *)
Definition next_used_slot (bm : gset Z) (max_n curr : Z) : Z :=
  match list_find (fun i => i ∈ bm) (seqZ (curr + 1) (max_n - (curr + 1))) with
  | Some (_, i) => i
  | None => max_n
  end.

(** ** Page handles *)

Definition page_of (f : RmFileHandle) (p : Z) : RmPage := default zero_page (rm_pages_ f !! p).

(** [get_slot]: the record bytes of slot [i]. *)
Definition get_slot (f : RmFileHandle) (pg : RmPage) (i : Z) : bytes :=
  default (replicate (record_size (rm_file_hdr_ f)) Byte.x00) (slots pg !! i).

(** [fetch_page_handle]: [PageNotExistError] for [INVALID_PAGE_ID]. *)
Definition fetch_page_handle (p : Z) : heapM RmPage := fun s =>
  if p =? RM_INVALID_PAGE_ID then (Err (PageNotExistError p), s)
  else (Ok (page_of (hfile s) p), s).

Definition put_page (p : Z) (pg : RmPage) : heapM unit := fun s =>
  (Ok tt, mkHeapSt (with_pages (hfile s) (<[p := pg]> (rm_pages_ (hfile s)))) (hctx s)).

Definition modify_free (g : gset Z -> gset Z) : heapM unit := fun s =>
  (Ok tt, mkHeapSt (with_free (hfile s) (g (free_pageno_set (hfile s)))) (hctx s)).

(** [create_new_page_handle]: a new zeroed page of the file, counted
    in the header. *)
Definition create_new_page_handle : heapM Z := fun s =>
  let f := hfile s in
  let p := rm_next_page_ f in
  (Ok p, mkHeapSt
           (mkRmFileHandle (rm_fd_ f) (rm_file_name_ f)
              (set_num_pages (rm_file_hdr_ f) (num_pages (rm_file_hdr_ f) + 1))
              (<[p := zero_page]> (rm_pages_ f)) (free_pageno_set f) (p + 1))
           (hctx s)).

(** [std::set::begin]: the least page of the hint set. *)
Definition set_min (fs : gset Z) : option Z :=
  set_fold (fun x acc => match acc with Some y => Some (Z.min x y) | None => Some x end) None fs.

(** [create_page_handle]: the least page of the hint set, else a new
    page, which joins the hint set. *)
Definition create_page_handle : heapM Z :=
  let! f := gets hfile in
  match set_min (free_pageno_set f) with
  | None =>
      let! p := create_new_page_handle in
      modify_free (fun fs => {[p]} ∪ fs) ;;
      ret p
  | Some p =>
      let! _ := fetch_page_handle p in ret p
  end.

(** ** The transaction context *)

Definition with_ctx (f : TxnCtx -> res AbortReason TxnCtx) : heapM unit := fun s =>
  match hctx s with
  | None => (Ok tt, s)
  | Some c =>
      match f c with
      | Ok c' => (Ok tt, mkHeapSt (hfile s) (Some c'))
      | Err r => (Err (TransactionAbort r), s)
      end
  end.

Definition lock_in_ctx (lk : LockManager -> Transaction -> res AbortReason (LockManager * Transaction))
    (c : TxnCtx) : res AbortReason TxnCtx :=
  match lk (lock_mgr_ c) (txn_ c) with
  | Ok (lm, t) => Ok (mkTxnCtx lm t (write_set_ c) (log_mgr_ c))
  | Err r => Err r
  end.

Definition append_write_record (w : WriteRecord) (c : TxnCtx) : res AbortReason TxnCtx :=
  Ok (mkTxnCtx (lock_mgr_ c) (txn_ c) (write_set_ c ++ [w]) (log_mgr_ c)).

Definition add_log (g : LogManager -> Z -> LogManager) (c : TxnCtx) : res AbortReason TxnCtx :=
  Ok (mkTxnCtx (lock_mgr_ c) (txn_ c) (write_set_ c) (g (log_mgr_ c) (txn_id (txn_ c)))).

Definition in_ctx (m : heapM unit) : heapM unit :=
  let! c := gets hctx in
  match c with None => ret tt | Some _ => m end.

(** ** [RmFileHandle] *)

(** [get_record(rid, is_add_lock, context)]: an S lock on the record
    (when asked and in a transaction), then the slot's bytes.  The
    bitmap is not consulted. *)
Definition get_record (is_add_lock : bool) (rid : Rid) : heapM bytes :=
  let! f := gets hfile in
  (if is_add_lock then with_ctx (lock_in_ctx (fun lm t => lock_shared_on_record lm t rid (rm_fd_ f)))
   else ret tt) ;;
  let! pg := fetch_page_handle (page_no rid) in
  ret (get_slot f pg (slot_no rid)).

(** [insert_record(buf, context)]: the first free slot of the least
    page with room (or of a new page), an X lock on the new rid, the
    record written, the page dropped from the hint set when it fills,
    then the INSERT undo entry and log record. *)
Definition insert_record (buf : bytes) : heapM Rid :=
  let! p := create_page_handle in
  let! f := gets hfile in
  let pg := page_of f p in
  let n := num_records_per_page (rm_file_hdr_ f) in
  let slot := first_free_slot (bitmap pg) n in
  with_ctx (lock_in_ctx (fun lm t => lock_exclusive_on_record lm t (mkRid p slot) (rm_fd_ f))) ;;
  let r := take (record_size (rm_file_hdr_ f)) buf in
  let pg' := mkRmPage (num_records pg + 1) ({[slot]} ∪ bitmap pg) (<[slot := r]> (slots pg)) in
  put_page p pg' ;;
  (if num_records pg' =? n then modify_free (fun fs => fs ∖ {[p]}) else ret tt) ;;
  let rid := mkRid p slot in
  with_ctx (append_write_record (mkWriteRecord INSERT_TUPLE (rm_file_name_ f) rid r)) ;;
  with_ctx (add_log (fun lm tid => add_insert_log_record lm tid r rid (rm_file_name_ f))) ;;
  ret rid.

(** [insert_record(rid, buf)]: the record at a given free slot (redo and
    rollback); an occupied slot is a failed assertion. *)
Definition insert_record_at (rid : Rid) (buf : bytes) : heapM unit :=
  let! pg := fetch_page_handle (page_no rid) in
  let! f := gets hfile in
  let n := num_records_per_page (rm_file_hdr_ f) in
  if bool_decide (slot_no rid ∈ bitmap pg) then throw HeapAssertFailed else
  let r := take (record_size (rm_file_hdr_ f)) buf in
  let pg' := mkRmPage (num_records pg + 1) ({[slot_no rid]} ∪ bitmap pg) (<[slot_no rid := r]> (slots pg)) in
  put_page (page_no rid) pg' ;;
  if num_records pg' =? n then modify_free (fun fs => fs ∖ {[page_no rid]}) else ret tt.

(** [insert_record_for_load_data]: fill the page in [page_buffer];
    when it fills, move on to a page from [create_page_handle]. *)
Definition insert_record_for_load_data (buf : bytes) (page_buffer : Z) : heapM (Rid * Z) :=
  let! f := gets hfile in
  let pg := page_of f page_buffer in
  let n := num_records_per_page (rm_file_hdr_ f) in
  let slot := first_free_slot (bitmap pg) n in
  let r := take (record_size (rm_file_hdr_ f)) buf in
  let pg' := mkRmPage (num_records pg + 1) ({[slot]} ∪ bitmap pg) (<[slot := r]> (slots pg)) in
  put_page page_buffer pg' ;;
  if num_records pg' =? n then
    modify_free (fun fs => fs ∖ {[page_buffer]}) ;;
    let! p' := create_page_handle in
    ret (mkRid page_buffer slot, p')
  else ret (mkRid page_buffer slot, page_buffer).

(** [allocpage]: new pages until [rid.page_no] is a page of the file;
    each joins the hint set.  The loop runs [page_no - num_pages + 1]
    times. *)
Fixpoint allocpage_loop (fuel : nat) (rid : Rid) : heapM unit :=
  let! f := gets hfile in
  if num_pages (rm_file_hdr_ f) <=? page_no rid then
    match fuel with
    | O => ret tt
    | S fuel =>
        let! p := create_new_page_handle in
        modify_free (fun fs => {[p]} ∪ fs) ;;
        allocpage_loop fuel rid
    end
  else ret tt.

Definition allocpage (rid : Rid) : heapM unit :=
  let! f := gets hfile in
  allocpage_loop (Z.to_nat (page_no rid - num_pages (rm_file_hdr_ f) + 1)) rid.

(** [delete_record(rid, is_add_lock, context)]: in a transaction, the
    record read under an S lock, an X lock (when asked), the DELETE undo
    entry and log record; then the slot freed and the page put in the
    hint set.  A free slot is a failed assertion. *)
Definition delete_record (is_add_lock : bool) (rid : Rid) : heapM unit :=
  let! pg := fetch_page_handle (page_no rid) in
  let! f := gets hfile in
  if bool_decide (slot_no rid ∈ bitmap pg) then
    in_ctx (
      let! r := get_record true rid in
      (if is_add_lock then
         with_ctx (lock_in_ctx (fun lm t => lock_exclusive_on_record lm t rid (rm_fd_ f)))
       else ret tt) ;;
      with_ctx (append_write_record (mkWriteRecord DELETE_TUPLE (rm_file_name_ f) rid r)) ;;
      with_ctx (add_log (fun lm tid => add_delete_log_record lm tid r rid (rm_file_name_ f)))) ;;
    let! f := gets hfile in
    let pg := page_of f (page_no rid) in
    put_page (page_no rid) (mkRmPage (num_records pg - 1) (bitmap pg ∖ {[slot_no rid]}) (slots pg)) ;;
    modify_free (fun fs => {[page_no rid]} ∪ fs)
  else throw HeapAssertFailed.

(** [update_record(rid, buf, is_add_lock, context)]: in a transaction,
    the old record read under an S lock, an X lock (when asked), the
    UPDATE undo entry, and the log record (when asked); then the slot
    overwritten.  A free slot is a failed assertion. *)
Definition update_record (is_add_lock : bool) (rid : Rid) (buf : bytes) : heapM unit :=
  let! pg := fetch_page_handle (page_no rid) in
  let! f := gets hfile in
  let r := take (record_size (rm_file_hdr_ f)) buf in
  if bool_decide (slot_no rid ∈ bitmap pg) then
    in_ctx (
      let! old := get_record true rid in
      (if is_add_lock then
         with_ctx (lock_in_ctx (fun lm t => lock_exclusive_on_record lm t rid (rm_fd_ f)))
       else ret tt) ;;
      with_ctx (append_write_record (mkWriteRecord UPDATE_TUPLE (rm_file_name_ f) rid old)) ;;
      (if is_add_lock then
         with_ctx (add_log (fun lm tid => add_update_log_record lm tid r old rid (rm_file_name_ f)))
       else ret tt)) ;;
    let! f := gets hfile in
    let pg := page_of f (page_no rid) in
    put_page (page_no rid) (mkRmPage (num_records pg) (bitmap pg) (<[slot_no rid := r]> (slots pg)))
  else throw HeapAssertFailed.

(** The overloads without [is_add_lock] ([get_record(rid, context)],
    [delete_record(rid, context)], [update_record(rid, buf, context)])
    behave as the ones above with [is_add_lock] set. *)
Definition get_record_ctx (rid : Rid) : heapM bytes := get_record true rid.
Definition delete_record_ctx (rid : Rid) : heapM unit := delete_record true rid.
Definition update_record_ctx (rid : Rid) (buf : bytes) : heapM unit := update_record true rid buf.

(** [is_record]: the slot is occupied. *)
Definition is_record (f : RmFileHandle) (rid : Rid) : bool :=
  bool_decide (slot_no rid ∈ bitmap (page_of f (page_no rid))).

(** ** [RmScan] *)

(** The scan loop: from the first page of [pages], the first occupied
    slot after [curr] ([-1] on the following pages). *)
Fixpoint scan_find (f : RmFileHandle) (pages : list Z) (curr : Z) : option Rid :=
  match pages with
  | [] => None
  | p :: ps =>
      let n := num_records_per_page (rm_file_hdr_ f) in
      let ind := next_used_slot (bitmap (page_of f p)) n curr in
      if ind =? n then scan_find f ps (-1) else Some (mkRid p ind)
  end.

(** [RmScan::RmScan]: the first record of pages [1 .. num_pages-1]
    (page 0 is the file header), or the end. *)
Definition scan_open (f : RmFileHandle) : Rid :=
  default (mkRid RM_INVALID_PAGE_ID (-1))
    (scan_find f (seqZ 1 (num_pages (rm_file_hdr_ f) - 1)) (-1)).

(** The methods of [RmScan], in a module apart from those of
    [IxScan] in [IxTree]; exported, so the short names stay in scope. *)
Module Export RmScan.

(** [RmScan::next]: the next record after [rid], or the end (only the
    page number is reset). *)
Definition scan_next (f : RmFileHandle) (rid : Rid) : res HeapErr Rid :=
  if page_no rid =? RM_INVALID_PAGE_ID then Err HeapAssertFailed else
  Ok (default (mkRid RM_INVALID_PAGE_ID (slot_no rid))
        (scan_find f (seqZ (page_no rid) (num_pages (rm_file_hdr_ f) - page_no rid)) (slot_no rid))).

(** [RmScan::is_end]. *)
Definition scan_is_end (rid : Rid) : bool := page_no rid =? RM_INVALID_PAGE_ID.

End RmScan.

(** [RmScan::get_now_record(is_add_lock)]. *)
Definition get_now_record (is_add_lock : bool) (rid : Rid) : heapM bytes :=
  if scan_is_end rid then throw HeapAssertFailed else
  let! f := gets hfile in
  (if is_add_lock then with_ctx (lock_in_ctx (fun lm t => lock_shared_on_record lm t rid (rm_fd_ f)))
   else ret tt) ;;
  let! f := gets hfile in
  if is_record f rid then ret (get_slot f (page_of f (page_no rid)) (slot_no rid))
  else throw HeapAssertFailed.
