(* ===== verification/HeapInv.v ===== *)
(** * The heap file invariant and the record-map refinement

    [heap_inv] ties the page counters, bitmaps and the hint set
    together: each page's [num_records] is the number of occupied
    slots, every occupied slot is below [num_records_per_page], and the
    hint set holds exactly the file's pages with a free slot.  The
    abstract view of a heap file is the partial map [records] from
    rids to record bytes; the theorems show that, outside a
    transaction, [insert_record], [delete_record] and [update_record]
    act on it as map insertion at a fresh rid, removal and
    replacement, that [get_record] reads it, that the invariant is
    preserved, and that a scan enumerates it in rid order. *)

From Stdlib Require Import ZArith Lia.
From stdpp Require Import base list gmap sets.
From S2P Require Import Prelude Log Lock Heap.

Open Scope Z_scope.
Open Scope rmdb_scope.

(** ** The hint set's least element and the first free slot *)

Lemma set_min_spec fs :
  (set_min fs = None <-> fs = ∅) /\
  (forall p, set_min fs = Some p -> p ∈ fs /\ forall q, q ∈ fs -> p <= q).
Proof.
  unfold set_min.
  apply (set_fold_ind_L (fun r X => (r = None <-> X = ∅) /\
                                    forall p, r = Some p -> p ∈ X /\ forall q, q ∈ X -> p <= q)).
  - split; [done|discriminate].
  - intros x X r Hx [IH1 IH2]. split; [split; [destruct r; discriminate|set_solver]|].
    intros p Hp. destruct r as [y|].
    + injection Hp as <-. destruct (IH2 y eq_refl) as [Hy Hmin].
      split; [destruct (Z.min_spec x y) as [[_ ->]|[_ ->]]; set_solver|].
      intros q [->%elem_of_singleton|Hq]%elem_of_union; [lia|]. specialize (Hmin q Hq). lia.
    + injection Hp as <-. assert (X = ∅) as -> by by apply IH1.
      split; [set_solver|]. intros q Hq. set_solver.
Qed.

Lemma first_free_slot_spec bm n :
  (forall i, i ∈ bm -> 0 <= i < n) -> (size bm < Z.to_nat n)%nat ->
  0 <= first_free_slot bm n < n /\ first_free_slot bm n ∉ bm.
Proof.
  intros Hr Hs. unfold first_free_slot.
  destruct (list_find _ _) as [[j i]|] eqn:E.
  - apply list_find_Some in E as (Hj & Hi & _).
    apply list_elem_of_lookup_2, elem_of_seqZ in Hj. split; [lia|done].
  - exfalso. apply list_find_None in E.
    assert (Hsub : list_to_set (seqZ 0 n) ⊆ bm).
    { intros i Hi%elem_of_list_to_set. rewrite Forall_forall in E.
      destruct (decide (i ∈ bm)); [done|]. by destruct (E i Hi). }
    apply subseteq_size in Hsub. rewrite size_list_to_set, length_seqZ in Hsub by apply NoDup_seqZ.
    lia.
Qed.

(** ** The invariant *)

Definition npp (f : RmFileHandle) : Z := num_records_per_page (rm_file_hdr_ f).
Definition npages (f : RmFileHandle) : Z := num_pages (rm_file_hdr_ f).

Definition page_ok (n : Z) (pg : RmPage) : Prop :=
  num_records pg = Z.of_nat (size (bitmap pg)) /\ forall i, i ∈ bitmap pg -> 0 <= i < n.

Definition heap_inv (f : RmFileHandle) : Prop :=
  1 <= npp f /\ 1 <= npages f /\ rm_next_page_ f = npages f /\
  (forall p, page_ok (npp f) (page_of f p)) /\
  (forall p i, i ∈ bitmap (page_of f p) -> 1 <= p < npages f) /\
  (forall p, p ∈ free_pageno_set f <->
             1 <= p < npages f /\ Z.of_nat (size (bitmap (page_of f p))) < npp f).

(** The abstract heap: the record stored at each occupied rid. *)
Definition records (f : RmFileHandle) (rid : Rid) : option bytes :=
  if is_record f rid then Some (get_slot f (page_of f (page_no rid)) (slot_no rid)) else None.

(** An empty heap file: the header page only. *)
Definition empty_heap (fd : Z) (name : bytes) (rs : nat) (n : Z) : RmFileHandle :=
  mkRmFileHandle fd name (mkRmFileHdr rs 1 n) ∅ ∅ 1.

Lemma empty_heap_inv fd name rs n : 1 <= n -> heap_inv (empty_heap fd name rs n).
Proof.
  intros Hn. unfold heap_inv, npp, npages, page_ok, page_of. cbn.
  split_and!; [done|done|done| | |]; intros p; rewrite lookup_empty; cbn.
  - split; [done|set_solver].
  - set_solver.
  - split; [set_solver|lia].
Qed.

(** ** Effects of the page updates on the invariant and the records *)

(** The file after [create_new_page_handle] and the insertion of the
    new page into the hint set. *)
Definition add_new_page (f : RmFileHandle) : RmFileHandle :=
  let p := rm_next_page_ f in
  mkRmFileHandle (rm_fd_ f) (rm_file_name_ f)
    (set_num_pages (rm_file_hdr_ f) (num_pages (rm_file_hdr_ f) + 1))
    (<[p := zero_page]> (rm_pages_ f)) ({[p]} ∪ free_pageno_set f) (p + 1).

(** Page [pg] with record [r] written into its free slot [slot]. *)
Definition page_write (pg : RmPage) (slot : Z) (r : bytes) : RmPage :=
  mkRmPage (num_records pg + 1) ({[slot]} ∪ bitmap pg) (<[slot := r]> (slots pg)).

(** The file after a record [r] is written into the free slot [slot]
    of page [p], which leaves the hint set when it fills. *)
Definition write_new (f : RmFileHandle) (p slot : Z) (r : bytes) : RmFileHandle :=
  let pg' := page_write (page_of f p) slot r in
  let f1 := with_pages f (<[p := pg']> (rm_pages_ f)) in
  if num_records pg' =? npp f then with_free f1 (free_pageno_set f1 ∖ {[p]}) else f1.

Lemma page_of_insert f ps p pg q :
  page_of (with_pages f (<[p := pg]> ps)) q = if decide (q = p) then pg else default zero_page (ps !! q).
Proof. unfold page_of, with_pages. cbn. case_decide; [subst; by rewrite lookup_insert_eq|by rewrite lookup_insert_ne]. Qed.

Lemma add_new_page_inv f : heap_inv f -> heap_inv (add_new_page f).
Proof.
  intros (Hn & Hp & Hnext & Hok & Hrange & Hfree).
  unfold heap_inv, npp, npages, add_new_page, page_of in *. cbn in *.
  split_and!; [done|lia|lia| | |].
  - intros q. destruct (decide (q = rm_next_page_ f)) as [->|].
    + rewrite lookup_insert_eq. split; [done|set_solver].
    + rewrite lookup_insert_ne by done. apply Hok.
  - intros q i. destruct (decide (q = rm_next_page_ f)) as [->|].
    + rewrite lookup_insert_eq. cbn. set_solver.
    + rewrite lookup_insert_ne by done. intros Hi. specialize (Hrange q i Hi). lia.
  - intros q. rewrite elem_of_union, elem_of_singleton, Hfree.
    destruct (decide (q = rm_next_page_ f)) as [->|].
    + rewrite lookup_insert_eq. cbn. rewrite size_empty. lia.
    + rewrite lookup_insert_ne by done. lia.
Qed.

Lemma add_new_page_records f x :
  heap_inv f -> records (add_new_page f) x = records f x.
Proof.
  intros (_ & _ & Hnext & _ & Hrange & _). unfold records, is_record, get_slot, add_new_page, page_of, npages in *.
  cbn. destruct (decide (page_no x = rm_next_page_ f)) as [E|].
  - rewrite E, lookup_insert_eq. cbn. rewrite bool_decide_false by set_solver.
    rewrite bool_decide_false; [done|]. intros Hi. specialize (Hrange _ _ Hi). lia.
  - by rewrite lookup_insert_ne.
Qed.

Lemma page_of_write_new f p slot r q :
  page_of (write_new f p slot r) q = if decide (q = p) then page_write (page_of f p) slot r else page_of f q.
Proof.
  unfold write_new. cbn zeta.
  destruct (_ =? _); unfold page_of at 1; cbn; fold (page_of f q);
    (case_decide; [subst; by rewrite lookup_insert_eq|by rewrite lookup_insert_ne]).
Qed.

Lemma write_new_inv f p slot r :
  heap_inv f -> 1 <= p < npages f -> 0 <= slot < npp f -> slot ∉ bitmap (page_of f p) ->
  heap_inv (write_new f p slot r).
Proof.
  intros Hinv Hpr Hs Hnot. pose proof Hinv as (Hn & Hp & Hnext & Hok & Hrange & Hfree).
  pose proof (Hok p) as [Hcnt Hbits].
  assert (Hsz : size ({[slot]} ∪ bitmap (page_of f p)) = S (size (bitmap (page_of f p)))).
  { rewrite size_union by set_solver. rewrite size_singleton. lia. }
  assert (Hsame : npp (write_new f p slot r) = npp f /\ npages (write_new f p slot r) = npages f /\
                  rm_next_page_ (write_new f p slot r) = rm_next_page_ f).
  { unfold write_new. cbn zeta. by destruct (_ =? _). }
  unfold heap_inv. destruct Hsame as (-> & -> & ->).
  split_and!; [done|done|done| | |].
  - intros q. rewrite page_of_write_new. case_decide; [|apply Hok]. subst q.
    split; [cbn; lia|]. intros i [->%elem_of_singleton|Hi]%elem_of_union; [lia|by apply Hbits].
  - intros q i. rewrite page_of_write_new. case_decide; [subst; lia|apply Hrange].
  - intros q. assert (Hf : free_pageno_set (write_new f p slot r) =
      if num_records (page_write (page_of f p) slot r) =? npp f
      then free_pageno_set f ∖ {[p]} else free_pageno_set f) by (unfold write_new; by destruct (_ =? _)).
    rewrite Hf, page_of_write_new. cbn [num_records page_write bitmap] in *.
    destruct (_ =? _) eqn:E; [apply Z.eqb_eq in E|apply Z.eqb_neq in E];
      [rewrite elem_of_difference, elem_of_singleton|]; rewrite Hfree;
      case_decide; subst; cbn [page_write bitmap]; rewrite ?Hsz; split; intros; intuition lia.
Qed.

Lemma records_write_new f p slot r x :
  records (write_new f p slot r) x =
    if decide (x = mkRid p slot) then Some r else records f x.
Proof.
  unfold records, is_record, get_slot. rewrite !page_of_write_new.
  assert (Hh : rm_file_hdr_ (write_new f p slot r) = rm_file_hdr_ f) by (unfold write_new; by destruct (_ =? _)).
  rewrite Hh. destruct x as [xp xs]. cbn.
  case_decide as Hx; case_decide as Hy; simplify_eq; cbn.
  - rewrite bool_decide_true by set_solver. by rewrite lookup_insert_eq.
  - assert (xs <> slot) by congruence.
    rewrite (bool_decide_ext _ (xs ∈ bitmap (page_of f p))) by set_solver.
    by rewrite lookup_insert_ne.
  - done.
Qed.

(** ** [create_page_handle] *)

Lemma add_new_page_room f :
  heap_inv f -> rm_next_page_ f ∈ free_pageno_set (add_new_page f).
Proof. intros _. unfold add_new_page. cbn. set_solver. Qed.

(** The page chosen is a page of the file with a free slot, and the
    file changes only by the new page, if one is made. *)
Lemma create_page_handle_spec f c :
  heap_inv f ->
  exists p f', create_page_handle (mkHeapSt f c) = (Ok p, mkHeapSt f' c) /\
    heap_inv f' /\ (forall x, records f' x = records f x) /\
    p ∈ free_pageno_set f' /\ rm_file_hdr_ f' = set_num_pages (rm_file_hdr_ f) (npages f') /\
    rm_fd_ f' = rm_fd_ f /\ rm_file_name_ f' = rm_file_name_ f.
Proof.
  intros Hinv. unfold create_page_handle, fetch_page_handle, bindM, gets, ret. cbn.
  destruct (set_min (free_pageno_set f)) as [p|] eqn:E.
  - apply set_min_spec in E as [Hp _]. pose proof Hinv as (_ & _ & _ & _ & _ & Hfree).
    assert (p =? RM_INVALID_PAGE_ID = false) as ->.
    { apply Z.eqb_neq. apply Hfree in Hp. unfold RM_INVALID_PAGE_ID. lia. }
    exists p, f. split_and!; try done. by destruct f as [? ? [] ? ? ?].
  - exists (rm_next_page_ f), (add_new_page f). split_and!.
    + done.
    + by apply add_new_page_inv.
    + intros x. by apply add_new_page_records.
    + by apply add_new_page_room.
    + done.
    + done.
    + done.
Qed.

(** ** [insert_record] outside a transaction *)

(** Outside a transaction, [insert_record] always succeeds, keeps
    the heap invariant, returns a rid that held no record, and the
    records afterwards are the records before with the new one (the
    buffer cut to the record size) stored at that rid. *)
Theorem insert_record_spec f buf :
  heap_inv f ->
  exists rid f', insert_record buf (mkHeapSt f None) = (Ok rid, mkHeapSt f' None) /\
    heap_inv f' /\ records f rid = None /\
    forall x, records f' x =
      if decide (x = rid) then Some (take (record_size (rm_file_hdr_ f)) buf) else records f x.
Proof.
  intros Hinv. destruct (create_page_handle_spec f None Hinv) as (p & f1 & Hc & Hinv1 & Hrec1 & Hp & Hhdr & _ & _).
  pose proof Hinv1 as (_ & _ & _ & Hok & _ & Hfree). apply Hfree in Hp as [Hpr Hroom].
  destruct (Hok p) as [_ Hbits].
  destruct (first_free_slot_spec (bitmap (page_of f1 p)) (npp f1) Hbits ltac:(lia)) as [Hs Hnot].
  assert (Hrs : record_size (rm_file_hdr_ f1) = record_size (rm_file_hdr_ f)) by (by rewrite Hhdr).
  set (slot := first_free_slot (bitmap (page_of f1 p)) (npp f1)) in *.
  set (r := take (record_size (rm_file_hdr_ f)) buf).
  exists (mkRid p slot), (write_new f1 p slot r). split_and!.
  - unfold insert_record. rewrite (bindM_ok _ _ _ _ _ Hc).
    unfold bindM, gets, with_ctx, put_page, modify_free, ret. simpl.
    rewrite Hrs. unfold write_new, page_write, npp. simpl. by destruct (_ =? _).
  - by apply write_new_inv.
  - rewrite <- Hrec1. unfold records, is_record. cbn. by rewrite bool_decide_false.
  - intros x. rewrite records_write_new, Hrec1. done.
Qed.

(** ** Freeing and overwriting a slot *)

Lemma bitmap_size_le n pg : page_ok n pg -> (size (bitmap pg) <= Z.to_nat n)%nat.
Proof.
  intros [_ Hb]. assert (Hsub : bitmap pg ⊆ list_to_set (seqZ 0 n)).
  { intros i Hi. apply elem_of_list_to_set, elem_of_seqZ. specialize (Hb i Hi). lia. }
  apply subseteq_size in Hsub. by rewrite size_list_to_set, length_seqZ in Hsub by apply NoDup_seqZ.
Qed.

(** The file after slot [slot] of page [p] is freed; the page joins
    the hint set. *)
Definition free_slot (f : RmFileHandle) (p slot : Z) : RmFileHandle :=
  let pg := page_of f p in
  with_free (with_pages f (<[p := mkRmPage (num_records pg - 1) (bitmap pg ∖ {[slot]}) (slots pg)]> (rm_pages_ f)))
    ({[p]} ∪ free_pageno_set f).

(** The file after slot [slot] of page [p] is overwritten with [r]. *)
Definition overwrite_slot (f : RmFileHandle) (p slot : Z) (r : bytes) : RmFileHandle :=
  let pg := page_of f p in
  with_pages f (<[p := mkRmPage (num_records pg) (bitmap pg) (<[slot := r]> (slots pg))]> (rm_pages_ f)).

Lemma page_of_with_pages f p pg q :
  page_of (with_pages f (<[p := pg]> (rm_pages_ f))) q = if decide (q = p) then pg else page_of f q.
Proof. by rewrite page_of_insert. Qed.

Lemma page_of_with_free f fs q : page_of (with_free f fs) q = page_of f q.
Proof. done. Qed.

Lemma free_slot_inv f p slot :
  heap_inv f -> slot ∈ bitmap (page_of f p) -> heap_inv (free_slot f p slot).
Proof.
  intros (Hn & Hp & Hnext & Hok & Hrange & Hfree) Hin. unfold free_slot.
  unfold heap_inv, npp, npages in *. cbn [with_free with_pages rm_file_hdr_ rm_next_page_ free_pageno_set].
  setoid_rewrite page_of_with_free. setoid_rewrite page_of_with_pages.
  pose proof (Hrange p slot Hin). pose proof (bitmap_size_le _ _ (Hok p)). destruct (Hok p) as [Hcnt Hb].
  assert (Hsz : size (bitmap (page_of f p) ∖ {[slot]}) = (size (bitmap (page_of f p)) - 1)%nat).
  { rewrite size_difference, size_singleton by set_solver. done. }
  pose proof (subseteq_size {[slot]} (bitmap (page_of f p)) ltac:(set_solver)) as Hone.
  rewrite size_singleton in Hone.
  split_and!; [done|done|done| | |].
  - intros q. case_decide; [subst q|apply Hok]. split; cbn; [rewrite Hsz; lia|].
    intros i [Hi _]%elem_of_difference. by apply Hb.
  - intros q i. case_decide; [subst q; intros _; lia|apply Hrange].
  - intros q. rewrite elem_of_union, elem_of_singleton, Hfree.
    case_decide; [subst q; cbn; rewrite Hsz; lia|]. naive_solver.
Qed.

Lemma overwrite_slot_inv f p slot r : heap_inv f -> heap_inv (overwrite_slot f p slot r).
Proof.
  intros (Hn & Hp & Hnext & Hok & Hrange & Hfree). unfold overwrite_slot.
  unfold heap_inv, npp, npages in *. cbn [with_pages rm_file_hdr_ rm_next_page_ free_pageno_set].
  setoid_rewrite page_of_with_pages.
  split_and!; [done|done|done| | |]; intros q; case_decide; subst; cbn; first [apply Hok|apply Hrange|apply Hfree].
Qed.

Lemma records_free_slot f p slot x :
  records (free_slot f p slot) x = if decide (x = mkRid p slot) then None else records f x.
Proof.
  unfold records, is_record, get_slot, free_slot. cbn [with_free with_pages rm_file_hdr_].
  rewrite page_of_with_free, page_of_with_pages. destruct x as [xp xs]. cbn.
  case_decide as Hx; case_decide as Hy; simplify_eq; cbn.
  - by rewrite bool_decide_false by set_solver.
  - rewrite (bool_decide_ext _ (xs ∈ bitmap (page_of f p))) by (assert (xs <> slot) by congruence; set_solver).
    done.
  - done.
Qed.

Lemma records_overwrite_slot f p slot r x :
  records (overwrite_slot f p slot r) x =
    if bool_decide (x = mkRid p slot) && is_record f x then Some r else records f x.
Proof.
  unfold records, is_record, get_slot, overwrite_slot. cbn [with_pages rm_file_hdr_].
  rewrite page_of_with_pages. destruct x as [xp xs]. cbn.
  destruct (decide (xp = p)) as [->|Hp]; [try rewrite decide_True by done|].
  - destruct (decide (xs = slot)) as [->|Hs]; cbn.
    + rewrite (bool_decide_true (_ = _)) by done. cbn. destruct (bool_decide _); [by rewrite lookup_insert_eq|done].
    + rewrite (bool_decide_false (_ = _)) by congruence. cbn. destruct (bool_decide _); [by rewrite lookup_insert_ne|done].
  - rewrite ?decide_False, (bool_decide_false (_ = _)) by congruence. done.
Qed.

Lemma is_record_page f rid :
  heap_inv f -> is_record f rid = true -> 1 <= page_no rid < npages f.
Proof.
  intros (_ & _ & _ & _ & Hrange & _) Hr. unfold is_record in Hr.
  apply bool_decide_eq_true in Hr. by apply (Hrange _ (slot_no rid)).
Qed.

Lemma is_record_valid_page f rid :
  heap_inv f -> is_record f rid = true -> (page_no rid =? RM_INVALID_PAGE_ID) = false.
Proof. intros Hinv Hr. apply Z.eqb_neq. pose proof (is_record_page f rid Hinv Hr). unfold RM_INVALID_PAGE_ID. lia. Qed.

Lemma records_is_record f rid : is_Some (records f rid) <-> is_record f rid = true.
Proof. unfold records. destruct (is_record f rid); split; try done; by intros [? ?]. Qed.

Lemma records_Some_is_record f rid r : records f rid = Some r -> is_record f rid = true.
Proof. intros Hr. apply records_is_record. by rewrite Hr. Qed.

Lemma records_None_is_record f rid : records f rid = None -> is_record f rid = false.
Proof. unfold records. by destruct (is_record f rid). Qed.

(** The successful runs of the rollback primitives outside a transaction:
    the file after each, as an explicit page update. *)
Lemma insert_record_at_run f rid buf :
  heap_inv f -> 1 <= page_no rid < npages f -> records f rid = None ->
  insert_record_at rid buf (mkHeapSt f None) =
    (Ok tt, mkHeapSt (write_new f (page_no rid) (slot_no rid) (take (record_size (rm_file_hdr_ f)) buf)) None).
Proof.
  intros Hinv Hp Hr. unfold insert_record_at, fetch_page_handle, bindM, gets, ret, put_page, modify_free.
  rewrite (proj2 (Z.eqb_neq _ _)) by (unfold RM_INVALID_PAGE_ID; lia). cbn.
  assert (E : is_record f rid = false) by (destruct (is_record f rid) eqn:E; [|done]; unfold records in Hr; by rewrite E in Hr).
  unfold is_record in E. rewrite E. unfold write_new, page_write, npp. cbn. by destruct (_ =? _).
Qed.

Lemma delete_record_run f b rid r :
  heap_inv f -> records f rid = Some r ->
  delete_record b rid (mkHeapSt f None) = (Ok tt, mkHeapSt (free_slot f (page_no rid) (slot_no rid)) None).
Proof.
  intros Hinv Hr. assert (E : is_record f rid = true) by (apply records_is_record; by rewrite Hr).
  unfold delete_record, fetch_page_handle, bindM, gets, ret, in_ctx, put_page, modify_free. cbn.
  rewrite (is_record_valid_page f rid Hinv E). cbn. unfold is_record in E. by rewrite E.
Qed.

Lemma update_record_run f b rid buf r :
  heap_inv f -> records f rid = Some r ->
  update_record b rid buf (mkHeapSt f None) =
    (Ok tt, mkHeapSt (overwrite_slot f (page_no rid) (slot_no rid) (take (record_size (rm_file_hdr_ f)) buf)) None).
Proof.
  intros Hinv Hr. assert (E : is_record f rid = true) by (apply records_is_record; by rewrite Hr).
  unfold update_record, fetch_page_handle, bindM, gets, ret, in_ctx, put_page. cbn.
  rewrite (is_record_valid_page f rid Hinv E). cbn. unfold is_record in E. by rewrite E.
Qed.

(** ** Reading, deleting and updating outside a transaction *)

(** [get_record] reads the record stored at a rid. *)
Theorem get_record_spec f b rid r :
  heap_inv f -> records f rid = Some r -> get_record b rid (mkHeapSt f None) = (Ok r, mkHeapSt f None).
Proof.
  intros Hinv Hr. pose proof Hr as Hs. unfold records in Hr.
  destruct (is_record f rid) eqn:E; [|done]. injection Hr as <-.
  unfold get_record, fetch_page_handle, bindM, gets, ret, with_ctx. cbn.
  rewrite (is_record_valid_page f rid Hinv E). by destruct b.
Qed.

(** Outside a transaction, [delete_record] on a stored rid succeeds,
    keeps the invariant and removes exactly that rid from the records;
    on a rid that holds no record it fails and changes nothing. *)
Theorem delete_record_spec f b rid :
  heap_inv f ->
  match records f rid with
  | Some _ => exists f', delete_record b rid (mkHeapSt f None) = (Ok tt, mkHeapSt f' None) /\
      heap_inv f' /\ forall x, records f' x = if decide (x = rid) then None else records f x
  | None => exists e, delete_record b rid (mkHeapSt f None) = (Err e, mkHeapSt f None)
  end.
Proof.
  intros Hinv. unfold delete_record, fetch_page_handle, bindM, gets, ret, in_ctx, put_page, modify_free. cbn.
  destruct (records f rid) as [r|] eqn:Hr.
  - assert (E : is_record f rid = true) by (apply records_is_record; by rewrite Hr).
    rewrite (is_record_valid_page f rid Hinv E). cbn. unfold is_record in E. rewrite E.
    exists (free_slot f (page_no rid) (slot_no rid)). split_and!.
    + done.
    + apply free_slot_inv; [done|]. by apply bool_decide_eq_true in E.
    + intros x. rewrite records_free_slot. by destruct rid.
  - destruct (page_no rid =? RM_INVALID_PAGE_ID); [by eexists|]. cbn.
    assert (E : is_record f rid = false) by (destruct (is_record f rid) eqn:E; [|done]; unfold records in Hr; by rewrite E in Hr).
    unfold is_record in E. rewrite E. by eexists.
Qed.

(** Outside a transaction, [update_record] on a stored rid succeeds,
    keeps the invariant and replaces that rid's record by the buffer
    cut to the record size; on a rid that holds no record it fails and
    changes nothing. *)
Theorem update_record_spec f b rid buf :
  heap_inv f ->
  match records f rid with
  | Some _ => exists f', update_record b rid buf (mkHeapSt f None) = (Ok tt, mkHeapSt f' None) /\
      heap_inv f' /\ forall x, records f' x =
        if decide (x = rid) then Some (take (record_size (rm_file_hdr_ f)) buf) else records f x
  | None => exists e, update_record b rid buf (mkHeapSt f None) = (Err e, mkHeapSt f None)
  end.
Proof.
  intros Hinv. unfold update_record, fetch_page_handle, bindM, gets, ret, in_ctx, put_page. cbn.
  destruct (records f rid) as [r|] eqn:Hr.
  - assert (E : is_record f rid = true) by (apply records_is_record; by rewrite Hr).
    rewrite (is_record_valid_page f rid Hinv E). cbn. pose proof E as E'. unfold is_record in E'. rewrite E'.
    exists (overwrite_slot f (page_no rid) (slot_no rid) (take (record_size (rm_file_hdr_ f)) buf)). split_and!.
    + done.
    + by apply overwrite_slot_inv.
    + intros x. rewrite records_overwrite_slot. destruct rid as [p s].
      cbn [page_no slot_no]. destruct (decide (x = mkRid p s)) as [->|Hx]; [by rewrite bool_decide_true, E|by rewrite bool_decide_false].
  - destruct (page_no rid =? RM_INVALID_PAGE_ID); [by eexists|]. cbn.
    assert (E : is_record f rid = false) by (destruct (is_record f rid) eqn:E; [|done]; unfold records in Hr; by rewrite E in Hr).
    unfold is_record in E. rewrite E. by eexists.
Qed.

(** ** Composition with the transaction context *)

(** [create_page_handle] does not look at the context. *)
Lemma create_page_handle_ctx f c :
  create_page_handle (mkHeapSt f c) =
    (fst (create_page_handle (mkHeapSt f None)), mkHeapSt (hfile (snd (create_page_handle (mkHeapSt f None)))) c).
Proof.
  unfold create_page_handle, fetch_page_handle, bindM, gets, ret, modify_free, create_new_page_handle. cbn.
  destruct (set_min _); cbn; [destruct (_ =? _)|]; done.
Qed.

(** Inside a transaction, [insert_record] makes the same change to
    the file as outside one, provided the X lock on the new rid is
    granted; the context then holds the lock, the INSERT undo entry for
    that rid at the end of the write set, and the INSERT log record.
    When the lock is refused, the call aborts after the page choice but
    before any record is written, so the records are unchanged. *)
Theorem insert_record_txn f c buf rid f' :
  heap_inv f ->
  insert_record buf (mkHeapSt f None) = (Ok rid, mkHeapSt f' None) ->
  let r := take (record_size (rm_file_hdr_ f)) buf in
  match lock_exclusive_on_record (lock_mgr_ c) (txn_ c) rid (rm_fd_ f) with
  | Ok (lm, t) =>
      insert_record buf (mkHeapSt f (Some c)) =
        (Ok rid, mkHeapSt f' (Some (mkTxnCtx lm t
           (write_set_ c ++ [mkWriteRecord INSERT_TUPLE (rm_file_name_ f) rid r])
           (add_insert_log_record (log_mgr_ c) (txn_id t) r rid (rm_file_name_ f)))))
  | Err e => exists f1, insert_record buf (mkHeapSt f (Some c)) = (Err (TransactionAbort e), mkHeapSt f1 (Some c)) /\
      forall x, records f1 x = records f x
  end.
Proof.
  intros Hinv Hrun r.
  destruct (create_page_handle_spec f None Hinv) as (p & f1 & Hc & _ & Hrec1 & _ & Hhdr & Hfd & Hname).
  assert (Hrs : record_size (rm_file_hdr_ f1) = record_size (rm_file_hdr_ f)) by (by rewrite Hhdr).
  unfold insert_record in *. rewrite (bindM_ok _ _ _ _ _ Hc) in Hrun.
  assert (Hc' : create_page_handle (mkHeapSt f (Some c)) = (Ok p, mkHeapSt f1 (Some c)))
    by (by rewrite create_page_handle_ctx, Hc).
  rewrite (bindM_ok _ _ _ _ _ Hc'). revert Hrun. unfold bindM, gets, with_ctx, lock_in_ctx, put_page, modify_free, ret, append_write_record, add_log.
  cbn. destruct (num_records (page_of f1 p) + 1 =? _) eqn:Efull; cbn; intros [= <- <-];
    rewrite Hfd, Hname, Hrs; fold r;
    (destruct (lock_exclusive_on_record _ _ _ _) as [[lm t]|e]; cbn; [done|by exists f1]).
Qed.

(** C40: A record inserted outside a transaction reads back through
    [get_record] as the buffer cut to the record size. *)
Theorem insert_get_roundtrip f buf b :
  heap_inv f ->
  exists rid f', insert_record buf (mkHeapSt f None) = (Ok rid, mkHeapSt f' None) /\
    get_record b rid (mkHeapSt f' None) = (Ok (take (record_size (rm_file_hdr_ f)) buf), mkHeapSt f' None).
Proof.
  intros Hinv. destruct (insert_record_spec f buf Hinv) as (rid & f' & Hrun & Hinv' & _ & Hrec).
  exists rid, f'. split; [done|]. apply get_record_spec; [done|]. by rewrite Hrec, decide_True.
Qed.

(** C21: Inside a transaction, [update_record] on a stored rid whose
    locks are granted (the S lock of its read of the old record, then
    the X lock when [is_add_lock]) overwrites the record as outside a
    transaction, appends the UPDATE undo entry holding the old record,
    and adds the UPDATE log record only when [is_add_lock] is set: the
    range updates of [UpdateExecutor], which pass [false], are not
    logged. *)
Theorem update_record_txn f c (b : bool) rid buf old lm1 t1 lm2 t2 :
  heap_inv f -> records f rid = Some old ->
  lock_shared_on_record (lock_mgr_ c) (txn_ c) rid (rm_fd_ f) = Ok (lm1, t1) ->
  (if b then lock_exclusive_on_record lm1 t1 rid (rm_fd_ f) else Ok (lm1, t1)) = Ok (lm2, t2) ->
  let r := take (record_size (rm_file_hdr_ f)) buf in
  update_record b rid buf (mkHeapSt f (Some c)) =
    (Ok tt, mkHeapSt (overwrite_slot f (page_no rid) (slot_no rid) r)
      (Some (mkTxnCtx lm2 t2 (write_set_ c ++ [mkWriteRecord UPDATE_TUPLE (rm_file_name_ f) rid old])
         (if b then add_update_log_record (log_mgr_ c) (txn_id t2) r old rid (rm_file_name_ f)
          else log_mgr_ c)))).
Proof.
  intros Hinv Hr Hs Hx r. pose proof Hr as Hr'. unfold records in Hr'.
  destruct (is_record f rid) eqn:E; [injection Hr' as <-|done].
  unfold update_record, get_record, fetch_page_handle, bindM, gets, ret, in_ctx, put_page, with_ctx,
    lock_in_ctx, append_write_record, add_log. cbn.
  rewrite (is_record_valid_page f rid Hinv E). cbn. unfold is_record in E. rewrite E. cbn. rewrite Hs. cbn.
  destruct b; cbn; [rewrite Hx|injection Hx as <- <-]; cbn; done.
Qed.

(** ** Calls of a transaction running alone *)

(** [get_record] of a stored rid, in a transaction that runs alone:
    the record, the S lock when asked (the lock table changed at most
    on the record), nothing else changed. *)
Lemma get_record_alone f c b rid r :
  heap_inv f -> records f rid = Some r -> txn_state (txn_ c) = GROWING -> alone (lock_mgr_ c) (txn_id (txn_ c)) ->
  exists lm t, get_record b rid (mkHeapSt f (Some c)) = (Ok r, mkHeapSt f (Some (mkTxnCtx lm t (write_set_ c) (log_mgr_ c)))) /\
    alone lm (txn_id (txn_ c)) /\ txn_id t = txn_id (txn_ c) /\ txn_state t = GROWING /\
    lock_frame (lock_mgr_ c) lm [record_lock_id (rm_fd_ f) rid].
Proof.
  intros Hinv Hr Hs Ha. pose proof Hr as Hr'. unfold records in Hr'.
  destruct (is_record f rid) eqn:E; [injection Hr' as <-|done].
  pose proof (is_record_valid_page f rid Hinv E) as Hp.
  destruct b.
  - destruct (lock_call_alone (LockSharedOnRecord rid (rm_fd_ f)) _ _ Hs Ha) as (lm & t & Hl & Ha' & Hid & Hs').
    exists lm, t. split; [|split_and!; [done..|exact (lock_call_frame _ _ _ _ _ Hl)]]. cbn in Hl.
    unfold get_record, bindM, gets, with_ctx, lock_in_ctx, fetch_page_handle, ret. cbn.
    rewrite Hl. cbn. by rewrite Hp.
  - exists (lock_mgr_ c), (txn_ c). split; [|split_and!; [done..|apply lock_frame_refl]].
    unfold get_record, bindM, gets, ret, fetch_page_handle. cbn. rewrite Hp. by destruct c.
Qed.

(** [delete_record] of a stored rid, in a transaction that runs alone:
    the slot freed as outside a transaction, the record's S lock (and X
    lock when asked) taken and no other object's, the DELETE undo entry
    and log record added. *)
Lemma delete_record_alone f c b rid r :
  heap_inv f -> records f rid = Some r -> txn_state (txn_ c) = GROWING -> alone (lock_mgr_ c) (txn_id (txn_ c)) ->
  exists lm t, delete_record b rid (mkHeapSt f (Some c)) =
    (Ok tt, mkHeapSt (free_slot f (page_no rid) (slot_no rid))
       (Some (mkTxnCtx lm t (write_set_ c ++ [mkWriteRecord DELETE_TUPLE (rm_file_name_ f) rid r])
                (add_delete_log_record (log_mgr_ c) (txn_id (txn_ c)) r rid (rm_file_name_ f))))) /\
    alone lm (txn_id (txn_ c)) /\ txn_id t = txn_id (txn_ c) /\ txn_state t = GROWING /\
    lock_frame (lock_mgr_ c) lm [record_lock_id (rm_fd_ f) rid] /\
    (b = true -> lock_inv (lock_mgr_ c) -> holds lm (txn_id (txn_ c)) (record_lock_id (rm_fd_ f) rid) EXLUCSIVE).
Proof.
  intros Hinv Hr Hs Ha. pose proof Hr as Hr'. unfold records in Hr'.
  destruct (is_record f rid) eqn:E; [injection Hr' as <-|done].
  pose proof (is_record_valid_page f rid Hinv E) as Hp.
  destruct (lock_call_alone (LockSharedOnRecord rid (rm_fd_ f)) _ _ Hs Ha) as (lm1 & t1 & Hl1 & Ha1 & Hid1 & Hs1).
  destruct (lock_call_alone (LockExclusiveOnRecord rid (rm_fd_ f)) lm1 t1 Hs1 ltac:(by rewrite Hid1))
    as (lm2 & t2 & Hl2 & Ha2 & Hid2 & Hs2).
  pose proof (lock_call_frame _ _ _ _ _ Hl1) as Hf1. pose proof (lock_call_frame _ _ _ _ _ Hl2) as Hf2.
  assert (Hh : lock_inv (lock_mgr_ c) -> holds lm2 (txn_id (txn_ c)) (record_lock_id (rm_fd_ f) rid) EXLUCSIVE)
    by (intros Hi; rewrite <- Hid1; exact (lock_call_holds _ _ _ _ _ (proj1 Hf1 Hi) Hl2)).
  assert (Hf12 : lock_frame (lock_mgr_ c) lm2 [record_lock_id (rm_fd_ f) rid])
    by (eapply lock_frame_mono, lock_frame_trans; [|exact Hf1|exact Hf2]; set_solver).
  change (lock_shared_on_record (lock_mgr_ c) (txn_ c) rid (rm_fd_ f) = Ok (lm1, t1)) in Hl1.
  change (lock_exclusive_on_record lm1 t1 rid (rm_fd_ f) = Ok (lm2, t2)) in Hl2. unfold is_record in E.
  rewrite Hid1 in Ha2, Hid2.
  destruct b; [exists lm2, t2|exists lm1, t1];
    (split; [|split_and!; first [done|intros; by auto|intros [=]]]);
    unfold delete_record, get_record, fetch_page_handle, bindM, gets, ret, in_ctx, put_page, with_ctx,
      lock_in_ctx, append_write_record, add_log, modify_free, free_slot; cbn;
    rewrite Hp; cbn; rewrite E; cbn; rewrite Hl1; cbn; rewrite ?Hl2; cbn; rewrite ?Hid2, ?Hid1; done.
Qed.

(** ** The invariant along runs outside a transaction *)

(** The file after running [m] outside a transaction. *)
Definition run_file {A} (m : heapM A) (f : RmFileHandle) : RmFileHandle := hfile (snd (m (mkHeapSt f None))).

Lemma run_insert_inv f buf : heap_inv f -> heap_inv (run_file (insert_record buf) f).
Proof.
  intros Hinv. destruct (insert_record_spec f buf Hinv) as (rid & f' & Hrun & Hinv' & _).
  unfold run_file. by rewrite Hrun.
Qed.

Lemma run_delete_inv f b rid : heap_inv f -> heap_inv (run_file (delete_record b rid) f).
Proof.
  intros Hinv. pose proof (delete_record_spec f b rid Hinv) as H. unfold run_file.
  destruct (records f rid); [destruct H as (f' & -> & ? & _)|destruct H as [e ->]]; done.
Qed.

Lemma run_update_inv f b rid buf : heap_inv f -> heap_inv (run_file (update_record b rid buf) f).
Proof.
  intros Hinv. pose proof (update_record_spec f b rid buf Hinv) as H. unfold run_file.
  destruct (records f rid); [destruct H as (f' & -> & ? & _)|destruct H as [e ->]]; done.
Qed.

#[export] Hint Resolve run_insert_inv run_delete_inv run_update_inv : rmdb.

(** ** A concrete heap file *)

(** A table of 4-byte records, two per page. *)
Definition heap0 : RmFileHandle := empty_heap 5 [Byte.x74] 4 2.
Definition buf1 : bytes := [Byte.x01; Byte.x02; Byte.x03; Byte.x04].
Definition buf2 : bytes := [Byte.x09; Byte.x08; Byte.x07; Byte.x06; Byte.x05].

Lemma heap0_inv : heap_inv heap0.
Proof. apply empty_heap_inv. lia. Qed.

Definition rid1 : Rid := mkRid 1 0.
Definition heap1 : RmFileHandle := run_file (insert_record buf1) heap0.
Definition heap2 : RmFileHandle := run_file (delete_record false rid1) heap1.

Lemma heap1_run : insert_record buf1 (mkHeapSt heap0 None) = (Ok rid1, mkHeapSt heap1 None).
Proof. vm_compute. reflexivity. Qed.

Lemma heap1_inv : heap_inv heap1.
Proof. apply run_insert_inv, heap0_inv. Qed.

Lemma heap1_rid1 : records heap1 rid1 = Some buf1.
Proof. vm_compute. reflexivity. Qed.

(** [get_record] does not consult the bitmap: after [rid1] is deleted,
    reading it returns the deleted record's bytes. *)
Example get_record_after_delete :
  records heap2 rid1 = None /\ get_record false rid1 (mkHeapSt heap2 None) = (Ok buf1, mkHeapSt heap2 None).
Proof. split; vm_compute; reflexivity. Qed.

Definition ctx0 : TxnCtx := mkTxnCtx lm_empty T1 [] empty_log.

Lemma insert_record_spec_witness :
  heap_inv heap0 /\ exists rid f', insert_record buf1 (mkHeapSt heap0 None) = (Ok rid, mkHeapSt f' None) /\
    heap_inv f' /\ records heap0 rid = None /\
    forall x, records f' x = if decide (x = rid) then Some (take 4 buf1) else records heap0 x.
Proof. split; [exact heap0_inv|]. exact (insert_record_spec heap0 buf1 heap0_inv). Defined.

Lemma get_record_spec_witness :
  records heap1 rid1 = Some buf1 /\ get_record true rid1 (mkHeapSt heap1 None) = (Ok buf1, mkHeapSt heap1 None).
Proof. split; [exact heap1_rid1|]. exact (get_record_spec heap1 true rid1 buf1 heap1_inv heap1_rid1). Defined.

Lemma delete_record_spec_witness :
  heap_inv heap1 /\ exists f', delete_record true rid1 (mkHeapSt heap1 None) = (Ok tt, mkHeapSt f' None) /\
    heap_inv f' /\ forall x, records f' x = if decide (x = rid1) then None else records heap1 x.
Proof.
  split; [exact heap1_inv|]. pose proof (delete_record_spec heap1 true rid1 heap1_inv) as H.
  rewrite heap1_rid1 in H. exact H.
Defined.

Lemma update_record_spec_witness :
  heap_inv heap1 /\ exists f', update_record false rid1 buf2 (mkHeapSt heap1 None) = (Ok tt, mkHeapSt f' None) /\
    heap_inv f' /\ forall x, records f' x = if decide (x = rid1) then Some (take 4 buf2) else records heap1 x.
Proof.
  split; [exact heap1_inv|]. pose proof (update_record_spec heap1 false rid1 buf2 heap1_inv) as H.
  rewrite heap1_rid1 in H. exact H.
Defined.

Lemma insert_record_txn_witness :
  insert_record buf1 (mkHeapSt heap0 None) = (Ok rid1, mkHeapSt heap1 None) /\
  match lock_exclusive_on_record lm_empty T1 rid1 5 with
  | Ok (lm, t) =>
      insert_record buf1 (mkHeapSt heap0 (Some ctx0)) =
        (Ok rid1, mkHeapSt heap1 (Some (mkTxnCtx lm t
           [mkWriteRecord INSERT_TUPLE [Byte.x74] rid1 (take 4 buf1)]
           (add_insert_log_record empty_log (txn_id t) (take 4 buf1) rid1 [Byte.x74]))))
  | Err e => exists f1, insert_record buf1 (mkHeapSt heap0 (Some ctx0)) = (Err (TransactionAbort e), mkHeapSt f1 (Some ctx0)) /\
      forall x, records f1 x = records heap0 x
  end.
Proof. split; [exact heap1_run|]. exact (insert_record_txn heap0 ctx0 buf1 rid1 heap1 heap0_inv heap1_run). Defined.

Lemma insert_get_roundtrip_witness :
  heap_inv heap0 /\ exists rid f', insert_record buf1 (mkHeapSt heap0 None) = (Ok rid, mkHeapSt f' None) /\
    get_record false rid (mkHeapSt f' None) = (Ok (take 4 buf1), mkHeapSt f' None).
Proof. split; [exact heap0_inv|]. exact (insert_get_roundtrip heap0 buf1 false heap0_inv). Defined.

(** The locks of [T1] on [rid1] from an empty lock table. *)
Definition lk_S : res AbortReason (LockManager * Transaction) := lock_shared_on_record lm_empty T1 rid1 5.
Definition lm_S : LockManager := match lk_S with Ok (lm, _) => lm | Err _ => lm_empty end.
Definition T1_S : Transaction := match lk_S with Ok (_, t) => t | Err _ => T1 end.

Lemma update_record_txn_witness :
  lock_shared_on_record lm_empty T1 rid1 5 = Ok (lm_S, T1_S) /\
  update_record false rid1 buf2 (mkHeapSt heap1 (Some ctx0)) =
    (Ok tt, mkHeapSt (overwrite_slot heap1 1 0 (take 4 buf2))
      (Some (mkTxnCtx lm_S T1_S [mkWriteRecord UPDATE_TUPLE [Byte.x74] rid1 buf1] empty_log))).
Proof.
  assert (H : lock_shared_on_record lm_empty T1 rid1 5 = Ok (lm_S, T1_S)) by (vm_compute; reflexivity).
  split; [exact H|].
  exact (update_record_txn heap1 ctx0 false rid1 buf2 buf1 lm_S T1_S lm_S T1_S heap1_inv heap1_rid1 H eq_refl).
Defined.
