(* ===== verification/HeapScan.v ===== *)
(** * Scanning a heap file: [RmScan] and the sequential-scan loop

    [records_from f ps c] is the reference enumeration: the occupied
    slots of the pages [ps] in page order and slot order, starting
    after slot [c] of the first page.  [scan_find] (the loop shared by
    [RmScan::RmScan] and [RmScan::next]) returns its head, and
    [scan_next] resumes it at the rid just returned; so the scan loop of
    [SeqScanExecutor] enumerates exactly the records of the file, in
    increasing rid order, and stops. *)

From Stdlib Require Import ZArith Lia Sorted.
From stdpp Require Import base list gmap sets.
From S2P Require Import Prelude Log Lock Heap HeapInv.

Open Scope Z_scope.
Open Scope rmdb_scope.

(** The order of rids: by page, then by slot. *)
Definition rid_lt (a b : Rid) : Prop :=
  page_no a < page_no b \/ (page_no a = page_no b /\ slot_no a < slot_no b).

Section scan.
Variable f : RmFileHandle.

(** The occupied slots of page [p] after slot [c]. *)
Definition used_after (p c : Z) : list Z :=
  filter (fun s => s ∈ bitmap (page_of f p)) (seqZ (c + 1) (npp f - (c + 1))).

Fixpoint records_from (ps : list Z) (c : Z) : list Rid :=
  match ps with
  | [] => []
  | p :: ps => (mkRid p <$> used_after p c) ++ records_from ps (-1)
  end.

Lemma next_used_slot_head bm n c :
  next_used_slot bm n c = default n (head (filter (fun s => s ∈ bm) (seqZ (c + 1) (n - (c + 1))))).
Proof. unfold next_used_slot. rewrite <- list_find_head. by destruct (list_find _ _) as [[]|]. Qed.

(** [scan_find] returns the first rid of the enumeration. *)
Lemma scan_find_head ps c : scan_find f ps c = head (records_from ps c).
Proof.
  revert c. induction ps as [|p ps IH]; intros c; [done|]. simpl scan_find. simpl records_from.
  rewrite next_used_slot_head. unfold used_after, npp.
  destruct (filter _ _) as [|i l] eqn:E; simpl.
  - rewrite Z.eqb_refl. apply IH.
  - apply filter_seqZ_resume in E as [? _]. by rewrite (proj2 (Z.eqb_neq _ _)) by lia.
Qed.

(** After the first rid [y] of the pages [p .. p+k-1], the enumeration
    resumes at [y]. *)
Lemma records_from_resume p k c y rest :
  records_from (seqZ p k) c = y :: rest ->
  p <= page_no y < p + k /\ records_from (seqZ (page_no y) (p + k - page_no y)) (slot_no y) = rest.
Proof.
  remember (Z.to_nat k) as n eqn:Hn. revert p k c Hn.
  induction n as [|n IH]; intros p k c Hn; [by rewrite seqZ_nil by lia|].
  rewrite seqZ_cons by lia. simpl records_from.
  destruct (used_after p c) as [|i l] eqn:E; simpl.
  - intros (? & Hr)%(IH (Z.succ p) (Z.pred k)); [|lia]. split; [lia|].
    by replace (p + k - page_no y) with (Z.succ p + Z.pred k - page_no y) by lia.
  - intros [= <- <-]. cbn [page_no slot_no]. split; [lia|].
    unfold used_after in E. apply filter_seqZ_resume in E as [_ E].
    rewrite (seqZ_cons p) by lia. simpl records_from. unfold used_after. rewrite <- E.
    do 3 f_equal; [f_equal|]; lia.
Qed.

Section with_bits.
Hypothesis Hbits : forall p i, i ∈ bitmap (page_of f p) -> 0 <= i < npp f.

(** The enumeration holds exactly the records after [(p, c)] on the
    pages [p .. p+k-1]. *)
Lemma elem_of_records_from p k c x :
  0 <= k -> x ∈ records_from (seqZ p k) c <->
  is_record f x = true /\ rid_lt (mkRid p c) x /\ page_no x < p + k.
Proof.
  intros Hk. remember (Z.to_nat k) as n eqn:Hn. revert p k c Hk Hn.
  induction n as [|n IH]; intros p k c Hk Hn.
  { rewrite seqZ_nil by lia. split; [by intros ?%elem_of_nil|]. unfold rid_lt; cbn; lia. }
  rewrite seqZ_cons by lia. simpl records_from. rewrite elem_of_app, IH by lia.
  unfold used_after, is_record, rid_lt. cbn [page_no slot_no].
  rewrite list_elem_of_fmap. setoid_rewrite list_elem_of_filter. setoid_rewrite elem_of_seqZ.
  destruct x as [xp xs]. cbn [page_no slot_no]. split.
  - intros [(s & [= -> ->] & Hs & Hr)|(Hb & Hlt & Hp)]; [split; [by apply bool_decide_eq_true|lia]|].
    split; [done|]. apply bool_decide_eq_true in Hb. specialize (Hbits _ _ Hb). lia.
  - intros (Hb & Hlt & Hp). apply bool_decide_eq_true in Hb as Hb'. specialize (Hbits _ _ Hb').
    destruct (decide (xp = p)) as [->|]; [left; exists xs; split; [done|split; [done|lia]]|].
    right. split_and!; [done|lia|lia].
Qed.

(** The enumeration is strictly increasing in rid order. *)
Lemma records_from_sorted p k c : 0 <= k -> StronglySorted rid_lt (records_from (seqZ p k) c).
Proof.
  intros Hk. remember (length (records_from (seqZ p k) c)) as n eqn:Hn.
  revert p k c Hk Hn. induction n as [n IH] using lt_wf_ind. intros p k c Hk Hn.
  destruct (records_from (seqZ p k) c) as [|y rest] eqn:E; constructor.
  - apply records_from_resume in E as E'. destruct E' as [Hy <-].
    apply (IH (length (records_from (seqZ (page_no y) (p + k - page_no y)) (slot_no y)))); [|lia|done].
    rewrite Hn. simpl. lia.
  - apply Forall_forall. intros x Hx. apply records_from_resume in E as [Hy E].
    rewrite <- E in Hx. apply elem_of_records_from in Hx as (_ & Hlt & _); [|lia].
    destruct y. exact Hlt.
Qed.
End with_bits.
End scan.

(** ** The scan loop *)

(** The loop of [SeqScanExecutor::beginTuple]/[nextTuple] driven to
    the end, collecting the rids the scan visits: the scan opened by
    [RmScan::RmScan], then [RmScan::next] until [is_end].  [fuel] bounds
    the number of iterations; running out is [None]. *)
Fixpoint scan_rids (fuel : nat) (f : RmFileHandle) (rid : Rid) : option (list Rid) :=
  if scan_is_end rid then Some [] else
  match fuel with
  | O => None
  | S fuel =>
      match scan_next f rid with
      | Ok rid' => (rid ::.) <$> scan_rids fuel f rid'
      | Err _ => None
      end
  end.

(** The enumeration of the whole file. *)
Definition all_records (f : RmFileHandle) : list Rid := records_from f (seqZ 1 (npages f - 1)) (-1).

Lemma scan_rids_from f fuel p c :
  heap_inv f -> 1 <= p -> p <= npages f ->
  (length (records_from f (seqZ p (npages f - p)) c) <= fuel)%nat ->
  match head (records_from f (seqZ p (npages f - p)) c) with
  | Some y => scan_rids fuel f y = Some (records_from f (seqZ p (npages f - p)) c)
  | None => True
  end.
Proof.
  intros Hinv. revert p c. induction fuel as [|fuel IH]; intros p c Hp1 Hp Hlen.
  - destruct (records_from _ _ _); [done|simpl in Hlen; lia].
  - destruct (records_from f (seqZ p (npages f - p)) c) as [|y rest] eqn:E; [done|]. simpl.
    apply records_from_resume in E as E'. destruct E' as [Hy Hrest].
    unfold scan_is_end, scan_next, RM_INVALID_PAGE_ID.
    rewrite (proj2 (Z.eqb_neq _ _)) by lia. cbn.
    replace (p + (npages f - p) - page_no y) with (npages f - page_no y) in Hrest by lia.
    fold (npages f). rewrite scan_find_head, Hrest.
    destruct rest as [|z rest'] eqn:Er; [by destruct fuel|]. cbn.
    specialize (IH (page_no y) (slot_no y) ltac:(lia) ltac:(lia)). rewrite Hrest in IH.
    cbn [head] in IH. rewrite IH; [done|]. simpl in *. lia.
Qed.

(** C20: Driven from [RmScan::RmScan] through [RmScan::next] until
    [is_end], with fuel at least the number of records plus one, the
    scan of a well-formed heap file terminates and visits exactly the
    file's records, each once, in increasing (page, slot) order. *)
Theorem scan_enumerates f fuel :
  heap_inv f -> (length (all_records f) < fuel)%nat ->
  scan_rids fuel f (scan_open f) = Some (all_records f) /\
  StronglySorted rid_lt (all_records f) /\
  forall x, x ∈ all_records f <-> is_Some (records f x).
Proof.
  intros Hinv Hlen. pose proof Hinv as (_ & Hp & _ & Hok & Hrange & _).
  assert (Hbits : forall p i, i ∈ bitmap (page_of f p) -> 0 <= i < npp f) by (intros p i; apply Hok).
  split_and!.
  - unfold scan_open. rewrite scan_find_head.
    change (records_from f (seqZ 1 (num_pages (rm_file_hdr_ f) - 1)) (-1)) with (all_records f).
    destruct (all_records f) as [|y rest] eqn:E; [by destruct fuel|]. cbn.
    pose proof (scan_rids_from f fuel 1 (-1) Hinv ltac:(lia) ltac:(lia)) as H.
    replace (npages f - 1) with (num_pages (rm_file_hdr_ f) - 1) in H by done.
    unfold all_records, npages in *. rewrite E in H. apply H. lia.
  - apply records_from_sorted; [done|lia].
  - intros x. unfold all_records. rewrite elem_of_records_from, records_is_record by (done || lia).
    split; [by intros []|]. intros Ex. pose proof (is_record_page f x Hinv Ex).
    unfold is_record in Ex. pose proof (Hbits _ _ (bool_decide_eq_true_1 _ Ex)).
    unfold rid_lt, npages in *. cbn. split_and!; [done|lia|lia].
Qed.

(** Three records on two pages, the second of page 1 then deleted. *)
Definition heap3 : RmFileHandle :=
  run_file (delete_record false (mkRid 1 1))
    (run_file (insert_record buf2) (run_file (insert_record buf1) (run_file (insert_record buf1) heap0))).

Lemma heap3_inv : heap_inv heap3.
Proof. unfold heap3. eauto 6 using heap0_inv with rmdb. Qed.

Lemma scan_enumerates_witness :
  all_records heap3 = [mkRid 1 0; mkRid 2 0] /\ scan_rids 3 heap3 (scan_open heap3) = Some (all_records heap3).
Proof.
  assert (E : all_records heap3 = [mkRid 1 0; mkRid 2 0]) by (vm_compute; reflexivity).
  split; [exact E|].
  exact (proj1 (scan_enumerates heap3 3 heap3_inv ltac:(rewrite E; simpl; lia))).
Defined.
