(* ===== verification/Txn.v ===== *)
(** * The transaction manager: [transaction/transaction_manager.cpp]

    [TransactionManager::begin], [commit], [abort] and
    [rollback_writeRecord] over a state that holds what they touch: the
    catalog and the open heap and index files of [SmManager] ([db_],
    [fhs_], [ihs_]), the lock manager, the log manager and the global
    transaction table.  The write set and lock set of a transaction are
    passed in and handed back, as the pointer [txn] is shared with the
    caller.  Heap calls made by the rollback run outside a transaction
    ([nullptr] context); index calls run the B+ tree of [IxTree] with
    the comparator of the index's key schema.  The theorems show that
    [abort] undoes the write set (the records of the table are those
    before the transaction's first write) and that [commit] and [abort]
    release exactly the transaction's locks. *)

From Stdlib Require Import ZArith Lia Strings.String.
From stdpp Require Import base list gmap sets.
From S2P Require Import Prelude Log Lock Key Meta IxNode IxTree Heap HeapInv.

Open Scope Z_scope.
Open Scope rmdb_scope.

(** Failures of the calls: those of the heap, the index and the catalog,
    a null file handle ([fhs_[name]] of an unknown table), a missing
    index handle ([ihs_.at]) and a failed [assert]. *)
Inductive TxnErr :=
| TxnHeapErr (e : HeapErr)
| TxnIxErr (e : TreeErr)
| TxnMetaErr (e : MetaErr)
| NullFileHandle (tab : string)
| IndexHandleOutOfRange (name : string)
| TxnAssertFailed.

(** The state the transaction manager reads and writes. *)
Record TxnMgr := mkTxnMgr {
  db_ : DbMeta;
  fhs_ : gmap string RmFileHandle;
  ihs_ : gmap string (IxIndexHandle bytes);
  lock_manager_ : LockManager;
  log_manager_ : LogManager;
  txn_map : gmap Z Transaction;
  next_txn_id_ : Z
}.

Definition set_fhs (s : TxnMgr) (m : gmap string RmFileHandle) : TxnMgr :=
  mkTxnMgr (db_ s) m (ihs_ s) (lock_manager_ s) (log_manager_ s) (txn_map s) (next_txn_id_ s).
Definition set_ihs (s : TxnMgr) (m : gmap string (IxIndexHandle bytes)) : TxnMgr :=
  mkTxnMgr (db_ s) (fhs_ s) m (lock_manager_ s) (log_manager_ s) (txn_map s) (next_txn_id_ s).
Definition set_lock (s : TxnMgr) (lm : LockManager) : TxnMgr :=
  mkTxnMgr (db_ s) (fhs_ s) (ihs_ s) lm (log_manager_ s) (txn_map s) (next_txn_id_ s).
Definition set_log (s : TxnMgr) (lg : LogManager) : TxnMgr :=
  mkTxnMgr (db_ s) (fhs_ s) (ihs_ s) (lock_manager_ s) lg (txn_map s) (next_txn_id_ s).

Definition txnM (A : Type) := stM TxnMgr TxnErr A.

Definition modify_log (g : LogManager -> LogManager) : txnM unit :=
  modify (fun s => set_log s (g (log_manager_ s))).

(** [get_next_txn_id]: [next_txn_id_++]. *)
Definition get_next_txn_id : txnM Z := fun s =>
  (Ok (next_txn_id_ s),
   mkTxnMgr (db_ s) (fhs_ s) (ihs_ s) (lock_manager_ s) (log_manager_ s) (txn_map s) (next_txn_id_ s + 1)).

(** [SmManager::get_table_meta]: [db_.tabs_.at(tab_name)]. *)
Definition get_table_meta (tab : string) : txnM TabMeta := fun s =>
  match map_find tab (tabs_ (db_ s)) with
  | Some t => (Ok t, s)
  | None => (Err (TxnMetaErr Meta.OutOfRange), s)
  end.

(** A heap call on the table's file handle, outside a transaction. *)
Definition with_heap {A} (tab : string) (m : heapM A) : txnM A := fun s =>
  match fhs_ s !! tab with
  | None => (Err (NullFileHandle tab), s)
  | Some f =>
      let '(r, hs) := m (mkHeapSt f None) in
      let s' := set_fhs s (<[tab := hfile hs]> (fhs_ s)) in
      match r with Ok a => (Ok a, s') | Err e => (Err (TxnHeapErr e), s') end
  end.

(** A B+ tree call on the index file [name]. *)
Definition with_ix {A} (name : string) (m : ixM bytes A) : txnM A := fun s =>
  match ihs_ s !! name with
  | None => (Err (IndexHandleOutOfRange name), s)
  | Some ih =>
      let '(r, ih') := m ih in
      let s' := set_ihs s (<[name := ih']> (ihs_ s)) in
      match r with Ok a => (Ok a, s') | Err e => (Err (TxnIxErr e), s') end
  end.

(** [IxManager::get_index_name]: the table name, ["_" ^ col] per
    column, then [".idx"]. *)
Definition get_index_name (tab : string) (cols : list ColMeta) : string :=
  (tab ++ foldr (fun c acc => "_" ++ col_name c ++ acc) "" cols ++ ".idx")%string.

(** The index file's key schema ([col_types_], [col_lens_]). *)
Definition ix_schema (im : IndexMeta) : schema :=
  (fun c => (col_type c, Z.to_nat (col_len c))) <$> ix_cols im.

(** The key of a record: the [memcpy] loop over the first [col_num]
    columns of the index. *)
Definition index_key (im : IndexMeta) (rec : bytes) : bytes :=
  mjoin ((fun c => take (Z.to_nat (col_len c)) (drop (Z.to_nat (col_offset c)) rec))
           <$> take (Z.to_nat (col_num im)) (ix_cols im)).

Definition ix_zero (im : IndexMeta) : bytes := replicate (Z.to_nat (col_tot_len im)) Byte.x00.

Section manager.
(** The bound on the B+ tree's height the index calls descend. *)
Variable ix_fuel : nat.

Definition ix_insert (im : IndexMeta) (key : bytes) (rid : Rid) : ixM bytes Z :=
  insert_entry (ix_cmp (ix_schema im)) (ix_zero im) ix_fuel key rid.
Definition ix_delete (im : IndexMeta) (key : bytes) (rid : Rid) : ixM bytes bool :=
  delete_entry (ix_cmp (ix_schema im)) (ix_zero im) ix_fuel key rid.

(** [rollback_writeRecord]: the inverse of the write, its log record,
    and the same change on each index of the table. *)
Definition rollback_writeRecord (w : WriteRecord) (txn : Transaction) : txnM unit :=
  let tab := string_of_list_byte (wr_tab_name w) in
  let rid := wr_rid w in
  let rec := wr_record w in
  let! tm := get_table_meta tab in
  match wr_type w with
  | INSERT_TUPLE =>
      modify_log (fun lm => add_delete_log_record lm (txn_id txn) rec rid (wr_tab_name w)) ;;
      with_heap tab (delete_record_ctx rid) ;;
      iterM (indexes tm) (fun im =>
        with_ix (get_index_name tab (ix_cols im)) (ix_delete im (index_key im rec) rid) ;; ret tt)
  | DELETE_TUPLE =>
      modify_log (fun lm => add_insert_log_record lm (txn_id txn) rec rid (wr_tab_name w)) ;;
      with_heap tab (insert_record_at rid rec) ;;
      iterM (indexes tm) (fun im =>
        with_ix (get_index_name tab (ix_cols im)) (ix_insert im (index_key im rec) rid) ;; ret tt)
  | UPDATE_TUPLE =>
      let! old := with_heap tab (get_record_ctx rid) in
      modify_log (fun lm => add_update_log_record lm (txn_id txn) rec old rid (wr_tab_name w)) ;;
      with_heap tab (update_record_ctx rid rec) ;;
      iterM (indexes tm) (fun im =>
        with_ix (get_index_name tab (ix_cols im))
          (ix_delete im (index_key im old) rid ;; ix_insert im (index_key im rec) rid) ;; ret tt)
  end.

(** The loop over the lock set: [lock_manager_->unlock(txn, id)] for
    each id, in the set's iteration order. *)
Definition unlock_all (lm : LockManager) (txn : Transaction) (ids : list LockDataId) : LockManager :=
  foldl (fun lm id => unlock lm txn id) lm ids.

Definition release_locks (txn : Transaction) : txnM unit :=
  modify (fun s => set_lock s (unlock_all (lock_manager_ s) txn (elements (lock_set_ txn)))).

(** [begin]: a new transaction (id from [get_next_txn_id], state
    [GROWING], entered in [txn_map], whose id must be new) or the
    given one; then the BEGIN log record. *)
Definition begin (txn : option Transaction) : txnM Transaction :=
  let! t := match txn with
    | None =>
        let! id := get_next_txn_id in
        let t := mkTransaction id GROWING ∅ in
        let! m := gets txn_map in
        if bool_decide (is_Some (m !! id)) then throw TxnAssertFailed else
        modify (fun s => mkTxnMgr (db_ s) (fhs_ s) (ihs_ s) (lock_manager_ s) (log_manager_ s)
                           (<[id := t]> m) (next_txn_id_ s)) ;;
        ret t
    | Some t => ret t
    end in
  modify_log (fun lm => add_begin_log_record lm (txn_id t)) ;;
  ret t.

(** [commit]: state [SHRINKING], every lock released, write set and
    lock set cleared, the COMMIT record added and the log flushed,
    state [COMMITTED].  The transaction comes back with its (empty)
    write set. *)
Definition commit (txn : Transaction) (ws : list WriteRecord) : txnM (Transaction * list WriteRecord) :=
  let txn := mkTransaction (txn_id txn) SHRINKING (lock_set_ txn) in
  release_locks txn ;;
  modify_log (fun lm => flush_log_to_disk (add_commit_log_record lm (txn_id txn))) ;;
  ret (mkTransaction (txn_id txn) COMMITTED ∅, []).

(** [abort]: the write set rolled back from its last entry to its
    first, then as [commit] with the ABORT record and state [ABORTED]. *)
Definition abort (txn : Transaction) (ws : list WriteRecord) : txnM (Transaction * list WriteRecord) :=
  iterM (rev ws) (fun w => rollback_writeRecord w txn) ;;
  let txn := mkTransaction (txn_id txn) SHRINKING (lock_set_ txn) in
  release_locks txn ;;
  modify_log (fun lm => flush_log_to_disk (add_abort_log_record lm (txn_id txn))) ;;
  ret (mkTransaction (txn_id txn) ABORTED ∅, []).

End manager.

(** ** Releasing the locks *)

(** [unlock_all] keeps the lock table's invariant, removes every
    request of the transaction on the ids it goes through, and leaves
    all other requests in place. *)
Lemma unlock_all_correct lm txn ids :
  lock_inv lm ->
  lock_inv (unlock_all lm txn ids) /\
  (forall id r, (exists q, lock_table_ (unlock_all lm txn ids) !! id = Some q /\ r ∈ q) <->
     (exists q, lock_table_ lm !! id = Some q /\ r ∈ q) /\ (id ∈ ids -> txn_id_ r <> txn_id txn)).
Proof.
  revert lm. induction ids as [|id0 ids IH]; intros lm Hinv; cbn.
  - split; [done|]. intros id r. split; [|naive_solver]. intros H. split; [done|]. by intros ?%elem_of_nil.
  - destruct (unlock_correct lm txn id0 Hinv) as [Hi Hr].
    destruct (IH _ Hi) as [Hi' Hr']. split; [done|]. intros id r.
    rewrite Hr', Hr, elem_of_cons. naive_solver.
Qed.

(** ** The heap header along the rollback primitives *)

Lemma write_new_hdr f p slot r : rm_file_hdr_ (write_new f p slot r) = rm_file_hdr_ f.
Proof. unfold write_new. by destruct (_ =? _). Qed.

Lemma free_slot_hdr f p slot : rm_file_hdr_ (free_slot f p slot) = rm_file_hdr_ f.
Proof. done. Qed.

Lemma overwrite_slot_hdr f p slot r : rm_file_hdr_ (overwrite_slot f p slot r) = rm_file_hdr_ f.
Proof. done. Qed.

(** ** Running the lifted calls *)

Lemma get_table_meta_ok s tab tm :
  map_find tab (tabs_ (db_ s)) = Some tm -> get_table_meta tab s = (Ok tm, s).
Proof. unfold get_table_meta. by intros ->. Qed.

Lemma with_heap_ok {A} s tab f (m : heapM A) a f' :
  fhs_ s !! tab = Some f -> m (mkHeapSt f None) = (Ok a, mkHeapSt f' None) ->
  with_heap tab m s = (Ok a, set_fhs s (<[tab := f']> (fhs_ s))).
Proof. unfold with_heap. by intros -> ->. Qed.

(** ** What the write set records

    A table's contents as a partial map from rids to records, and the
    change each write-set entry stands for: the heap operations that
    append an entry ([insert_record], [delete_record],
    [update_record] of [Heap]) make exactly this change (see
    [HeapInv.insert_record_txn] and [HeapInv.update_record_txn]). *)
Definition fwd (w : WriteRecord) (m m' : Rid -> option bytes) : Prop :=
  match wr_type w with
  | INSERT_TUPLE => m (wr_rid w) = None /\
      forall x, m' x = if decide (x = wr_rid w) then Some (wr_record w) else m x
  | DELETE_TUPLE => m (wr_rid w) = Some (wr_record w) /\
      forall x, m' x = if decide (x = wr_rid w) then None else m x
  | UPDATE_TUPLE => m (wr_rid w) = Some (wr_record w) /\
      exists r, forall x, m' x = if decide (x = wr_rid w) then Some r else m x
  end.

(** [wrote m ws m']: the write set [ws], oldest entry first, took the
    table from [m] to [m']. *)
Inductive wrote : (Rid -> option bytes) -> list WriteRecord -> (Rid -> option bytes) -> Prop :=
| wrote_nil m m' : (forall x, m' x = m x) -> wrote m [] m'
| wrote_snoc m ws m1 w m2 : wrote m ws m1 -> fwd w m1 m2 -> wrote m (ws ++ [w]) m2.

(** An entry the rollback can undo on the file with header [h] of table
    [tab]: it names the table, its rid is a slot of the file and its
    record fits the record size. *)
Definition undo_ok (tab : string) (h : RmFileHdr) (w : WriteRecord) : Prop :=
  string_of_list_byte (wr_tab_name w) = tab /\
  1 <= page_no (wr_rid w) < num_pages h /\ 0 <= slot_no (wr_rid w) < num_records_per_page h /\
  (length (wr_record w) <= record_size h)%nat.

(** The parts of the manager a rollback leaves alone. *)
Definition frame (s s' : TxnMgr) : Prop :=
  db_ s' = db_ s /\ ihs_ s' = ihs_ s /\ lock_manager_ s' = lock_manager_ s /\
  txn_map s' = txn_map s /\ next_txn_id_ s' = next_txn_id_ s.

Lemma frame_refl s : frame s s.
Proof. done. Qed.

Lemma frame_trans s1 s2 s3 : frame s1 s2 -> frame s2 s3 -> frame s1 s3.
Proof. unfold frame. intuition congruence. Qed.

#[export] Hint Resolve frame_refl : rmdb.

Lemma rollback_step fuel s txn w tab tm g m1 m2 :
  map_find tab (tabs_ (db_ s)) = Some tm -> indexes tm = [] ->
  fhs_ s !! tab = Some g -> heap_inv g -> undo_ok tab (rm_file_hdr_ g) w ->
  fwd w m1 m2 -> (forall x, records g x = m2 x) ->
  exists s' g', rollback_writeRecord fuel w txn s = (Ok tt, s') /\ frame s s' /\
    fhs_ s' = <[tab := g']> (fhs_ s) /\ heap_inv g' /\ rm_file_hdr_ g' = rm_file_hdr_ g /\
    forall x, records g' x = m1 x.
Proof.
  intros Htm Hix Hg Hinv (Htab & Hp & Hs & Hlen) Hf Hm.
  unfold rollback_writeRecord. rewrite Htab. erewrite bindM_ok by (by apply get_table_meta_ok). rewrite Hix.
  unfold fwd in Hf. destruct (wr_type w).
  - destruct Hf as [H1 H2].
    assert (Hr : records g (wr_rid w) = Some (wr_record w)) by (rewrite Hm, H2; by rewrite decide_True).
    unfold modify_log, modify, bindM at 1.
    erewrite bindM_ok by (eapply with_heap_ok; [exact Hg|apply (delete_record_run g true _ _ Hinv Hr)]).
    eexists _, _. split; [reflexivity|]. split; [done|]. split; [done|].
    split_and!; [apply free_slot_inv; [done|]|done|].
    + exact (bool_decide_eq_true_1 _ (records_Some_is_record _ _ _ Hr)).
    + intros x. rewrite records_free_slot, Hm, H2. destruct (wr_rid w) as [p sl]. cbn.
      case_decide; [by subst|done].
  - destruct Hf as [H1 H2].
    assert (Hr : records g (wr_rid w) = None) by (rewrite Hm, H2; by rewrite decide_True).
    unfold modify_log, modify, bindM at 1.
    erewrite bindM_ok by (eapply with_heap_ok; [exact Hg|apply (insert_record_at_run g _ _ Hinv Hp Hr)]).
    rewrite take_ge by done.
    eexists _, _. split; [reflexivity|]. split; [done|]. split; [done|].
    split_and!; [apply write_new_inv; [done|done|done|]|apply write_new_hdr|].
    + exact (bool_decide_eq_false_1 _ (records_None_is_record _ _ Hr)).
    + intros x. rewrite records_write_new, Hm, H2. destruct (wr_rid w) as [p sl]. cbn in *.
      case_decide; [by subst|done].
  - destruct Hf as [H1 [r H2]].
    assert (Hr : records g (wr_rid w) = Some r) by (rewrite Hm, H2; by rewrite decide_True).
    erewrite bindM_ok by (eapply with_heap_ok; [exact Hg|apply (get_record_spec g true _ _ Hinv Hr)]).
    unfold modify_log, modify, bindM at 1.
    erewrite bindM_ok by (eapply with_heap_ok; [cbn; by rewrite lookup_insert_eq|apply (update_record_run g true _ _ _ Hinv Hr)]).
    rewrite take_ge by done.
    eexists _, _. split; [reflexivity|]. split; [done|]. split; [cbn; by rewrite insert_insert_eq|].
    split_and!; [by apply overwrite_slot_inv|done|].
    intros x. rewrite records_overwrite_slot, Hm, H2. destruct (wr_rid w) as [p sl]. cbn in *.
    destruct (decide (x = mkRid p sl)) as [->|Hx].
    + rewrite bool_decide_true by done. cbn. by rewrite (records_Some_is_record _ _ _ Hr).
    + by rewrite bool_decide_false by done.
Qed.

(** Rolling back the write set from its last entry to its first undoes
    it: the table is back to what it was before the first write. *)
Lemma rollback_all fuel txn tab tm m0 ws m :
  wrote m0 ws m ->
  forall s g, map_find tab (tabs_ (db_ s)) = Some tm -> indexes tm = [] ->
  fhs_ s !! tab = Some g -> heap_inv g -> Forall (undo_ok tab (rm_file_hdr_ g)) ws ->
  (forall x, records g x = m x) ->
  exists s' g', iterM (rev ws) (fun w => rollback_writeRecord fuel w txn) s = (Ok tt, s') /\
    frame s s' /\ fhs_ s' = <[tab := g']> (fhs_ s) /\ heap_inv g' /\
    rm_file_hdr_ g' = rm_file_hdr_ g /\ forall x, records g' x = m0 x.
Proof.
  induction 1 as [m m' Hmm|m ws m1 w m2 Hw IH Hf]; intros s g Htm Hix Hg Hinv Hok Hm.
  - exists s, g. split_and!; [done|done|by rewrite insert_id|done|done|]. intros x. by rewrite Hm, Hmm.
  - rewrite rev_app_distr. cbn [rev app iterM]. apply Forall_app in Hok as [Hok [Hw1 _]%Forall_cons].
    destruct (rollback_step fuel s txn w tab tm g m1 m2 Htm Hix Hg Hinv Hw1 Hf Hm)
      as (s1 & g1 & Hrun & Hfr & Hfhs & Hinv1 & Hh1 & Hm1).
    rewrite (bindM_ok _ _ _ _ _ Hrun).
    destruct (IH s1 g1) as (s2 & g2 & Hrun2 & Hfr2 & Hfhs2 & Hinv2 & Hh2 & Hm2);
      [by destruct Hfr as [-> _]|done|by rewrite Hfhs, lookup_insert_eq|done|by rewrite Hh1|done|].
    exists s2, g2. split_and!; [done|by eapply frame_trans|by rewrite Hfhs2, Hfhs, insert_insert_eq|done|congruence|done].
Qed.

(** The lock table after [release_locks]: the invariant is kept and
    the transaction holds nothing on the ids of its lock set. *)
Lemma release_locks_run s txn :
  release_locks txn s = (Ok tt, set_lock s (unlock_all (lock_manager_ s) txn (elements (lock_set_ txn)))).
Proof. done. Qed.

Lemma unlock_all_elements lm txn txn' :
  lock_inv lm -> txn_id txn' = txn_id txn ->
  lock_inv (unlock_all lm txn' (elements (lock_set_ txn))) /\
  (forall id r, (exists q, lock_table_ (unlock_all lm txn' (elements (lock_set_ txn))) !! id = Some q /\ r ∈ q) <->
     (exists q, lock_table_ lm !! id = Some q /\ r ∈ q) /\ (id ∈ lock_set_ txn -> txn_id_ r <> txn_id txn)).
Proof.
  intros Hinv Hid. destruct (unlock_all_correct lm txn' (elements (lock_set_ txn)) Hinv) as [Hi Hr].
  split; [done|]. intros id r. rewrite Hr, elem_of_elements, Hid. done.
Qed.

(** C11: [commit] always succeeds: the transaction comes back
    [COMMITTED] with empty lock and write sets; the lock table keeps
    its invariant and holds no request of the transaction on any
    object of its lock set, every other request staying where it was;
    the COMMIT record is added and the log flushed; the tables are not
    touched. *)
Theorem commit_releases s txn ws :
  lock_inv (lock_manager_ s) ->
  exists s', commit txn ws s = (Ok (mkTransaction (txn_id txn) COMMITTED ∅, []), s') /\
    fhs_ s' = fhs_ s /\ db_ s' = db_ s /\ ihs_ s' = ihs_ s /\
    log_manager_ s' = flush_log_to_disk (add_commit_log_record (log_manager_ s) (txn_id txn)) /\
    lock_inv (lock_manager_ s') /\
    forall id r, (exists q, lock_table_ (lock_manager_ s') !! id = Some q /\ r ∈ q) <->
      (exists q, lock_table_ (lock_manager_ s) !! id = Some q /\ r ∈ q) /\
      (id ∈ lock_set_ txn -> txn_id_ r <> txn_id txn).
Proof.
  intros Hinv. unfold commit. rewrite (bindM_ok _ _ _ _ _ (release_locks_run _ _)).
  eexists. split; [reflexivity|]. cbn.
  split_and!; [done..| |]; apply unlock_all_elements; done.
Qed.

(** C10: [abort] of a transaction whose write set [ws] (oldest entry
    first) took a table without indexes from [m0] to its current
    records rolls every write back, from the last to the first: the
    call succeeds, the table's file keeps its invariant and holds
    exactly the records [m0] again; the transaction comes back
    [ABORTED] with empty lock and write sets, the lock table keeps its
    invariant and holds no request of the transaction on its lock set,
    every other request staying; the log ends with the ABORT record
    and is flushed. *)
Theorem abort_restores fuel s txn ws tab tm f m0 :
  map_find tab (tabs_ (db_ s)) = Some tm -> indexes tm = [] ->
  fhs_ s !! tab = Some f -> heap_inv f -> Forall (undo_ok tab (rm_file_hdr_ f)) ws ->
  wrote m0 ws (records f) -> lock_inv (lock_manager_ s) ->
  exists s' f', abort fuel txn ws s = (Ok (mkTransaction (txn_id txn) ABORTED ∅, []), s') /\
    fhs_ s' = <[tab := f']> (fhs_ s) /\ heap_inv f' /\ (forall x, records f' x = m0 x) /\
    (exists lg, log_manager_ s' = flush_log_to_disk (add_abort_log_record lg (txn_id txn))) /\
    lock_inv (lock_manager_ s') /\
    forall id r, (exists q, lock_table_ (lock_manager_ s') !! id = Some q /\ r ∈ q) <->
      (exists q, lock_table_ (lock_manager_ s) !! id = Some q /\ r ∈ q) /\
      (id ∈ lock_set_ txn -> txn_id_ r <> txn_id txn).
Proof.
  intros Htm Hix Hf Hinv Hok Hw Hlk.
  destruct (rollback_all fuel txn tab tm m0 ws (records f) Hw s f Htm Hix Hf Hinv Hok (fun _ => eq_refl))
    as (s1 & f1 & Hrun & (_ & _ & Hlk1 & _) & Hfhs & Hinv1 & _ & Hm1).
  unfold abort. rewrite (bindM_ok _ _ _ _ _ Hrun), (bindM_ok _ _ _ _ _ (release_locks_run _ _)).
  exists (set_log (set_lock s1 (unlock_all (lock_manager_ s1) (mkTransaction (txn_id txn) SHRINKING (lock_set_ txn))
      (elements (lock_set_ txn)))) (flush_log_to_disk (add_abort_log_record (log_manager_ s1) (txn_id txn)))), f1.
  split; [reflexivity|]. cbn. rewrite Hlk1.
  split_and!; [done|done|done|by eexists| |]; apply unlock_all_elements; done.
Qed.

(** Every transaction in [txn_map] has an id below [next_txn_id_]. *)
Definition ids_below (s : TxnMgr) : Prop := map_Forall (fun id _ => id < next_txn_id_ s) (txn_map s).

(** C36: [begin] without a transaction never trips its assertion when
    the ids in [txn_map] are below [next_txn_id_]: it creates the
    transaction [next_txn_id_] in state [GROWING] with an empty lock
    set, enters it in [txn_map], advances [next_txn_id_], adds the
    BEGIN record, and keeps the ids below the counter, so that the
    next [begin] again gets a fresh id. *)
Theorem begin_fresh s :
  ids_below s ->
  exists s', begin None s = (Ok (mkTransaction (next_txn_id_ s) GROWING ∅), s') /\
    txn_map s' = <[next_txn_id_ s := mkTransaction (next_txn_id_ s) GROWING ∅]> (txn_map s) /\
    next_txn_id_ s' = next_txn_id_ s + 1 /\
    log_manager_ s' = add_begin_log_record (log_manager_ s) (next_txn_id_ s) /\
    lock_manager_ s' = lock_manager_ s /\ fhs_ s' = fhs_ s /\ ids_below s'.
Proof.
  intros Hb. unfold begin, get_next_txn_id, gets, bindM. cbn.
  assert (Hnone : txn_map s !! next_txn_id_ s = None).
  { destruct (txn_map s !! next_txn_id_ s) eqn:E; [|done]. apply Hb in E. lia. }
  rewrite Hnone, bool_decide_false by (intros [? ?]; congruence).
  eexists. split; [reflexivity|]. cbn. split_and!; try done.
  unfold ids_below. cbn. apply map_Forall_insert_2; [lia|].
  eapply map_Forall_impl; [exact Hb|]. cbn. lia.
Qed.

(** ** A transaction on a sample table *)

(** Table [t] with no index, whose file [heap1] holds the record [buf1]
    at [rid1] inserted by transaction [T1] into the empty [heap0]. *)
Definition tab_t_meta : TabMeta := mkTabMeta "t" [] [] ∅.
Definition db_t : DbMeta := mkDbMeta "db" [("t"%string, tab_t_meta)].
Definition ws1 : list WriteRecord := [mkWriteRecord INSERT_TUPLE [Byte.x74] rid1 buf1].
Definition mgr1 : TxnMgr := mkTxnMgr db_t {["t"%string := heap1]} ∅ lm_empty empty_log ∅ 2.

Lemma heap1_write : heap1 = write_new (add_new_page heap0) 1 0 buf1.
Proof. vm_compute. reflexivity. Qed.

Lemma ws1_wrote : wrote (records heap0) ws1 (records heap1).
Proof.
  apply (wrote_snoc _ [] (records heap0)); [by constructor|]. split; [by vm_compute|].
  intros x. rewrite heap1_write, records_write_new, add_new_page_records by exact heap0_inv. done.
Qed.

Lemma lm_empty_inv : lock_inv lm_empty.
Proof. apply map_Forall_empty. Qed.

Lemma abort_restores_witness :
  exists s' f', abort 3 T1 ws1 mgr1 = (Ok (mkTransaction 1 ABORTED ∅, []), s') /\
    fhs_ s' = {["t"%string := f']} /\ forall x, records f' x = records heap0 x.
Proof.
  destruct (abort_restores 3 mgr1 T1 ws1 "t" tab_t_meta heap1 (records heap0))
    as (s' & f' & Hrun & Hfhs & _ & Hm & _);
    [reflexivity|reflexivity|reflexivity|exact heap1_inv| |exact ws1_wrote|exact lm_empty_inv|].
  - repeat constructor; vm_compute; congruence.
  - exists s', f'. split; [exact Hrun|]. split; [|exact Hm]. rewrite Hfhs. apply insert_insert_eq.
Defined.

Lemma commit_releases_witness :
  exists s', commit T1 [] mgr1 = (Ok (mkTransaction 1 COMMITTED ∅, []), s') /\ lock_inv (lock_manager_ s').
Proof.
  destruct (commit_releases mgr1 T1 [] lm_empty_inv) as (s' & Hrun & _ & _ & _ & _ & Hi & _).
  exists s'. split; [exact Hrun|exact Hi].
Defined.

Lemma begin_fresh_witness :
  exists s', begin None mgr1 = (Ok (mkTransaction 2 GROWING ∅), s') /\ ids_below s'.
Proof.
  destruct (begin_fresh mgr1) as (s' & Hrun & _ & _ & _ & _ & _ & Hb); [apply map_Forall_empty|].
  exists s'. split; [exact Hrun|exact Hb].
Defined.
