(* ===== verification/Exec.v ===== *)
(** * The executors: [execution/executor_abstract.h] and the operators

    The volcano interface of [AbstractExecutor] ([beginTuple],
    [nextTuple], [is_end], [Next], [cols], [tupleLen]) is the class
    [Executor] over the operator's own state; every method runs in a
    state-exception monad over the operator's state and the shared
    context: the system ([Txn.TxnMgr]: catalog, open files, lock and
    log managers) with the running transaction and its write set.  A
    parent runs its child's methods on the child's part of its state
    ([on_child]).  This file holds the predicate evaluation of
    [AbstractExecutor] ([get_col] through [hash_cols_], [eval_cond],
    [eval_conds]) with [SmManager::check_datetime_], and
    [SeqScanExecutor] with its refinement: drained to its end, the scan
    returns exactly the file's records that satisfy its conditions, in
    rid order.  [drain] is the loop every consumer runs ([for
    (beginTuple(); !is_end(); nextTuple()) Next()]); [ExecutorConst]
    states the laws a child must meet for the operators of
    [Operators.v] and [Sort.v] to be proved against the interface. *)

From Stdlib Require Import ZArith Lia Strings.String.
From stdpp Require Import base list gmap sets.
From S2P Require Import Prelude Log Lock Key Value Meta Heap HeapInv HeapScan Txn.

Open Scope Z_scope.
Open Scope rmdb_scope.

(** The exceptions the executors throw, a dereferenced null record
    ([NullRecord]) and [std::out_of_range] ([ExecOutOfRange]). *)
Inductive ExecErr :=
| ExecHeapErr (e : HeapErr)
| ExecMetaErr (e : MetaErr)
| ExecTxnErr (e : TxnErr)
| ExecAbort (r : AbortReason)
| ColumnNotFoundError (name : string)
| InvalidValueError (v : bytes)
| ExecInternalError
| ExecAssertFailed
| NullRecord
| ExecOutOfRange
| ExecOutOfFuel
| ExecValErr (e : ValErr)
| InvalidValueCountError
| IncompatibleTypeError (lhs rhs : string)
| IndexInsertDuplicatedError
| InternalError (msg : string).

(** [Context] with the [SmManager] it reaches: the system, the running
    transaction and its write set. *)
Record ExecCtx := mkExecCtx {
  ec_sys : TxnMgr;
  ec_txn : Transaction;
  ec_ws : list WriteRecord
}.

Definition exM (St A : Type) := stM (ExecCtx * St) ExecErr A.

Definition get_st {St} : exM St St := gets snd.
Definition put_st {St} (x : St) : exM St unit := modify (fun cs => (cs.1, x)).
Definition get_ctx {St} : exM St ExecCtx := gets fst.
Definition put_ctx {St} (c : ExecCtx) : exM St unit := modify (fun cs => (c, cs.2)).

Definition liftE {St A} (r : res ExecErr A) : exM St A :=
  match r with Ok a => ret a | Err e => throw e end.

(** A child's method on the child's part [get] of the state. *)
Definition on_child {S T A} (get : S -> T) (put : S -> T -> S) (m : exM T A) : exM S A := fun '(c, s) =>
  let '(r, (c', t')) := m (c, get s) in (r, (c', put s t')).

(** ** [SmManager::check_datetime_] *)

Definition is_digit (b : Byte.byte) : bool := (48 <=? Byte.to_N b)%N && (Byte.to_N b <=? 57)%N.

(** The [for] loop that copies [n] digits from [s[p]] on: their value
    as [std::stoi] reads it, or [None] at a non-digit. *)
Fixpoint digits_at (s : bytes) (p n : nat) (acc : Z) : option Z :=
  match n with
  | O => Some acc
  | S n' =>
      match s !! p with
      | Some b => if is_digit b then digits_at s (S p) n' (acc * 10 + (Z.of_N (Byte.to_N b) - 48)) else None
      | None => None
      end
  end.

Definition sep_at (s : bytes) (p : nat) (c : Byte.byte) : bool := bool_decide (s !! p = Some c).

Definition dt_min : bytes := list_byte_of_string "1000-01-01 00:00:00".
Definition dt_max : bytes := list_byte_of_string "9999-12-31 23:59:59".

(** The length, the bounds as strings, the six digit fields with their
    separators, then the ranges of month, day (February 30 excluded),
    hour, minute and second. *)
Definition check_datetime_ (s : bytes) : bool :=
  (strlen s =? 19) && negb (str_lt s dt_min) && negb (str_lt dt_max s) &&
  match digits_at s 0 4 0, digits_at s 5 2 0, digits_at s 8 2 0,
        digits_at s 11 2 0, digits_at s 14 2 0, digits_at s 17 2 0 with
  | Some _, Some mo, Some d, Some h, Some mi, Some sec =>
      sep_at s 4 Byte.x2d && sep_at s 7 Byte.x2d && sep_at s 10 Byte.x20 &&
      sep_at s 13 Byte.x3a && sep_at s 16 Byte.x3a &&
      (1 <=? mo) && (mo <=? 12) && (1 <=? d) && (d <=? 31) &&
      negb ((mo =? 2) && (d =? 30)) && (h <=? 23) && (mi <=? 59) && (sec <=? 59)
  | _, _, _, _, _, _ => false
  end.

(** ** Column lookup through [hash_cols_] *)

(** [get_hash_key]: ["tab$col"]. *)
Definition hash_key (tab col : string) : string := (tab ++ "$" ++ col)%string.

(** [init_hash_cols]: each column's key to its position, a later
    column of the same key overriding an earlier one. *)
Definition init_hash_cols (cols : list ColMeta) : gmap string Z :=
  foldl (fun h ic => <[hash_key (col_tab_name ic.2) (col_name ic.2) := Z.of_nat ic.1]> h) ∅ (imap pair cols).

(** [get_col(target)]: the iterator [cols().begin() + i] as the
    position [i] and the column there. *)
Definition get_col (hash : gmap string Z) (cols : list ColMeta) (target : TabCol) : res ExecErr (nat * ColMeta) :=
  match hash !! hash_key (tc_tab_name target) (tc_col_name target) with
  | None => Err (ColumnNotFoundError (tc_tab_name target ++ "." ++ tc_col_name target)%string)
  | Some i => match cols !! Z.to_nat i with Some c => Ok (Z.to_nat i, c) | None => Err ExecInternalError end
  end.

(** ** Predicates *)

Definition eval_op (o : CompOp) (cmp : Z) : bool :=
  match o with
  | OP_EQ => cmp =? 0
  | OP_NE => negb (cmp =? 0)
  | OP_LT => cmp <? 0
  | OP_GT => 0 <? cmp
  | OP_LE => cmp <=? 0
  | OP_GE => 0 <=? cmp
  end.

(** [eval_cond(prev_, cond, rec)] with the columns of [prev_]. *)
Definition eval_cond (hash : gmap string Z) (cols : list ColMeta) (cond : Condition) (rec : bytes)
    : res ExecErr bool :=
  let* lc := get_col hash cols (lhs_col cond) in
  let lhs_col := lc.2 in
  let lhs := drop (Z.to_nat (col_offset lhs_col)) rec in
  let* rhs := (if is_rhs_val cond then
                 match raw (rhs_val cond) with
                 | Some r => Ok (v_type (rhs_val cond), r)
                 | None => Err NullRecord
                 end
               else
                 let* rc := get_col hash cols (rhs_col cond) in
                 Ok (col_type rc.2, drop (Z.to_nat (col_offset rc.2)) rec)) in
  let '(rhs_type, rhs) := rhs in
  if negb (bool_decide (rhs_type = col_type lhs_col)) then Err ExecAssertFailed else
  if is_rhs_val cond && bool_decide (rhs_type = TYPE_DATETIME) &&
     negb (check_datetime_ (datetime_val (rhs_val cond)))
  then Err (InvalidValueError (datetime_val (rhs_val cond))) else
  match ix_compare_col rhs_type (Z.to_nat (col_len lhs_col)) lhs rhs with
  | Some cmp => Ok (eval_op (op cond) cmp)
  | None => Err ExecInternalError
  end.

(** [eval_conds]: the conditions in order, stopping at the first false. *)
Fixpoint eval_conds (hash : gmap string Z) (cols : list ColMeta) (conds : list Condition) (rec : bytes)
    : res ExecErr bool :=
  match conds with
  | [] => Ok true
  | c :: cs =>
      let* b := eval_cond hash cols c rec in
      if b then eval_conds hash cols cs rec else Ok false
  end.

(** ** The executor interface *)

(** The virtual methods of [AbstractExecutor]; [Next] gives [None] for
    a null [std::unique_ptr<RmRecord>]. *)
Class Executor (St : Type) := {
  beginTuple : exM St unit;
  nextTuple : exM St unit;
  is_end : exM St bool;
  Next : exM St (option bytes);
  ex_cols : St -> list ColMeta;
  tupleLen : St -> Z;
  get_col_offset : St -> TabCol -> ColMeta
}.

(** [ColMeta()]: value-initialised, so every scalar field is zero
    ([TYPE_INT], length and offset 0). *)
Definition default_col : ColMeta := mkColMeta "" "" TYPE_INT 0 0 false.

(** The [get_col_offset] override of the operators: the first column of
    [cols] with the target's table and name, else [ColMeta()]. *)
Definition find_col (cols : list ColMeta) (target : TabCol) : ColMeta :=
  match list_find (fun c => col_tab_name c = tc_tab_name target /\ col_name c = tc_col_name target) cols with
  | Some (_, c) => c
  | None => default_col
  end.

(** The laws of a well-behaved operator: [is_end] is a [const]
    method, [Next] does not move the operator (so [is_end] is still
    false after it), and the columns [cols()] never change. *)
Class ExecutorConst (St : Type) `{Executor St} := {
  is_end_const : forall cs, snd (is_end cs) = cs;
  Next_not_end : forall cs r cs', is_end cs = (Ok false, cs) -> Next cs = (Ok r, cs') ->
    is_end cs' = (Ok false, cs');
  cols_begin : forall cs, ex_cols (snd (beginTuple cs)).2 = ex_cols cs.2;
  cols_next : forall cs, ex_cols (snd (nextTuple cs)).2 = ex_cols cs.2;
  cols_Next : forall cs, ex_cols (snd (Next cs)).2 = ex_cols cs.2
}.

Section drain.
Context `{Executor St}.

(** [for (beginTuple(); !is_end(); nextTuple()) out.push_back(Next());]
    with at most [fuel] iterations. *)
Fixpoint drain_loop (fuel : nat) : exM St (list (option bytes)) :=
  let! e := is_end in
  if e then ret [] else
  match fuel with
  | O => throw ExecOutOfFuel
  | S fuel =>
      let! r := Next in
      nextTuple ;;
      let! rs := drain_loop fuel in
      ret (r :: rs)
  end.

Definition drain (fuel : nat) : exM St (list (option bytes)) := beginTuple ;; drain_loop fuel.
End drain.

(** ** Reading the tables *)

(** [sm_manager_->fhs_[tab]]: a missing table is a null handle. *)
Definition file_of {St} (tab : string) : exM St RmFileHandle := fun cs =>
  match fhs_ (ec_sys cs.1) !! tab with
  | Some f => (Ok f, cs)
  | None => (Err (ExecTxnErr (NullFileHandle tab)), cs)
  end.

Definition heap_res {A} (r : res HeapErr A) : res ExecErr A :=
  match r with Ok a => Ok a | Err e => Err (ExecHeapErr e) end.

(** [RmScan::get_now_record(false)] on the file: it takes no lock and
    changes nothing. *)
Definition read_now (f : RmFileHandle) (rid : Rid) : res ExecErr bytes :=
  heap_res (fst (get_now_record false rid (mkHeapSt f None))).

(** [context_->lock_mgr_->lock_shared_on_table(context_->txn_, fd)];
    a refusal throws [TransactionAbortException]. *)
Definition lock_table_shared {St} (fd : Z) : exM St unit := fun '(c, s) =>
  match lock_shared_on_table (lock_manager_ (ec_sys c)) (ec_txn c) fd with
  | Ok (lm, t) => (Ok tt, (mkExecCtx (set_lock (ec_sys c) lm) t (ec_ws c), s))
  | Err r => (Err (ExecAbort r), (c, s))
  end.

(** ** [SeqScanExecutor] *)

(** The scan's fields: [scan_] is [None] before [beginTuple] makes the
    [RmScan], and then its current rid; [rid_] is indeterminate until
    the first record is read.  [fh_] is reached through [ss_tab] in the
    open files [fhs_]; [ss_rec_size] is the [record_size] of its file
    header, which [tupleLen] returns and which no call changes. *)
Record SeqScanSt := mkSeqScan {
  ss_tab : string;
  ss_conds : list Condition;
  ss_cols : list ColMeta;
  ss_len : Z;
  ss_rec_size : Z;
  ss_hash : gmap string Z;
  ss_rid : Rid;
  ss_scan : option Rid;
  ss_buf : option bytes
}.

Definition ss_at (st : SeqScanSt) (rid : Rid) (buf : option bytes) (scan : option Rid) : SeqScanSt :=
  mkSeqScan (ss_tab st) (ss_conds st) (ss_cols st) (ss_len st) (ss_rec_size st) (ss_hash st) rid scan buf.

(** The constructor: the table's columns from the catalog
    ([get_table] throws for a missing table), [len_] from the last
    column ([cols_.back()] of no columns is undefined:
    [ExecInternalError]), the column hash.  [fh_ = fhs_[tab_name]] is
    null when the table's file is not open; every method and
    [tupleLen] dereference it, so the model refuses such a scan here,
    with the error [file_of] gives. *)
Definition seq_scan_new (c : ExecCtx) (tab : string) (conds : list Condition) : res ExecErr SeqScanSt :=
  match get_table (db_ (ec_sys c)) tab with
  | Err e => Err (ExecMetaErr e)
  | Ok t =>
      match last (tab_cols t) with
      | None => Err ExecInternalError
      | Some lc =>
          match fhs_ (ec_sys c) !! tab with
          | None => Err (ExecTxnErr (NullFileHandle tab))
          | Some f =>
              Ok (mkSeqScan tab conds (tab_cols t) (col_offset lc + col_len lc)
                    (Z.of_nat (record_size (rm_file_hdr_ f))) (init_hash_cols (tab_cols t))
                    (mkRid RM_INVALID_PAGE_ID (-1)) None None)
          end
      end
  end.

(** [check_runtime_conds]: every condition is on this table. *)
Definition check_runtime_conds (tab : string) (conds : list Condition) : res ExecErr unit :=
  if forallb (fun c => bool_decide (tc_tab_name (lhs_col c) = tab) &&
                       (is_rhs_val c || bool_decide (tc_tab_name (rhs_col c) = tab))) conds
  then Ok tt else Err ExecAssertFailed.

Section seq_scan.
(** The bound on the records one [beginTuple] or [nextTuple] skips. *)
Variable scan_fuel : nat.

(** The loop shared by [beginTuple] and [nextTuple]: from the scan's
    rid, read the record into [record_buffer] and stop at the first
    that satisfies [fed_conds_], else [RmScan::next]. *)
Fixpoint seek (fuel : nat) (f : RmFileHandle) (st : SeqScanSt) (rid : Rid) : res ExecErr SeqScanSt :=
  if scan_is_end rid then Ok (ss_at st (ss_rid st) (ss_buf st) (Some rid)) else
  match fuel with
  | O => Err ExecOutOfFuel
  | S fuel =>
      let* buf := read_now f rid in
      let st := ss_at st rid (Some buf) (ss_scan st) in
      let* b := eval_conds (ss_hash st) (ss_cols st) (ss_conds st) buf in
      if b then Ok (ss_at st rid (Some buf) (Some rid)) else
      let* rid' := heap_res (scan_next f rid) in
      seek fuel f st rid'
  end.

Definition ss_begin : exM SeqScanSt unit :=
  let! st := get_st in
  liftE (check_runtime_conds (ss_tab st) (ss_conds st)) ;;
  let! f := file_of (ss_tab st) in
  lock_table_shared (rm_fd_ f) ;;
  let! st := liftE (seek scan_fuel f st (scan_open f)) in
  put_st st.

Definition ss_is_end : exM SeqScanSt bool :=
  let! st := get_st in
  match ss_scan st with
  | None => throw NullRecord
  | Some r => ret (scan_is_end r)
  end.

Definition ss_next : exM SeqScanSt unit :=
  let! st := get_st in
  liftE (check_runtime_conds (ss_tab st) (ss_conds st)) ;;
  let! e := ss_is_end in
  if e then throw ExecAssertFailed else
  let! f := file_of (ss_tab st) in
  match ss_scan st with
  | None => throw NullRecord
  | Some r =>
      let! r' := liftE (heap_res (scan_next f r)) in
      let! st := liftE (seek scan_fuel f st r') in
      put_st st
  end.

(** [Next]: [std::move(record_buffer)] leaves the buffer null. *)
Definition ss_Next : exM SeqScanSt (option bytes) :=
  let! e := ss_is_end in
  if e then throw ExecAssertFailed else
  let! st := get_st in
  put_st (ss_at st (ss_rid st) None (ss_scan st)) ;;
  ret (ss_buf st).

#[global] Instance SeqScanExecutor : Executor SeqScanSt := {
  beginTuple := ss_begin;
  nextTuple := ss_next;
  is_end := ss_is_end;
  Next := ss_Next;
  ex_cols := ss_cols;
  tupleLen := ss_rec_size;
  get_col_offset st := find_col (ss_cols st)
}.
End seq_scan.

(** ** The scan cursor *)

(** The record at a rid, and the rids a scan positioned at [y] still
    visits: [y] and the records after it, none at the end. *)
Definition rec_at (f : RmFileHandle) (y : Rid) : bytes := get_slot f (page_of f (page_no y)) (slot_no y).

Definition after (f : RmFileHandle) (y : Rid) : list Rid :=
  records_from f (seqZ (page_no y) (npages f - page_no y)) (slot_no y).

Definition cur (f : RmFileHandle) (y : Rid) : list Rid := if scan_is_end y then [] else y :: after f y.

(** A position of the scan: the end, or a record of a data page. *)
Definition pos_ok (f : RmFileHandle) (y : Rid) : Prop :=
  scan_is_end y = true \/ (1 <= page_no y < npages f /\ is_record f y = true).

Lemma read_now_ok f y : scan_is_end y = false -> is_record f y = true -> read_now f y = Ok (rec_at f y).
Proof. intros He Hr. unfold read_now, get_now_record, bindM, gets, ret. rewrite He. cbn. by rewrite Hr. Qed.

Lemma heap_bits f : heap_inv f -> forall p i, i ∈ bitmap (page_of f p) -> 0 <= i < npp f.
Proof. intros (_ & _ & _ & Hok & _) p i. apply Hok. Qed.

(** The position reached from a list of records that starts at [z]. *)
Lemma cur_head f p k c z rest :
  heap_inv f -> 1 <= p -> p + k = npages f -> records_from f (seqZ p k) c = z :: rest ->
  pos_ok f z /\ cur f z = z :: rest.
Proof.
  intros Hinv Hp Hk E. pose proof E as E'. apply records_from_resume in E' as [Hz Hrest].
  assert (Hin : z ∈ records_from f (seqZ p k) c) by (rewrite E; left).
  apply elem_of_records_from in Hin as (Hr & _); [|by apply heap_bits|lia].
  assert (scan_is_end z = false) as Hend by (unfold scan_is_end, RM_INVALID_PAGE_ID; apply Z.eqb_neq; lia).
  split; [right; split; [lia|done]|]. unfold cur, after. rewrite Hend. by rewrite <- Hk, Hrest.
Qed.

Lemma scan_next_cur f y :
  heap_inv f -> 1 <= page_no y < npages f ->
  exists y', scan_next f y = Ok y' /\ pos_ok f y' /\ cur f y' = after f y.
Proof.
  intros Hinv Hp. unfold scan_next. rewrite (proj2 (Z.eqb_neq _ _)) by (unfold RM_INVALID_PAGE_ID; lia).
  fold (npages f). rewrite scan_find_head. fold (after f y).
  destruct (after f y) as [|z rest] eqn:E; cbn.
  - eexists. split; [done|]. split; [left; done|done].
  - eexists. split; [done|]. apply (cur_head f (page_no y) (npages f - page_no y) (slot_no y)); [done|lia|lia|done].
Qed.

Lemma scan_open_cur f : heap_inv f -> pos_ok f (scan_open f) /\ cur f (scan_open f) = all_records f.
Proof.
  intros Hinv. pose proof Hinv as (_ & Hn & _). unfold scan_open. rewrite scan_find_head.
  change (records_from f (seqZ 1 (num_pages (rm_file_hdr_ f) - 1)) (-1)) with (all_records f).
  destruct (all_records f) as [|z rest] eqn:E; cbn; [split; [by left|done]|].
  apply (cur_head f 1 (npages f - 1) (-1)); [done|lia|lia|done].
Qed.

Lemma cur_length f y : pos_ok f y -> scan_is_end y = false -> length (cur f y) = S (length (after f y)).
Proof. intros _ He. unfold cur. by rewrite He. Qed.

(** [matches st x]: the record at [x] satisfies the scan's conditions. *)
Definition matches (f : RmFileHandle) (st : SeqScanSt) (x : Rid) : bool :=
  match eval_conds (ss_hash st) (ss_cols st) (ss_conds st) (rec_at f x) with Ok true => true | _ => false end.

(** The fields [beginTuple] and [nextTuple] never change. *)
Definition ss_static (st : SeqScanSt) := (ss_tab st, ss_conds st, ss_cols st, ss_len st, ss_hash st).

Lemma matches_static f st st' : ss_static st' = ss_static st -> matches f st' = matches f st.
Proof. unfold ss_static, matches. intros [= _ H1 H2 _ H3]. by rewrite H1, H2, H3. Qed.

(** The conditions evaluate without an error on every rid of [l]. *)
Definition conds_total (f : RmFileHandle) (st : SeqScanSt) (l : list Rid) : Prop :=
  forall x, x ∈ l -> exists b, eval_conds (ss_hash st) (ss_cols st) (ss_conds st) (rec_at f x) = Ok b.

(** [seek] stops at the first record of the cursor that satisfies the
    conditions, with it in the record buffer, or at the end. *)
Lemma seek_spec f fuel st y :
  heap_inv f -> pos_ok f y -> (length (cur f y) < fuel)%nat -> conds_total f st (cur f y) ->
  exists st' y', seek fuel f st y = Ok st' /\ ss_static st' = ss_static st /\ ss_scan st' = Some y' /\
    pos_ok f y' /\ (length (cur f y') <= length (cur f y))%nat /\
    (forall x, x ∈ cur f y' -> x ∈ cur f y) /\
    filter (fun x => matches f st x = true) (cur f y') = filter (fun x => matches f st x = true) (cur f y) /\
    (forall z l, cur f y' = z :: l -> matches f st z = true /\ ss_buf st' = Some (rec_at f z)).
Proof.
  intros Hinv. revert st y. induction fuel as [|n IH]; intros st y Hpos Hlen Htot; [lia|].
  destruct (scan_is_end y) eqn:He.
  { exists (ss_at st (ss_rid st) (ss_buf st) (Some y)), y. cbn. rewrite He.
    split_and!; [done..|]. intros z l. unfold cur. by rewrite He. }
  destruct Hpos as [?|[Hp Hr]]; [congruence|].
  assert (Hcur : cur f y = y :: after f y) by (unfold cur; by rewrite He).
  destruct (Htot y) as [b Hb]; [rewrite Hcur; left|].
  cbn. rewrite He, read_now_ok by done. cbn. rewrite Hb. cbn.
  destruct b.
  - eexists _, y. split_and!; [reflexivity|done|done|by right|lia|done|done|]. intros z l. rewrite Hcur. intros [= <- _].
    unfold matches. by rewrite Hb.
  - destruct (scan_next_cur f y Hinv Hp) as (y2 & Hn & Hpos2 & Hcur2). rewrite Hn. cbn.
    set (st1 := ss_at st y (Some (rec_at f y)) (ss_scan st)).
    destruct (IH st1 y2) as (st' & y' & Hrun & Hst & Hsc & Hpos' & Hlen' & Hsub & Hfil & Hhd);
      [done|rewrite Hcur2, Hcur in *; cbn in *; lia|intros x Hx; apply Htot; rewrite Hcur, <- Hcur2; by right|].
    exists st', y'. split_and!; [done|done|done|done|rewrite Hlen', Hcur2, Hcur; cbn; lia| | |].
    + intros x Hx%Hsub. rewrite Hcur2 in Hx. rewrite Hcur. by right.
    + rewrite (matches_static f st st1) in Hfil by done.
      rewrite Hfil, Hcur2, Hcur, filter_cons_False; [done|]. unfold matches. by rewrite Hb.
    + intros z l Hz. rewrite <- (matches_static f st st1) by done. by apply (Hhd z l).
Qed.

Lemma ss_is_end_run c st y : ss_scan st = Some y -> ss_is_end (c, st) = (Ok (scan_is_end y), (c, st)).
Proof. intros Hs. unfold ss_is_end, bindM, get_st, gets. simpl. by rewrite Hs. Qed.

Lemma ss_Next_run c st y :
  ss_scan st = Some y -> scan_is_end y = false ->
  ss_Next (c, st) = (Ok (ss_buf st), (c, ss_at st (ss_rid st) None (ss_scan st))).
Proof. intros Hs He. unfold ss_Next. rewrite (bindM_ok _ _ _ _ _ (ss_is_end_run c st y Hs)), He. done. Qed.

Lemma ss_next_run sf c st y f y2 st2 :
  ss_scan st = Some y -> scan_is_end y = false -> check_runtime_conds (ss_tab st) (ss_conds st) = Ok tt ->
  fhs_ (ec_sys c) !! ss_tab st = Some f -> scan_next f y = Ok y2 -> seek sf f st y2 = Ok st2 ->
  ss_next sf (c, st) = (Ok tt, (c, st2)).
Proof.
  intros Hs He Hck Hf Hn Hseek. unfold ss_next, bindM at 1, get_st, gets. simpl.
  rewrite Hck. simpl. rewrite bindM_ret, (bindM_ok _ _ _ _ _ (ss_is_end_run c st y Hs)), He.
  unfold bindM, file_of, liftE. simpl. rewrite Hf, Hs, Hn. simpl. by rewrite Hseek.
Qed.

Lemma ss_drain_loop sf f c st y fuel :
  heap_inv f -> fhs_ (ec_sys c) !! ss_tab st = Some f ->
  check_runtime_conds (ss_tab st) (ss_conds st) = Ok tt ->
  ss_scan st = Some y -> pos_ok f y -> (length (cur f y) <= sf)%nat -> conds_total f st (cur f y) ->
  (forall z l, cur f y = z :: l -> matches f st z = true /\ ss_buf st = Some (rec_at f z)) ->
  (length (filter (fun x => matches f st x = true) (cur f y)) < fuel)%nat ->
  exists st', @drain_loop _ (SeqScanExecutor sf) fuel (c, st) =
    (Ok ((fun x => Some (rec_at f x)) <$> filter (fun x => matches f st x = true) (cur f y)), (c, st')).
Proof.
  intros Hinv. revert st y. induction fuel as [|n IH]; intros st y Hf Hck Hsc Hpos Hsf Htot Hhd Hfuel; [lia|].
  simpl drain_loop. rewrite (bindM_ok _ _ _ _ _ (ss_is_end_run c st y Hsc)).
  destruct (scan_is_end y) eqn:He.
  { exists st. unfold cur. by rewrite He. }
  destruct Hpos as [?|[Hp Hr]]; [congruence|].
  assert (Hcur : cur f y = y :: after f y) by (unfold cur; by rewrite He).
  destruct (Hhd y (after f y) Hcur) as [Hm Hbuf].
  rewrite (bindM_ok _ _ _ _ _ (ss_Next_run c st y Hsc He)), Hbuf.
  destruct (scan_next_cur f y Hinv Hp) as (y2 & Hn & Hpos2 & Hcur2).
  set (st1 := ss_at st (ss_rid st) None (ss_scan st)).
  destruct (seek_spec f sf st1 y2) as (st2 & y' & Hrun & Hst & Hsc' & Hpos' & Hlen' & Hsub & Hfil & Hhd');
    [done|done|rewrite Hcur2; rewrite Hcur in Hsf; cbn in Hsf; lia|intros x Hx; apply Htot; rewrite Hcur, <- Hcur2; by right|].
  rewrite (bindM_ok _ _ _ _ _ (ss_next_run sf c st1 y f y2 st2 Hsc He Hck Hf Hn Hrun)).
  assert (Hst' : ss_static st2 = ss_static st) by (rewrite Hst; reflexivity).
  assert (Hm2 : matches f st2 = matches f st) by by apply matches_static.
  assert (Hm1 : matches f st1 = matches f st) by by apply matches_static.
  rewrite Hm1 in Hfil, Hhd'.
  pose proof Hst' as Hfields. unfold ss_static in Hfields. injection Hfields as Htab Hconds Hcols _ Hhash.
  destruct (IH st2 y') as (st3 & Hloop);
    [by rewrite Htab|by rewrite Htab, Hconds|done|done|rewrite Hlen', Hcur2; rewrite Hcur in Hsf; cbn in Hsf; lia| | | |].
  - intros x Hx. destruct (Htot x) as [b Hb]; [rewrite Hcur; right; rewrite <- Hcur2; by apply Hsub|].
    exists b. by rewrite Hhash, Hcols, Hconds.
  - by rewrite Hm2.
  - rewrite Hm2, Hfil, Hcur2. rewrite Hcur, filter_cons_True in Hfuel by done. cbn in Hfuel. lia.
  - exists st3. rewrite (bindM_ok _ _ _ _ _ Hloop), Hm2, Hfil, Hcur2, Hcur, filter_cons_True by done.
    done.
Qed.

Lemma ss_begin_run sf c st f lm t st1 :
  check_runtime_conds (ss_tab st) (ss_conds st) = Ok tt -> fhs_ (ec_sys c) !! ss_tab st = Some f ->
  lock_shared_on_table (lock_manager_ (ec_sys c)) (ec_txn c) (rm_fd_ f) = Ok (lm, t) ->
  seek sf f st (scan_open f) = Ok st1 ->
  ss_begin sf (c, st) = (Ok tt, (mkExecCtx (set_lock (ec_sys c) lm) t (ec_ws c), st1)).
Proof.
  intros Hck Hf Hlk Hseek. unfold ss_begin, bindM at 1, get_st, gets. simpl.
  rewrite Hck. simpl. rewrite bindM_ret. unfold bindM at 1, file_of. simpl. rewrite Hf.
  unfold bindM at 1, lock_table_shared. simpl. rewrite Hlk. unfold bindM, liftE. simpl. by rewrite Hseek.
Qed.

(** C22: [SeqScanExecutor] driven to its end ([beginTuple], then [Next]
    and [nextTuple] until [is_end]) on a well-formed heap file, whose
    conditions are on its table and evaluate without an exception on
    every record, takes the table's S lock and returns exactly the
    records of the file that satisfy every condition, each once, in
    increasing rid order. *)
Theorem seq_scan_drain sf fuel c tab conds st0 f lm t :
  seq_scan_new c tab conds = Ok st0 -> fhs_ (ec_sys c) !! tab = Some f -> heap_inv f ->
  check_runtime_conds tab conds = Ok tt ->
  lock_shared_on_table (lock_manager_ (ec_sys c)) (ec_txn c) (rm_fd_ f) = Ok (lm, t) ->
  conds_total f st0 (all_records f) ->
  (length (all_records f) < sf)%nat -> (length (all_records f) < fuel)%nat ->
  exists st', @drain _ (SeqScanExecutor sf) fuel (c, st0) =
    (Ok ((fun x => Some (rec_at f x)) <$> filter (fun x => matches f st0 x = true) (all_records f)),
     (mkExecCtx (set_lock (ec_sys c) lm) t (ec_ws c), st')).
Proof.
  intros Hnew Hf Hinv Hck Hlk Htot Hsf Hfuel.
  assert (Htab : ss_tab st0 = tab /\ ss_conds st0 = conds).
  { unfold seq_scan_new in Hnew. destruct (get_table _ _); [|done].
    destruct (last _); [|done]. destruct (fhs_ _ !! _); [|done]. by injection Hnew as <-. }
  destruct Htab as [Htab Hconds]. subst tab conds.
  destruct (scan_open_cur f Hinv) as [Hpos Hcur].
  destruct (seek_spec f sf st0 (scan_open f)) as (st1 & y' & Hrun & Hst & Hsc & Hpos' & Hlen' & Hsub & Hfil & Hhd);
    [done|done|by rewrite Hcur|by rewrite Hcur|].
  unfold drain. cbn [beginTuple SeqScanExecutor].
  rewrite (bindM_ok _ _ _ _ _ (ss_begin_run sf c st0 f lm t st1 Hck Hf Hlk Hrun)).
  assert (Hm : matches f st1 = matches f st0) by by apply matches_static.
  pose proof Hst as Hfields. unfold ss_static in Hfields. injection Hfields as Htab Hconds Hcols _ Hhash.
  destruct (ss_drain_loop sf f (mkExecCtx (set_lock (ec_sys c) lm) t (ec_ws c)) st1 y' fuel)
    as (st' & Hloop); [done|by rewrite Htab|by rewrite Htab, Hconds|done|done|rewrite Hcur in Hlen'; lia| | | |].
  - intros x Hx. destruct (Htot x) as [b Hb]; [rewrite <- Hcur; by apply Hsub|]. exists b. by rewrite Hhash, Hcols, Hconds.
  - by rewrite Hm.
  - rewrite Hm, Hfil, Hcur. pose proof (length_filter (fun x => matches f st0 x = true) (all_records f)). lia.
  - exists st'. by rewrite Hloop, Hm, Hfil, Hcur.
Qed.

Lemma seek_static fuel f st y st' : seek fuel f st y = Ok st' -> ss_static st' = ss_static st.
Proof.
  revert st y. induction fuel as [|n IH]; intros st y; cbn; destruct (scan_is_end y); try by intros [= <-].
  destruct (read_now f y) as [buf|]; cbn; [|done].
  destruct (eval_conds _ _ _ _) as [[]|]; cbn; [by intros [= <-]| |done].
  destruct (scan_next f y); cbn; [|done]. intros H%IH. done.
Qed.

#[global] Instance SeqScanConst sf : @ExecutorConst SeqScanSt (SeqScanExecutor sf).
Proof.
  split.
  - intros [c st]. cbn. unfold ss_is_end, bindM, get_st, gets. cbn. by destruct (ss_scan st).
  - intros [c st] r [c' st']. cbn. unfold ss_Next, ss_is_end, bindM, get_st, gets, put_st, modify, ret, throw. cbn.
    destruct (ss_scan st) as [y|] eqn:Hs; cbn; [|done]. destruct (scan_is_end y) eqn:He; cbn; [done|].
    intros _ [= <- <- <-]. cbn. rewrite Hs. cbn. by rewrite He.
  - intros [c st]. cbn. unfold ss_begin, bindM, get_st, gets, liftE, file_of, lock_table_shared, put_st, modify, ret, throw. cbn.
    destruct (check_runtime_conds _ _); cbn; [|done]. destruct (fhs_ _ !! _); cbn; [|done].
    destruct (lock_shared_on_table _ _ _) as [[lm t]|]; cbn; [|done].
    destruct (seek sf _ st _) eqn:E; cbn; [|done]. apply seek_static in E. by injection E.
  - intros [c st]. cbn. unfold ss_next, ss_is_end, bindM, get_st, gets, liftE, file_of, put_st, modify, ret, throw. cbn.
    destruct (check_runtime_conds _ _); cbn; [|done]. destruct (ss_scan st) as [y|]; cbn; [|done].
    destruct (scan_is_end y); cbn; [done|]. destruct (fhs_ _ !! _); cbn; [|done].
    destruct (heap_res _); cbn; [|done]. destruct (seek sf _ st _) eqn:E; cbn; [|done].
    apply seek_static in E. by injection E.
  - intros [c st]. cbn. unfold ss_Next, ss_is_end, bindM, get_st, gets, put_st, modify, ret, throw. cbn.
    destruct (ss_scan st) as [y|]; cbn; [|done]. by destruct (scan_is_end y).
Qed.

(** ** A scan of a sample table *)

(** Table [t(a INT)], whose file [heap1] holds [buf1] at [rid1]. *)
Definition col_t_a : ColMeta := mkColMeta "t" "a" TYPE_INT 4 0 false.
Definition ctx_t : ExecCtx :=
  mkExecCtx (mkTxnMgr (mkDbMeta "db" [("t"%string, mkTabMeta "t" [col_t_a] [] ∅)])
               {["t"%string := heap1]} ∅ lm_empty empty_log ∅ 2) T1 [].
Definition scan_t1 : SeqScanSt :=
  mkSeqScan "t" [] [col_t_a] 4 4 (init_hash_cols [col_t_a]) (mkRid (-1) (-1)) None None.
Definition lock_t1 : res AbortReason (LockManager * Transaction) := lock_shared_on_table lm_empty T1 5.
Definition lm_t1 : LockManager := match lock_t1 with Ok (lm, _) => lm | Err _ => lm_empty end.
Definition T1_t1 : Transaction := match lock_t1 with Ok (_, t) => t | Err _ => T1 end.

Lemma seq_scan_drain_witness :
  exists st', @drain _ (SeqScanExecutor 3) 3 (ctx_t, scan_t1) =
    (Ok [Some buf1], (mkExecCtx (set_lock (ec_sys ctx_t) lm_t1) T1_t1 (ec_ws ctx_t), st')).
Proof.
  destruct (seq_scan_drain 3 3 ctx_t "t" [] scan_t1 heap1 lm_t1 T1_t1) as (st' & Hrun);
    [reflexivity|reflexivity|exact heap1_inv|reflexivity|reflexivity| |vm_compute; lia|vm_compute; lia|].
  - intros x _. by exists true.
  - exists st'. rewrite Hrun. vm_compute. reflexivity.
Defined.
