(* ===== verification/Operators.v ===== *)
(** * Projection and nested-loop join: [executor_projection.h],
    [executor_nestedloop_join.h]

    Both operators hold their children and run the children's methods
    through [on_child]; their theorems are proved for any child that
    meets the [Executor] interface (with [is_end] a [const] method), so
    they apply to every operator tree.  The projection copies the
    selected columns into a buffer laid out at consecutive offsets, and
    drained to its end it returns its child's records, each projected.
    The join calls its outer child's [Next] once per inner tuple. *)

From Stdlib Require Import ZArith Lia Strings.String.
From stdpp Require Import base list gmap sets.
From S2P Require Import Prelude Log Lock Key Value Meta Heap HeapInv Txn Exec.

Open Scope Z_scope.
Open Scope rmdb_scope.

(** [memcpy(dst + off, src, src.size())] into a buffer. *)
Definition memcpy_into (dst : bytes) (off : nat) (src : bytes) : bytes :=
  take off dst ++ src ++ drop (off + length src) dst.

(** A column moved to offset [off] ([col.offset = curr_offset]). *)
Definition with_offset (c : ColMeta) (off : Z) : ColMeta :=
  mkColMeta (col_tab_name c) (col_name c) (col_type c) (col_len c) off (col_index c).

(** The bytes of column [c] in record [rec]. *)
Definition col_bytes (c : ColMeta) (rec : bytes) : bytes :=
  take (Z.to_nat (col_len c)) (drop (Z.to_nat (col_offset c)) rec).

(** ** [ProjectionExecutor] *)

Record ProjSt (Ch : Type) := mkProj {
  pj_prev : Ch;
  pj_cols : list ColMeta;
  pj_len : Z;
  pj_sel : list nat;
  pj_hash : gmap string Z
}.
Arguments mkProj {Ch}.
Arguments pj_prev {Ch}.
Arguments pj_cols {Ch}.
Arguments pj_len {Ch}.
Arguments pj_sel {Ch}.
Arguments pj_hash {Ch}.

Definition set_prev {Ch} (st : ProjSt Ch) (p : Ch) : ProjSt Ch :=
  mkProj p (pj_cols st) (pj_len st) (pj_sel st) (pj_hash st).

(** The constructor's loop over [sel_cols]: the position of each in
    the child's columns, and the column placed at [curr_offset]. *)
Fixpoint proj_cols (h : gmap string Z) (prev_cols : list ColMeta) (sel_cols : list TabCol) (off : Z)
    : res ExecErr (list nat * list ColMeta * Z) :=
  match sel_cols with
  | [] => Ok ([], [], off)
  | sc :: rest =>
      let* p := get_col h prev_cols sc in
      let* r := proj_cols h prev_cols rest (off + col_len p.2) in
      Ok (p.1 :: r.1.1, with_offset p.2 off :: r.1.2, r.2)
  end.

Definition proj_new {Ch} `{Executor Ch} (prev : Ch) (sel_cols : list TabCol) : res ExecErr (ProjSt Ch) :=
  let prev_cols := ex_cols prev in
  let* r := proj_cols (init_hash_cols prev_cols) prev_cols sel_cols 0 in
  Ok (mkProj prev r.1.2 r.2 r.1.1 (init_hash_cols r.1.2)).

(** [project]: for each output column, the length assertion and the
    [memcpy] from the selected input column. *)
Fixpoint project_loop (prev_cols : list ColMeta) (rec acc : bytes) (cs : list ColMeta) (sel : list nat)
    : res ExecErr bytes :=
  match cs, sel with
  | [], _ => Ok acc
  | c :: cs', i :: sel' =>
      match prev_cols !! i with
      | None => Err ExecInternalError
      | Some pc =>
          if negb (col_len pc =? col_len c) then Err ExecAssertFailed else
          project_loop prev_cols rec (memcpy_into acc (Z.to_nat (col_offset c)) (col_bytes pc rec)) cs' sel'
      end
  | _ :: _, [] => Err ExecInternalError
  end.

Definition project (prev_cols : list ColMeta) (rec : bytes) (cols : list ColMeta) (sel : list nat) (len : Z)
    : res ExecErr bytes :=
  project_loop prev_cols rec (zeros len) cols sel.

Section projection.
Context `{Executor Ch}.

Definition on_prev {A} (m : exM Ch A) : exM (ProjSt Ch) A := on_child pj_prev set_prev m.

Definition pj_is_end : exM (ProjSt Ch) bool := on_prev is_end.

Definition pj_begin : exM (ProjSt Ch) unit := on_prev beginTuple.

Definition pj_next : exM (ProjSt Ch) unit :=
  let! e := pj_is_end in
  if e then throw ExecAssertFailed else on_prev nextTuple.

Definition pj_Next : exM (ProjSt Ch) (option bytes) :=
  let! e := pj_is_end in
  if e then throw ExecAssertFailed else
  let! st := get_st in
  let! r := on_prev Next in
  match r with
  | None => throw NullRecord
  | Some rec => let! out := liftE (project (ex_cols (pj_prev st)) rec (pj_cols st) (pj_sel st) (pj_len st)) in
                ret (Some out)
  end.

#[global] Instance ProjectionExecutor : Executor (ProjSt Ch) := {
  beginTuple := pj_begin;
  nextTuple := pj_next;
  is_end := pj_is_end;
  Next := pj_Next;
  ex_cols := pj_cols;
  tupleLen := pj_len;
  get_col_offset st := find_col (pj_cols st)
}.
End projection.

(** ** The projected record *)

(** Every column of [cols] lies inside the record. *)
Definition fits (cols : list ColMeta) (rec : bytes) : Prop :=
  Forall (fun c => 0 <= col_len c /\ 0 <= col_offset c /\ col_offset c + col_len c <= Z.of_nat (length rec)) cols.

Lemma memcpy_into_zeros P m s :
  (length s <= m)%nat ->
  memcpy_into (P ++ replicate m Byte.x00) (length P) s = P ++ s ++ replicate (m - length s) Byte.x00.
Proof.
  intros Hs. unfold memcpy_into. rewrite take_app_length, drop_app_add. f_equal. f_equal.
  by rewrite drop_replicate.
Qed.

Lemma get_col_lookup h cols sc i c : get_col h cols sc = Ok (i, c) -> cols !! i = Some c.
Proof.
  unfold get_col. destruct (h !! _); [|done]. destruct (cols !! _) eqn:E; [|done]. by intros [= <- <-].
Qed.

Lemma col_bytes_length c rec :
  0 <= col_len c -> 0 <= col_offset c -> col_offset c + col_len c <= Z.of_nat (length rec) ->
  length (col_bytes c rec) = Z.to_nat (col_len c).
Proof. intros. unfold col_bytes. rewrite length_take, length_drop. lia. Qed.

Lemma project_loop_spec h prev_cols rec sel_cols off sel cols off' :
  proj_cols h prev_cols sel_cols off = Ok (sel, cols, off') -> fits prev_cols rec -> 0 <= off ->
  forall P, length P = Z.to_nat off ->
  exists pcs, Forall2 (fun sc pc => exists i, get_col h prev_cols sc = Ok (i, pc)) sel_cols pcs /\
    off <= off' /\
    project_loop prev_cols rec (P ++ zeros (off' - off)) cols sel = Ok (P ++ mjoin ((fun pc => col_bytes pc rec) <$> pcs)).
Proof.
  intros Hpc Hfit. revert off sel cols off' Hpc. induction sel_cols as [|sc rest IH]; intros off sel cols off' Hpc Hoff P HP.
  - injection Hpc as <- <- <-. exists []. split_and!; [constructor|lia|]. cbn.
    by rewrite Z.sub_diag, !app_nil_r.
  - cbn in Hpc. destruct (get_col h prev_cols sc) as [[i c]|] eqn:Hg; [|done]. cbn in Hpc.
    destruct (proj_cols h prev_cols rest (off + col_len c)) as [[[sel' cols'] off2]|] eqn:Hr; [|done].
    injection Hpc as <- <- <-. cbn.
    pose proof (get_col_lookup _ _ _ _ _ Hg) as Hi. rewrite Hi.
    pose proof (proj1 (Forall_forall _ _) Hfit c ltac:(by eapply list_elem_of_lookup_2)) as (Hl & Ho & Hle).
    destruct (IH (off + col_len c) sel' cols' off2 Hr ltac:(lia) (P ++ col_bytes c rec))
      as (pcs & Hall & Hoff2 & Hloop); [rewrite length_app, col_bytes_length by done; lia|].
    exists (c :: pcs). split_and!; [constructor; [by exists i|done]|lia|].
    rewrite Z.eqb_refl. cbn. unfold zeros. rewrite <- HP, memcpy_into_zeros by (rewrite col_bytes_length by done; lia).
    rewrite col_bytes_length by done. rewrite app_assoc.
    replace (Z.to_nat (off2 - off) - Z.to_nat (col_len c))%nat with (Z.to_nat (off2 - (off + col_len c))) by lia.
    unfold zeros in Hloop. rewrite Hloop. by rewrite <- app_assoc.
Qed.

(** C39: The projection's buffer: for the columns and positions its
    constructor computes from [sel_cols], [project] of a record laid out
    by the child's columns is the concatenation, in the order of
    [sel_cols], of the bytes of the child's columns they name. *)
Theorem project_concat prev_cols sel_cols rec sel cols len :
  proj_cols (init_hash_cols prev_cols) prev_cols sel_cols 0 = Ok (sel, cols, len) -> fits prev_cols rec ->
  exists pcs, Forall2 (fun sc pc => exists i, get_col (init_hash_cols prev_cols) prev_cols sc = Ok (i, pc)) sel_cols pcs /\
    project prev_cols rec cols sel len = Ok (mjoin ((fun pc => col_bytes pc rec) <$> pcs)).
Proof.
  intros Hpc Hfit. destruct (project_loop_spec _ _ rec _ _ _ _ _ Hpc Hfit ltac:(lia) [] eq_refl) as (pcs & Hall & _ & Hloop).
  exists pcs. split; [done|]. unfold project. rewrite Z.sub_0_r in Hloop. exact Hloop.
Qed.

(** ** The projection as an operator *)

Section projection_laws.
Context `{ExecutorConst Ch}.

Lemma on_prev_run {A} (m : exM Ch A) c st r c' ch' :
  m (c, pj_prev st) = (r, (c', ch')) -> on_prev m (c, st) = (r, (c', set_prev st ch')).
Proof. unfold on_prev, on_child. by intros ->. Qed.

Lemma is_end_run cs : exists r, is_end cs = (r, cs).
Proof. pose proof (is_end_const cs) as E. destruct (is_end cs) as [r cs']. cbn in E. subst. by exists r. Qed.

#[global] Instance ProjectionConst : ExecutorConst (ProjSt Ch).
Proof.
  split.
  - intros [c st]. cbn. unfold pj_is_end, on_prev, on_child.
    destruct (is_end_run (c, pj_prev st)) as [r ->]. by destruct st.
  - intros [c [p cols len sel h]] r [c' st']. cbn. unfold pj_is_end, pj_Next, on_prev, on_child, bindM, get_st, gets.
    cbn. destruct (is_end_run (c, p)) as [e He]. rewrite He. cbn. intros [= ->]. cbn.
    destruct (Next (c, p)) as [[rr|] [c1 p1]] eqn:HN; cbn; [|done].
    destruct rr as [rec|]; cbn; [|done]. destruct (project_loop (ex_cols p) rec (zeros len) cols sel); cbn; [|done].
    intros [= _ <- <-]. cbn. by rewrite (Next_not_end (c, p) (Some rec) (c1, p1) He HN).
  - intros [c st]. cbn. unfold pj_begin, on_prev, on_child. pose proof (cols_begin (c, pj_prev st)).
    destruct (beginTuple (c, pj_prev st)) as [? [? ?]]. done.
  - intros [c st]. cbn. unfold pj_next, pj_is_end, on_prev, on_child, bindM.
    destruct (is_end_run (c, pj_prev st)) as [[[]|] He]; rewrite He; cbn; try by destruct st.
    pose proof (cols_next (c, pj_prev st)). destruct (nextTuple (c, pj_prev st)) as [? [? ?]]. done.
  - intros [c st]. cbn. unfold pj_Next, pj_is_end, on_prev, on_child, bindM, get_st, gets.
    destruct (is_end_run (c, pj_prev st)) as [[[]|] He]; rewrite He; cbn; try by destruct st.
    destruct (Next (c, pj_prev st)) as [[[rec|]|] [c1 p1]]; cbn; try done.
    destruct (project_loop _ _ _ _ _); done.
Qed.

Lemma pj_Next_run c st rec out c1 p1 :
  is_end (c, pj_prev st) = (Ok false, (c, pj_prev st)) -> Next (c, pj_prev st) = (Ok (Some rec), (c1, p1)) ->
  project (ex_cols (pj_prev st)) rec (pj_cols st) (pj_sel st) (pj_len st) = Ok out ->
  pj_Next (c, st) = (Ok (Some out), (c1, set_prev st p1)).
Proof.
  intros He HN Hp. unfold pj_Next, pj_is_end. rewrite (bindM_ok _ _ _ _ _ (on_prev_run _ _ _ _ _ _ He)). cbn.
  unfold bindM at 1, get_st, gets. cbn. rewrite HN. cbn.
  unfold project in Hp. rewrite Hp. by destruct st.
Qed.

Lemma pj_next_run c st c2 p2 :
  is_end (c, pj_prev st) = (Ok false, (c, pj_prev st)) -> nextTuple (c, pj_prev st) = (Ok tt, (c2, p2)) ->
  pj_next (c, st) = (Ok tt, (c2, set_prev st p2)).
Proof.
  intros He HT. unfold pj_next, pj_is_end. rewrite (bindM_ok _ _ _ _ _ (on_prev_run _ _ _ _ _ _ He)). cbn.
  unfold on_prev, on_child. rewrite HT. by destruct st.
Qed.

(** C24: Driven to its end, a projection returns its child's records in
    the child's order, each projected: whenever the child, drained
    from a state, returns records that all project without an
    exception, the projection drained from the same state returns
    their projections and leaves the child where the child's own drain
    leaves it. *)
Theorem projection_drain fuel c st rs c' ch' :
  @drain_loop Ch _ fuel (c, pj_prev st) = (Ok rs, (c', ch')) ->
  Forall (fun r => exists rec out, r = Some rec /\
    project (ex_cols (pj_prev st)) rec (pj_cols st) (pj_sel st) (pj_len st) = Ok out) rs ->
  exists outs, Forall2 (fun r o => exists rec, r = Some rec /\
      project (ex_cols (pj_prev st)) rec (pj_cols st) (pj_sel st) (pj_len st) = Ok o) rs outs /\
    drain_loop fuel (c, st) = (Ok (Some <$> outs), (c', set_prev st ch')).
Proof.
  revert c st rs. induction fuel as [|n IH]; intros c st rs Hd Hall; cbn [drain_loop] in Hd |- *;
    destruct (is_end_run (c, pj_prev st)) as [[[]|e] He].
  all: try (rewrite (bindM_err _ _ _ _ _ He) in Hd; discriminate Hd).
  all: rewrite (bindM_ok _ _ _ _ _ He) in Hd; cbn [is_end ProjectionExecutor]; unfold pj_is_end at 1;
    rewrite (bindM_ok _ _ _ _ _ (on_prev_run _ _ _ _ _ _ He)).
  - injection Hd as <- <- <-. exists []. by split; [constructor|].
  - discriminate Hd.
  - injection Hd as <- <- <-. exists []. by split; [constructor|].
  - destruct (Next (c, pj_prev st)) as [[r|e] [c1 p1]] eqn:HN;
      [rewrite (bindM_ok _ _ _ _ _ HN) in Hd|by rewrite (bindM_err _ _ _ _ _ HN) in Hd].
    destruct (nextTuple (c1, p1)) as [[[]|e] [c2 p2]] eqn:HT;
      [rewrite (bindM_ok _ _ _ _ _ HT) in Hd|by rewrite (bindM_err _ _ _ _ _ HT) in Hd].
    destruct (drain_loop n (c2, p2)) as [[rs'|e] [c3 p3]] eqn:HL;
      [rewrite (bindM_ok _ _ _ _ _ HL) in Hd|by rewrite (bindM_err _ _ _ _ _ HL) in Hd]. cbn in Hd.
    injection Hd as <- <- <-. apply Forall_cons in Hall as [(rec & out & -> & Hp) Hall].
    pose proof (cols_Next (c, pj_prev st)) as Hc1. rewrite HN in Hc1. cbn in Hc1.
    pose proof (cols_next (c1, p1)) as Hc2. rewrite HT in Hc2. cbn in Hc2.
    destruct (IH c2 (set_prev st p2) rs') as (outs & Hf2 & Hloop); [exact HL|cbn; by rewrite Hc2, Hc1|].
    cbn in Hf2, Hloop. rewrite Hc2, Hc1 in Hf2.
    exists (out :: outs). split; [constructor; [by exists rec|done]|].
    cbn [Next nextTuple ProjectionExecutor].
    rewrite (bindM_ok _ _ _ _ _ (pj_Next_run c (set_prev st (pj_prev st)) rec out c1 p1 He HN Hp)).
    rewrite (bindM_ok _ _ _ _ _ (pj_next_run c1 (set_prev st p1) c2 p2 (Next_not_end _ _ _ He HN) HT)).
    change (set_prev (set_prev st p1) p2) with (set_prev st p2). rewrite (bindM_ok _ _ _ _ _ Hloop). done.
Qed.
End projection_laws.

(** ** [NestedLoopJoinExecutor] *)

Record NljSt (Ou In : Type) := mkNlj {
  nj_outer : Ou;
  nj_inner : In;
  nj_len : Z;
  nj_cols : list ColMeta;
  nj_merged : option bytes;
  nj_conds : list Condition;
  nj_hash : gmap string Z
}.
Arguments mkNlj {Ou In}.
Arguments nj_outer {Ou In}.
Arguments nj_inner {Ou In}.
Arguments nj_len {Ou In}.
Arguments nj_cols {Ou In}.
Arguments nj_merged {Ou In}.
Arguments nj_conds {Ou In}.
Arguments nj_hash {Ou In}.

Section join.
Context {Ou In : Type} `{Executor Ou} `{Executor In}.

Definition set_outer (st : NljSt Ou In) (o : Ou) : NljSt Ou In :=
  mkNlj o (nj_inner st) (nj_len st) (nj_cols st) (nj_merged st) (nj_conds st) (nj_hash st).
Definition set_inner (st : NljSt Ou In) (i : In) : NljSt Ou In :=
  mkNlj (nj_outer st) i (nj_len st) (nj_cols st) (nj_merged st) (nj_conds st) (nj_hash st).
Definition set_merged (st : NljSt Ou In) (m : option bytes) : NljSt Ou In :=
  mkNlj (nj_outer st) (nj_inner st) (nj_len st) (nj_cols st) m (nj_conds st) (nj_hash st).

(** The constructor: the outer columns, then the inner ones shifted by
    the outer tuple length. *)
Definition nlj_new (outer : Ou) (inner : In) (conds : list Condition) : NljSt Ou In :=
  let cols := ex_cols outer ++
    ((fun c => with_offset c (col_offset c + tupleLen outer)) <$> ex_cols inner) in
  mkNlj outer inner (tupleLen outer + tupleLen inner) cols None conds (init_hash_cols cols).

Definition on_outer {A} (m : exM Ou A) : exM (NljSt Ou In) A := on_child nj_outer set_outer m.
Definition on_inner {A} (m : exM In A) : exM (NljSt Ou In) A := on_child nj_inner set_inner m.

(** [merge_record]: both records copied into a buffer of [len_] bytes;
    a null record is dereferenced. *)
Definition merge_record (len : Z) (o i : option bytes) : res ExecErr bytes :=
  match o, i with
  | Some a, Some b => Ok (memcpy_into (memcpy_into (zeros len) 0 a) (length a) b)
  | _, _ => Err NullRecord
  end.

(** One step of both loops: [outer_->Next()], [inner_->Next()], the
    merged record stored in [merged_rec], and the join conditions. *)
Definition nlj_try : exM (NljSt Ou In) bool :=
  let! o := on_outer Next in
  let! i := on_inner Next in
  let! st := get_st in
  let! m := liftE (merge_record (nj_len st) o i) in
  put_st (set_merged st (Some m)) ;;
  liftE (eval_conds (nj_hash st) (nj_cols st) (nj_conds st) m).

Definition nlj_is_end : exM (NljSt Ou In) bool := on_outer is_end.

Variable join_fuel : nat.

(** The inner [for] loop of [beginTuple]: [true] when a pair matched. *)
Fixpoint nlj_scan_inner (fuel : nat) : exM (NljSt Ou In) bool :=
  let! ie := on_inner is_end in
  if ie then ret false else
  match fuel with
  | O => throw ExecOutOfFuel
  | S n =>
      let! b := nlj_try in
      if b then ret true else on_inner nextTuple ;; nlj_scan_inner n
  end.

(** The [while (true)] loop of [beginTuple]. *)
Fixpoint nlj_begin_loop (fuel : nat) : exM (NljSt Ou In) unit :=
  let! e := nlj_is_end in
  on_inner beginTuple ;;
  let! b := (if e then ret true else nlj_scan_inner join_fuel) in
  if b then ret tt else
  match fuel with
  | O => throw ExecOutOfFuel
  | S n => on_outer nextTuple ;; on_inner beginTuple ;; nlj_begin_loop n
  end.

Definition nlj_begin : exM (NljSt Ou In) unit := on_outer beginTuple ;; nlj_begin_loop join_fuel.

(** [nextTuple]: advance the inner side, moving the outer side on and
    restarting the inner one when it ends, until a pair matches or the
    outer side ends. *)
Fixpoint nlj_next_loop (fuel : nat) : exM (NljSt Ou In) unit :=
  let! e := nlj_is_end in
  if e then ret tt else
  match fuel with
  | O => throw ExecOutOfFuel
  | S n =>
      on_inner nextTuple ;;
      let! ie := on_inner is_end in
      let! stop := (if ie then
                      on_outer nextTuple ;;
                      let! e2 := nlj_is_end in
                      if e2 then ret true else on_inner beginTuple ;; ret false
                    else ret false) in
      if stop then ret tt else
      let! b := nlj_try in
      if b then ret tt else nlj_next_loop n
  end.

(** [Next]: [std::move(merged_rec)]. *)
Definition nlj_Next : exM (NljSt Ou In) (option bytes) :=
  let! st := get_st in
  put_st (set_merged st None) ;;
  ret (nj_merged st).

#[global] Instance NestedLoopJoinExecutor : Executor (NljSt Ou In) := {
  beginTuple := nlj_begin;
  nextTuple := nlj_next_loop join_fuel;
  is_end := nlj_is_end;
  Next := nlj_Next;
  ex_cols := nj_cols;
  tupleLen := nj_len;
  get_col_offset st := find_col (nj_cols st)
}.
End join.

(** ** A join of two scanned tables *)

(** Tables [t] and [u] with one INT column [a]; [t] holds one record
    and [u] two. *)
Definition col_ta : ColMeta := mkColMeta "t" "a" TYPE_INT 4 0 false.
Definition col_ua : ColMeta := mkColMeta "u" "a" TYPE_INT 4 0 false.
Definition heap_u : RmFileHandle :=
  run_file (insert_record buf1) (run_file (insert_record buf1) (empty_heap 6 [Byte.x75] 4 2)).
Definition db_tu : DbMeta :=
  mkDbMeta "db" [("t"%string, mkTabMeta "t" [col_ta] [] ∅); ("u"%string, mkTabMeta "u" [col_ua] [] ∅)].
Definition ctx_tu : ExecCtx :=
  mkExecCtx (mkTxnMgr db_tu (<["t"%string := heap1]> {["u"%string := heap_u]}) ∅ lm_empty empty_log ∅ 2) T1 [].

Definition scan_t : SeqScanSt := mkSeqScan "t" [] [col_ta] 4 4 (init_hash_cols [col_ta]) (mkRid (-1) (-1)) None None.
Definition scan_u : SeqScanSt := mkSeqScan "u" [] [col_ua] 4 4 (init_hash_cols [col_ua]) (mkRid (-1) (-1)) None None.

Lemma scan_t_new : seq_scan_new ctx_tu "t" [] = Ok scan_t.
Proof. reflexivity. Qed.
Lemma scan_u_new : seq_scan_new ctx_tu "u" [] = Ok scan_u.
Proof. reflexivity. Qed.

(** [NestedLoopJoinExecutor] calls [outer_->Next()] once for every
    inner tuple, but [SeqScanExecutor::Next] moves its record buffer
    out: joining the one-record table [t] (outer) with the two-record
    table [u] (inner), the first pair is produced and the next call of
    [nextTuple] merges a null outer record. *)
Example nlj_outer_scan_null :
  fst (@drain _ (@NestedLoopJoinExecutor _ _ (SeqScanExecutor 3) (SeqScanExecutor 3) 3) 3
         (ctx_tu, nlj_new (H := SeqScanExecutor 3) (H0 := SeqScanExecutor 3) scan_t scan_u [])) = Err NullRecord.
Proof. vm_compute. reflexivity. Qed.

(** With the one-record table inside, each outer record is read once
    per inner pass and the join returns both pairs. *)
Lemma nlj_inner_single :
  fst (@drain _ (@NestedLoopJoinExecutor _ _ (SeqScanExecutor 3) (SeqScanExecutor 3) 3) 3
         (ctx_tu, nlj_new (H := SeqScanExecutor 3) (H0 := SeqScanExecutor 3) scan_u scan_t [])) =
  Ok [Some (buf1 ++ buf1); Some (buf1 ++ buf1)].
Proof. vm_compute. reflexivity. Qed.

(** ** Projections of sample records *)

(** Columns [p.a] and [p.b], two INTs; [SELECT b, a]. *)
Definition col_pa : ColMeta := mkColMeta "p" "a" TYPE_INT 4 0 false.
Definition col_pb : ColMeta := mkColMeta "p" "b" TYPE_INT 4 4 false.

Lemma project_concat_witness :
  exists sel cols len, project [col_pa; col_pb] (int_bytes 1 ++ int_bytes 5) cols sel len =
    Ok (int_bytes 5 ++ int_bytes 1).
Proof.
  destruct (project_concat [col_pa; col_pb] [mkTabCol "p" "b"; mkTabCol "p" "a"] (int_bytes 1 ++ int_bytes 5)
              [1%nat; 0%nat] [with_offset col_pb 0; with_offset col_pa 4] 8) as (pcs & Hall & Hp);
    [reflexivity|repeat constructor; vm_compute; discriminate|].
  exists [1%nat; 0%nat], [with_offset col_pb 0; with_offset col_pa 4], 8. rewrite Hp.
  inversion Hall as [|? pc1 ? ? [i1 H1] Hall1]; subst. inversion Hall1 as [|? pc2 ? ? [i2 H2] Hall2]; subst.
  inversion Hall2; subst. vm_compute in H1, H2. injection H1 as <- <-. injection H2 as <- <-. reflexivity.
Defined.

(** The scan of [t] after [beginTuple], and [SELECT a] over it. *)
Definition scan_t_begun : ExecCtx * SeqScanSt := snd (ss_begin 3 (ctx_t, scan_t1)).
Definition proj_t : ProjSt SeqScanSt :=
  mkProj scan_t_begun.2 [with_offset col_t_a 0] 4 [0%nat] (init_hash_cols [with_offset col_t_a 0]).

Lemma proj_t_new : proj_new (H := SeqScanExecutor 3) scan_t_begun.2 [mkTabCol "t" "a"] = Ok proj_t.
Proof. reflexivity. Qed.

Lemma projection_drain_witness :
  exists outs c' ch', @drain_loop _ (@ProjectionExecutor _ (SeqScanExecutor 3)) 2 (scan_t_begun.1, proj_t) =
    (Ok (Some <$> outs), (c', set_prev proj_t ch')).
Proof.
  assert (Hd : exists c' ch', @drain_loop _ (SeqScanExecutor 3) 2 (scan_t_begun.1, scan_t_begun.2) =
                 (Ok [Some buf1], (c', ch'))) by (do 2 eexists; vm_compute; reflexivity).
  destruct Hd as (c' & ch' & Hd).
  destruct (projection_drain (H0 := SeqScanConst 3) 2 scan_t_begun.1 proj_t [Some buf1] c' ch' Hd)
    as (outs & _ & Hrun).
  - repeat constructor. exists buf1, buf1. split; [done|]. vm_compute. reflexivity.
  - exists outs, c', ch'. exact Hrun.
Defined.
