(* ===== verification/Sort.v ===== *)
(** * The sort operator: [execution/execution_sort.h]

    [SortExecutor::beginTuple] drains its child into [sorted_tuples]
    and calls [std::stable_sort] with a lambda that compares the order
    columns in turn with [ix_compare], a descending column reversing
    the result.  [std::stable_sort] is modelled by its specification:
    the stable insertion sort [isort], which for a total preorder gives
    the one sorted permutation that keeps equal elements in their
    input order.  The lambda is that order on well-formed records (the
    ranks of [Key.v] read column by column).  [limit_cnt_] is a
    [size_t] initialised from an [int], so a negative limit wraps to a
    bound no run reaches.  The theorems: [isort] sorts, permutes and is
    stable; it is idempotent; drained to its end the operator returns
    the first [limit] records of its child, stably sorted; and a sort
    over the same sort returns what the inner one returns. *)

From Stdlib Require Import ZArith Lia Sorted Strings.String.
From stdpp Require Import base list gmap sets sorting.
From S2P Require Import Prelude Log Lock Key Value Meta Heap HeapInv Txn Exec Operators.

Open Scope Z_scope.
Open Scope rmdb_scope.

(** ** Stable insertion sort *)

Section isort.
Context {A : Type} (cmp : A -> A -> Z).

(** [x] goes before the first element not smaller than it. *)
Fixpoint ins (x : A) (l : list A) : list A :=
  match l with
  | [] => [x]
  | y :: l' => if cmp y x <? 0 then y :: ins x l' else x :: y :: l'
  end.

Fixpoint isort (l : list A) : list A :=
  match l with
  | [] => []
  | x :: l' => ins x (isort l')
  end.

Definition le_cmp (a b : A) : Prop := cmp a b <= 0.

Lemma ins_perm x l : ins x l ≡ₚ x :: l.
Proof.
  induction l as [|y l IH]; cbn; [done|]. destruct (cmp y x <? 0); [|done].
  etrans; [by apply perm_skip|]. apply perm_swap.
Qed.

Lemma isort_perm l : isort l ≡ₚ l.
Proof. induction l as [|x l IH]; cbn; [done|]. etrans; [apply ins_perm|]. by apply perm_skip. Qed.

Section laws.
(** [cmp] is a total preorder: antisymmetric in sign and transitive. *)
Hypothesis cmp_antisym : forall a b, cmp b a = - cmp a b.
Hypothesis cmp_trans : forall a b c, cmp a b <= 0 -> cmp b c <= 0 -> cmp a c <= 0.

Lemma cmp_refl a : cmp a a = 0.
Proof. pose proof (cmp_antisym a a). lia. Qed.

Lemma cmp_lt_eq a b c : cmp a b < 0 -> cmp b c = 0 -> cmp a c < 0.
Proof.
  intros H1 H2. pose proof (cmp_trans a b c ltac:(lia) ltac:(lia)).
  destruct (decide (cmp a c = 0)); [|lia].
  pose proof (cmp_trans b c a ltac:(lia) ltac:(rewrite cmp_antisym; lia)). rewrite cmp_antisym in H1. lia.
Qed.

Lemma ins_sorted x l : Sorted le_cmp l -> Sorted le_cmp (ins x l).
Proof.
  unfold le_cmp. induction 1 as [|y l Hs IH Hhd]; cbn; [by repeat constructor|].
  destruct (cmp y x <? 0) eqn:E.
  - apply Z.ltb_lt in E. constructor; [done|].
    destruct l as [|z l]; cbn in *; [constructor; lia|].
    inversion Hhd; subst. destruct (cmp z x <? 0); constructor; lia.
  - apply Z.ltb_ge in E. constructor; [by constructor|]. constructor. rewrite cmp_antisym. lia.
Qed.

Lemma isort_sorted l : Sorted le_cmp (isort l).
Proof. induction l; cbn; [constructor|by apply ins_sorted]. Qed.

Lemma sorted_ins x l : Sorted le_cmp (x :: l) -> ins x l = x :: l.
Proof.
  intros Hs. apply Sorted_inv in Hs as [_ Hhd]. destruct l as [|y l]; [done|]. cbn.
  inversion Hhd; subst. unfold le_cmp in *. rewrite cmp_antisym. by destruct (Z.ltb_spec (- cmp x y) 0); [lia|].
Qed.

Lemma sorted_isort l : Sorted le_cmp l -> isort l = l.
Proof.
  induction l as [|x l IH]; intros Hs; [done|]. cbn.
  rewrite IH by (by apply Sorted_inv in Hs as [? _]). by apply sorted_ins.
Qed.

(** Inserting [x] into a sorted list puts it before every element
    equal to it and leaves the others in order. *)
Lemma ins_stable z x l :
  Sorted le_cmp l ->
  filter (fun y => cmp z y = 0) (ins x l) = filter (fun y => cmp z y = 0) (x :: l).
Proof.
  induction 1 as [|y l Hs IH Hhd]; [done|]. cbn [ins].
  destruct (Z.ltb_spec (cmp y x) 0) as [Hyx|]; [|done].
  rewrite filter_cons, IH, !filter_cons.
  destruct (decide (cmp z y = 0)) as [Hzy|Hzy]; destruct (decide (cmp z x = 0)) as [Hzx|Hzx]; try done.
  exfalso. rewrite cmp_antisym in Hzy. pose proof (cmp_lt_eq y x z Hyx ltac:(rewrite cmp_antisym; lia)). lia.
Qed.

Lemma isort_stable z l :
  filter (fun y => cmp z y = 0) (isort l) = filter (fun y => cmp z y = 0) l.
Proof.
  induction l as [|x l IH]; [done|]. cbn [isort].
  rewrite ins_stable by apply isort_sorted. rewrite !filter_cons, IH. done.
Qed.

Lemma isort_idem l : isort (isort l) = isort l.
Proof. apply sorted_isort, isort_sorted. Qed.

Lemma sorted_take n l : Sorted le_cmp l -> Sorted le_cmp (take n l).
Proof.
  revert l. induction n as [|n IH]; intros [|x l] Hs; cbn; try constructor.
  - apply IH. by apply Sorted_inv in Hs as [? _].
  - apply Sorted_inv in Hs as [_ Hhd]. destruct n, l; cbn; constructor. by inversion Hhd.
Qed.
End laws.

End isort.

(** [isort] only asks whether one element goes before another. *)
Lemma isort_ext {A} (c1 c2 : A -> A -> Z) l :
  (forall a b, a ∈ l -> b ∈ l -> (c1 a b <? 0) = (c2 a b <? 0)) -> isort c1 l = isort c2 l.
Proof.
  induction l as [|x l IH]; intros Hext; [done|]. cbn. rewrite IH by (intros; apply Hext; by right).
  assert (Hin : forall y, y ∈ isort c2 l -> y ∈ l) by (intros y; by rewrite (isort_perm c2 l)).
  clear IH. induction (isort c2 l) as [|y l' IH']; [done|]. cbn.
  rewrite Hext by (by left || (right; apply Hin; left)).
  destruct (c2 y x <? 0); [|done]. f_equal. apply IH'. intros z Hz. apply Hin. by right.
Qed.

(** ** The comparator of [beginTuple] *)

(** [ix_compare] on one order column; the [InternalError] of a column
    of type [TYPE_UNUSE], which no table has, is read as equality. *)
Definition col_cmp (c : ColMeta) (r1 r2 : bytes) : Z :=
  let off := Z.to_nat (col_offset c) in
  match ix_compare_col (col_type c) (Z.to_nat (col_len c)) (drop off r1) (drop off r2) with
  | Some k => k
  | None => 0
  end.

(** The lambda: the first order column on which the records differ
    decides, [r1] first when it is smaller on an ascending column or
    larger on a descending one ([is_descs_[i] ^ true] and
    [is_descs_[i] ^ false]); equal records give [false]. *)
Fixpoint sort_lambda (cols : list ColMeta) (descs : list bool) (r1 r2 : bytes) : bool :=
  match cols with
  | [] => false
  | c :: cs =>
      let d := default false (head descs) in
      let k := col_cmp c r1 r2 in
      if k <? 0 then xorb d true
      else if 0 <? k then xorb d false
      else sort_lambda cs (tail descs) r1 r2
  end.

(** The three-way comparison of a strict order [less]; [isort] on it
    asks [less y x] only, as [std::stable_sort] asks the lambda. *)
Definition cmp_of {A} (less : A -> A -> bool) (a b : A) : Z :=
  if less a b then -1 else if less b a then 1 else 0.

(** ** The order on well-formed records *)

(** A record's key: the rank of each order column. *)
Definition sort_keys (cols : list ColMeta) (r : bytes) : list (list Z) :=
  (fun c => col_rank (col_type c) (Z.to_nat (col_len c)) (drop (Z.to_nat (col_offset c)) r)) <$> cols.

Definition dcmp (d : bool) (x y : list Z) : Z := if d then lexcmp y x else lexcmp x y.

Fixpoint kcmp (ds : list bool) (ka kb : list (list Z)) : Z :=
  match ka, kb with
  | x :: ka', y :: kb' =>
      let k := dcmp (default false (head ds)) x y in
      if k =? 0 then kcmp (tail ds) ka' kb' else k
  | _, _ => 0
  end.

(** The records' order: by their keys. *)
Definition key_cmp (cols : list ColMeta) (ds : list bool) (a b : bytes) : Z :=
  kcmp ds (sort_keys cols a) (sort_keys cols b).

Lemma dcmp_antisym d x y : dcmp d y x = - dcmp d x y.
Proof. destruct d; apply lexcmp_antisym. Qed.

Lemma dcmp_range d x y : dcmp d x y = -1 \/ dcmp d x y = 0 \/ dcmp d x y = 1.
Proof. destruct d; apply lexcmp_range. Qed.

Lemma dcmp_eq d x y : dcmp d x y = 0 -> x = y.
Proof. destruct d; cbn; intros ?%lexcmp_eq; done. Qed.

Lemma dcmp_le_trans d x y z : dcmp d x y <= 0 -> dcmp d y z <= 0 -> dcmp d x z <= 0.
Proof. destruct d; cbn; intros; eapply lexcmp_le_trans; eauto. Qed.

Lemma kcmp_antisym ds ka kb : kcmp ds kb ka = - kcmp ds ka kb.
Proof.
  revert ds kb. induction ka as [|x ka IH]; intros ds [|y kb]; cbn; try done.
  rewrite dcmp_antisym, IH. destruct (Z.eqb_spec (dcmp (default false (head ds)) x y) 0) as [E|E];
    [rewrite E; done|]. rewrite (proj2 (Z.eqb_neq _ _)) by lia. done.
Qed.

Lemma kcmp_trans ds ka kb kc :
  length ka = length kb -> length kb = length kc ->
  kcmp ds ka kb <= 0 -> kcmp ds kb kc <= 0 -> kcmp ds ka kc <= 0.
Proof.
  revert ds kb kc. induction ka as [|x ka IH]; intros ds [|y kb] [|z kc] Hl1 Hl2; cbn in *; try (done || lia).
  set (d := default false (head ds)).
  destruct (Z.eqb_spec (dcmp d x y) 0) as [Exy|Exy]; destruct (Z.eqb_spec (dcmp d y z) 0) as [Eyz|Eyz].
  - apply dcmp_eq in Exy, Eyz. subst. assert (Hz : dcmp d z z = 0) by (destruct d; apply lexcmp_refl).
    rewrite Hz. cbn. apply IH; lia.
  - apply dcmp_eq in Exy. subst. intros _ H. by rewrite (proj2 (Z.eqb_neq _ _) Eyz).
  - apply dcmp_eq in Eyz. subst. intros H _. by rewrite (proj2 (Z.eqb_neq _ _) Exy).
  - intros H1 H2. pose proof (dcmp_le_trans d x y z ltac:(lia) ltac:(lia)) as H.
    destruct (Z.eqb_spec (dcmp d x z) 0) as [Exz|Exz]; [|lia].
    apply dcmp_eq in Exz. subst. rewrite dcmp_antisym in H2. lia.
Qed.

Lemma key_cmp_antisym cols ds a b : key_cmp cols ds b a = - key_cmp cols ds a b.
Proof. apply kcmp_antisym. Qed.

Lemma key_cmp_trans cols ds a b c :
  key_cmp cols ds a b <= 0 -> key_cmp cols ds b c <= 0 -> key_cmp cols ds a c <= 0.
Proof. apply kcmp_trans; unfold sort_keys; by rewrite !length_fmap. Qed.

(** Every order column of the record is well formed (present, of its
    type's width, not a NaN). *)
Definition rec_ok (cols : list ColMeta) (r : bytes) : Prop :=
  Forall (fun c => Key.col_ok (col_type c) (Z.to_nat (col_len c)) (drop (Z.to_nat (col_offset c)) r)) cols.

(** On well-formed records the lambda is the strict order of the keys. *)
Lemma sort_lambda_key cols ds a b :
  rec_ok cols a -> rec_ok cols b -> sort_lambda cols ds a b = (key_cmp cols ds a b <? 0).
Proof.
  unfold key_cmp, sort_keys. revert ds. induction cols as [|c cols IH]; intros ds Ha Hb; [done|].
  apply Forall_cons in Ha as [Ha Has]. apply Forall_cons in Hb as [Hb Hbs]. cbn.
  unfold col_cmp. rewrite ix_compare_col_rank by done. unfold dcmp.
  set (k := lexcmp _ _). pose proof (lexcmp_range (col_rank (col_type c) (Z.to_nat (col_len c)) (drop (Z.to_nat (col_offset c)) a))
    (col_rank (col_type c) (Z.to_nat (col_len c)) (drop (Z.to_nat (col_offset c)) b))) as Hk. fold k in Hk.
  rewrite lexcmp_antisym. fold k.
  destruct (default false (head ds)); destruct Hk as [-> | [-> | ->]]; cbn; try done; by apply IH.
Qed.

(** ** [SortExecutor] *)

Record SortSt (Ch : Type) := mkSort {
  so_prev : Ch;
  so_cols : list ColMeta;
  so_descs : list bool;
  so_limit : Z;
  so_tuples : list (option bytes);
  so_ptr : Z
}.
Arguments mkSort {Ch}.
Arguments so_prev {Ch}.
Arguments so_cols {Ch}.
Arguments so_descs {Ch}.
Arguments so_limit {Ch}.
Arguments so_tuples {Ch}.
Arguments so_ptr {Ch}.

Definition set_sort_prev {Ch} (st : SortSt Ch) (p : Ch) : SortSt Ch :=
  mkSort p (so_cols st) (so_descs st) (so_limit st) (so_tuples st) (so_ptr st).
Definition set_tuples {Ch} (st : SortSt Ch) (ts : list (option bytes)) (ptr : Z) : SortSt Ch :=
  mkSort (so_prev st) (so_cols st) (so_descs st) (so_limit st) ts ptr.

(** [size_t] of an [int]: two's complement wrap to 64 bits. *)
Definition to_size_t (z : Z) : Z := z mod 2 ^ 64.

(** The constructor: each order column from the child's
    [get_col_offset], [limit_cnt_] as a [size_t], no tuple yet. *)
Definition sort_new {Ch} `{Executor Ch} (prev : Ch) (order_cols : list TabCol) (descs : list bool)
    (limit_cnt : Z) : SortSt Ch :=
  mkSort prev (get_col_offset prev <$> order_cols) descs (to_size_t limit_cnt) [] 0.

(** [std::stable_sort] of the tuples with the lambda.  A null tuple is
    dereferenced by the lambda: with two tuples or more and an order
    column, every tuple is compared at least once. *)
Definition sort_tuples (cols : list ColMeta) (descs : list bool) (ts : list (option bytes))
    : res ExecErr (list (option bytes)) :=
  if bool_decide (2 <= length ts)%nat && bool_decide (cols <> []) && existsb (fun t => bool_decide (t = None)) ts
  then Err NullRecord
  else Ok (isort (cmp_of (fun a b => sort_lambda cols descs (default [] a) (default [] b))) ts).

Section sort_exec.
Context `{Executor Ch}.
(** The bound on the child's tuples. *)
Variable sort_fuel : nat.

Definition on_sort_prev {A} (m : exM Ch A) : exM (SortSt Ch) A := on_child so_prev set_sort_prev m.

(** [beginTuple]: the child's tuples appended to [sorted_tuples]
    (which is not cleared), [now_ptr = 0], then the sort. *)
Definition so_begin : exM (SortSt Ch) unit :=
  let! ts := on_sort_prev (drain sort_fuel) in
  let! st := get_st in
  let ts := so_tuples st ++ ts in
  put_st (set_tuples st ts 0) ;;
  let! sorted := liftE (sort_tuples (so_cols st) (so_descs st) ts) in
  put_st (set_tuples st sorted 0).

Definition so_next : exM (SortSt Ch) unit :=
  let! st := get_st in put_st (set_tuples st (so_tuples st) (to_size_t (so_ptr st + 1))).

(** [Next]: [std::move(sorted_tuples.at(now_ptr))]. *)
Definition so_Next : exM (SortSt Ch) (option bytes) :=
  let! st := get_st in
  match so_tuples st !! Z.to_nat (so_ptr st) with
  | None => throw ExecOutOfRange
  | Some t => put_st (set_tuples st (<[Z.to_nat (so_ptr st) := None]> (so_tuples st)) (so_ptr st)) ;; ret t
  end.

(** [is_end]: [now_ptr >= size() || (limit_cnt_ >= 0 && now_ptr >= limit_cnt_)];
    the test [limit_cnt_ >= 0] of a [size_t] always holds. *)
Definition so_is_end : exM (SortSt Ch) bool :=
  let! st := get_st in
  ret ((Z.of_nat (length (so_tuples st)) <=? so_ptr st) || (so_limit st <=? so_ptr st)).

#[global] Instance SortExecutor : Executor (SortSt Ch) := {
  beginTuple := so_begin;
  nextTuple := so_next;
  is_end := so_is_end;
  Next := so_Next;
  ex_cols st := ex_cols (so_prev st);
  tupleLen st := tupleLen (so_prev st);
  get_col_offset _ _ := default_col
}.
End sort_exec.

(** ** The sorted output *)

Lemma ins_fmap {A B} (c : B -> B -> Z) (f : A -> B) x l :
  ins c (f x) (f <$> l) = f <$> ins (fun a b => c (f a) (f b)) x l.
Proof. induction l as [|y l IH]; cbn; [done|]. destruct (c (f y) (f x) <? 0); cbn; [by rewrite IH|done]. Qed.

Lemma isort_fmap {A B} (c : B -> B -> Z) (f : A -> B) l :
  isort c (f <$> l) = f <$> isort (fun a b => c (f a) (f b)) l.
Proof. induction l as [|x l IH]; cbn; [done|]. by rewrite IH, ins_fmap. Qed.

Lemma cmp_of_lt {A} (less : A -> A -> bool) a b : (cmp_of less a b <? 0) = less a b.
Proof. unfold cmp_of. by destruct (less a b), (less b a). Qed.

(** On well-formed records the lambda's stable sort is the stable sort
    by the keys. *)
Lemma lambda_isort cols ds recs :
  Forall (rec_ok cols) recs ->
  isort (cmp_of (sort_lambda cols ds)) recs = isort (key_cmp cols ds) recs.
Proof.
  intros Hall. apply isort_ext. intros a b Ha Hb. rewrite cmp_of_lt.
  apply sort_lambda_key; [exact (proj1 (Forall_forall _ _) Hall a Ha)|exact (proj1 (Forall_forall _ _) Hall b Hb)].
Qed.

Lemma sort_tuples_ok cols ds recs :
  Forall (rec_ok cols) recs ->
  sort_tuples cols ds (Some <$> recs) = Ok (Some <$> isort (key_cmp cols ds) recs).
Proof.
  intros Hall. unfold sort_tuples.
  replace (existsb _ (Some <$> recs)) with false.
  2:{ symmetry. apply not_true_iff_false. intros (x & Hx & Hn)%existsb_exists.
      apply in_map_iff in Hx as (r & <- & _). by apply bool_decide_eq_true in Hn. }
  rewrite andb_false_r. f_equal. rewrite isort_fmap. f_equal. by apply lambda_isort.
Qed.

Section sort_run.
Context `{Executor Ch}.

Lemma so_drain_loop sf fuel c st k R :
  0 <= k -> 0 <= so_limit st < 2 ^ 64 -> so_ptr st = k ->
  drop (Z.to_nat k) (so_tuples st) = Some <$> R ->
  length (so_tuples st) = (Z.to_nat k + length R)%nat -> k + Z.of_nat (length R) < 2 ^ 64 ->
  (length R < fuel)%nat ->
  exists st', @drain_loop _ (SortExecutor sf) fuel (c, st) =
    (Ok (Some <$> take (Z.to_nat (so_limit st - k)) R), (c, st')).
Proof.
  revert st k R. induction fuel as [|n IH]; intros st k R Hk Hlim Hp Hd Hlen Hmax Hf; [lia|].
  cbn [drain_loop is_end Next nextTuple SortExecutor]. unfold so_is_end at 1, bindM at 1, get_st, gets, ret. cbn.
  destruct R as [|r R'].
  { exists st. rewrite Hp, Hlen. cbn. rewrite (proj2 (Z.leb_le (Z.of_nat (Z.to_nat k + 0)) k)) by lia. cbn. by rewrite take_nil. }
  destruct (Z.leb_spec (so_limit st) k) as [Hl|Hl].
  { exists st. rewrite Hp, (proj2 (Z.leb_le _ _) Hl), orb_true_r. cbn. by rewrite Z2Nat.nonpos by lia. }
  rewrite Hp, Hlen, (proj2 (Z.leb_gt _ _) Hl). rewrite (proj2 (Z.leb_gt _ _)) by (cbn; lia). cbn.
  assert (Hk' : so_tuples st !! Z.to_nat k = Some (Some r)).
  { rewrite <- (Nat.add_0_r (Z.to_nat k)), <- lookup_drop, Hd. done. }
  unfold so_Next, so_next, bindM, get_st, gets, put_st, modify, ret. cbn. rewrite Hp, Hk'. cbn.
  set (st1 := set_tuples st (<[Z.to_nat k:=None]> (so_tuples st)) k). cbn [length] in Hmax, Hf, Hlen.
  destruct (IH (set_tuples st1 (<[Z.to_nat k:=None]> (so_tuples st)) (to_size_t (k + 1))) (k + 1) R')
    as (st' & Hloop); cbn; [lia|done|unfold to_size_t; rewrite Z.mod_small; lia| | |lia|lia|].
  - rewrite Z2Nat.inj_add by lia. rewrite drop_insert_lt by lia.
    rewrite <- drop_drop, Hd. done.
  - rewrite length_insert, Hlen. cbn. lia.
  - exists st'. rewrite Hloop. cbn. do 3 f_equal.
    replace (Z.to_nat (so_limit st - k)) with (S (Z.to_nat (so_limit st - (k + 1)))) by lia. done.
Qed.
End sort_run.

Section sort_drain.
Context `{Executor Ch}.

Lemma so_begin_run sf c st recs c' ch' :
  so_tuples st = [] -> drain sf (c, so_prev st) = (Ok (Some <$> recs), (c', ch')) ->
  Forall (rec_ok (so_cols st)) recs ->
  so_begin sf (c, st) =
    (Ok tt, (c', mkSort ch' (so_cols st) (so_descs st) (so_limit st)
                  (Some <$> isort (key_cmp (so_cols st) (so_descs st)) recs) 0)).
Proof.
  intros Ht Hd Hall. unfold so_begin, on_sort_prev, on_child, bindM at 1. rewrite Hd.
  unfold bindM, get_st, gets, put_st, modify, liftE. cbn. rewrite Ht. cbn.
  rewrite sort_tuples_ok by done. done.
Qed.

(** The run of the operator built by [sort_new] over a child that
    drains to well-formed records. *)
Lemma sort_drain_run fuel sf c prev order_cols descs limit recs c' ch' :
  drain fuel (c, prev) = (Ok (Some <$> recs), (c', ch')) ->
  Forall (rec_ok (get_col_offset prev <$> order_cols)) recs ->
  (length recs < sf)%nat -> Z.of_nat (length recs) < 2 ^ 64 ->
  exists st', @drain _ (SortExecutor fuel) sf (c, sort_new prev order_cols descs limit) =
    (Ok (Some <$> take (Z.to_nat (to_size_t limit))
                   (isort (key_cmp (get_col_offset prev <$> order_cols) descs) recs)), (c', st')).
Proof.
  intros Hd Hall Hsf Hmax. unfold drain. cbn [beginTuple SortExecutor].
  rewrite (bindM_ok _ _ _ _ _ (so_begin_run fuel c (sort_new prev order_cols descs limit) recs c' ch' eq_refl Hd Hall)).
  set (S := isort _ recs). assert (HS : length S = length recs) by apply Permutation_length, isort_perm.
  pose proof (Z.mod_pos_bound limit (2 ^ 64) ltac:(lia)).
  destruct (so_drain_loop fuel sf c' (mkSort ch' (get_col_offset prev <$> order_cols) descs (to_size_t limit)
              (Some <$> S) 0) 0 S) as (st' & Hloop); cbn; try (unfold to_size_t; lia).
  all: try (rewrite ?length_fmap, ?HS; cbn; lia).
  - done.
  - exists st'. rewrite Hloop. by rewrite Z.sub_0_r.
Qed.
End sort_drain.

(** C23: [ORDER BY ... LIMIT]: drained to its end, a sort over a child
    that drains to well-formed records returns the first [limit_cnt_]
    records of a list [S] that is a permutation of the child's records,
    sorted by the order columns (each ascending or descending), and
    stable: records equal on every order column keep the child's order. *)
Theorem sort_drain `{Executor Ch} fuel sf c prev order_cols descs limit recs c' ch' :
  drain fuel (c, prev) = (Ok (Some <$> recs), (c', ch')) ->
  Forall (rec_ok (get_col_offset prev <$> order_cols)) recs ->
  (length recs < sf)%nat -> Z.of_nat (length recs) < 2 ^ 64 ->
  let cols := get_col_offset prev <$> order_cols in
  exists S st', @drain _ (SortExecutor fuel) sf (c, sort_new prev order_cols descs limit) =
      (Ok (Some <$> take (Z.to_nat (to_size_t limit)) S), (c', st')) /\
    S ≡ₚ recs /\ Sorted (fun a b => key_cmp cols descs a b <= 0) S /\
    forall z, filter (fun y => key_cmp cols descs z y = 0) S = filter (fun y => key_cmp cols descs z y = 0) recs.
Proof.
  intros Hd Hall Hsf Hmax cols.
  destruct (sort_drain_run fuel sf c prev order_cols descs limit recs c' ch' Hd Hall Hsf Hmax) as (st' & Hrun).
  exists (isort (key_cmp cols descs) recs), st'. split_and!; [done|apply isort_perm| |].
  - apply isort_sorted; intros; (apply key_cmp_antisym || eapply key_cmp_trans; eauto).
  - intros z. apply isort_stable; intros; (apply key_cmp_antisym || eapply key_cmp_trans; eauto).
Qed.

(** C25: A negative [LIMIT] (the planner's [-1000] for none) becomes a
    [size_t] of [2^64 + limit]: for any [int] limit below zero and any
    number of child records up to [2^63], the sort returns every record
    of its child. *)
Theorem sort_negative_limit `{Executor Ch} fuel sf c prev order_cols descs limit recs c' ch' :
  - 2 ^ 31 <= limit < 0 -> Z.of_nat (length recs) <= 2 ^ 63 ->
  drain fuel (c, prev) = (Ok (Some <$> recs), (c', ch')) ->
  Forall (rec_ok (get_col_offset prev <$> order_cols)) recs -> (length recs < sf)%nat ->
  exists out st', @drain _ (SortExecutor fuel) sf (c, sort_new prev order_cols descs limit) =
    (Ok (Some <$> out), (c', st')) /\ out ≡ₚ recs.
Proof.
  intros Hl Hn Hd Hall Hsf.
  destruct (sort_drain_run fuel sf c prev order_cols descs limit recs c' ch' Hd Hall Hsf ltac:(lia)) as (st' & Hrun).
  eexists _, st'. split; [exact Hrun|]. rewrite take_ge; [apply isort_perm|].
  rewrite (Permutation_length (isort_perm _ recs)). unfold to_size_t.
  rewrite Z.mod_eq by lia. replace (limit / 2 ^ 64) with (-1) by (apply Z.div_unique with (2 ^ 64 + limit); lia).
  lia.
Qed.

(** ** Sorting a scanned table *)

(** Table [v(a INT, b INT)] with the rows (1,5), (2,3), (3,4). *)
Definition col_va : ColMeta := mkColMeta "v" "a" TYPE_INT 4 0 false.
Definition col_vb : ColMeta := mkColMeta "v" "b" TYPE_INT 4 4 false.
Definition row (a b : Z) : bytes := int_bytes a ++ int_bytes b.
Definition heap_v : RmFileHandle :=
  run_file (insert_record (row 3 4)) (run_file (insert_record (row 2 3))
    (run_file (insert_record (row 1 5)) (empty_heap 7 [Byte.x76] 8 2))).
Definition ctx_v : ExecCtx :=
  mkExecCtx (mkTxnMgr (mkDbMeta "db" [("v"%string, mkTabMeta "v" [col_va; col_vb] [] ∅)])
               {["v"%string := heap_v]} ∅ lm_empty empty_log ∅ 2) T1 [].
Definition scan_v : SeqScanSt :=
  mkSeqScan "v" [] [col_va; col_vb] 8 8 (init_hash_cols [col_va; col_vb]) (mkRid (-1) (-1)) None None.

(** [ORDER BY b DESC] without a limit, and the same sort over it. *)
Definition sort_v : SortSt SeqScanSt :=
  sort_new (H := SeqScanExecutor 3) scan_v [mkTabCol "v" "b"] [true] (-1000).
Definition sort_sort_v : SortSt (SortSt SeqScanSt) :=
  sort_new (H := @SortExecutor _ (SeqScanExecutor 3) 3) sort_v [mkTabCol "v" "b"] [true] (-1000).

Lemma scan_v_drain :
  exists c', @drain _ (SeqScanExecutor 3) 3 (ctx_v, scan_v) = (Ok (Some <$> [row 1 5; row 2 3; row 3 4]), c').
Proof. eexists. vm_compute. reflexivity. Qed.

Lemma rows_ok : Forall (rec_ok [col_vb]) [row 1 5; row 2 3; row 3 4].
Proof. repeat constructor; vm_compute; try discriminate; lia. Qed.

Lemma sort_drain_witness :
  exists S st', @drain _ (@SortExecutor _ (SeqScanExecutor 3) 3) 4 (ctx_v, sort_v) =
      (Ok (Some <$> take (Z.to_nat (to_size_t (-1000))) S), st') /\ S ≡ₚ [row 1 5; row 2 3; row 3 4].
Proof.
  destruct scan_v_drain as [[c' ch'] Hd].
  destruct (sort_drain 3 4 ctx_v scan_v [mkTabCol "v" "b"] [true] (-1000) _ c' ch' Hd rows_ok
              ltac:(cbn; lia) ltac:(cbn; lia)) as (S & st' & Hrun & Hp & _).
  exists S, (c', st'). split; [exact Hrun|exact Hp].
Defined.

Lemma sort_negative_limit_witness :
  exists out st', @drain _ (@SortExecutor _ (SeqScanExecutor 3) 3) 4 (ctx_v, sort_v) = (Ok (Some <$> out), st') /\
    out ≡ₚ [row 1 5; row 2 3; row 3 4].
Proof.
  destruct scan_v_drain as [[c' ch'] Hd].
  destruct (sort_negative_limit (H := SeqScanExecutor 3) 3 4 ctx_v scan_v [mkTabCol "v" "b"] [true] (-1000) [row 1 5; row 2 3; row 3 4] c' ch'
              ltac:(split; [apply Z.leb_le; reflexivity|reflexivity]) ltac:(apply Z.leb_le; reflexivity) Hd rows_ok ltac:(cbn; lia)) as (out & st' & Hrun & Hp).
  exists out, (c', st'). split; [exact Hrun|exact Hp].
Defined.

(** [SortExecutor] does not override [get_col_offset], so a sort
    whose child is a sort finds every order column as [ColMeta()] (an
    INT at offset 0): [ORDER BY b DESC] applied to the output of the
    same sort orders the rows by [a] instead, and [Sort(Sort(R,o),o)]
    differs from [Sort(R,o)]. *)
Example sort_over_sort :
  fst (@drain _ (@SortExecutor _ (SeqScanExecutor 3) 3) 4 (ctx_v, sort_v)) = Ok [Some (row 1 5); Some (row 3 4); Some (row 2 3)] /\
  fst (@drain _ (@SortExecutor _ (@SortExecutor _ (SeqScanExecutor 3) 3) 4) 4 (ctx_v, sort_sort_v)) =
    Ok [Some (row 3 4); Some (row 2 3); Some (row 1 5)].
Proof. split; vm_compute; reflexivity. Qed.
