(* ===== verification/Dml.v ===== *)
(** * The DML executors: [executor_insert.h], [executor_delete.h],
    [executor_update.h], with [SmManager::insert_rec],
    [do_pre_insert] and [insert_into_index] of [sm_manager.cpp]

    The three executors have no children: their work is done by one
    call of [Next], and [beginTuple], [nextTuple] and [is_end] are the
    defaults of [AbstractExecutor].  Heap calls run inside the running
    transaction ([heap_call]: the [Context] is made from the executor
    context and written back), index calls on the index files of
    [SmManager::ihs_] ([ix_call]).  The values and set clauses the
    executors hold are updated in place by the source ([values_[i]]
    and [set_clause.rhs] are references), so the model keeps their
    updated copies in the executor state, also when a later step
    throws. *)

From Stdlib Require Import ZArith Lia Strings.String.
From stdpp Require Import base list gmap sets.
From coqutil Require Import Word.LittleEndianList.
From S2P Require Import Prelude Log Lock Key Value Meta IxNode IxTree IxTreeInv Heap HeapInv Txn Exec Operators.

Open Scope Z_scope.
Open Scope rmdb_scope.

(** ** Plumbing *)

(** A call of the system layer ([txnM]) from an executor. *)
Definition on_sys {St A} (m : txnM A) : exM St A := fun '(c, s) =>
  let '(r, sys') := m (ec_sys c) in
  (match r with Ok a => Ok a | Err e => Err (ExecTxnErr e) end,
   (mkExecCtx sys' (ec_txn c) (ec_ws c), s)).

(** A B+ tree call on the index file [name] ([ihs_.at(name)]). *)
Definition ix_call {St A} (name : string) (m : ixM bytes A) : exM St A := on_sys (with_ix name m).

(** The [Context] of a heap call: the lock manager, the transaction
    with its write set, and the log manager. *)
Definition txn_ctx (c : ExecCtx) : TxnCtx :=
  mkTxnCtx (lock_manager_ (ec_sys c)) (ec_txn c) (ec_ws c) (log_manager_ (ec_sys c)).

(** The executor context after a heap call left table [tab]'s file as
    [f] and the [Context] as [ctx]. *)
Definition heap_back (c : ExecCtx) (tab : string) (f : RmFileHandle) (ctx : TxnCtx) : ExecCtx :=
  mkExecCtx (set_log (set_lock (set_fhs (ec_sys c) (<[tab := f]> (fhs_ (ec_sys c)))) (lock_mgr_ ctx)) (log_mgr_ ctx))
    (txn_ ctx) (write_set_ ctx).

(** A heap call on table [tab]'s file inside the transaction. *)
Definition heap_call {St A} (tab : string) (m : heapM A) : exM St A := fun '(c, s) =>
  match fhs_ (ec_sys c) !! tab with
  | None => (Err (ExecTxnErr (NullFileHandle tab)), (c, s))
  | Some f =>
      let '(r, hs) := m (mkHeapSt f (Some (txn_ctx c))) in
      (heap_res r, (heap_back c tab (hfile hs) (default (txn_ctx c) (hctx hs)), s))
  end.

(** [context_->lock_mgr_->lock_*_on_table(context_->txn_, fd)]; a
    refusal throws [TransactionAbortException]. *)
Definition lock_table {St} (lk : LockManager -> Transaction -> Z -> res AbortReason (LockManager * Transaction))
    (fd : Z) : exM St unit := fun '(c, s) =>
  match lk (lock_manager_ (ec_sys c)) (ec_txn c) fd with
  | Ok (lm, t) => (Ok tt, (mkExecCtx (set_lock (ec_sys c) lm) t (ec_ws c), s))
  | Err r => (Err (ExecAbort r), (c, s))
  end.

(** The table lock of a delete or an update of [n] rids: IX for one
    rid (record locks follow), X for more (no record locks), none for
    none; the result is [add_lock]. *)
Definition table_lock_for {St} (n : nat) (fd : Z) : exM St bool :=
  if (n =? 1)%nat then lock_table lock_IX_on_table fd ;; ret true
  else if (1 <? n)%nat then lock_table lock_exclusive_on_table fd ;; ret false
  else ret true.

(** [coltype2str]: [std::map::at], which throws on [TYPE_UNUSE]. *)
Definition coltype2str (t : ColType) : res ExecErr string :=
  match t with
  | TYPE_INT => Ok "INT"
  | TYPE_FLOAT => Ok "FLOAT"
  | TYPE_STRING => Ok "STRING"
  | TYPE_DATETIME => Ok "DATETIME"
  | TYPE_BIGINT => Ok "BIGINT"
  | TYPE_UNUSE => Err ExecOutOfRange
  end%string.

(** [throw IncompatibleTypeError(coltype2str(a), coltype2str(b))]. *)
Definition incompatible {A} (a b : ColType) : res ExecErr A :=
  let* x := coltype2str a in
  let* y := coltype2str b in
  Err (IncompatibleTypeError x y).

Definition val_res {A} (r : res ValErr A) : res ExecErr A :=
  match r with Ok a => Ok a | Err e => Err (ExecValErr e) end.

(** [init_raw(len)] on a copy of a value: the value with its [raw]. *)
Definition with_init_raw (v : Value) (len : Z) : res ExecErr Value :=
  let '(r, v') := init_raw len v in
  let* _ := val_res r in Ok v'.

(** [memcpy(rec.data + col.offset, raw->data, col.len)]. *)
Definition put_col (rec : bytes) (col : ColMeta) (v : Value) : res ExecErr bytes :=
  match raw v with
  | Some r => Ok (memcpy_into rec (Z.to_nat (col_offset col)) (take (Z.to_nat (col_len col)) r))
  | None => Err NullRecord
  end.

(** A loop over a list whose elements the body may update in place: the
    elements are processed in order, threading [b]; on an exception the
    processed prefix keeps its updates and the rest is untouched. *)
Fixpoint fold_inplace {A B E} (f : B -> A -> res E B * A) (b : B) (l : list A) : res E B * list A :=
  match l with
  | [] => (Ok b, [])
  | x :: l' =>
      let '(r, x') := f b x in
      match r with
      | Err e => (Err e, x' :: l')
      | Ok b' => let '(r', l'') := fold_inplace f b' l' in (r', x' :: l'')
      end
  end.

Section dml.
(** The bound on the B+ trees' heights the index calls descend. *)
Variable ix_fuel : nat.
(** Single-precision addition and subtraction on bit patterns. *)
Variables fadd32 fsub32 : Z -> Z -> Z.

Definition ix_name (tab : string) (im : IndexMeta) : string := get_index_name tab (ix_cols im).

Definition ix_exists (im : IndexMeta) (key : bytes) : ixM bytes bool :=
  is_key_exists (ix_cmp (ix_schema im)) ix_fuel key.

Definition ix_search (im : IndexMeta) (key : bytes) : ixM bytes Iid :=
  binary_search_iid (ix_cmp (ix_schema im)) ix_fuel key.

(** ** [InsertExecutor] *)

Record InsertSt := mkInsertSt {
  ins_tab : TabMeta;
  ins_values : list Value;
  ins_tab_name : string;
  ins_rid : option Rid    (* [rid_], indeterminate until the insert *)
}.

Definition set_values (st : InsertSt) (vs : list Value) : InsertSt :=
  mkInsertSt (ins_tab st) vs (ins_tab_name st) (ins_rid st).
Definition set_rid (st : InsertSt) (rid : Rid) : InsertSt :=
  mkInsertSt (ins_tab st) (ins_values st) (ins_tab_name st) (Some rid).

(** The constructor: the table's metadata, its file handle
    ([fhs_.at]), and the value count. *)
Definition insert_new (c : ExecCtx) (tab_name : string) (values : list Value) : res ExecErr InsertSt :=
  match get_table (db_ (ec_sys c)) tab_name with
  | Err e => Err (ExecMetaErr e)
  | Ok tab =>
      match fhs_ (ec_sys c) !! tab_name with
      | None => Err ExecOutOfRange
      | Some _ =>
          if negb (length values =? length (tab_cols tab))%nat then Err InvalidValueCountError
          else Ok (mkInsertSt tab values tab_name None)
      end
  end.

(** The type check of [do_pre_insert] on one value: a DATETIME column
    takes the string (which must be a valid datetime), a BIGINT column
    an INT (sign-extended); any other mismatch throws.  The value's
    fields are updated before the check that may throw. *)
Definition coerce (col : ColMeta) (val : Value) : res ExecErr Value * Value :=
  if bool_decide (col_type col = v_type val) then (Ok val, val) else
  match col_type col with
  | TYPE_DATETIME =>
      let val := set_datetime_val (with_type val TYPE_DATETIME) (str_val val) in
      if check_datetime_ (datetime_val val) then (Ok val, val)
      else (Err (InvalidValueError (datetime_val val)), val)
  | TYPE_BIGINT =>
      if bool_decide (v_type val = TYPE_INT) then
        let val := set_bigint val (int_val val) in (Ok val, val)
      else (incompatible (col_type col) (v_type val), val)
  | t => (incompatible t (v_type val), val)
  end.

(** One iteration of [do_pre_insert]'s loop: coerce, [init_raw], copy
    into the record. *)
Definition pre_insert_col (rec : bytes) (cv : ColMeta * Value) : res ExecErr bytes * (ColMeta * Value) :=
  let '(col, val) := cv in
  let '(r, val) := coerce col val in
  match r with
  | Err e => (Err e, (col, val))
  | Ok val =>
      let '(r, val) := init_raw (col_len col) val in
      match r with
      | Err e => (Err (ExecValErr e), (col, val))
      | Ok _ => (put_col rec col val, (col, val))
      end
  end.

(** [do_pre_insert]: the record from the values (the constructor made
    [values_.size() == tab_.cols.size()]), the IX lock on the table,
    then the duplicate probe of every index. *)
Definition do_pre_insert (rec : bytes) : exM InsertSt bytes :=
  let! st := get_st in
  let '(r, cvs) := fold_inplace pre_insert_col rec (zip (tab_cols (ins_tab st)) (ins_values st)) in
  put_st (set_values st (snd <$> cvs)) ;;
  let! rec := liftE r in
  let! f := file_of (ins_tab_name st) in
  lock_table lock_IX_on_table (rm_fd_ f) ;;
  iterM (indexes (ins_tab st)) (fun im =>
    let! iid := ix_call (ix_name (tab_name (ins_tab st)) im) (ix_search im (index_key im rec)) in
    if iid_page_no iid =? -1 then ret tt else throw IndexInsertDuplicatedError) ;;
  ret rec.

(** [insert_into_index]: the record's key into every index. *)
Definition insert_into_index {St} (tab : TabMeta) (rec : bytes) (rid : Rid) : exM St unit :=
  iterM (indexes tab) (fun im =>
    ix_call (ix_name (tab_name tab) im) (ix_insert ix_fuel im (index_key im rec) rid) ;; ret tt).

(** [insert_rec]: a record of the file's record size, filled by
    [do_pre_insert], written by [insert_record] (whose rid is [rid_]),
    then indexed. *)
Definition insert_rec : exM InsertSt unit :=
  let! st := get_st in
  let! f := file_of (ins_tab_name st) in
  let! rec := do_pre_insert (replicate (record_size (rm_file_hdr_ f)) Byte.x00) in
  let! rid := heap_call (ins_tab_name st) (insert_record rec) in
  let! st := get_st in
  put_st (set_rid st rid) ;;
  insert_into_index (ins_tab st) rec rid.

Definition ins_Next : exM InsertSt (option bytes) := insert_rec ;; ret None.

(** ** [DeleteExecutor] *)

Record DeleteSt := mkDeleteSt {
  del_tab : TabMeta;
  del_conds : list Condition;
  del_rids : list Rid;
  del_tab_name : string
}.

Definition delete_new (c : ExecCtx) (tab_name : string) (conds : list Condition) (rids : list Rid)
    : res ExecErr DeleteSt :=
  match get_table (db_ (ec_sys c)) tab_name with
  | Err e => Err (ExecMetaErr e)
  | Ok tab =>
      match fhs_ (ec_sys c) !! tab_name with
      | None => Err ExecOutOfRange
      | Some _ => Ok (mkDeleteSt tab conds rids tab_name)
      end
  end.

(** One rid: its record read, deleted, and its key removed from every
    index. *)
Definition delete_one (tab : TabMeta) (tab_name : string) (add_lock : bool) (rid : Rid) : exM DeleteSt unit :=
  let! r := heap_call tab_name (get_record add_lock rid) in
  heap_call tab_name (delete_record add_lock rid) ;;
  iterM (indexes tab) (fun im =>
    ix_call (ix_name tab_name im) (ix_delete ix_fuel im (index_key im r) rid) ;; ret tt).

Definition del_Next : exM DeleteSt (option bytes) :=
  let! st := get_st in
  let! f := file_of (del_tab_name st) in
  let! add_lock := table_lock_for (length (del_rids st)) (rm_fd_ f) in
  iterM (del_rids st) (delete_one (del_tab st) (del_tab_name st) add_lock) ;;
  ret None.

(** ** [UpdateExecutor] *)

Record UpdateSt := mkUpdateSt {
  up_tab : TabMeta;
  up_conds : list Condition;
  up_rids : list Rid;
  up_tab_name : string;
  up_set_clauses : list SetClause
}.

Definition set_clauses (st : UpdateSt) (scs : list SetClause) : UpdateSt :=
  mkUpdateSt (up_tab st) (up_conds st) (up_rids st) (up_tab_name st) scs.

Definition with_rhs (sc : SetClause) (v : Value) : SetClause := mkSetClause (sc_lhs sc) v (set_op sc).

Definition update_new (c : ExecCtx) (tab_name : string) (set_clauses : list SetClause)
    (conds : list Condition) (rids : list Rid) : res ExecErr UpdateSt :=
  match get_table (db_ (ec_sys c)) tab_name with
  | Err e => Err (ExecMetaErr e)
  | Ok tab =>
      match fhs_ (ec_sys c) !! tab_name with
      | None => Err ExecOutOfRange
      | Some _ => Ok (mkUpdateSt tab conds rids tab_name set_clauses)
      end
  end.

Definition lhs_col (tab : TabMeta) (sc : SetClause) : res ExecErr ColMeta :=
  match TabMeta.get_col tab (tc_col_name (sc_lhs sc)) with
  | Ok c => Ok c
  | Err e => Err (ExecMetaErr e)
  end.

(** The first loop over [set_clauses_]: an INT assigned to a BIGINT
    column becomes a BIGINT. *)
Definition widen_clause (tab : TabMeta) (_ : unit) (sc : SetClause) : res ExecErr unit * SetClause :=
  match lhs_col tab sc with
  | Err e => (Err e, sc)
  | Ok c =>
      if bool_decide (col_type c = TYPE_BIGINT) && bool_decide (v_type (sc_rhs sc) = TYPE_INT)
      then (Ok tt, with_rhs sc (set_bigint (sc_rhs sc) (int_val (sc_rhs sc))))
      else (Ok tt, sc)
  end.

(** [update_rhs_val]: for [+=] / [-=] the column's current value
    combined with the right-hand side ([OP_PLUS] adds, any other
    operation subtracts) at the column's width, two's complement for
    INT and BIGINT; then [init_raw] on the copy when it has no [raw],
    and the column's bytes overwritten. *)
Definition update_rhs_val (rec : bytes) (lhs : ColMeta) (rhs : Value) (op : SetOp) : res ExecErr bytes :=
  let des := drop (Z.to_nat (col_offset lhs)) rec in
  let plus := bool_decide (op = OP_PLUS) in
  let* rhs :=
    if bool_decide (op = OP_ASSIGN) then Ok rhs else
    if negb (bool_decide (col_type lhs = v_type rhs)) then Err ExecAssertFailed else
    match col_type lhs with
    | TYPE_INT =>
        Ok (set_int rhs (wrap32 (if plus then signed_of 4 des + int_val rhs else signed_of 4 des - int_val rhs)))
    | TYPE_FLOAT =>
        Ok (set_float rhs (if plus then fadd32 (float_bits des) (float_val rhs)
                           else fsub32 (float_bits des) (float_val rhs)))
    | TYPE_BIGINT =>
        Ok (set_bigint rhs (wrap64 (if plus then signed_of 8 des + bigint_val rhs
                                    else signed_of 8 des - bigint_val rhs)))
    | _ => Err ExecAssertFailed
    end in
  let* rhs := match raw rhs with None => with_init_raw rhs (col_len lhs) | Some _ => Ok rhs end in
  put_col rec lhs rhs.

(** The second loop's body for one set clause: a DATETIME column takes
    the string (kept in the clause, which only becomes DATETIME when
    valid), the types must agree, and the column is rewritten. *)
Definition apply_clause (tab : TabMeta) (rec : bytes) (sc : SetClause) : res ExecErr bytes * SetClause :=
  match lhs_col tab sc with
  | Err e => (Err e, sc)
  | Ok c =>
      let '(r, sc) :=
        if bool_decide (col_type c = TYPE_DATETIME) then
          let sc := with_rhs sc (set_datetime_val (sc_rhs sc) (str_val (sc_rhs sc))) in
          if check_datetime_ (datetime_val (sc_rhs sc))
          then (Ok tt, with_rhs sc (with_type (sc_rhs sc) TYPE_DATETIME))
          else (Err (InvalidValueError (datetime_val (sc_rhs sc))), sc)
        else (Ok tt, sc) in
      match r with
      | Err e => (Err e, sc)
      | Ok _ =>
          if negb (bool_decide (col_type c = v_type (sc_rhs sc))) then (incompatible (col_type c) (v_type (sc_rhs sc)), sc)
          else (update_rhs_val rec c (sc_rhs sc) (set_op sc), sc)
      end
  end.

(** The updated record of one rid, the clauses updated in place. *)
Definition new_record (rec : bytes) : exM UpdateSt bytes :=
  let! st := get_st in
  let '(r, scs) := fold_inplace (apply_clause (up_tab st)) rec (up_set_clauses st) in
  put_st (set_clauses st scs) ;;
  liftE r.

Fixpoint new_records (tab_name : string) (add_lock : bool) (rids : list Rid) : exM UpdateSt (list bytes) :=
  match rids with
  | [] => ret []
  | rid :: rids' =>
      let! rec := heap_call tab_name (get_record add_lock rid) in
      let! u := new_record rec in
      let! us := new_records tab_name add_lock rids' in
      ret (u :: us)
  end.

(** [ix_metas]: the indexes with a column some clause assigns. *)
Definition touched_indexes (tab : TabMeta) (scs : list SetClause) : list IndexMeta :=
  List.filter (fun im => existsb (fun sc => existsb (fun c => bool_decide (tc_col_name (sc_lhs sc) = col_name c))
                                                   (ix_cols im)) scs)
              (indexes tab).

(** The unique-index check of one updated record: each touched index's
    key fails when the index has it or when it is in [vis], the keys
    (as byte strings, whatever their index) already checked. *)
Fixpoint dup_check {St} (tab_name : string) (ixs : list IndexMeta) (rec : bytes) (vis : list bytes)
    : exM St (bool * list bytes) :=
  match ixs with
  | [] => ret (false, vis)
  | im :: ixs' =>
      let key := index_key im rec in
      let! ex := ix_call (ix_name tab_name im) (ix_exists im key) in
      let failed := ex || bool_decide (key ∈ vis) in
      let! r := dup_check tab_name ixs' rec (key :: vis) in
      ret (failed || r.1, r.2)
  end.

Fixpoint precheck {St} (tab_name : string) (ixs : list IndexMeta) (recs : list bytes) (vis : list bytes)
    : exM St unit :=
  match recs with
  | [] => ret tt
  | rec :: recs' =>
      let! r := dup_check tab_name ixs rec vis in
      if r.1 then throw (InternalError "Error: update duplicated indexes.")
      else precheck tab_name ixs recs' r.2
  end.

(** The last loop: each record read again, overwritten, and its entry
    in every touched index moved from the old key to the new one. *)
Definition write_one (tab_name : string) (ixs : list IndexMeta) (add_lock : bool) (ru : Rid * bytes)
    : exM UpdateSt unit :=
  let '(rid, u) := ru in
  let! old := heap_call tab_name (get_record add_lock rid) in
  heap_call tab_name (update_record add_lock rid u) ;;
  iterM ixs (fun im =>
    ix_call (ix_name tab_name im) (ix_delete ix_fuel im (index_key im old) rid) ;;
    ix_call (ix_name tab_name im) (ix_insert ix_fuel im (index_key im u) rid) ;; ret tt).

Definition up_Next : exM UpdateSt (option bytes) :=
  let! st := get_st in
  let! f := file_of (up_tab_name st) in
  let! add_lock := table_lock_for (length (up_rids st)) (rm_fd_ f) in
  let '(r, scs) := fold_inplace (widen_clause (up_tab st)) tt (up_set_clauses st) in
  put_st (set_clauses st scs) ;;
  liftE r ;;
  let! us := new_records (up_tab_name st) add_lock (up_rids st) in
  let! st := get_st in
  let ixs := touched_indexes (up_tab st) (up_set_clauses st) in
  precheck (up_tab_name st) ixs us [] ;;
  iterM (zip (up_rids st) us) (write_one (up_tab_name st) ixs add_lock) ;;
  ret None.

End dml.

(** The three executors under the [AbstractExecutor] interface: the
    defaults for everything but [Next] ([is_end] is [true], no columns,
    [tupleLen] 0, [ColMeta()] for [get_col_offset]). *)
#[export] Instance InsertExecutor (ix_fuel : nat) : Executor InsertSt := {|
  beginTuple := ret tt; nextTuple := ret tt; is_end := ret true; Next := ins_Next ix_fuel;
  ex_cols := fun _ => []; tupleLen := fun _ => 0; get_col_offset := fun _ _ => default_col |}.

#[export] Instance DeleteExecutor (ix_fuel : nat) : Executor DeleteSt := {|
  beginTuple := ret tt; nextTuple := ret tt; is_end := ret true; Next := del_Next ix_fuel;
  ex_cols := fun _ => []; tupleLen := fun _ => 0; get_col_offset := fun _ _ => default_col |}.

#[export] Instance UpdateExecutor (ix_fuel : nat) (fadd32 fsub32 : Z -> Z -> Z) : Executor UpdateSt := {|
  beginTuple := ret tt; nextTuple := ret tt; is_end := ret true; Next := up_Next ix_fuel fadd32 fsub32;
  ex_cols := fun _ => []; tupleLen := fun _ => 0; get_col_offset := fun _ _ => default_col |}.

(** ** The arithmetic of [SET col = col + v] *)

Lemma wrap32_congr a b : a mod 2 ^ 32 = b mod 2 ^ 32 -> wrap32 a = wrap32 b.
Proof. intros H. unfold wrap32. f_equal. by rewrite Zplus_mod, H, <- Zplus_mod. Qed.

Lemma int_val_set_int v x : int_val (set_int v x) = wrap32 x.
Proof.
  unfold int_val, set_int, set_int_val, with_num, with_type, set_low32. cbn. apply wrap32_congr.
  rewrite Z.add_comm, Z_mod_plus_full. apply Zmod_mod.
Qed.

(** C26: [update_rhs_val] on an INT column with [OP_PLUS] writes the
    32-bit two's-complement sum of the column's current value and the
    right-hand side into the column's four bytes: the addition wraps
    ([INT_MAX + 1] becomes [INT_MIN]) and nothing outside the column is
    written. *)
Theorem update_plus_int_wraps fa fs rec lhs rhs :
  col_type lhs = TYPE_INT -> col_len lhs = 4 -> v_type rhs = TYPE_INT -> raw rhs = None ->
  update_rhs_val fa fs rec lhs rhs OP_PLUS =
    Ok (memcpy_into rec (Z.to_nat (col_offset lhs))
          (le_split 4 (wrap32 (signed_of 4 (drop (Z.to_nat (col_offset lhs)) rec) + int_val rhs)))).
Proof.
  intros Hc Hl Hv Hr. unfold update_rhs_val.
  rewrite (bool_decide_false (OP_PLUS = OP_ASSIGN)) by done.
  rewrite Hc, Hv, bool_decide_true by done. cbn.
  unfold with_init_raw, init_raw, bindM, gets, modify, put_col. cbn.
  rewrite Hr, Hl. cbn. rewrite int_val_set_int, bool_decide_true, (wrap32_id (wrap32 _)) by apply wrap32_range || done.
  change (drop 4 (zeros 4)) with (@nil Byte.byte).
  rewrite app_nil_r, take_ge by (rewrite length_le_split; lia). done.
Qed.

(** ** The unique-index precheck of [UpdateExecutor] *)

(** An index call that reads a well-formed index leaves the system
    state as it was. *)
Lemma ix_call_read {St A} name (m : ixM bytes A) c (s : St) ih a :
  ihs_ (ec_sys c) !! name = Some ih -> m ih = (Ok a, ih) -> ix_call name m (c, s) = (Ok a, (c, s)).
Proof.
  intros Hi Hm. unfold ix_call, on_sys, with_ix. rewrite Hi, Hm. cbn.
  rewrite insert_id by done. by destruct c as [[] ? ?].
Qed.

Section precheck_spec.
Variable ix_fuel : nat.

(** Index [im] of table [tab] is open in [sys] and well formed, with
    abstract entries [ents], a height within the fuel, and no node at
    page [-1]. *)
Definition ix_ok (sys : TxnMgr) (tab : string) (im : IndexMeta) (ents : list (bytes * Rid)) : Prop :=
  exists ih h, ihs_ sys !! ix_name tab im = Some ih /\
    tree_ok (key_ok (ix_schema im)) (ix_cmp (ix_schema im)) ih h ents /\ (h <= ix_fuel)%nat /\
    nodes_ ih !! (-1) = None.

(** The abstract membership of a record's key in index [im]. *)
Definition in_index (abs : IndexMeta -> list (bytes * Rid)) (rec : bytes) (im : IndexMeta) : bool :=
  bool_decide (is_Some (abs_lookup (ix_cmp (ix_schema im)) (abs im) (index_key im rec))).

Lemma ix_exists_call {St} c (s : St) tab im ents key :
  ix_ok (ec_sys c) tab im ents -> key_ok (ix_schema im) key ->
  ix_call (ix_name tab im) (ix_exists ix_fuel im key) (c, s) =
    (Ok (bool_decide (is_Some (abs_lookup (ix_cmp (ix_schema im)) ents key))), (c, s)).
Proof.
  intros (ih & h & Hi & Ht & Hf & _) Hk. apply (ix_call_read _ _ _ _ ih); [done|].
  exact (is_key_exists_spec (key_ok (ix_schema im)) _ ih h ents ix_fuel key Ht Hf Hk).
Qed.

(** The keys of one record in the indexes [ixs], and of all records. *)
Definition row_keys (ixs : list IndexMeta) (rec : bytes) : list bytes := (fun im => index_key im rec) <$> ixs.
Definition all_keys (ixs : list IndexMeta) (recs : list bytes) : list bytes := mjoin (row_keys ixs <$> recs).

(** Some key of [ks] is in [vis] or repeats an earlier one. *)
Fixpoint dup_in (vis ks : list bytes) : bool :=
  match ks with
  | [] => false
  | k :: ks' => bool_decide (k ∈ vis) || dup_in (k :: vis) ks'
  end.

Lemma dup_in_app vis ks1 ks2 : dup_in vis (ks1 ++ ks2) = dup_in vis ks1 || dup_in (rev ks1 ++ vis) ks2.
Proof.
  revert vis. induction ks1 as [|k ks1 IH]; intros vis; [done|]. cbn.
  rewrite IH, <- app_assoc. cbn. by destruct (bool_decide _), (dup_in _ ks1).
Qed.

Lemma dup_in_NoDup vis ks : NoDup vis -> dup_in vis ks = false <-> NoDup (ks ++ vis).
Proof.
  revert vis. induction ks as [|k ks IH]; intros vis Hv; cbn; [split; done|].
  rewrite orb_false_iff, bool_decide_eq_false, NoDup_cons, elem_of_app.
  destruct (decide (k ∈ vis)) as [Hk|Hk]; [naive_solver|].
  rewrite IH by (by constructor).
  rewrite <- (Permutation_middle ks vis k), NoDup_cons, elem_of_app. naive_solver.
Qed.

Lemma dup_check_run {St} tab ixs rec vis abs c (s : St) :
  Forall (fun im => ix_ok (ec_sys c) tab im (abs im) /\ key_ok (ix_schema im) (index_key im rec)) ixs ->
  dup_check ix_fuel tab ixs rec vis (c, s) =
    (Ok (existsb (in_index abs rec) ixs || dup_in vis (row_keys ixs rec), rev (row_keys ixs rec) ++ vis), (c, s)).
Proof.
  revert vis. induction ixs as [|im ixs IH]; intros vis Hok; [done|].
  apply Forall_cons in Hok as [[Hi Hk] Hok]. cbn [dup_check].
  rewrite (bindM_ok _ _ _ _ _ (ix_exists_call _ _ _ _ _ _ Hi Hk)), (bindM_ok _ _ _ _ _ (IH _ Hok)).
  cbn. unfold ret, in_index. rewrite <- app_assoc. cbn. f_equal. f_equal. f_equal.
  by destruct (bool_decide _), (bool_decide _), (existsb _ _), (dup_in _ _).
Qed.

Lemma precheck_run {St} tab ixs recs vis abs c (s : St) :
  Forall (fun im => ix_ok (ec_sys c) tab im (abs im)) ixs ->
  Forall (fun rec => Forall (fun im => key_ok (ix_schema im) (index_key im rec)) ixs) recs ->
  precheck ix_fuel tab ixs recs vis (c, s) =
    (if existsb (fun rec => existsb (in_index abs rec) ixs) recs || dup_in vis (all_keys ixs recs)
     then Err (InternalError "Error: update duplicated indexes.") else Ok tt, (c, s)).
Proof.
  revert vis. induction recs as [|rec recs IH]; intros vis Hix Hk; [done|].
  apply Forall_cons in Hk as [Hk Hks]. cbn [precheck].
  rewrite (bindM_ok _ _ _ _ _ (dup_check_run tab ixs rec vis abs c s (proj2 (Forall_and _ _) (conj Hix Hk)))).
  unfold all_keys. cbn [fmap list_fmap mjoin list_join]. fold (all_keys ixs recs). rewrite dup_in_app.
  cbn. destruct (existsb _ ixs), (dup_in vis _); cbn; rewrite ?orb_true_r; try reflexivity.
  rewrite IH by done. reflexivity.
Qed.

(** C19: On well-formed indexes, [UpdateExecutor]'s precheck throws
    [InternalError] exactly when the key of some updated record is
    already in its (touched) index, or two of the keys checked, across
    records and across indexes, are equal byte strings; otherwise it
    succeeds, and it changes nothing either way.  The rows being
    updated still have their old entries in the indexes, so an update
    that leaves a key as it was is refused. *)
Theorem precheck_spec {St} tab ixs recs abs c (s : St) :
  Forall (fun im => ix_ok (ec_sys c) tab im (abs im)) ixs ->
  Forall (fun rec => Forall (fun im => key_ok (ix_schema im) (index_key im rec)) ixs) recs ->
  precheck ix_fuel tab ixs recs [] (c, s) =
    (if bool_decide (Exists (fun rec => Exists (fun im => is_Some (abs_lookup (ix_cmp (ix_schema im)) (abs im)
                                                                     (index_key im rec))) ixs) recs \/
                     ~ NoDup (all_keys ixs recs))
     then Err (InternalError "Error: update duplicated indexes.") else Ok tt, (c, s)).
Proof.
  intros Hix Hk. rewrite (precheck_run _ _ _ _ abs) by done. f_equal.
  pose proof (dup_in_NoDup [] (all_keys ixs recs) (NoDup_nil_2)) as Hd. rewrite app_nil_r in Hd.
  destruct (existsb _ recs || dup_in [] _) eqn:E; [rewrite bool_decide_true|rewrite bool_decide_false]; try done.
  - apply orb_true_iff in E as [E|E].
    + left. apply existsb_Exists in E. eapply Exists_impl; [exact E|]. cbn. intros rec Hr.
      apply existsb_Exists in Hr. eapply Exists_impl; [exact Hr|]. cbn. unfold in_index. by intros ? ?%bool_decide_eq_true.
    + right. intros Hn. apply Hd in Hn. congruence.
  - apply orb_false_iff in E as [E1 E2]. intros [Hx|Hn]; [|by apply Hn, Hd].
    apply not_true_iff_false in E1. apply E1, existsb_Exists. eapply Exists_impl; [exact Hx|]. cbn. intros rec Hr.
    apply existsb_Exists. eapply Exists_impl; [exact Hr|]. cbn. unfold in_index. intros. by apply bool_decide_eq_true.
Qed.

End precheck_spec.

(** ** A small database: [t(a INT, b INT)] with a unique index on [a] *)

Definition col_ta : ColMeta := mkColMeta "t" "a" TYPE_INT 4 0 true.
Definition col_tb : ColMeta := mkColMeta "t" "b" TYPE_INT 4 4 false.
Definition ix_ta : IndexMeta := mkIndexMeta "t" 4 1 [col_ta].
Definition tab_t : TabMeta := mkTabMeta "t" [col_ta; col_tb] [ix_ta] {["a" := 0; "b" := 1]}%string.

Definition row (a b : Z) : bytes := int_key a ++ int_key b.

(** The heap file after inserting the rows [(1, 10)] and [(2, 20)], at
    rids [(1, 0)] and [(1, 1)], and the index holding their keys. *)
Definition heap_t : RmFileHandle :=
  run_file (insert_record (row 2 20)) (run_file (insert_record (row 1 10)) (empty_heap 5 [Byte.x74] 8 4)).
Definition index_t : IxIndexHandle bytes :=
  snd (ix_insert 10 ix_ta (int_key 2) (mkRid 1 1) (snd (ix_insert 10 ix_ta (int_key 1) (mkRid 1 0) (create_index 3)))).

Definition sys_t : TxnMgr :=
  mkTxnMgr (mkDbMeta "db" [("t"%string, tab_t)]) {["t"%string := heap_t]}
    {[ix_name "t" ix_ta := index_t]} lm_empty empty_log ∅ 2.
Definition ctx_t : ExecCtx := mkExecCtx sys_t T1 [].

Definition int_val_of (z : Z) : Value := mkValue TYPE_INT z [] [] None.
Definition set_a (v : Value) (o : SetOp) : SetClause := mkSetClause (mkTabCol "t" "a") v o.

(** [UPDATE t SET a = 2 WHERE a = 2]: the row keeps its key. *)
Definition upd_same : res ExecErr UpdateSt := update_new ctx_t "t" [set_a (int_val_of 2) OP_ASSIGN] [] [mkRid 1 1].

(** [UPDATE t SET a = 2 WHERE a = 2], on a table whose unique
    index on [a] holds the keys 1 and 2, throws [InternalError "update
    duplicated indexes"] and leaves the table's file as it was: the
    precheck finds the updated row's own entry in the index.  The spec
    excludes the rows being updated from that check. *)
Example update_same_key_refused fa fs :
  exists st, upd_same = Ok st /\
    let r := up_Next 10 fa fs (ctx_t, st) in
    fst r = Err (InternalError "Error: update duplicated indexes.") /\ fhs_ (ec_sys (snd r).1) = fhs_ sys_t.
Proof. eexists. split; [vm_compute; reflexivity|]. vm_compute. split; reflexivity. Qed.

(** [u(a INT, b INT)] with one index on [a] and another on [b], holding
    the row [(1, 5)]. *)
Definition col_ua : ColMeta := mkColMeta "u" "a" TYPE_INT 4 0 true.
Definition col_ub : ColMeta := mkColMeta "u" "b" TYPE_INT 4 4 true.
Definition ix_ua : IndexMeta := mkIndexMeta "u" 4 1 [col_ua].
Definition ix_ub : IndexMeta := mkIndexMeta "u" 4 1 [col_ub].
Definition tab_u : TabMeta := mkTabMeta "u" [col_ua; col_ub] [ix_ua; ix_ub] {["a" := 0; "b" := 1]}%string.

Definition heap_u : RmFileHandle := run_file (insert_record (row 1 5)) (empty_heap 6 [Byte.x75] 8 4).
Definition index_of (im : IndexMeta) (z : Z) : IxIndexHandle bytes :=
  snd (ix_insert 10 im (int_key z) (mkRid 1 0) (create_index 3)).

Definition sys_u : TxnMgr :=
  mkTxnMgr (mkDbMeta "db" [("u"%string, tab_u)]) {["u"%string := heap_u]}
    {[ix_name "u" ix_ua := index_of ix_ua 1; ix_name "u" ix_ub := index_of ix_ub 5]} lm_empty empty_log ∅ 2.
Definition ctx_u : ExecCtx := mkExecCtx sys_u T1 [].

(** [UPDATE u SET a = 7, b = 7]. *)
Definition upd_both : res ExecErr UpdateSt :=
  update_new ctx_u "u" [mkSetClause (mkTabCol "u" "a") (int_val_of 7) OP_ASSIGN;
                        mkSetClause (mkTabCol "u" "b") (int_val_of 7) OP_ASSIGN] [] [mkRid 1 0].

(** The precheck keeps one set of checked keys for all indexes,
    compared as byte strings: [UPDATE u SET a = 7, b = 7] on the one
    row [(1, 5)] of a table with an index on [a] and another on [b] is
    refused as a duplicate, although neither index holds 7 and the
    result [(7, 7)] violates neither. *)
Example update_cross_index_collision fa fs :
  exists st, upd_both = Ok st /\
    fst (up_Next 10 fa fs (ctx_u, st)) = Err (InternalError "Error: update duplicated indexes.") /\
    fst (ix_call (St := UpdateSt) (ix_name "u" ix_ua) (ix_exists 10 ix_ua (int_key 7)) (ctx_u, st)) = Ok false /\
    fst (ix_call (St := UpdateSt) (ix_name "u" ix_ub) (ix_exists 10 ix_ub (int_key 7)) (ctx_u, st)) = Ok false.
Proof. eexists. split; [vm_compute; reflexivity|]. vm_compute. split_and!; reflexivity. Qed.

(** ** [InsertExecutor::Next] *)

Lemma file_of_run {St} tab c (s : St) f :
  fhs_ (ec_sys c) !! tab = Some f -> file_of tab (c, s) = (Ok f, (c, s)).
Proof. unfold file_of. cbn. by intros ->. Qed.

Lemma lock_table_run {St} lk fd c (s : St) lm t :
  lk (lock_manager_ (ec_sys c)) (ec_txn c) fd = Ok (lm, t) ->
  lock_table lk fd (c, s) = (Ok tt, (mkExecCtx (set_lock (ec_sys c) lm) t (ec_ws c), s)).
Proof. unfold lock_table. by intros ->. Qed.

Lemma heap_call_run {St A} tab (m : heapM A) c (s : St) f a f' ctx :
  fhs_ (ec_sys c) !! tab = Some f -> m (mkHeapSt f (Some (txn_ctx c))) = (Ok a, mkHeapSt f' (Some ctx)) ->
  heap_call tab m (c, s) = (Ok a, (heap_back c tab f' ctx, s)).
Proof. unfold heap_call. by intros -> ->. Qed.

Lemma insert_new_ok c tab_name values st :
  insert_new c tab_name values = Ok st ->
  exists tab, get_table (db_ (ec_sys c)) tab_name = Ok tab /\ st = mkInsertSt tab values tab_name None /\
    length values = length (tab_cols tab).
Proof.
  unfold insert_new. destruct (get_table _ _) as [tab|]; [|done].
  destruct (fhs_ _ !! _); [|done]. destruct (Nat.eqb_spec (length values) (length (tab_cols tab))); [|done].
  intros [= <-]. eauto.
Qed.

(** [do_pre_insert] on a table without indexes: the record built by
    the loop, the values updated, and the IX lock taken. *)
Lemma do_pre_insert_run fuel c st f rec0 rec cvs lm t :
  fold_inplace pre_insert_col rec0 (zip (tab_cols (ins_tab st)) (ins_values st)) = (Ok rec, cvs) ->
  fhs_ (ec_sys c) !! ins_tab_name st = Some f -> indexes (ins_tab st) = [] ->
  lock_IX_on_table (lock_manager_ (ec_sys c)) (ec_txn c) (rm_fd_ f) = Ok (lm, t) ->
  do_pre_insert fuel rec0 (c, st) = (Ok rec, (mkExecCtx (set_lock (ec_sys c) lm) t (ec_ws c), set_values st (snd <$> cvs))).
Proof.
  intros Hf Hfh Hix Hl. unfold do_pre_insert. rewrite bindM_ok with (s' := (c, st)) (a := st) by done.
  rewrite Hf. unfold put_st, modify, liftE, bindM. cbn.
  rewrite (file_of_run _ _ _ f) by done. cbn. rewrite Hl. cbn.
  by rewrite Hix.
Qed.

(** C17: On a table without indexes, with a well-formed heap file, a
    transaction in its growing phase that runs alone, and values that
    [do_pre_insert]'s loop turns into the record [rec],
    [InsertExecutor::Next] succeeds (returning [nullptr]): the file
    keeps the heap invariant and holds [rec] (cut to the record size)
    at a rid that held no record, every other rid unchanged; [rid_] is
    that rid; the write set ends with its INSERT entry and the log with
    its INSERT record; the lock table keeps its invariant, and the
    transaction holds the table in IX and the new record in X, and
    still runs alone. *)
Theorem insert_next_spec fuel c tab_name values st f rec cvs :
  insert_new c tab_name values = Ok st -> indexes (ins_tab st) = [] ->
  fhs_ (ec_sys c) !! tab_name = Some f -> heap_inv f ->
  fold_inplace pre_insert_col (replicate (record_size (rm_file_hdr_ f)) Byte.x00)
    (zip (tab_cols (ins_tab st)) values) = (Ok rec, cvs) ->
  txn_state (ec_txn c) = GROWING -> alone (lock_manager_ (ec_sys c)) (txn_id (ec_txn c)) ->
  lock_inv (lock_manager_ (ec_sys c)) ->
  let r := take (record_size (rm_file_hdr_ f)) rec in
  exists rid f' c', ins_Next fuel (c, st) = (Ok None, (c', set_rid (set_values st (snd <$> cvs)) rid)) /\
    heap_inv f' /\ fhs_ (ec_sys c') = <[tab_name := f']> (fhs_ (ec_sys c)) /\
    records f rid = None /\ (forall x, records f' x = if decide (x = rid) then Some r else records f x) /\
    ec_ws c' = ec_ws c ++ [mkWriteRecord INSERT_TUPLE (rm_file_name_ f) rid r] /\
    log_manager_ (ec_sys c') =
      add_insert_log_record (log_manager_ (ec_sys c)) (txn_id (ec_txn c)) r rid (rm_file_name_ f) /\
    alone (lock_manager_ (ec_sys c')) (txn_id (ec_txn c)) /\ lock_inv (lock_manager_ (ec_sys c')) /\
    holds (lock_manager_ (ec_sys c')) (txn_id (ec_txn c)) (table_lock_id (rm_fd_ f)) INTENTION_EXCLUSIVE /\
    holds (lock_manager_ (ec_sys c')) (txn_id (ec_txn c)) (record_lock_id (rm_fd_ f) rid) EXLUCSIVE.
Proof.
  intros Hnew Hix Hf Hinv Hfold Hs Ha Hli r.
  destruct (insert_new_ok _ _ _ _ Hnew) as (tab & _ & -> & _). cbn in Hix, Hfold.
  destruct (lock_call_alone (LockIXOnTable (rm_fd_ f)) _ _ Hs Ha) as (lm1 & t1 & Hl1 & Ha1 & Hid1 & Hs1).
  pose proof (lock_call_frame _ _ _ _ _ Hl1) as Hf1. pose proof (lock_call_holds _ _ _ _ _ Hli Hl1) as Hh1.
  change (lock_IX_on_table (lock_manager_ (ec_sys c)) (ec_txn c) (rm_fd_ f) = Ok (lm1, t1)) in Hl1.
  destruct (insert_record_spec f rec Hinv) as (rid & f' & Hrun & Hinv' & Hfresh & Hrec).
  pose proof (insert_record_txn f (mkTxnCtx lm1 t1 (ec_ws c) (log_manager_ (ec_sys c))) rec rid f' Hinv Hrun) as Htx.
  destruct (lock_call_alone (LockExclusiveOnRecord rid (rm_fd_ f)) lm1 t1 Hs1 ltac:(by rewrite Hid1))
    as (lm2 & t2 & Hl2 & Ha2 & Hid2 & _).
  pose proof (lock_call_frame _ _ _ _ _ Hl2) as Hf2.
  pose proof (lock_call_holds _ _ _ _ _ (proj1 Hf1 Hli) Hl2) as Hh2. rewrite Hid1 in Hh2.
  change (lock_exclusive_on_record lm1 t1 rid (rm_fd_ f) = Ok (lm2, t2)) in Hl2. cbn in Htx. rewrite Hl2 in Htx.
  exists rid, f', (heap_back (mkExecCtx (set_lock (ec_sys c) lm1) t1 (ec_ws c)) tab_name f'
    (mkTxnCtx lm2 t2 (ec_ws c ++ [mkWriteRecord INSERT_TUPLE (rm_file_name_ f) rid r])
       (add_insert_log_record (log_manager_ (ec_sys c)) (txn_id t2) r rid (rm_file_name_ f)))).
  split_and!; try done.
  - unfold ins_Next. erewrite bindM_ok; [reflexivity|]. unfold insert_rec.
    rewrite bindM_ok with (s' := (c, mkInsertSt tab values tab_name None)) (a := mkInsertSt tab values tab_name None)
      by reflexivity.
    rewrite (bindM_ok _ _ _ _ _ (file_of_run _ _ _ f Hf)).
    rewrite (bindM_ok _ _ _ _ _ (do_pre_insert_run fuel c (mkInsertSt tab values tab_name None) f _ rec cvs lm1 t1 Hfold Hf Hix Hl1)).
    rewrite (bindM_ok _ _ _ _ _ (heap_call_run _ _ (mkExecCtx (set_lock (ec_sys c) lm1) t1 (ec_ws c)) _ f _ f' _ Hf Htx)).
    unfold get_st, put_st, gets, modify, bindM. cbn -[add_insert_log_record].
    unfold insert_into_index. rewrite Hix. reflexivity.
  - cbn -[add_insert_log_record]. by rewrite Hid2, Hid1.
  - cbn. rewrite <- Hid1. exact Ha2.
  - exact (proj1 Hf2 (proj1 Hf1 Hli)).
  - refine (holds_frame _ _ _ _ _ _ Hf2 _ Hh1). by intros [=]%list_elem_of_singleton.
Qed.

(** ** The values [do_pre_insert] stores are typed *)

Lemma incompatible_err {A} a b (x : A) : incompatible a b <> Ok x.
Proof. unfold incompatible. by destruct (coltype2str a), (coltype2str b). Qed.

Lemma coerce_ok col val v v' : coerce col val = (Ok v, v') -> v' = v /\ v_type v = col_type col.
Proof.
  unfold coerce. case_bool_decide as E; [intros [= <- <-]; done|].
  destruct (col_type col) eqn:Ec;
    try (intros [= H _]; by apply incompatible_err in H).
  - destruct (check_datetime_ _); [intros [= <- <-]|done]. done.
  - case_bool_decide; [intros [= <- <-]|intros [= Hx _]; by apply incompatible_err in Hx]. done.
Qed.

Lemma init_raw_ok len v u v' : init_raw len v = (Ok u, v') -> v_type v' = v_type v /\ is_Some (raw v').
Proof.
  unfold init_raw, bindM, gets, modify, throw. cbn. destruct (raw v); [done|]. cbn.
  destruct (write_raw v len (zeros len)); [intros [= _ <-]; by split; [|eexists]|done].
Qed.

(** C27: When [do_pre_insert]'s loop over the columns and values
    succeeds, it has gone through every column in order, and every
    value has become the type of its column (a string for a DATETIME
    column, an INT widened for a BIGINT column) and holds its raw
    image. *)
Theorem pre_insert_typed rec0 (l : list (ColMeta * Value)) rec cvs :
  fold_inplace pre_insert_col rec0 l = (Ok rec, cvs) ->
  fst <$> cvs = fst <$> l /\ Forall (fun cv => v_type cv.2 = col_type cv.1 /\ is_Some (raw cv.2)) cvs.
Proof.
  revert rec0 cvs. induction l as [|[col val] l IH]; intros rec0 cvs ; cbn -[coerce init_raw put_col]; [by intros [= _ <-]|].
  destruct (coerce col val) as [[v|e] v1] eqn:Ec ; cbn -[coerce init_raw put_col]; [|done].
  destruct (coerce_ok _ _ _ _ Ec) as [-> Hty].
  destruct (init_raw (col_len col) v) as [[u|e] v2] eqn:Ei ; cbn -[coerce init_raw put_col]; [|done].
  destruct (init_raw_ok _ _ _ _ Ei) as [Hty2 Hraw].
  destruct (put_col rec0 col v2) as [rec1|e] ; cbn -[coerce init_raw put_col]; [|done].
  destruct (fold_inplace pre_insert_col rec1 l) as [[r|e] cvs'] eqn:Ef; [|done].
  intros [= <- <-]. destruct (IH _ _ Ef) as [Hf HF]. cbn. split; [by f_equal|].
  constructor; [|done]. cbn. split; [congruence|done].
Qed.

(** ** [DeleteExecutor::Next] *)

(** The side conditions of one granted table lock call [Hl]. *)
Local Ltac table_lock_side Hl :=
  try done; try exact (lock_call_frame _ _ _ _ _ Hl); try (intros; lia);
  try (intros _ Hi; exact (lock_call_holds _ _ _ _ _ Hi Hl)).

(** The table lock of [table_lock_for], for a transaction running
    alone: granted (IX for one rid, X for more, the table's entry the
    only one changed), and [add_lock] is set exactly for one rid. *)
Lemma table_lock_for_alone {St} n fd c (s : St) :
  txn_state (ec_txn c) = GROWING -> alone (lock_manager_ (ec_sys c)) (txn_id (ec_txn c)) ->
  exists lm t, table_lock_for n fd (c, s) =
      (Ok (negb (1 <? n)%nat), (mkExecCtx (set_lock (ec_sys c) lm) t (ec_ws c), s)) /\
    alone lm (txn_id (ec_txn c)) /\ txn_id t = txn_id (ec_txn c) /\ txn_state t = GROWING /\
    lock_frame (lock_manager_ (ec_sys c)) lm [table_lock_id fd] /\
    ((n = 1)%nat -> lock_inv (lock_manager_ (ec_sys c)) ->
       holds lm (txn_id (ec_txn c)) (table_lock_id fd) INTENTION_EXCLUSIVE) /\
    ((1 < n)%nat -> lock_inv (lock_manager_ (ec_sys c)) ->
       holds lm (txn_id (ec_txn c)) (table_lock_id fd) EXLUCSIVE).
Proof.
  intros Hs Ha. unfold table_lock_for.
  destruct (Nat.eqb_spec n 1) as [->|Hn].
  - destruct (lock_call_alone (LockIXOnTable fd) _ _ Hs Ha) as (lm & t & Hl & ? & ? & ?).
    exists lm, t. split_and!; table_lock_side Hl.
    unfold bindM. cbn in Hl |- *. by rewrite Hl.
  - destruct (Nat.ltb_spec 1 n).
    + destruct (lock_call_alone (LockExclusiveOnTable fd) _ _ Hs Ha) as (lm & t & Hl & ? & ? & ?).
      exists lm, t. split_and!; table_lock_side Hl.
      unfold bindM. cbn in Hl |- *. by rewrite Hl.
    + exists (lock_manager_ (ec_sys c)), (ec_txn c).
      split_and!; try done; try apply lock_frame_refl; try (intros; lia).
      destruct c as [[] ? ?]. reflexivity.
Qed.

Lemma records_Some_bitmap f rid r : records f rid = Some r -> slot_no rid ∈ bitmap (page_of f (page_no rid)).
Proof. intros H%records_Some_is_record. by apply bool_decide_eq_true in H. Qed.

(** One rid of the loop, on a table without indexes, in a transaction
    running alone. *)
Lemma delete_one_alone fuel tab tab_name b rid r c (s : DeleteSt) f :
  indexes tab = [] -> fhs_ (ec_sys c) !! tab_name = Some f -> heap_inv f -> records f rid = Some r ->
  txn_state (ec_txn c) = GROWING -> alone (lock_manager_ (ec_sys c)) (txn_id (ec_txn c)) ->
  exists lm t, delete_one fuel tab tab_name b rid (c, s) =
    (Ok tt, (heap_back c tab_name (free_slot f (page_no rid) (slot_no rid))
               (mkTxnCtx lm t (ec_ws c ++ [mkWriteRecord DELETE_TUPLE (rm_file_name_ f) rid r])
                  (add_delete_log_record (log_manager_ (ec_sys c)) (txn_id (ec_txn c)) r rid (rm_file_name_ f))), s)) /\
    alone lm (txn_id (ec_txn c)) /\ txn_id t = txn_id (ec_txn c) /\ txn_state t = GROWING /\
    lock_frame (lock_manager_ (ec_sys c)) lm [record_lock_id (rm_fd_ f) rid] /\
    (b = true -> lock_inv (lock_manager_ (ec_sys c)) ->
       holds lm (txn_id (ec_txn c)) (record_lock_id (rm_fd_ f) rid) EXLUCSIVE).
Proof.
  intros Hix Hf Hinv Hr Hs Ha.
  destruct (get_record_alone f (txn_ctx c) b rid r Hinv Hr Hs Ha) as (lm1 & t1 & Hg & Ha1 & Hid1 & Hs1 & Hfr1).
  set (c1 := heap_back c tab_name f (mkTxnCtx lm1 t1 (ec_ws c) (log_manager_ (ec_sys c)))).
  assert (Hf1 : fhs_ (ec_sys c1) !! tab_name = Some f) by (cbn; by rewrite lookup_insert_eq).
  destruct (delete_record_alone f (txn_ctx c1) b rid r Hinv Hr Hs1 ltac:(cbn; by rewrite Hid1))
    as (lm2 & t2 & Hd & Ha2 & Hid2 & Hs2 & Hfr2 & Hh2).
  unfold c1 in Ha2, Hid2, Hfr2, Hh2. cbn [txn_ctx heap_back txn_ ec_txn lock_mgr_ ec_sys set_log set_lock lock_manager_] in Ha2, Hid2, Hfr2, Hh2.
  exists lm2, t2. rewrite Hid1 in Ha2, Hid2, Hh2. split; [|split_and!; try done].
  2:{ eapply lock_frame_mono, lock_frame_trans; [|exact Hfr1|exact Hfr2]. set_solver. }
  2:{ intros Hb Hi. exact (Hh2 Hb (proj1 Hfr1 Hi)). }
  unfold delete_one. rewrite (bindM_ok _ _ _ _ _ (heap_call_run _ _ c _ f _ f _ Hf Hg)).
  rewrite (bindM_ok _ _ _ _ _ (heap_call_run _ _ c1 _ f _ _ _ Hf1 Hd)). rewrite Hix.
  cbn [txn_id txn_ctx c1 heap_back ec_txn txn_]. rewrite Hid1.
  unfold ret, heap_back. cbn. by rewrite insert_insert_eq.
Qed.

(** The loop over [rids_] on a table without indexes, in a transaction
    running alone: each of the distinct stored rids is removed. *)
Lemma delete_loop_run fuel tab tab_name b rids c (s : DeleteSt) f :
  indexes tab = [] -> fhs_ (ec_sys c) !! tab_name = Some f -> heap_inv f ->
  NoDup rids -> Forall (fun rid => is_Some (records f rid)) rids ->
  txn_state (ec_txn c) = GROWING -> alone (lock_manager_ (ec_sys c)) (txn_id (ec_txn c)) ->
  exists f' c', iterM rids (delete_one fuel tab tab_name b) (c, s) = (Ok tt, (c', s)) /\ heap_inv f' /\
    fhs_ (ec_sys c') = <[tab_name := f']> (fhs_ (ec_sys c)) /\
    (forall x, records f' x = if decide (x ∈ rids) then None else records f x) /\
    ec_ws c' = ec_ws c ++ ((fun rid => mkWriteRecord DELETE_TUPLE (rm_file_name_ f) rid (default [] (records f rid))) <$> rids) /\
    alone (lock_manager_ (ec_sys c')) (txn_id (ec_txn c)) /\ txn_state (ec_txn c') = GROWING /\
    txn_id (ec_txn c') = txn_id (ec_txn c) /\
    lock_frame (lock_manager_ (ec_sys c)) (lock_manager_ (ec_sys c')) (record_lock_id (rm_fd_ f) <$> rids) /\
    (b = true -> lock_inv (lock_manager_ (ec_sys c)) ->
       Forall (fun rid => holds (lock_manager_ (ec_sys c')) (txn_id (ec_txn c)) (record_lock_id (rm_fd_ f) rid) EXLUCSIVE) rids).
Proof.
  intros Hix. revert c f. induction rids as [|rid rids IH]; intros c f Hf Hinv Hnd Hst Hs Ha.
  - exists f, c. split_and!; try done; try apply lock_frame_refl; try (intros; by constructor).
    + by rewrite insert_id.
    + by rewrite app_nil_r.
  - apply NoDup_cons in Hnd as [Hnin Hnd]. apply Forall_cons in Hst as [[r Hr] Hst].
    destruct (delete_one_alone fuel tab tab_name b rid r c s f Hix Hf Hinv Hr Hs Ha) as (lm & t & Hone & Ha1 & Hid1 & Hs1 & Hfr1 & Hh1).
    set (f1 := free_slot f (page_no rid) (slot_no rid)) in Hone.
    assert (Hinv1 : heap_inv f1) by (apply free_slot_inv; [done|]; by eapply records_Some_bitmap).
    assert (Hrec1 : forall x, records f1 x = if decide (x = rid) then None else records f x)
      by (intros x; unfold f1; rewrite records_free_slot; by destruct rid).
    assert (Hst1 : Forall (fun x => is_Some (records f1 x)) rids).
    { apply Forall_forall. intros x Hx. rewrite Hrec1, decide_False by (intros ->; contradiction).
      by eapply Forall_forall in Hst. }
    match type of Hone with _ = (Ok _, (?c1, _)) => destruct (IH c1 f1) as (f' & c' & Hrun & Hinv' & Hfhs & Hrec & Hws & Ha' & Hs' & Hid' & Hfr' & Hh') end;
      [cbn [heap_back ec_sys set_log set_lock set_fhs fhs_]; apply lookup_insert_eq|exact Hinv1|done|done|cbn; done|cbn; rewrite Hid1; exact Ha1|].
    exists f', c'. cbn [iterM]. rewrite (bindM_ok _ _ _ _ _ Hone), Hrun. cbn in Hfhs, Hws, Hid'.
    cbn [heap_back ec_txn txn_ ec_sys set_log set_lock lock_manager_ lock_mgr_] in Ha', Hid', Hfr', Hh'.
    rewrite Hid1 in Ha', Hid', Hh'. split_and!; try done.
    + by rewrite Hfhs, insert_insert_eq.
    + intros x. rewrite Hrec, Hrec1. repeat case_decide; first [done | exfalso; set_solver].
    + rewrite Hws, <- app_assoc. cbn. rewrite Hr. do 2 f_equal. apply list_fmap_ext. intros i x Hx.
      apply list_elem_of_lookup_2 in Hx. rewrite Hrec1, decide_False by (intros ->; set_solver). done.
    + exact (lock_frame_trans _ _ _ _ _ Hfr1 Hfr').
    + intros Hb Hi. constructor; [|exact (Hh' Hb (proj1 Hfr1 Hi))].
      eapply holds_frame; [exact Hfr'| |exact (Hh1 Hb Hi)].
      by intros (x & [= ->] & ?)%list_elem_of_fmap.
Qed.

Lemma delete_new_ok c tab_name conds rids st :
  delete_new c tab_name conds rids = Ok st ->
  exists tab, st = mkDeleteSt tab conds rids tab_name.
Proof.
  unfold delete_new. destruct (get_table _ _) as [tab|]; [|done].
  destruct (fhs_ _ !! _); [|done]. intros [= <-]. eauto.
Qed.

(** C18: On a table without indexes, with a well-formed heap file, a
    transaction in its growing phase that runs alone, and distinct
    stored rids, [DeleteExecutor::Next] succeeds (returning [nullptr]):
    the file keeps the heap invariant and loses exactly the records at
    those rids; the write set ends with their DELETE entries, holding
    the deleted records, in the order of the rids; the lock table keeps
    its invariant, and the transaction holds the table in IX and every
    record in X for one rid, the table in X for more, and still runs
    alone. *)
Theorem delete_next_spec fuel c tab_name conds rids st f :
  delete_new c tab_name conds rids = Ok st -> indexes (del_tab st) = [] ->
  fhs_ (ec_sys c) !! tab_name = Some f -> heap_inv f ->
  NoDup rids -> Forall (fun rid => is_Some (records f rid)) rids ->
  txn_state (ec_txn c) = GROWING -> alone (lock_manager_ (ec_sys c)) (txn_id (ec_txn c)) ->
  lock_inv (lock_manager_ (ec_sys c)) ->
  exists f' c', del_Next fuel (c, st) = (Ok None, (c', st)) /\ heap_inv f' /\
    fhs_ (ec_sys c') = <[tab_name := f']> (fhs_ (ec_sys c)) /\
    (forall x, records f' x = if decide (x ∈ rids) then None else records f x) /\
    ec_ws c' = ec_ws c ++ ((fun rid => mkWriteRecord DELETE_TUPLE (rm_file_name_ f) rid (default [] (records f rid))) <$> rids) /\
    alone (lock_manager_ (ec_sys c')) (txn_id (ec_txn c)) /\ lock_inv (lock_manager_ (ec_sys c')) /\
    ((length rids = 1)%nat ->
       holds (lock_manager_ (ec_sys c')) (txn_id (ec_txn c)) (table_lock_id (rm_fd_ f)) INTENTION_EXCLUSIVE /\
       Forall (fun rid => holds (lock_manager_ (ec_sys c')) (txn_id (ec_txn c)) (record_lock_id (rm_fd_ f) rid) EXLUCSIVE) rids) /\
    ((1 < length rids)%nat ->
       holds (lock_manager_ (ec_sys c')) (txn_id (ec_txn c)) (table_lock_id (rm_fd_ f)) EXLUCSIVE).
Proof.
  intros Hnew Hix Hf Hinv Hnd Hst Hs Ha Hli.
  destruct (delete_new_ok _ _ _ _ _ Hnew) as [tab ->]. cbn in Hix.
  destruct (table_lock_for_alone (St := DeleteSt) (length rids) (rm_fd_ f) c (mkDeleteSt tab conds rids tab_name) Hs Ha)
    as (lm & t & Hl & Ha1 & Hid1 & Hs1 & Hfr0 & HIX & HX).
  set (c1 := mkExecCtx (set_lock (ec_sys c) lm) t (ec_ws c)) in Hl.
  destruct (delete_loop_run fuel tab tab_name (negb (1 <? length rids)%nat) rids c1 (mkDeleteSt tab conds rids tab_name) f
              Hix Hf Hinv Hnd Hst Hs1 ltac:(cbn; by rewrite Hid1))
    as (f' & c' & Hrun & Hinv' & Hfhs & Hrec & Hws & Ha' & _ & Hid' & Hfr & Hrl).
  exists f', c'. cbn in Hfhs, Hws, Ha', Hfr, Hrl. rewrite Hid1 in Ha', Hrl.
  pose proof (table_not_record (rm_fd_ f) (rm_fd_ f) rids) as Hnr.
  split_and!; try done.
  2:{ exact (proj1 Hfr (proj1 Hfr0 Hli)). }
  2:{ intros Hn. split; [exact (holds_frame _ _ _ _ _ _ Hfr Hnr (HIX Hn Hli))|].
      apply Hrl; [by rewrite Hn|exact (proj1 Hfr0 Hli)]. }
  2:{ intros Hn. exact (holds_frame _ _ _ _ _ _ Hfr Hnr (HX Hn Hli)). }
  unfold del_Next. rewrite bindM_ok with (s' := (c, mkDeleteSt tab conds rids tab_name)) (a := mkDeleteSt tab conds rids tab_name)
    by reflexivity.
  rewrite (bindM_ok _ _ _ _ _ (file_of_run _ _ _ f Hf)), (bindM_ok _ _ _ _ _ Hl). cbn [del_rids del_tab del_tab_name].
  by rewrite (bindM_ok _ _ _ _ _ Hrun).
Qed.

(** ** Witnesses *)

Lemma alone_empty me : alone lm_empty me.
Proof. intros id q r H. cbn in H. by rewrite lookup_empty in H. Qed.

(** [v(a INT, b INT)] without indexes: empty, and with two rows. *)
Definition col_va : ColMeta := mkColMeta "v" "a" TYPE_INT 4 0 false.
Definition col_vb : ColMeta := mkColMeta "v" "b" TYPE_INT 4 4 false.
Definition tab_v : TabMeta := mkTabMeta "v" [col_va; col_vb] [] {["a" := 0; "b" := 1]}%string.
Definition heap_v0 : RmFileHandle := empty_heap 7 [Byte.x76] 8 4.
Definition heap_v2 : RmFileHandle := run_file (insert_record (row 2 20)) (run_file (insert_record (row 1 10)) heap_v0).
Definition sys_v (f : RmFileHandle) : TxnMgr :=
  mkTxnMgr (mkDbMeta "db" [("v"%string, tab_v)]) {["v"%string := f]} ∅ lm_empty empty_log ∅ 2.

Definition vals_v : list Value := [int_val_of 3; int_val_of 4].
Definition ins_v : InsertSt := mkInsertSt tab_v vals_v "v" None.
Definition fold_v := fold_inplace pre_insert_col (replicate 8 Byte.x00) (zip (tab_cols tab_v) vals_v).
Definition rec_v : bytes := match fst fold_v with Ok r => r | Err _ => [] end.
Definition cvs_v : list (ColMeta * Value) := snd fold_v.

Lemma fold_v_ok : fold_v = (Ok rec_v, cvs_v).
Proof. vm_compute. reflexivity. Qed.

Lemma update_plus_int_wraps_witness :
  update_rhs_val Z.add Z.sub (row INT_MAX 7) col_ta (int_val_of 1) OP_PLUS =
    Ok (memcpy_into (row INT_MAX 7) 0 (le_split 4 (wrap32 (signed_of 4 (row INT_MAX 7) + 1)))) /\
  wrap32 (INT_MAX + 1) = INT_MIN.
Proof.
  split; [|vm_compute; reflexivity].
  exact (update_plus_int_wraps Z.add Z.sub (row INT_MAX 7) col_ta (int_val_of 1) eq_refl eq_refl eq_refl eq_refl).
Defined.

Lemma pre_insert_typed_witness :
  fst <$> cvs_v = fst <$> zip (tab_cols tab_v) vals_v /\
  Forall (fun cv => v_type cv.2 = col_type cv.1 /\ is_Some (raw cv.2)) cvs_v.
Proof. exact (pre_insert_typed _ _ rec_v cvs_v fold_v_ok). Defined.

Lemma insert_next_spec_witness :
  let r := take 8 rec_v in
  exists rid f' c', ins_Next 10 (mkExecCtx (sys_v heap_v0) T1 [], ins_v) =
      (Ok None, (c', set_rid (set_values ins_v (snd <$> cvs_v)) rid)) /\
    heap_inv f' /\ fhs_ (ec_sys c') = <["v"%string := f']> (fhs_ (sys_v heap_v0)) /\
    records heap_v0 rid = None /\ (forall x, records f' x = if decide (x = rid) then Some r else records heap_v0 x) /\
    ec_ws c' = [] ++ [mkWriteRecord INSERT_TUPLE [Byte.x76] rid r] /\
    log_manager_ (ec_sys c') = add_insert_log_record empty_log 1 r rid [Byte.x76] /\
    alone (lock_manager_ (ec_sys c')) 1 /\ lock_inv (lock_manager_ (ec_sys c')) /\
    holds (lock_manager_ (ec_sys c')) 1 (table_lock_id 7) INTENTION_EXCLUSIVE /\
    holds (lock_manager_ (ec_sys c')) 1 (record_lock_id 7 rid) EXLUCSIVE.
Proof.
  exact (insert_next_spec 10 (mkExecCtx (sys_v heap_v0) T1 []) "v" vals_v ins_v heap_v0 rec_v cvs_v
           eq_refl eq_refl eq_refl (empty_heap_inv 7 [Byte.x76] 8 4 ltac:(lia)) fold_v_ok eq_refl (alone_empty 1)
           lock_inv_empty).
Defined.

Definition rids_v : list Rid := [mkRid 1 0; mkRid 1 1].
Definition del_v : DeleteSt := mkDeleteSt tab_v [] rids_v "v".

Lemma heap_v2_inv : heap_inv heap_v2.
Proof. apply run_insert_inv, run_insert_inv, empty_heap_inv. lia. Qed.

Lemma rids_v_stored : Forall (fun rid => is_Some (records heap_v2 rid)) rids_v.
Proof. repeat constructor; eexists; vm_compute; reflexivity. Qed.

Lemma rids_v_nodup : NoDup rids_v.
Proof. apply NoDup_cons. split; [|apply NoDup_singleton]. intros H%list_elem_of_singleton. discriminate H. Qed.

Lemma delete_next_spec_witness :
  exists f' c', del_Next 10 (mkExecCtx (sys_v heap_v2) T1 [], del_v) = (Ok None, (c', del_v)) /\ heap_inv f' /\
    fhs_ (ec_sys c') = <["v"%string := f']> (fhs_ (sys_v heap_v2)) /\
    (forall x, records f' x = if decide (x ∈ rids_v) then None else records heap_v2 x) /\
    ec_ws c' = [] ++ ((fun rid => mkWriteRecord DELETE_TUPLE [Byte.x76] rid (default [] (records heap_v2 rid))) <$> rids_v) /\
    alone (lock_manager_ (ec_sys c')) 1 /\ lock_inv (lock_manager_ (ec_sys c')) /\
    ((length rids_v = 1)%nat -> holds (lock_manager_ (ec_sys c')) 1 (table_lock_id 7) INTENTION_EXCLUSIVE /\
       Forall (fun rid => holds (lock_manager_ (ec_sys c')) 1 (record_lock_id 7 rid) EXLUCSIVE) rids_v) /\
    ((1 < length rids_v)%nat -> holds (lock_manager_ (ec_sys c')) 1 (table_lock_id 7) EXLUCSIVE).
Proof.
  exact (delete_next_spec 10 (mkExecCtx (sys_v heap_v2) T1 []) "v" [] rids_v del_v heap_v2
           eq_refl eq_refl eq_refl heap_v2_inv rids_v_nodup rids_v_stored eq_refl (alone_empty 1) lock_inv_empty).
Defined.

Definition abs_t (_ : IndexMeta) : list (bytes * Rid) := [(int_key 1, mkRid 1 0); (int_key 2, mkRid 1 1)].

Lemma index_t_ok : ix_ok 10 sys_t "t" ix_ta (abs_t ix_ta).
Proof.
  exists index_t, 0%nat. split_and!; [reflexivity| |lia|vm_compute; reflexivity].
  apply (check_subtree_sound (key_ok int_sch) int_cmp int_key_ok_b int_key_ok_b_sound 10).
  vm_compute. reflexivity.
Qed.

Lemma row_keys_ok : Forall (fun rec => Forall (fun im => key_ok (ix_schema im) (index_key im rec)) [ix_ta]) [row 2 20].
Proof. repeat constructor; apply int_key_ok_b_sound; vm_compute; reflexivity. Qed.

Definition up_t : UpdateSt := mkUpdateSt tab_t [] [mkRid 1 1] "t" [set_a (int_val_of 2) OP_ASSIGN].

Lemma precheck_spec_witness :
  precheck 10 "t" [ix_ta] [row 2 20] [] (ctx_t, up_t) =
    (if bool_decide (Exists (fun rec => Exists (fun im => is_Some (abs_lookup (ix_cmp (ix_schema im)) (abs_t im)
                                                                     (index_key im rec))) [ix_ta]) [row 2 20] \/
                     ~ NoDup (all_keys [ix_ta] [row 2 20]))
     then Err (InternalError "Error: update duplicated indexes.") else Ok tt, (ctx_t, up_t)).
Proof.
  exact (precheck_spec 10 "t" [ix_ta] [row 2 20] abs_t ctx_t up_t
           (Forall_cons_2 (fun im => ix_ok 10 (ec_sys ctx_t) "t" im (abs_t im)) ix_ta [] index_t_ok (Forall_nil_2 _)) row_keys_ok).
Defined.
