(* ===== verification/Recovery.v ===== *)
(** * Crash recovery: [recovery/log_recovery.{h,cpp}]

    [RecoveryManager] reads the log file back into records
    ([analyze]/[parseLog]), re-applies them in log order ([redo]/
    [RedoLog]) while it rebuilds the set of transactions without a
    COMMIT or ABORT record ([undo_list]), then walks the records
    backwards and rolls back the writes of those transactions
    ([undo]/[UndoLog]), logging a compensation record for each and an
    ABORT record when it reaches a loser's BEGIN.  The tables are the
    heap files of [Heap], reached through the [fhs_] map of the
    transaction manager's state of [Txn]; the log manager is the one of
    [Log].  The page LSN the redo test reads is only ever written under
    [ENABLE_LSN], which [storage/buffer_pool_manager.h] leaves undefined,
    so every fetched page carries [INVALID_LSN] ([page_lsn]).

    The theorems are stated against an abstraction of the tables as one
    map from (table, rid) to record ([db], related to the heap files by
    [rep]) and of the log as the changes its writes make ([apply_rec],
    [replay]) and undo ([undo_step], [undo_abs]).  The index rebuild at
    the end of [undo] calls [SmManager]'s DDL, which is not modelled;
    the model of [undo] stops before it. *)

From Stdlib Require Import ZArith Lia Strings.String.
From stdpp Require Import base list gmap sets.
From S2P Require Import Prelude Log Lock Meta Heap HeapInv Txn.

Open Scope Z_scope.
Open Scope rmdb_scope.

(** ** State *)

(** How recovery stops: an exception of a heap or catalog call, a
    failed [assert], [exit(1)] on a record of length zero, and a record
    that runs past the end of the buffer (the C++ code reads past
    [buffer_] there); [RecOutOfFuel] is the model's own and never
    happens ([parseLog_total]). *)
Inductive RecErr :=
| RecTxnErr (e : TxnErr)
| RecAssertFailed
| RecExit
| RecReadPastEnd
| RecOutOfFuel.

(** [class RecoveryManager]: the system it reaches through [sm_manager_]
    and [log_manager_], the records read, the undo list and
    [tmp_lsn_cnt]. *)
Record RecoveryManager := mkRecoveryManager {
  rc_sys : TxnMgr;
  read_log_records : list LogRecord;
  undo_list : gset Z;
  tmp_lsn_cnt : Z
}.

Definition recM (A : Type) := stM RecoveryManager RecErr A.

Definition with_sys (s : RecoveryManager) (m : TxnMgr) : RecoveryManager :=
  mkRecoveryManager m (read_log_records s) (undo_list s) (tmp_lsn_cnt s).
Definition with_undo (s : RecoveryManager) (u : gset Z) : RecoveryManager :=
  mkRecoveryManager (rc_sys s) (read_log_records s) u (tmp_lsn_cnt s).

(** A call of the transaction manager's state monad of [Txn]. *)
Definition sys_call {A} (m : txnM A) : recM A := fun s =>
  let '(r, m') := m (rc_sys s) in
  (match r with Ok a => Ok a | Err e => Err (RecTxnErr e) end, with_sys s m').

(** [sm_manager_->fhs_.at(tab)->...]: a heap call outside a transaction
    ([nullptr] context). *)
Definition heap_at {A} (tab : string) (m : heapM A) : recM A := sys_call (with_heap tab m).

Definition file_at (tab : string) : recM RmFileHandle := fun s =>
  match fhs_ (rc_sys s) !! tab with
  | Some f => (Ok f, s)
  | None => (Err (RecTxnErr (NullFileHandle tab)), s)
  end.

Definition log_call (g : LogManager -> LogManager) : recM unit := sys_call (modify_log g).

(** [get_tab_name] of the insert, delete and update records. *)
Definition get_tab_name (table_name : bytes) : string := string_of_list_byte table_name.

(** [LogManager::set_global_lsn_] and [set_persist_lsn_]. *)
Definition set_global_lsn_ (m : LogManager) (lsn : Z) : LogManager :=
  mkLogManager lsn (persist_lsn_ m) (log_buffer_ m) (offset_ m) (log_file m).
Definition set_persist_lsn_ (m : LogManager) (lsn : Z) : LogManager :=
  mkLogManager (global_lsn_ m) lsn (log_buffer_ m) (offset_ m) (log_file m).

(** ** [parseLog] *)

(** [LogRecord::deserialize] on the header: the five fields, of which
    [parseLog] looks at the type and the total length. *)
Definition read_type_len : parser (Z * Z) := fun s =>
  '(t, s) ← parse_int s;
  '(_, s) ← parse_int s;
  '(len, s) ← parse_uint s;
  '(_, s) ← parse_int s;
  '(_, s) ← parse_int s;
  Some ((t, len), s).

(** One iteration of the loop at [buffer_ + offset]: [exit(1)] on a
    length of zero, then the subclass chosen by the type, with
    [assert(0)] on [IX_INSERT], [IX_DELETE] and unknown types. *)
Definition parse_one (src : bytes) : res RecErr LogRecord :=
  match read_type_len src with
  | None => Err RecReadPastEnd
  | Some ((t, len), _) =>
      if len <=? 0 then Err RecExit else
      match LogType_of_Z t with
      | Some (IX_INSERT | IX_DELETE) | None => Err RecAssertFailed
      | Some _ =>
          match deserialize src with
          | Some r => Ok r
          | None => Err RecReadPastEnd
          end
      end
  end.

(** The [while] loop: append the record, advance [offset] by its
    [log_tot_len_], stop once [offset] reaches the file size. *)
Fixpoint parse_loop (fuel : nat) (buf : bytes) (offset : Z) (acc : list LogRecord)
    : res RecErr (list LogRecord) :=
  match fuel with
  | O => Err RecOutOfFuel
  | S fuel =>
      match parse_one (drop (Z.to_nat offset) buf) with
      | Err e => Err e
      | Ok r =>
          let offset := offset + log_tot_len_ (log_hdr r) in
          if blen buf <=? offset then Ok (acc ++ [r])
          else parse_loop fuel buf offset (acc ++ [r])
      end
  end.

(** [parseLog]: nothing is read from an empty file; afterwards the log
    manager's [global_lsn_] is the number of records and [persist_lsn_]
    one less.  Each record advances [offset] by at least one byte, so
    the length of the buffer plus one is enough fuel. *)
Definition parseLog (buf : bytes) : recM unit := fun s =>
  let r := if blen buf =? 0 then Ok (read_log_records s)
           else parse_loop (S (length buf)) buf 0 (read_log_records s) in
  match r with
  | Err e => (Err e, s)
  | Ok rs =>
      let n := Z.of_nat (length rs) in
      let lm := set_persist_lsn_ (set_global_lsn_ (log_manager_ (rc_sys s)) n) (n - 1) in
      (Ok tt, mkRecoveryManager (set_log (rc_sys s) lm) rs (undo_list s) n)
  end.

(** [analyze]: [read_log] of the whole log file, then [parseLog]. *)
Definition analyze : recM unit :=
  let! buf := gets (fun s => log_file (log_manager_ (rc_sys s))) in
  parseLog buf.

(** ** [redo] *)

(** [Page::get_page_lsn] of a page fetched from disk: [update_page] and
    [new_page] reset it to [INVALID_LSN] and only [ENABLE_LSN] code
    sets it, so it is [INVALID_LSN]. *)
Definition page_lsn (pg : RmPage) : Z := INVALID_LSN.

(** [is_record_stroed]: a page past the end of the file is not stored;
    otherwise the page's LSN is compared with [now_lsn]. *)
Definition is_record_stroed (tab : string) (page_no : Z) (now_lsn : Z) : recM bool :=
  let! f := file_at tab in
  if num_pages (rm_file_hdr_ f) <=? page_no then ret false else
  let! pg := heap_at tab (fetch_page_handle page_no) in
  ret (now_lsn <=? page_lsn pg).

(** [RedoLog]: BEGIN adds the transaction to the undo list, COMMIT and
    ABORT remove it; a write not stored is applied again (after
    [allocpage] for an insert or update); index records do nothing. *)
Definition RedoLog (r : LogRecord) (now_lsn : Z) : recM unit :=
  let h := log_hdr r in
  match log_type_ h, log_payload r with
  | Log.begin, _ => modify (fun s => with_undo s ({[log_tid_ h]} ∪ undo_list s))
  | Log.commit, _ | Log.ABORT, _ => modify (fun s => with_undo s (undo_list s ∖ {[log_tid_ h]}))
  | Log.DELETE, RecPayload _ rid name =>
      let tab := get_tab_name name in
      let! stored := is_record_stroed tab (page_no rid) now_lsn in
      if stored then ret tt else heap_at tab (delete_record_ctx rid)
  | Log.IX_DELETE, _ | Log.IX_INSERT, _ => ret tt
  | Log.INSERT, RecPayload v rid name =>
      let tab := get_tab_name name in
      let! stored := is_record_stroed tab (page_no rid) now_lsn in
      if stored then ret tt else heap_at tab (allocpage rid ;; insert_record_at rid v)
  | Log.UPDATE, UpdPayload _ v rid name =>
      let tab := get_tab_name name in
      let! stored := is_record_stroed tab (page_no rid) now_lsn in
      if stored then ret tt else heap_at tab (allocpage rid ;; update_record_ctx rid v)
  | _, _ => throw RecAssertFailed
  end.

(** [redo]: every record in log order, its position as [now_lsn]. *)
Fixpoint redo_from (rs : list LogRecord) (now_lsn : Z) : recM unit :=
  match rs with
  | [] => ret tt
  | r :: rs => RedoLog r now_lsn ;; redo_from rs (now_lsn + 1)
  end.

Definition redo : recM unit :=
  let! rs := gets read_log_records in redo_from rs 0.

(** ** [undo] *)

(** [UndoLog]: for a transaction in the undo list, BEGIN logs its ABORT
    record and removes it; a COMMIT or ABORT record of it is a failed
    assertion; a write is logged as its compensation record and
    inverted on the heap (re-insert, delete, restore the old image). *)
Definition UndoLog (r : LogRecord) : recM unit :=
  let h := log_hdr r in
  let tid := log_tid_ h in
  let! ul := gets undo_list in
  let pending := bool_decide (tid ∈ ul) in
  match log_type_ h, log_payload r with
  | Log.begin, _ =>
      if pending then
        log_call (fun lm => add_abort_log_record lm tid) ;;
        modify (fun s => with_undo s (undo_list s ∖ {[tid]}))
      else ret tt
  | Log.commit, _ | Log.ABORT, _ => if pending then throw RecAssertFailed else ret tt
  | Log.DELETE, RecPayload v rid name =>
      let tab := get_tab_name name in
      if pending then
        log_call (fun lm => add_insert_log_record lm tid v rid (list_byte_of_string tab)) ;;
        heap_at tab (insert_record_at rid v)
      else ret tt
  | Log.INSERT, RecPayload v rid name =>
      let tab := get_tab_name name in
      if pending then
        log_call (fun lm => add_delete_log_record lm tid v rid (list_byte_of_string tab)) ;;
        heap_at tab (delete_record_ctx rid)
      else ret tt
  | Log.UPDATE, UpdPayload old v rid name =>
      let tab := get_tab_name name in
      if pending then
        log_call (fun lm => add_update_log_record lm tid old v rid (list_byte_of_string tab)) ;;
        heap_at tab (update_record_ctx rid old)
      else ret tt
  | _, _ => throw RecAssertFailed
  end.

(** The backward loop, which stops as soon as the undo list is empty. *)
Fixpoint undo_loop (rs : list LogRecord) : recM unit :=
  match rs with
  | [] => ret tt
  | r :: rs =>
      let! ul := gets undo_list in
      if bool_decide (ul = ∅) then ret tt else UndoLog r ;; undo_loop rs
  end.

(** [undo] up to the index rebuild, which is [SmManager]'s DDL. *)
Definition undo : recM unit :=
  let! rs := gets read_log_records in undo_loop (rev rs).

(** The three phases as [rmdb.cpp] runs them at start-up. *)
Definition recover : recM unit := analyze ;; redo ;; undo.

(** ** [parseLog] reads back what the log manager wrote *)

Lemma LogType_of_Z_to z t : LogType_of_Z z = Some t -> LogType_to_Z t = z.
Proof. unfold LogType_of_Z. repeat case_match; intros; simplify_eq; done. Qed.

Lemma deserialize_header_of src r :
  deserialize src = Some r -> exists s', deserialize_header src = Some (log_hdr r, s').
Proof.
  unfold deserialize. destruct (deserialize_header src) as [[h s]|]; cbn; [|done].
  intros H. unfold mbind, option_bind in H. repeat case_match; simplify_eq; eauto.
Qed.

(** The header fields [parseLog] inspects are those of the record it
    then deserialises. *)
Lemma read_type_len_header src h s' :
  deserialize_header src = Some (h, s') ->
  read_type_len src = Some ((LogType_to_Z (log_type_ h), log_tot_len_ h), s').
Proof.
  unfold deserialize_header, read_type_len.
  intros H. unfold mbind, option_bind in *. repeat case_match; simplify_eq.
  cbn. by erewrite LogType_of_Z_to.
Qed.

Lemma parse_one_len src r : parse_one src = Ok r -> 0 < log_tot_len_ (log_hdr r).
Proof.
  unfold parse_one. destruct (deserialize src) as [r'|] eqn:Hd.
  - destruct (deserialize_header_of _ _ Hd) as [s' Hh].
    rewrite (read_type_len_header _ _ _ Hh).
    destruct (Z.leb_spec (log_tot_len_ (log_hdr r')) 0); [done|].
    repeat case_match; intros; simplify_eq; done.
  - repeat case_match; done.
Qed.

Lemma parse_one_fuel src : parse_one src <> Err RecOutOfFuel.
Proof. unfold parse_one. repeat case_match; done. Qed.

Lemma blen_serialize_pos r : len_ok r -> 0 < log_tot_len_ (log_hdr r).
Proof.
  unfold len_ok. intros <-. unfold serialize. rewrite blen_app, blen_header.
  unfold LOG_HEADER_SIZE, blen. lia.
Qed.

Lemma parse_one_serialize r rest :
  log_wf r -> len_ok r -> parse_one (serialize r ++ rest) = Ok r.
Proof.
  intros Hwf Hlen. pose proof Hwf as [Hh Hp].
  unfold parse_one. unfold serialize at 1. rewrite <- app_assoc.
  rewrite (read_type_len_header _ _ _ (deserialize_header_app _ _ Hh)).
  rewrite (proj2 (Z.leb_gt _ _) (blen_serialize_pos r Hlen)), LogType_of_to_Z.
  rewrite (deserialize_serialize r rest Hwf).
  destruct r as [[[] ? ? ? ?] p]; cbn in Hp |- *; done.
Qed.

(** Each iteration consumes at least one byte, so the loop returns
    before its fuel runs out. *)
Lemma parse_loop_total fuel buf offset acc :
  offset < blen buf -> blen buf - offset <= Z.of_nat fuel ->
  parse_loop fuel buf offset acc <> Err RecOutOfFuel.
Proof.
  revert offset acc. induction fuel as [|fuel IH]; intros offset acc Ho Hf; [lia|].
  cbn. destruct (parse_one _) as [r|e] eqn:Hr; [|intros [= ->]; by apply (parse_one_fuel _ Hr)].
  pose proof (parse_one_len _ _ Hr).
  destruct (Z.leb_spec (blen buf) (offset + log_tot_len_ (log_hdr r))); [done|].
  apply IH; lia.
Qed.

Definition wf_log (rs : list LogRecord) : Prop := Forall (fun r => log_wf r /\ len_ok r) rs.

Lemma parse_loop_serialize rs : forall pre acc fuel,
  rs <> [] -> wf_log rs -> (length rs <= fuel)%nat ->
  parse_loop fuel (pre ++ mjoin (serialize <$> rs)) (blen pre) acc = Ok (acc ++ rs).
Proof.
  induction rs as [|r rs IH]; intros pre acc fuel Hne Hwf Hfuel; [done|].
  apply Forall_cons in Hwf as [[Hw Hl] Hwf].
  destruct fuel as [|fuel]; [cbn in Hfuel; lia|]. cbn [parse_loop fmap list_fmap mjoin list_join].
  replace (Z.to_nat (blen pre)) with (length pre) by (unfold blen; lia).
  rewrite drop_app_length, parse_one_serialize by done.
  assert (Hb : blen pre + log_tot_len_ (log_hdr r) = blen (pre ++ serialize r))
    by (rewrite blen_app; unfold len_ok in Hl; lia).
  rewrite Hb, app_assoc. destruct rs as [|r' rs].
  - cbn. rewrite app_nil_r, Z.leb_refl. done.
  - apply Forall_cons in Hwf as Hwf'. destruct Hwf' as [[_ Hl'] _].
    rewrite (proj2 (Z.leb_gt _ _)).
    + rewrite IH by (done || cbn in *; lia). by rewrite <- app_assoc.
    + cbn [fmap list_fmap mjoin list_join]. rewrite !blen_app.
      pose proof (blen_serialize_pos r' Hl'). unfold len_ok in Hl'.
      unfold blen in *. lia.
Qed.

Lemma length_log_le rs : wf_log rs -> (length rs <= length (mjoin (serialize <$> rs)))%nat.
Proof.
  induction 1 as [|r rs [_ Hl] _ IH]; [done|].
  change (mjoin (serialize <$> r :: rs)) with (serialize r ++ mjoin (serialize <$> rs)).
  rewrite length_app. pose proof (blen_serialize_pos r Hl).
  unfold len_ok, blen in *. cbn. lia.
Qed.

(** The state [parseLog] leaves after reading the records [rs]. *)
Definition parsed (s : RecoveryManager) (rs : list LogRecord) : RecoveryManager :=
  let n := Z.of_nat (length rs) in
  mkRecoveryManager (set_log (rc_sys s) (set_persist_lsn_ (set_global_lsn_ (log_manager_ (rc_sys s)) n) (n - 1)))
    rs (undo_list s) n.

Lemma analyze_run s rs :
  read_log_records s = [] -> wf_log rs ->
  log_file (log_manager_ (rc_sys s)) = mjoin (serialize <$> rs) ->
  analyze s = (Ok tt, parsed s rs).
Proof.
  intros Hnil Hwf Hfile. unfold analyze, bindM, gets. cbn [fst snd]. rewrite Hfile.
  unfold parseLog. rewrite Hnil. destruct rs as [|r rs'] eqn:Hrs; [done|].
  rewrite <- Hrs in *. pose proof (length_log_le rs Hwf) as Hlen.
  assert (Hpos : blen (mjoin (serialize <$> rs)) =? 0 = false).
  { apply Z.eqb_neq. subst rs. apply Forall_cons in Hwf as [[_ Hl] _].
    pose proof (blen_serialize_pos r Hl).
    change (mjoin (serialize <$> r :: rs')) with (serialize r ++ mjoin (serialize <$> rs')). rewrite blen_app.
    unfold len_ok, blen in *. lia. }
  rewrite Hpos. pose proof (parse_loop_serialize rs [] [] (S (length (mjoin (serialize <$> rs)))))
    as Hp. cbn [app] in Hp. change (blen []) with 0 in Hp. rewrite Hp by (subst; done || lia).
  done.
Qed.

(** C6: Round trip: when the log file is the serialisation of well-formed
    records, one after the other, [analyze] reads back exactly those
    records, in order, and sets [global_lsn_] to their number and
    [persist_lsn_] to one less. *)
Theorem analyze_roundtrip s rs :
  read_log_records s = [] -> wf_log rs ->
  log_file (log_manager_ (rc_sys s)) = mjoin (serialize <$> rs) ->
  analyze s = (Ok tt, parsed s rs).
Proof. apply analyze_run. Qed.

(** C16: Termination: [parseLog] returns on every buffer, by a record
    list or by one of the code's own failures, never by running out of
    fuel. *)
Theorem parseLog_total buf s : fst (parseLog buf s) <> Err RecOutOfFuel.
Proof.
  unfold parseLog. destruct (Z.eqb_spec (blen buf) 0); [done|].
  destruct (parse_loop _ _ _ _) eqn:Hp; [done|]. cbn. intros [= ->].
  refine (parse_loop_total _ _ _ _ _ _ Hp); unfold blen in *; lia.
Qed.

(** ** What the log stands for

    The tables as one map from (table, rid) to record, and the change
    each write record stands for. *)
Abbreviation db := (gmap (string * Rid) bytes).

Definition put (D : db) (tab : string) (rid : Rid) (v : option bytes) : db :=
  partial_alter (fun _ => v) (tab, rid) D.

(** A write applied forward: an insert into a free rid, a delete or an
    update of a rid that holds the record's logged image; [None] when
    the log does not fit [D]. *)
Definition apply_rec (D : db) (r : LogRecord) : option db :=
  match log_type_ (log_hdr r), log_payload r with
  | Log.INSERT, RecPayload v rid name =>
      let tab := get_tab_name name in
      match D !! (tab, rid) with None => Some (put D tab rid (Some v)) | Some _ => None end
  | Log.DELETE, RecPayload v rid name =>
      let tab := get_tab_name name in
      if decide (D !! (tab, rid) = Some v) then Some (put D tab rid None) else None
  | Log.UPDATE, UpdPayload old v rid name =>
      let tab := get_tab_name name in
      if decide (D !! (tab, rid) = Some old) then Some (put D tab rid (Some v)) else None
  | _, _ => Some D
  end.

Fixpoint replay (D : db) (rs : list LogRecord) : option db :=
  match rs with
  | [] => Some D
  | r :: rs => D' ← apply_rec D r; replay D' rs
  end.

(** The transactions a prefix of the log leaves open. *)
Definition open_txns (L : gset Z) (r : LogRecord) : gset Z :=
  match log_type_ (log_hdr r) with
  | Log.begin => {[log_tid_ (log_hdr r)]} ∪ L
  | Log.commit | Log.ABORT => L ∖ {[log_tid_ (log_hdr r)]}
  | _ => L
  end.

(** A write undone, for a transaction of the undo list. *)
Definition unapply_rec (D : db) (r : LogRecord) : option db :=
  match log_type_ (log_hdr r), log_payload r with
  | Log.DELETE, RecPayload v rid name =>
      let tab := get_tab_name name in
      match D !! (tab, rid) with None => Some (put D tab rid (Some v)) | Some _ => None end
  | Log.INSERT, RecPayload _ rid name =>
      let tab := get_tab_name name in
      match D !! (tab, rid) with Some _ => Some (put D tab rid None) | None => None end
  | Log.UPDATE, UpdPayload old _ rid name =>
      let tab := get_tab_name name in
      match D !! (tab, rid) with Some _ => Some (put D tab rid (Some old)) | None => None end
  | _, _ => Some D
  end.

(** One record of the backward pass: a write of a transaction in the
    undo list is undone, its BEGIN closes it, its COMMIT or ABORT is the
    failed assertion. *)
Definition undo_step (L : gset Z) (D : db) (r : LogRecord) : option (gset Z * db) :=
  let tid := log_tid_ (log_hdr r) in
  if bool_decide (tid ∈ L) then
    match log_type_ (log_hdr r) with
    | Log.begin => Some (L ∖ {[tid]}, D)
    | Log.commit | Log.ABORT => None
    | _ => D' ← unapply_rec D r; Some (L, D')
    end
  else Some (L, D).

(** The backward pass, which stops once no transaction is left. *)
Fixpoint undo_abs (rs : list LogRecord) (L : gset Z) (D : db) : option (gset Z * db) :=
  match rs with
  | [] => Some (L, D)
  | r :: rs =>
      if bool_decide (L = ∅) then Some (L, D)
      else '(L', D') ← undo_step L D r; undo_abs rs L' D'
  end.

Definition is_write (r : LogRecord) : bool :=
  match log_type_ (log_hdr r) with Log.INSERT | Log.DELETE | Log.UPDATE => true | _ => false end.

(** The heap files hold the tables [D]. *)
Definition rep (m : TxnMgr) (D : db) : Prop :=
  forall tab g, fhs_ m !! tab = Some g -> heap_inv g /\ forall x, records g x = D !! (tab, x).

(** A write names a table of [m], a slot of its pages (not the header
    page) and images that fit its records; [placed] adds that the page
    exists. *)
Definition fits_in (g : RmFileHandle) (rid : Rid) (imgs : list bytes) : Prop :=
  1 <= page_no rid /\ 0 <= slot_no rid < npp g /\
  Forall (fun v => (length v <= record_size (rm_file_hdr_ g))%nat) imgs.

Definition rec_loc (r : LogRecord) : option (string * Rid * list bytes) :=
  match log_payload r with
  | NoPayload => None
  | RecPayload v rid name => Some (get_tab_name name, rid, [v])
  | UpdPayload old v rid name => Some (get_tab_name name, rid, [old; v])
  end.

Definition fits (m : TxnMgr) (r : LogRecord) : Prop :=
  match rec_loc r with
  | None => True
  | Some (tab, rid, imgs) => exists g, fhs_ m !! tab = Some g /\ fits_in g rid imgs
  end.

Definition placed (m : TxnMgr) (r : LogRecord) : Prop :=
  match rec_loc r with
  | None => True
  | Some (tab, rid, _) => exists g, fhs_ m !! tab = Some g /\ page_no rid < npages g
  end.

(** The files of [m'] are those of [m], with the same record layout and
    no fewer pages. *)
Definition grows (m m' : TxnMgr) : Prop :=
  forall tab g, fhs_ m !! tab = Some g -> exists g', fhs_ m' !! tab = Some g' /\
    record_size (rm_file_hdr_ g') = record_size (rm_file_hdr_ g) /\ npp g' = npp g /\
    npages g <= npages g'.

(** ** The heap calls of [redo] and [undo] *)

(** The effect of one heap call outside a transaction on the file: the
    invariant kept, the layout kept, and one rid set to [v]. *)
Definition heap_eff (g g' : RmFileHandle) (rid : Rid) (v : option bytes) : Prop :=
  heap_inv g' /\ record_size (rm_file_hdr_ g') = record_size (rm_file_hdr_ g) /\
  npp g' = npp g /\ npages g <= npages g' /\
  forall x, records g' x = if decide (x = rid) then v else records g x.

Lemma allocpage_loop_run fuel rid : forall g,
  heap_inv g -> page_no rid - npages g < Z.of_nat fuel ->
  exists g', allocpage_loop fuel rid (mkHeapSt g None) = (Ok tt, mkHeapSt g' None) /\
    heap_inv g' /\ page_no rid < npages g' /\ npages g <= npages g' /\
    record_size (rm_file_hdr_ g') = record_size (rm_file_hdr_ g) /\ npp g' = npp g /\
    forall x, records g' x = records g x.
Proof.
  induction fuel as [|fuel IH]; intros g Hinv Hf; cbn; unfold bindM, gets; cbn;
    destruct (Z.leb_spec (num_pages (rm_file_hdr_ g)) (page_no rid)); unfold npages in *; try lia.
  - exists g. by split_and!.
  - destruct (IH (add_new_page g)) as (g' & Hrun & Hinv' & Hp & Hn & Hrs & Hnpp & Hrec);
      [by apply add_new_page_inv|cbn; lia|].
    exists g'. split_and!; [exact Hrun|done|done|cbn in Hn; lia|done|done|].
    intros x. by rewrite Hrec, add_new_page_records.
  - exists g. by split_and!.
Qed.

Lemma allocpage_run rid g :
  heap_inv g ->
  exists g', allocpage rid (mkHeapSt g None) = (Ok tt, mkHeapSt g' None) /\
    heap_inv g' /\ page_no rid < npages g' /\ npages g <= npages g' /\
    record_size (rm_file_hdr_ g') = record_size (rm_file_hdr_ g) /\ npp g' = npp g /\
    forall x, records g' x = records g x.
Proof. intros Hinv. unfold allocpage, bindM, gets. apply allocpage_loop_run; [done|unfold npages; cbn; lia]. Qed.

Lemma records_None_slot g rid : records g rid = None -> slot_no rid ∉ bitmap (page_of g (page_no rid)).
Proof. intros H%records_None_is_record. unfold is_record in H. by apply bool_decide_eq_false in H. Qed.

Lemma records_Some_slot g rid r : records g rid = Some r -> slot_no rid ∈ bitmap (page_of g (page_no rid)).
Proof. intros H%records_Some_is_record. unfold is_record in H. by apply bool_decide_eq_true in H. Qed.

Lemma insert_at_eff g rid v :
  heap_inv g -> 1 <= page_no rid < npages g -> 0 <= slot_no rid < npp g ->
  (length v <= record_size (rm_file_hdr_ g))%nat -> records g rid = None ->
  exists g', insert_record_at rid v (mkHeapSt g None) = (Ok tt, mkHeapSt g' None) /\
    heap_eff g g' rid (Some v).
Proof.
  intros Hinv Hp Hs Hv Hr. rewrite (insert_record_at_run g rid v Hinv Hp Hr), take_ge by done.
  eexists; split; [reflexivity|]. unfold heap_eff, npp, npages. rewrite !write_new_hdr.
  split_and!; [apply write_new_inv; [done|done|done|by apply records_None_slot]|done|done|lia|].
  intros x. rewrite records_write_new. by destruct rid.
Qed.

Lemma delete_eff g rid r :
  heap_inv g -> records g rid = Some r ->
  exists g', delete_record_ctx rid (mkHeapSt g None) = (Ok tt, mkHeapSt g' None) /\ heap_eff g g' rid None.
Proof.
  intros Hinv Hr. unfold delete_record_ctx. rewrite (delete_record_run g true rid r Hinv Hr).
  eexists; split; [reflexivity|]. unfold heap_eff, npp, npages. rewrite !free_slot_hdr.
  split_and!; [apply free_slot_inv; [done|by eapply records_Some_slot]|done|done|lia|].
  intros x. rewrite records_free_slot. by destruct rid.
Qed.

Lemma update_eff g rid r v :
  heap_inv g -> (length v <= record_size (rm_file_hdr_ g))%nat -> records g rid = Some r ->
  exists g', update_record_ctx rid v (mkHeapSt g None) = (Ok tt, mkHeapSt g' None) /\
    heap_eff g g' rid (Some v).
Proof.
  intros Hinv Hv Hr. unfold update_record_ctx. rewrite (update_record_run g true rid v r Hinv Hr), take_ge by done.
  eexists; split; [reflexivity|]. unfold heap_eff, npp, npages. rewrite !overwrite_slot_hdr.
  split_and!; [by apply overwrite_slot_inv|done|done|lia|].
  intros x. rewrite records_overwrite_slot. destruct rid as [p sl]. cbn.
  destruct (decide (x = mkRid p sl)) as [->|Hx].
  - by rewrite bool_decide_true, (records_Some_is_record _ _ _ Hr).
  - by rewrite bool_decide_false.
Qed.

(** [allocpage] before a write only adds empty pages. *)
Lemma alloc_then_eff (m : heapM unit) g rid v :
  heap_inv g ->
  (forall g1, heap_inv g1 -> page_no rid < npages g1 -> npp g1 = npp g ->
     record_size (rm_file_hdr_ g1) = record_size (rm_file_hdr_ g) -> (forall x, records g1 x = records g x) ->
     exists g', m (mkHeapSt g1 None) = (Ok tt, mkHeapSt g' None) /\ heap_eff g1 g' rid v) ->
  exists g', (allocpage rid ;; m) (mkHeapSt g None) = (Ok tt, mkHeapSt g' None) /\ heap_eff g g' rid v /\
    page_no rid < npages g'.
Proof.
  intros Hinv Hm. destruct (allocpage_run rid g Hinv) as (g1 & Hrun & Hinv1 & Hp & Hn & Hrs & Hnpp & Hrec).
  destruct (Hm g1) as (g' & Hrun' & Hinv' & Hrs' & Hnpp' & Hn' & Hrec'); [done..|].
  exists g'. rewrite (bindM_ok _ _ _ _ _ Hrun). split_and!; [done| |lia].
  split_and!; [done|congruence|congruence|lia|]. intros x. by rewrite Hrec', Hrec.
Qed.

(** ** Running the lifted calls *)

Lemma with_sys_id s : with_sys s (rc_sys s) = s.
Proof. by destruct s. Qed.

Lemma set_fhs_id m tab g : fhs_ m !! tab = Some g -> set_fhs m (<[tab := g]> (fhs_ m)) = m.
Proof. intros Hg. destruct m. unfold set_fhs. cbn in *. by rewrite insert_id. Qed.

Lemma heap_at_ok {A} s tab g (mm : heapM A) a g' :
  fhs_ (rc_sys s) !! tab = Some g -> mm (mkHeapSt g None) = (Ok a, mkHeapSt g' None) ->
  heap_at tab mm s = (Ok a, with_sys s (set_fhs (rc_sys s) (<[tab := g']> (fhs_ (rc_sys s))))).
Proof. intros Hg Hm. unfold heap_at, sys_call. by rewrite (with_heap_ok _ _ _ _ _ _ Hg Hm). Qed.

(** With no page LSN ever set, [is_record_stroed] answers [false] on
    every page of a table, and changes nothing. *)
Lemma is_record_stroed_false s tab g p i :
  fhs_ (rc_sys s) !! tab = Some g -> 1 <= p -> 0 <= i -> is_record_stroed tab p i s = (Ok false, s).
Proof.
  intros Hg Hp Hi. unfold is_record_stroed, file_at, bindM at 1. rewrite Hg.
  destruct (Z.leb_spec (num_pages (rm_file_hdr_ g)) p); [done|].
  assert (Hf : fetch_page_handle p (mkHeapSt g None) = (Ok (page_of g p), mkHeapSt g None)).
  { unfold fetch_page_handle. rewrite (proj2 (Z.eqb_neq _ _)) by (unfold RM_INVALID_PAGE_ID; lia). done. }
  rewrite (bindM_ok _ _ _ _ _ (heap_at_ok s tab g _ (page_of g p) g Hg Hf)).
  rewrite set_fhs_id, with_sys_id by done. unfold ret, page_lsn, INVALID_LSN.
  by rewrite (proj2 (Z.leb_gt _ _)) by lia.
Qed.

Lemma rep_step m D tab g g' rid v :
  rep m D -> fhs_ m !! tab = Some g -> heap_eff g g' rid v ->
  rep (set_fhs m (<[tab := g']> (fhs_ m))) (put D tab rid v).
Proof.
  intros Hrep Hg (Hinv' & _ & _ & _ & Hrec) tab' g'' H. cbn in H. unfold put.
  destruct (decide (tab' = tab)) as [->|Hne].
  - rewrite lookup_insert_eq in H. injection H as <-. split; [done|]. intros x. rewrite Hrec.
    destruct (decide (x = rid)) as [->|Hx]; [by rewrite lookup_partial_alter_eq|].
    rewrite lookup_partial_alter_ne by congruence. by apply Hrep.
  - rewrite lookup_insert_ne in H by done. destruct (Hrep _ _ H) as [? Hr]. split; [done|].
    intros x. rewrite lookup_partial_alter_ne by congruence. apply Hr.
Qed.

Lemma grows_refl m : grows m m.
Proof. intros tab g Hg. exists g. by split_and!. Qed.

Lemma grows_trans m1 m2 m3 : grows m1 m2 -> grows m2 m3 -> grows m1 m3.
Proof.
  intros H12 H23 tab g Hg. destruct (H12 _ _ Hg) as (g2 & Hg2 & ? & ? & ?).
  destruct (H23 _ _ Hg2) as (g3 & Hg3 & ? & ? & ?). exists g3. split_and!; congruence || lia.
Qed.

Lemma grows_step m tab g g' rid v :
  fhs_ m !! tab = Some g -> heap_eff g g' rid v -> grows m (set_fhs m (<[tab := g']> (fhs_ m))).
Proof.
  intros Hg (_ & Hrs & Hnpp & Hn & _) tab' g1 H. cbn.
  destruct (decide (tab' = tab)) as [->|Hne].
  - rewrite lookup_insert_eq. rewrite Hg in H. injection H as <-. eexists; by split_and!.
  - rewrite lookup_insert_ne by done. eexists; by split_and!.
Qed.

Lemma fits_grows m m' r : grows m m' -> fits m r -> fits m' r.
Proof.
  unfold fits, fits_in. intros Hgr. destruct (rec_loc r) as [[[tab rid] imgs]|]; [|done].
  intros (g & Hg & Hp & Hs & Himg). destruct (Hgr _ _ Hg) as (g' & Hg' & Hrs & Hnpp & _).
  exists g'. rewrite Hnpp, Hrs. split_and!; done || lia.
Qed.

Lemma placed_grows m m' r : grows m m' -> placed m r -> placed m' r.
Proof.
  unfold placed. intros Hgr. destruct (rec_loc r) as [[[tab rid] imgs]|]; [|done].
  intros (g & Hg & Hp). destruct (Hgr _ _ Hg) as (g' & Hg' & _ & _ & ?). exists g'. split; [done|lia].
Qed.

#[local] Hint Resolve grows_refl fits_grows placed_grows : rmdb.

(** ** [redo] replays the log *)

(** A write redone on table [tab]: [is_record_stroed] says no, and the
    heap call makes its change. *)
Lemma redo_write_run s tab g rid i D (mm : heapM unit) v :
  fhs_ (rc_sys s) !! tab = Some g -> rep (rc_sys s) D -> 1 <= page_no rid -> 0 <= i ->
  (exists g', mm (mkHeapSt g None) = (Ok tt, mkHeapSt g' None) /\ heap_eff g g' rid v /\ page_no rid < npages g') ->
  exists m' g', (let! stored := is_record_stroed tab (page_no rid) i in
                 if stored then ret tt else heap_at tab mm) s = (Ok tt, with_sys s m') /\
    rep m' (put D tab rid v) /\ grows (rc_sys s) m' /\ frame (rc_sys s) m' /\
    log_manager_ m' = log_manager_ (rc_sys s) /\ fhs_ m' !! tab = Some g' /\ page_no rid < npages g'.
Proof.
  intros Hg Hrep Hp Hi (g' & Hrun & Heff & Hpl).
  rewrite (bindM_ok _ _ _ _ _ (is_record_stroed_false s tab g _ _ Hg Hp Hi)).
  rewrite (heap_at_ok s tab g _ _ g' Hg Hrun).
  eexists _, g'. split_and!; [reflexivity|by eapply rep_step|by eapply grows_step|done|done|cbn; by rewrite lookup_insert_eq|done].
Qed.

(** One record redone: the tables change as the record says, the undo
    list as [open_txns] says, and the written page exists afterwards. *)
Lemma RedoLog_run r i s D D' :
  log_wf r -> fits (rc_sys s) r -> rep (rc_sys s) D -> 0 <= i -> apply_rec D r = Some D' ->
  exists m', RedoLog r i s =
      (Ok tt, mkRecoveryManager m' (read_log_records s) (open_txns (undo_list s) r) (tmp_lsn_cnt s)) /\
    rep m' D' /\ grows (rc_sys s) m' /\ frame (rc_sys s) m' /\
    log_manager_ m' = log_manager_ (rc_sys s) /\ placed m' r.
Proof.
  destruct r as [[ty lsn len tid prev] p]. intros [_ Hp] Hfit Hrep Hi Happ.
  unfold RedoLog, open_txns, apply_rec, fits, placed, rec_loc, fits_in in *.
  cbn [log_hdr log_payload log_type_ log_tid_] in *.
  destruct ty, p as [|v rid name|old v rid name]; cbn in Hp; try contradiction;
    try (injection Happ as <-; exists (rc_sys s);
         split_and!; [reflexivity|done|apply grows_refl|apply frame_refl|done|done]);
    destruct Hfit as (g & Hg & Hp1 & Hs & Himg); rewrite ?Forall_cons, ?Forall_nil in Himg;
    repeat (case_decide || case_match); inv_res; try discriminate;
    pose proof (proj1 (Hrep _ _ Hg)) as Hinv; pose proof (proj2 (Hrep _ _ Hg) rid) as Hr;
    match goal with HD : D !! _ = _ |- _ => rewrite HD in Hr end.
  - destruct (redo_write_run s _ g rid i D (allocpage rid ;; update_record_ctx rid v) (Some v) Hg Hrep Hp1 Hi)
      as (m' & g' & Hrun & ? & ? & ? & ? & ? & ?).
    { apply alloc_then_eff; [done|]. intros g1 ? ? ? Hrs Hrec. apply (update_eff g1 rid old); [done|rewrite Hrs; tauto|by rewrite Hrec]. }
    exists m'. split_and!; [exact Hrun|done..|by exists g'].
  - destruct (redo_write_run s _ g rid i D (allocpage rid ;; insert_record_at rid v) (Some v) Hg Hrep Hp1 Hi)
      as (m' & g' & Hrun & ? & ? & ? & ? & ? & ?).
    { apply alloc_then_eff; [done|]. intros g1 ? ? Hnpp Hrs Hrec.
      apply insert_at_eff; [done|lia|by rewrite Hnpp|rewrite Hrs; tauto|by rewrite Hrec]. }
    exists m'. split_and!; [exact Hrun|done..|by exists g'].
  - destruct (redo_write_run s _ g rid i D (delete_record_ctx rid) None Hg Hrep Hp1 Hi)
      as (m' & g' & Hrun & ? & ? & ? & ? & ? & ?).
    { destruct (delete_eff g rid v Hinv Hr) as (g' & Hrun & Heff). exists g'. split_and!; [done|done|].
      pose proof (is_record_page g rid Hinv (records_Some_is_record _ _ _ Hr)). destruct Heff as (_ & _ & _ & ? & _). lia. }
    exists m'. split_and!; [exact Hrun|done..|by exists g'].
Qed.

Lemma redo_from_run rs : forall i s D D',
  wf_log rs -> Forall (fits (rc_sys s)) rs -> rep (rc_sys s) D -> 0 <= i -> replay D rs = Some D' ->
  exists m', redo_from rs i s =
      (Ok tt, mkRecoveryManager m' (read_log_records s) (foldl open_txns (undo_list s) rs) (tmp_lsn_cnt s)) /\
    rep m' D' /\ grows (rc_sys s) m' /\ frame (rc_sys s) m' /\
    log_manager_ m' = log_manager_ (rc_sys s) /\ Forall (placed m') rs.
Proof.
  induction rs as [|r rs IH]; intros i s D D' Hwf Hfit Hrep Hi Hrp.
  - injection Hrp as <-. exists (rc_sys s). split_and!; [by destruct s|done|apply grows_refl|apply frame_refl|done|done].
  - apply Forall_cons in Hwf as [[Hw _] Hwf]. apply Forall_cons in Hfit as [Hf Hfit].
    cbn in Hrp. destruct (apply_rec D r) as [D1|] eqn:Ha; [|done]. cbn in Hrp.
    destruct (RedoLog_run r i s D D1 Hw Hf Hrep Hi Ha) as (m1 & Hrun & Hrep1 & Hgr1 & Hfr1 & Hlog1 & Hpl1).
    set (s1 := mkRecoveryManager m1 (read_log_records s) (open_txns (undo_list s) r) (tmp_lsn_cnt s)).
    destruct (IH (i + 1) s1 D1 D') as (m' & Hrun' & Hrep' & Hgr' & Hfr' & Hlog' & Hpl');
      [done|eapply Forall_impl; [exact Hfit|eauto with rmdb]|done|lia|done|].
    exists m'. cbn [redo_from]. rewrite (bindM_ok _ _ _ _ _ Hrun). split_and!.
    + exact Hrun'.
    + done.
    + by eapply grows_trans.
    + by eapply frame_trans.
    + cbn in Hlog'. congruence.
    + constructor; [by eapply placed_grows|done].
Qed.

(** C13: Refinement of the redo phase: on heap files that hold the tables
    [D] and a log whose writes fit them (each insert into a free slot
    of an existing table, each delete and update of a stored record
    with its logged image, images within the record size), [redo]
    succeeds and leaves the files holding the tables the log's writes
    produce from [D], the undo list extended by the transactions the
    log opens and not closes, and the rest of the system unchanged. *)
Theorem redo_replays s D D' :
  wf_log (read_log_records s) -> Forall (fits (rc_sys s)) (read_log_records s) ->
  rep (rc_sys s) D -> replay D (read_log_records s) = Some D' ->
  exists m', redo s = (Ok tt, mkRecoveryManager m' (read_log_records s)
                              (foldl open_txns (undo_list s) (read_log_records s)) (tmp_lsn_cnt s)) /\
    rep m' D' /\ frame (rc_sys s) m' /\ log_manager_ m' = log_manager_ (rc_sys s).
Proof.
  intros Hwf Hfit Hrep Hrp. unfold redo, bindM at 1, gets. cbn [fst snd].
  destruct (redo_from_run _ 0 s D D' Hwf Hfit Hrep ltac:(lia) Hrp) as (m' & Hrun & ? & _ & ? & ? & _).
  exists m'. by split_and!.
Qed.

(** ** [undo] rolls back the losers *)

Lemma log_call_ok s g :
  log_call g s = (Ok tt, with_sys s (set_log (rc_sys s) (g (log_manager_ (rc_sys s))))).
Proof. done. Qed.

Lemma undo_write_run s tab g rid D (mm : heapM unit) v gl :
  fhs_ (rc_sys s) !! tab = Some g -> rep (rc_sys s) D ->
  (exists g', mm (mkHeapSt g None) = (Ok tt, mkHeapSt g' None) /\ heap_eff g g' rid v) ->
  exists m', (log_call gl ;; heap_at tab mm) s = (Ok tt, with_sys s m') /\
    rep m' (put D tab rid v) /\ grows (rc_sys s) m' /\ frame (rc_sys s) m'.
Proof.
  intros Hg Hrep (g' & Hrun & Heff). rewrite (bindM_ok _ _ _ _ _ (log_call_ok s gl)).
  set (m1 := set_log (rc_sys s) (gl (log_manager_ (rc_sys s)))).
  assert (Hf : fhs_ m1 = fhs_ (rc_sys s)) by done.
  assert (Hg1 : fhs_ (rc_sys (with_sys s m1)) !! tab = Some g) by (cbn [rc_sys with_sys]; by rewrite Hf).
  rewrite (heap_at_ok _ tab g _ _ g' Hg1 Hrun). cbn [rc_sys with_sys]. rewrite Hf.
  eexists. split; [reflexivity|]. split_and!.
  - by eapply (rep_step m1); [|rewrite Hf|].
  - by eapply (grows_step m1 tab g g' rid v); [rewrite Hf|].
  - done.
Qed.

Lemma UndoLog_run r s D L' D' :
  log_wf r -> fits (rc_sys s) r -> placed (rc_sys s) r -> rep (rc_sys s) D ->
  undo_step (undo_list s) D r = Some (L', D') ->
  exists m', UndoLog r s = (Ok tt, mkRecoveryManager m' (read_log_records s) L' (tmp_lsn_cnt s)) /\
    rep m' D' /\ grows (rc_sys s) m' /\ frame (rc_sys s) m'.
Proof.
  destruct r as [[ty lsn len tid prev] p]. intros [_ Hp] Hfit Hpl Hrep Hst.
  unfold UndoLog, undo_step, unapply_rec, fits, placed, rec_loc, fits_in in *.
  unfold bindM at 1, gets. cbn [log_hdr log_payload log_type_ log_tid_ fst snd] in *.
  destruct (bool_decide (tid ∈ undo_list s)) eqn:Hin;
    [|injection Hst as <- <-; destruct ty, p; cbn in Hp; try contradiction;
      exists (rc_sys s); (split_and!; [by destruct s|done|apply grows_refl|apply frame_refl])].
  destruct ty, p as [|v rid name|old v rid name]; cbn in Hp; try contradiction; try discriminate;
    try (destruct Hfit as (g & Hg & Hp1 & Hs & Himg); destruct Hpl as (g0 & Hg0 & Hpg);
         assert (g0 = g) as -> by congruence; rewrite ?Forall_cons, ?Forall_nil in Himg;
         pose proof (proj1 (Hrep _ _ Hg)) as Hinv; pose proof (proj2 (Hrep _ _ Hg) rid) as Hr;
         cbn in Hst; destruct (D !! (get_tab_name name, rid)) as [r0|] eqn:HD; cbn in Hst; inv_res;
         try discriminate).
  - destruct (undo_write_run s _ g rid D (update_record_ctx rid old) (Some old)
      (fun lm => add_update_log_record lm tid old v rid (list_byte_of_string (get_tab_name name))) Hg Hrep)
      as (m' & Hrun & ? & ? & ?); [apply (update_eff g rid r0); [done|tauto|done]|].
    exists m'. by split_and!.
  - destruct (undo_write_run s _ g rid D (delete_record_ctx rid) None
      (fun lm => add_delete_log_record lm tid v rid (list_byte_of_string (get_tab_name name))) Hg Hrep)
      as (m' & Hrun & ? & ? & ?); [apply (delete_eff g rid r0); done|].
    exists m'. by split_and!.
  - destruct (undo_write_run s _ g rid D (insert_record_at rid v) (Some v)
      (fun lm => add_insert_log_record lm tid v rid (list_byte_of_string (get_tab_name name))) Hg Hrep)
      as (m' & Hrun & ? & ? & ?); [apply insert_at_eff; [done|lia|done|tauto|done]|].
    exists m'. by split_and!.
  - injection Hst as <- <-. eexists. split_and!; [reflexivity|exact Hrep|exact (grows_refl _)|done].
Qed.

Lemma undo_loop_run rs : forall s D L' D',
  wf_log rs -> Forall (fits (rc_sys s)) rs -> Forall (placed (rc_sys s)) rs -> rep (rc_sys s) D ->
  undo_abs rs (undo_list s) D = Some (L', D') ->
  exists m', undo_loop rs s = (Ok tt, mkRecoveryManager m' (read_log_records s) L' (tmp_lsn_cnt s)) /\
    rep m' D' /\ frame (rc_sys s) m'.
Proof.
  induction rs as [|r rs IH]; intros s D L' D' Hwf Hfit Hpl Hrep Hu.
  - injection Hu as <- <-. exists (rc_sys s). split_and!; [by destruct s|done|apply frame_refl].
  - cbn [undo_loop undo_abs] in *. unfold bindM at 1, gets. cbn [fst snd].
    destruct (bool_decide (undo_list s = ∅)).
    + injection Hu as <- <-. exists (rc_sys s). split_and!; [by destruct s|done|apply frame_refl].
    + destruct (undo_step (undo_list s) D r) as [[L1 D1]|] eqn:Hs; [|done]. cbn in Hu.
      apply Forall_cons in Hwf as [[Hw _] Hwf]. apply Forall_cons in Hfit as [Hf Hfit].
      apply Forall_cons in Hpl as [Hp Hpl].
      destruct (UndoLog_run r s D L1 D1 Hw Hf Hp Hrep Hs) as (m1 & Hrun & Hrep1 & Hgr1 & Hfr1).
      destruct (IH (mkRecoveryManager m1 (read_log_records s) L1 (tmp_lsn_cnt s)) D1 L' D')
        as (m' & Hrun' & ? & ?);
        [done|eapply Forall_impl; [exact Hfit|eauto with rmdb]|eapply Forall_impl; [exact Hpl|eauto with rmdb]|done|done|].
      exists m'. rewrite (bindM_ok _ _ _ _ _ Hrun). split_and!; [exact Hrun'|done|by eapply frame_trans].
Qed.

(** C14: Refinement of the undo phase: on heap files that hold the tables
    [D], where every logged write fits its table and its page exists,
    [undo] walks the log backwards exactly as [undo_abs] does: it undoes
    each write of a transaction in the undo list (re-insert, delete,
    restore the old image), closes a transaction at its BEGIN, stops
    once the list is empty, and leaves the catalog, indexes, locks and
    transaction table unchanged. *)
Theorem undo_rolls_back s D L' D' :
  wf_log (read_log_records s) -> Forall (fits (rc_sys s)) (read_log_records s) ->
  Forall (placed (rc_sys s)) (read_log_records s) -> rep (rc_sys s) D ->
  undo_abs (rev (read_log_records s)) (undo_list s) D = Some (L', D') ->
  exists m', undo s = (Ok tt, mkRecoveryManager m' (read_log_records s) L' (tmp_lsn_cnt s)) /\
    rep m' D' /\ frame (rc_sys s) m'.
Proof.
  intros Hwf Hfit Hpl Hrep Hu. unfold undo, bindM at 1, gets. cbn [fst snd].
  apply (undo_loop_run _ s D); [by apply Forall_rev|by apply Forall_rev|by apply Forall_rev|done|done].
Qed.

(** ** Recovery of a log whose last transaction did not finish *)

Lemma replay_app D l1 l2 : replay D (l1 ++ l2) = replay D l1 ≫= fun D' => replay D' l2.
Proof.
  revert D. induction l1 as [|r l1 IH]; intros D; [done|]. cbn.
  destruct (apply_rec D r); [apply IH|done].
Qed.

Lemma unapply_apply D r D' : is_write r = true -> apply_rec D r = Some D' -> unapply_rec D' r = Some D.
Proof.
  destruct r as [[ty lsn len tid prev] p]. unfold is_write, apply_rec, unapply_rec, put.
  cbn [log_hdr log_payload log_type_]. intros Hw Ha.
  destruct ty; try discriminate; destruct p as [|v rid name|old v rid name]; try discriminate;
    try (by injection Ha as ->);
    first [ case_decide as HD; [injection Ha as <-|discriminate]
          | destruct (D !! (get_tab_name name, rid)) eqn:HD; [discriminate|injection Ha as <-] ];
    rewrite lookup_partial_alter_eq; cbn; f_equal;
    rewrite partial_alter_partial_alter_eq; apply partial_alter_id; cbn; by rewrite HD.
Qed.

Lemma open_txns_write L r : is_write r = true -> open_txns L r = L.
Proof. unfold is_write, open_txns. by destruct (log_type_ (log_hdr r)). Qed.

Lemma undo_abs_empty rs D : undo_abs rs ∅ D = Some (∅, D).
Proof. by destruct rs. Qed.

(** Undoing the writes of a transaction of the undo list, last first,
    takes the tables back to before them. *)
Lemma undo_abs_losers ops : forall L D D2 rest t,
  t ∈ L -> Forall (fun r => log_tid_ (log_hdr r) = t /\ is_write r = true) ops ->
  replay D ops = Some D2 -> undo_abs (rev ops ++ rest) L D2 = undo_abs rest L D.
Proof.
  induction ops as [|r ops IH]; intros L D D2 rest t Ht Hops Hrp; [by injection Hrp as <-|].
  apply Forall_cons in Hops as [[Htid Hw] Hops]. cbn in Hrp.
  destruct (apply_rec D r) as [D1|] eqn:Ha; [|done]. cbn in Hrp.
  cbn [rev]. rewrite <- app_assoc. cbn [app]. rewrite (IH L D1 D2 (r :: rest) t Ht Hops Hrp).
  cbn [undo_abs]. rewrite bool_decide_false by set_solver. unfold undo_step.
  rewrite Htid, bool_decide_true by done. rewrite (unapply_apply D r D1 Hw Ha).
  unfold is_write in Hw. by destruct (log_type_ (log_hdr r)).
Qed.

Lemma foldl_open_writes L ops :
  Forall (fun r => is_write r = true) ops -> foldl open_txns L ops = L.
Proof.
  intros Hops. revert L. induction Hops as [|r ops Hw _ IH]; intros L; [done|].
  cbn. by rewrite open_txns_write, IH.
Qed.

(** C12: Recovery keeps committed work and discards unfinished work: for
    a log made of a prefix in which every transaction has committed or
    aborted, then the BEGIN of one more transaction and some of its
    writes (the crash came before its COMMIT), on heap files that hold
    the tables [D0] the log starts from, [analyze], [redo] and [undo]
    succeed and leave the files holding exactly the tables of the
    prefix, with an empty undo list. *)
Theorem recover_discards_loser s D0 D1 pre b ops :
  read_log_records s = [] -> undo_list s = ∅ -> rep (rc_sys s) D0 ->
  log_file (log_manager_ (rc_sys s)) = mjoin (serialize <$> pre ++ b :: ops) ->
  wf_log (pre ++ b :: ops) -> Forall (fits (rc_sys s)) (pre ++ b :: ops) ->
  foldl open_txns ∅ pre = ∅ -> log_type_ (log_hdr b) = Log.begin ->
  Forall (fun r => log_tid_ (log_hdr r) = log_tid_ (log_hdr b) /\ is_write r = true) ops ->
  replay D0 pre = Some D1 -> is_Some (replay D1 ops) ->
  exists s', recover s = (Ok tt, s') /\ rep (rc_sys s') D1 /\ undo_list s' = ∅ /\
    read_log_records s' = pre ++ b :: ops.
Proof.
  intros Hnil Hul Hrep Hfile Hwf Hfit Hpre Hb Hops Hrp1 [D2 Hrp2].
  set (rs := pre ++ b :: ops) in *. set (t := log_tid_ (log_hdr b)) in *.
  assert (Hab : apply_rec D1 b = Some D1) by (unfold apply_rec; by rewrite Hb).
  assert (Hrp : replay D0 rs = Some D2) by (unfold rs; rewrite replay_app, Hrp1; cbn; by rewrite Hab).
  set (s1 := parsed s rs).
  destruct (redo_from_run rs 0 s1 D0 D2) as (m2 & Hredo & Hrep2 & Hgr2 & _ & _ & Hpl2);
    [done|exact Hfit|exact Hrep|lia|done|].
  assert (Hopen : foldl open_txns (undo_list s1) rs = {[t]} ∪ ∅).
  { cbn [s1 parsed undo_list]. rewrite Hul. unfold rs. rewrite foldl_app, Hpre. cbn [foldl].
    unfold open_txns at 2. rewrite Hb. apply foldl_open_writes. by eapply Forall_impl; [exact Hops|intros ? []]. }
  rewrite Hopen in Hredo.
  set (s2 := mkRecoveryManager m2 (read_log_records s1) ({[t]} ∪ ∅) (tmp_lsn_cnt s1)).
  assert (Hu : undo_abs (rev rs) (undo_list s2) D2 = Some (∅, D1)).
  { cbn [s2 undo_list]. unfold rs. rewrite rev_app_distr. cbn [rev]. rewrite <- app_assoc.
    rewrite (undo_abs_losers ops _ D1 D2 _ t) by (set_solver || done). cbn [app undo_abs].
    rewrite bool_decide_false by set_solver. unfold undo_step. rewrite bool_decide_true by set_solver.
    rewrite Hb. cbn. replace (({[t]} ∪ ∅) ∖ {[t]}) with (∅ : gset Z) by set_solver.
    apply undo_abs_empty. }
  destruct (undo_loop_run (rev rs) s2 D2 ∅ D1) as (m3 & Hundo & Hrep3 & _);
    [by apply Forall_rev
    |apply Forall_rev; eapply Forall_impl; [exact Hfit|intros r Hr; by apply (fits_grows (rc_sys s1))]
    |by apply Forall_rev|done|done|].
  exists (mkRecoveryManager m3 (read_log_records s2) ∅ (tmp_lsn_cnt s2)). split_and!; [|exact Hrep3|done|done].
  unfold recover. rewrite (bindM_ok _ _ _ _ _ (analyze_run s rs Hnil Hwf Hfile)).
  assert (Hr : redo s1 = (Ok tt, s2)) by (unfold redo, bindM, gets; exact Hredo).
  rewrite (bindM_ok _ _ _ _ _ Hr). unfold undo, bindM, gets. exact Hundo.
Qed.

(** ** Redo without page LSNs *)

Lemma insert_record_at_occupied g rid v r0 :
  heap_inv g -> records g rid = Some r0 ->
  insert_record_at rid v (mkHeapSt g None) = (Err HeapAssertFailed, mkHeapSt g None).
Proof.
  intros Hinv Hr. pose proof (records_Some_is_record _ _ _ Hr) as E.
  unfold insert_record_at, fetch_page_handle, bindM, gets, throw.
  rewrite (is_record_valid_page g rid Hinv E). cbn. unfold is_record in E. by rewrite E.
Qed.

(** C15: Redo is not idempotent: no page LSN is ever set, so
    [is_record_stroed] answers no for every page, and an INSERT record
    whose record already reached the table file (its page was written
    back before the crash) is inserted again into its occupied slot,
    which fails [insert_record]'s assertion and stops recovery. *)
Theorem redo_insert_stored_fails s h v rid name i g r0 :
  log_type_ h = Log.INSERT -> fhs_ (rc_sys s) !! get_tab_name name = Some g ->
  heap_inv g -> records g rid = Some r0 -> 0 <= i ->
  fst (RedoLog (mkLog h (RecPayload v rid name)) i s) = Err (RecTxnErr (TxnHeapErr HeapAssertFailed)).
Proof.
  intros Ht Hg Hinv Hr Hi. unfold RedoLog. cbn [log_hdr log_payload]. rewrite Ht.
  pose proof (is_record_page g rid Hinv (records_Some_is_record _ _ _ Hr)) as Hp.
  rewrite (bindM_ok _ _ _ _ _ (is_record_stroed_false s _ g (page_no rid) i Hg ltac:(lia) Hi)).
  destruct (allocpage_run rid g Hinv) as (g1 & Hrun & Hinv1 & _ & _ & _ & _ & Hrec).
  unfold heap_at, sys_call, with_heap. rewrite Hg.
  rewrite (bindM_ok _ _ _ _ _ Hrun), (insert_record_at_occupied g1 rid v r0 Hinv1) by (by rewrite Hrec).
  done.
Qed.

(** ** Samples *)

Definition tn_t : bytes := [Byte.x74].
Definition rid_a : Rid := mkRid 1 0.
Definition rid_b : Rid := mkRid 1 1.

(** Transaction 1 inserts a record and commits; transaction 2 inserts
    another and the system stops before its COMMIT. *)
Definition log_pre : list LogRecord :=
  [set_lsn (BeginLogRecord 1) 0; set_lsn (InsertLogRecord 1 buf1 rid_a tn_t) 1;
   set_lsn (CommitLogRecord 1) 2].
Definition log_begin : LogRecord := set_lsn (BeginLogRecord 2) 3.
Definition log_ops : list LogRecord := [set_lsn (InsertLogRecord 2 buf1 rid_b tn_t) 4].
Definition log_all : list LogRecord := log_pre ++ log_begin :: log_ops.

Definition sys_of (f : RmFileHandle) (file : bytes) : TxnMgr :=
  mkTxnMgr db_t {["t"%string := f]} ∅ lm_empty (mkLogManager 0 (-1) [] 0 file) ∅ 0.

Definition rec0 : RecoveryManager :=
  mkRecoveryManager (sys_of heap0 (mjoin (serialize <$> log_all))) [] ∅ 0.

Definition db_committed : db := put ∅ "t" rid_a (Some buf1).

Lemma log_all_wf : wf_log log_all.
Proof.
  unfold wf_log, log_all, log_pre, log_ops, log_begin.
  repeat constructor; (unfold len_ok; vm_compute; reflexivity) ||
    (unfold log_wf, header_wf, payload_wf, image_wf, rid_wf, name_wf, in_int32; vm_compute; repeat split; discriminate).
Qed.

Lemma log_all_fits : Forall (fits (rc_sys rec0)) log_all.
Proof.
  unfold log_all, log_pre, log_ops, log_begin.
  repeat constructor; unfold fits, fits_in; cbn; eexists; (split; [reflexivity|]);
    vm_compute; split_and!; try discriminate; repeat constructor; vm_compute; discriminate.
Qed.

Lemma records_empty_heap fd name rs n x : records (empty_heap fd name rs n) x = None.
Proof. unfold records, is_record, page_of. cbn. rewrite lookup_empty. cbn. by rewrite bool_decide_false by set_solver. Qed.

Lemma rep_rec0 : rep (rc_sys rec0) ∅.
Proof.
  intros tab g. cbn. rewrite lookup_singleton_Some. intros [<- <-]. split; [exact heap0_inv|].
  intros x. unfold heap0. by rewrite records_empty_heap, lookup_empty.
Qed.

Lemma recover_discards_loser_witness :
  exists s', recover rec0 = (Ok tt, s') /\ rep (rc_sys s') db_committed /\ undo_list s' = ∅ /\
    read_log_records s' = log_pre ++ log_begin :: log_ops.
Proof.
  apply (recover_discards_loser rec0 ∅ db_committed log_pre log_begin log_ops);
    [reflexivity|reflexivity|exact rep_rec0|reflexivity|exact log_all_wf|exact log_all_fits
    |vm_compute; reflexivity|reflexivity
    |repeat constructor|vm_compute; reflexivity|eexists; vm_compute; reflexivity].
Defined.

Lemma analyze_roundtrip_witness : analyze rec0 = (Ok tt, parsed rec0 log_all).
Proof. apply (analyze_roundtrip rec0 log_all); [reflexivity|exact log_all_wf|reflexivity]. Defined.

Definition db_redone : db := put db_committed "t" rid_b (Some buf1).
Definition rec_parsed : RecoveryManager := parsed rec0 log_all.
Definition rec_redone : RecoveryManager := snd (redo rec_parsed).

Lemma redo_replays_witness :
  exists m', redo rec_parsed = (Ok tt, mkRecoveryManager m' (read_log_records rec_parsed)
                                  (foldl open_txns (undo_list rec_parsed) (read_log_records rec_parsed))
                                  (tmp_lsn_cnt rec_parsed)) /\
    rep m' db_redone /\ frame (rc_sys rec_parsed) m' /\ log_manager_ m' = log_manager_ (rc_sys rec_parsed).
Proof.
  apply (redo_replays rec_parsed ∅ db_redone);
    [exact log_all_wf|exact log_all_fits|exact rep_rec0|vm_compute; reflexivity].
Defined.

Lemma undo_rolls_back_witness :
  exists m', undo rec_redone = (Ok tt, mkRecoveryManager m' (read_log_records rec_redone) ∅ (tmp_lsn_cnt rec_redone)) /\
    rep m' db_committed /\ frame (rc_sys rec_redone) m'.
Proof.
  destruct (redo_from_run log_all 0 rec_parsed ∅ db_redone) as (m2 & Hrun & Hrep2 & Hgr2 & _ & _ & Hpl2);
    [exact log_all_wf|exact log_all_fits|exact rep_rec0|lia|vm_compute; reflexivity|].
  assert (E : rec_redone = mkRecoveryManager m2 log_all (foldl open_txns ∅ log_all) 5).
  { unfold rec_redone, redo, bindM, gets. cbn [fst snd]. change (read_log_records rec_parsed) with log_all.
    rewrite Hrun. reflexivity. }
  rewrite E. apply (undo_rolls_back _ db_redone); cbn [read_log_records rc_sys undo_list].
  - exact log_all_wf.
  - eapply Forall_impl; [exact log_all_fits|intros r Hr; by apply (fits_grows (rc_sys rec_parsed))].
  - exact Hpl2.
  - exact Hrep2.
  - vm_compute. reflexivity.
Defined.

(** The committed insert of transaction 1 had reached the table file. *)
Definition rec_stored : RecoveryManager :=
  mkRecoveryManager (sys_of heap1 (mjoin (serialize <$> log_pre))) [] ∅ 0.

Lemma redo_insert_stored_fails_witness :
  fst (RedoLog (mkLog (log_hdr (set_lsn (InsertLogRecord 1 buf1 rid_a tn_t) 1)) (RecPayload buf1 rid_a tn_t)) 1
         rec_stored) = Err (RecTxnErr (TxnHeapErr HeapAssertFailed)).
Proof.
  apply (redo_insert_stored_fails rec_stored _ buf1 rid_a tn_t 1 heap1 buf1);
    [reflexivity|reflexivity|exact heap1_inv|exact heap1_rid1|lia].
Defined.

(** Recovery of that log stops at the assertion. *)
Lemma recover_stored_fails : fst (recover rec_stored) = Err (RecTxnErr (TxnHeapErr HeapAssertFailed)).
Proof. vm_compute. reflexivity. Qed.
